(** * tiny-autograd: the scalar reverse-mode engine of [engine.py], and [nn.py]

    A shallow embedding of the [Value] class: the Python heap of [Value]
    objects is a store indexed by object identity, every method is a
    computation in a state-and-exception monad over that store, and the
    [_backward] closure a method installs is a record of what it captured.

    Numbers.  A number is a Python [float], idealised as the real number it
    stands for, and an [int] is read as the float of the same value.
    Rounding is outside the model, and so are NaN, the infinities that [+]
    and [*] return beyond the binary64 range (they never raise) and integers
    that no float holds; so are complex numbers ([ComplexResult]).  The
    range itself is inside wherever Python raises on it: [math.exp] and
    [**] raise [OverflowError] when their result rounds to an infinity
    ([float_bound]).  The other exceptions modelled are
    the ones Python raises on the *value* or the *type* of an operand:
    [ZeroDivisionError] of [**] and [/], [TypeError] of arithmetic on a
    non-number, [AssertionError] of the [assert isinstance(...)] statements.

    [nn.py] builds units, layers and perceptrons out of [Value]s.  Its
    methods run in a second monad, which adds the generator behind
    [random.uniform] to the heap, and [ValueError] and [IndexError] to the
    exceptions. *)

From Stdlib Require Import Reals Lra Lia String.
From stdpp Require Import base gmap sets list.

(** ** Python values and exceptions *)

(** [OverflowError] is what [math.exp] and [**] raise on a result out of
    range.  [ComplexResult] is no exception of Python: it marks the one place
    where Python leaves the real numbers and goes on with a complex number
    (see [py_pow]), and the model stops.  [RecursionError] is [build_graph]
    running out of depth. *)
Inductive exn : Type :=
  | AssertionError
  | TypeError
  | ZeroDivisionError
  | OverflowError
  | ComplexResult
  | RecursionError.

Inductive outcome (A : Type) : Type :=
  | Ok (a : A)
  | Raise (e : exn).
Arguments Ok {A} a.
Arguments Raise {A} e.

(** What a [data] field may hold: a number, or an object that is not a number
    ([None]), on which every arithmetic primitive raises [TypeError]. *)
Inductive pyobj : Type :=
  | PNum (r : R)
  | PNone.

Abbreviation node_id := nat.

(** What a caller may pass as the right operand of an operator: a plain
    number, a [Value], or something that is neither. *)
Inductive operand : Type :=
  | ONum (r : R)
  | OValue (v : node_id)
  | ONone.

(** ** Arithmetic primitives of Python on (idealised) numbers *)

Definition as_num (d : pyobj) : outcome R :=
  match d with
  | PNum r => Ok r
  | PNone => Raise TypeError
  end.

(** [Some z] when [w] is the integer [z]. *)
Definition is_integral (w : R) : option Z :=
  let z := Int_part w in
  if Req_dec_T (IZR z) w then Some z else None.

(** The binary64 range.  The largest float is [2^1024 - 2^971]; a result
    whose magnitude is [2^1024 - 2^970] or more rounds to an infinity, and
    the C library then reports a range error. *)
Definition float_bound : R := IZR (2 ^ 1024 - 2 ^ 970).

Definition in_range (r : R) : Prop := (Rabs r < float_bound)%R.

(** What [math.exp] and [**] make of the result [r] of the C library:
    [OverflowError] when it is out of range. *)
Definition ranged (r : R) : outcome R :=
  if Rlt_dec (Rabs r) float_bound then Ok r else Raise OverflowError.

(** [math.exp(x)] *)
Definition math_exp (x : R) : outcome R := ranged (Rtrigo_def.exp x).

(** [v ** w].  A zero base with a negative exponent raises
    [ZeroDivisionError], and with any other exponent gives 1 or 0; an
    integral exponent is repeated multiplication (or its inverse); a
    positive base takes any real exponent; a result out of range raises
    [OverflowError].  A negative base with a non-integral exponent gives a
    complex number in Python: the numbers of this model are real, and it
    stops there with [ComplexResult]. *)
Definition py_pow (v w : R) : outcome R :=
  match is_integral w with
  | Some z =>
      if Req_dec_T v 0
      then (if (z <? 0)%Z then Raise ZeroDivisionError else Ok (powerRZ v z))
      else ranged (powerRZ v z)
  | None =>
      if Rlt_dec 0 v then ranged (Rpower v w)
      else if Req_dec_T v 0
           then (if Rlt_dec w 0 then Raise ZeroDivisionError else Ok 0%R)
           else Raise ComplexResult
  end.

(** [a / b] on numbers. *)
Definition py_div (a b : R) : outcome R :=
  if Req_dec_T b 0 then Raise ZeroDivisionError else Ok (a / b)%R.

(** [max(0, x)]: the second argument wins only when it is strictly larger. *)
Definition py_max0 (x : R) : R :=
  if Rlt_dec 0 x then x else 0%R.

(** [x > 0] used as a number ([True] is 1, [False] is 0). *)
Definition gt0 (x : R) : R :=
  if Rlt_dec 0 x then 1%R else 0%R.

(** ** The [Value] object *)

(** The [_operation] tag (debugging only). *)
Inductive op_tag : Type :=
  | OpLeaf
  | OpLinear
  | OpTanh
  | OpLeakyRelu
  | OpRelu
  | OpSigmoid
  | OpExp
  | OpAdd
  | OpMul
  | OpPow (power : R).

(** The [_backward] closure, as the variables it captured: references to
    [self], [other] and [out], and the locals [data], [alpha], [power]. *)
Inductive closure : Type :=
  | BNone
  | BLinear (self out : node_id)
  | BTanh (self out : node_id) (data : R)
  | BLeakyRelu (self out : node_id) (alpha : R)
  | BRelu (self out : node_id) (data : R)
  | BSigmoid (self out : node_id) (data : R)
  | BExp (self out : node_id) (data : R)
  | BAdd (self other out : node_id)
  | BMul (self other out : node_id)
  | BPow (self out : node_id) (power : R).

Record Value_obj : Type := mkValue {
  data : pyobj;
  grad : R;
  label : string;
  _children : list node_id;
  _backward : closure;
  _operation : op_tag;
}.

Definition with_grad (g : R) (nd : Value_obj) : Value_obj :=
  mkValue (data nd) g (label nd) (_children nd) (_backward nd) (_operation nd).

Definition with_backward (b : closure) (nd : Value_obj) : Value_obj :=
  mkValue (data nd) (grad nd) (label nd) (_children nd) b (_operation nd).

(** The heap of [Value] objects: the identity of an object is its index, and
    a new object takes the next index. *)
Abbreviation store := (list Value_obj).

(** Python has no dangling reference; here a number that is not the index
    of an object reads as this blank object, and writes through it are
    dropped. *)
Definition blank : Value_obj := mkValue PNone 0%R EmptyString [] BNone OpLeaf.

#[global] Instance Value_obj_inhabited : Inhabited Value_obj := populate blank.

(** Field reads through a reference. *)
Definition deref (σ : store) (v : node_id) : Value_obj := σ !!! v.

(** ** The monad: a store threaded through, and exceptions *)

Definition M (A : Type) : Type := store → outcome A * store.

Definition ret {A} (a : A) : M A := fun σ => (Ok a, σ).

Definition raise {A} (e : exn) : M A := fun σ => (Raise e, σ).

Definition bind {A B} (m : M A) (k : A → M B) : M B :=
  fun σ =>
    match m σ with
    | (Ok a, σ') => k a σ'
    | (Raise e, σ') => (Raise e, σ')
    end.

Notation "x <- m ;; k" := (bind m (fun x => k))
  (at level 100, m at next level, right associativity).
Notation "m ;;; k" := (bind m (fun _ => k))
  (at level 100, right associativity).

Definition lift {A} (o : outcome A) : M A := fun σ => (o, σ).

Definition py_assert (b : bool) : M unit :=
  if b then ret tt else raise AssertionError.

Definition get (v : node_id) : M Value_obj := fun σ => (Ok (deref σ v), σ).

Definition get_data (v : node_id) : M pyobj := fun σ => (Ok (data (deref σ v)), σ).

Definition get_num (v : node_id) : M R := fun σ => (as_num (data (deref σ v)), σ).

Definition get_grad (v : node_id) : M R := fun σ => (Ok (grad (deref σ v)), σ).

(** [v.grad = g] *)
Definition set_grad (v : node_id) (g : R) : M unit :=
  fun σ => (Ok tt, alter (with_grad g) v σ).

(** [v.grad += d] *)
Definition add_grad (v : node_id) (d : R) : M unit :=
  fun σ => (Ok tt, alter (fun nd => with_grad (grad nd + d) nd) v σ).

(** [v._backward = b] *)
Definition set_backward (v : node_id) (b : closure) : M unit :=
  fun σ => (Ok tt, alter (with_backward b) v σ).

(** [Value(data, _children, _operation)]: [__init__] sets [grad] to 0.0 and
    [_backward] to the no-op lambda; the new object's reference is returned. *)
Definition Value (d : pyobj) (ch : list node_id) (op : op_tag) : M node_id :=
  fun σ => (Ok (length σ), σ ++ [mkValue d 0%R EmptyString ch BNone op]).

(** ** Activation functions *)

Definition linear (self : node_id) : M node_id :=
  d <- get_data self ;;
  out <- Value d [self] OpLinear ;;
  set_backward out (BLinear self out) ;;;
  ret out.

Definition tanh (self : node_id) : M node_id :=
  x <- get_num self ;;
  let data := Rtrigo_def.tanh x in
  out <- Value (PNum data) [self] OpTanh ;;
  set_backward out (BTanh self out data) ;;;
  ret out.

Definition leaky_relu (self : node_id) (alpha : R) : M node_id :=
  x <- get_num self ;;
  let data := if Rlt_dec 0 x then x else (x * alpha)%R in
  out <- Value (PNum data) [self] OpLeakyRelu ;;
  set_backward out (BLeakyRelu self out alpha) ;;;
  ret out.

Definition relu (self : node_id) : M node_id :=
  x <- get_num self ;;
  let data := py_max0 x in
  out <- Value (PNum data) [self] OpRelu ;;
  set_backward out (BRelu self out data) ;;;
  ret out.

Definition sigmoid (self : node_id) : M node_id :=
  x <- get_num self ;;
  e <- lift (math_exp (- x)) ;;
  data <- lift (py_div 1 (1 + e)) ;;
  out <- Value (PNum data) [self] OpSigmoid ;;
  set_backward out (BSigmoid self out data) ;;;
  ret out.

Definition exp (self : node_id) : M node_id :=
  x <- get_num self ;;
  data <- lift (math_exp x) ;;
  out <- Value (PNum data) [self] OpExp ;;
  set_backward out (BExp self out data) ;;;
  ret out.

(** ** Basic math operations *)

(** [other if isinstance(other, Value) else Value(other)] *)
Definition promote (other : operand) : M node_id :=
  match other with
  | OValue v => ret v
  | ONum r => Value (PNum r) [] OpLeaf
  | ONone => Value PNone [] OpLeaf
  end.

(** [isinstance(other, (int, float))] *)
Definition is_number (other : operand) : bool :=
  match other with ONum _ => true | _ => false end.

(** [isinstance(other, (int, float, Value))] *)
Definition is_number_or_Value (other : operand) : bool :=
  match other with ONum _ | OValue _ => true | ONone => false end.

Definition __add__ (self : node_id) (other : operand) : M node_id :=
  other <- promote other ;;
  a <- get_num self ;;
  b <- get_num other ;;
  out <- Value (PNum (a + b)) [self; other] OpAdd ;;
  set_backward out (BAdd self other out) ;;;
  ret out.

Definition __mul__ (self : node_id) (other : operand) : M node_id :=
  other <- promote other ;;
  a <- get_num self ;;
  b <- get_num other ;;
  out <- Value (PNum (a * b)) [self; other] OpMul ;;
  set_backward out (BMul self other out) ;;;
  ret out.

Definition __pow__ (self : node_id) (power : operand) : M node_id :=
  py_assert (is_number power) ;;;
  match power with
  | ONum p =>
      x <- get_num self ;;
      data <- lift (py_pow x p) ;;
      out <- Value (PNum data) [self] (OpPow p) ;;
      set_backward out (BPow self out p) ;;;
      ret out
  | _ => raise AssertionError
  end.

Definition __radd__ (self : node_id) (other : operand) : M node_id :=
  py_assert (is_number other) ;;;
  __add__ self other.

Definition __rmul__ (self : node_id) (other : operand) : M node_id :=
  py_assert (is_number other) ;;;
  __mul__ self other.

Definition __neg__ (self : node_id) : M node_id :=
  __mul__ self (ONum (-1)).

(** [Value(other) if isinstance(other, (int, float)) else other], after the
    assertion has excluded everything but numbers and [Value]s. *)
Definition promote_number (other : operand) : M node_id :=
  match other with
  | ONum r => Value (PNum r) [] OpLeaf
  | OValue v => ret v
  | ONone => raise AssertionError
  end.

Definition __sub__ (self : node_id) (other : operand) : M node_id :=
  py_assert (is_number_or_Value other) ;;;
  other <- promote_number other ;;
  n <- __neg__ other ;;
  __add__ self (OValue n).

Definition __rsub__ (self : node_id) (other : operand) : M node_id :=
  __sub__ self other.

Definition __truediv__ (self : node_id) (other : operand) : M node_id :=
  py_assert (is_number_or_Value other) ;;;
  other <- promote_number other ;;
  p <- __pow__ other (ONum (-1)) ;;
  __mul__ self (OValue p).

(** ** Python's dispatch of a binary operator *)

Inductive binop : Type := Add | Sub | Mul | TrueDiv.

(** [a op other] with [a] a [Value]: the method of the left operand. *)
Definition binop_left (op : binop) (a : node_id) (other : operand) : M node_id :=
  match op with
  | Add => __add__ a other
  | Sub => __sub__ a other
  | Mul => __mul__ a other
  | TrueDiv => __truediv__ a other
  end.

(** [other op a] with [other] not a [Value]: the left operand's own method
    does not know [Value] and returns [NotImplemented], so Python calls the
    reflected method of [a]; [Value] defines [__radd__], [__rsub__] and
    [__rmul__] and no [__rtruediv__], for which Python raises [TypeError]. *)
Definition binop_right (op : binop) (other : operand) (a : node_id) : M node_id :=
  match op with
  | Add => __radd__ a other
  | Sub => __rsub__ a other
  | Mul => __rmul__ a other
  | TrueDiv => raise TypeError
  end.

(** ** Backward propagation *)

(** Calling a [_backward] closure. *)
Definition call_closure (b : closure) : M unit :=
  match b with
  | BNone => ret tt
  | BLinear self out =>
      g <- get_grad out ;;
      add_grad self (g * 1)
  | BTanh self out data =>
      g <- get_grad out ;;
      sq <- lift (py_pow data 2) ;;
      add_grad self (g * (1 - sq))
  | BLeakyRelu self out alpha =>
      g <- get_grad out ;;
      x <- get_num self ;;
      add_grad self (g * (if Rlt_dec 0 x then 1 else alpha))
  | BRelu self out data =>
      g <- get_grad out ;;
      add_grad self (g * gt0 data)
  | BSigmoid self out data =>
      g <- get_grad out ;;
      add_grad self (g * data * (1 - data))
  | BExp self out data =>
      g <- get_grad out ;;
      add_grad self (g * data)
  | BAdd self other out =>
      g <- get_grad out ;;
      add_grad self (g * 1) ;;;
      g' <- get_grad out ;;
      add_grad other (g' * 1)
  | BMul self other out =>
      g <- get_grad out ;;
      y <- get_num other ;;
      add_grad self (g * y) ;;;
      g' <- get_grad out ;;
      x <- get_num self ;;
      add_grad other (g' * x)
  | BPow self out power =>
      g <- get_grad out ;;
      x <- get_num self ;;
      p <- lift (py_pow x (power - 1)) ;;
      add_grad self (g * power * p)
  end.

(** [n._backward()] *)
Definition local_backward (n : node_id) : M unit :=
  nd <- get n ;;
  call_closure (_backward nd).

(** [for n in order: n._backward()] *)
Fixpoint run_backwards (order : list node_id) : M unit :=
  match order with
  | [] => ret tt
  | n :: rest => local_backward n ;;; run_backwards rest
  end.

(** The two locals of [backward] that [build_graph] mutates: the [visited]
    set and the [nodes] list. *)
Definition dfs_state : Type := gset node_id * list node_id.

Fixpoint visit_children (visit : node_id → dfs_state → option dfs_state)
    (cs : list node_id) (st : dfs_state) : option dfs_state :=
  match cs with
  | [] => Some st
  | c :: cs' =>
      match visit c st with
      | Some st' => visit_children visit cs' st'
      | None => None
      end
  end.

(** The nested function [build_graph]; [fuel] bounds the depth of the
    recursion, and [None] is running out of it.  On a well-formed store the
    depth never exceeds the number of objects ([topo_spec]); the limit that
    Python itself puts on the depth of recursion is not modelled. *)
Fixpoint build_graph (fuel : nat) (σ : store) (v : node_id) (st : dfs_state)
    : option dfs_state :=
  match fuel with
  | O => None
  | S fuel' =>
      if decide (v ∈ st.1) then Some st
      else
        match visit_children (build_graph fuel' σ) (_children (deref σ v))
                ({[v]} ∪ st.1, st.2) with
        | Some (visited, nodes) => Some (visited, nodes ++ [v])
        | None => None
        end
  end.

(** The post-order list [nodes] that [build_graph(self)] leaves. *)
Definition topo (σ : store) (self : node_id) : option (list node_id) :=
  snd <$> build_graph (S (length σ)) σ self (∅, []).

(** [self.backward()]: the traversal, the seed [self.grad = 1.0], and the
    loop over [reversed(nodes)]. *)
Definition backward (self : node_id) : M unit :=
  fun σ =>
    match topo σ self with
    | Some nodes => (set_grad self 1 ;;; run_backwards (reverse nodes)) σ
    | None => (Raise RecursionError, σ)
    end.

(** ** Well-formed stores *)

(** The store a computation leaves, and what it returns or raises. *)
Definition exec {A} (m : M A) (σ : store) : store := snd (m σ).

Definition result {A} (m : M A) (σ : store) : outcome A := fst (m σ).

Definition children_of (σ : store) (v : node_id) : list node_id :=
  _children (deref σ v).

(** [reach σ v w]: [w] is [v] or is reachable from it through [_children]. *)
Inductive reach (σ : store) : node_id → node_id → Prop :=
  | reach_refl v : reach σ v v
  | reach_step v c w : c ∈ children_of σ v → reach σ c w → reach σ v w.

(** A closure installed on object [i] with children [ch] reads [out = i] and
    writes to [self] and [other], which are the children; the [data] that the
    closure of [tanh] captured is a result of [math.tanh], between -1 and 1. *)
Definition closure_ok (i : node_id) (ch : list node_id) (b : closure) : Prop :=
  match b with
  | BNone => True
  | BTanh s o data => (o = i ∧ ch = [s]) ∧ (-1 <= data <= 1)%R
  | BLinear s o | BLeakyRelu s o _ | BRelu s o _
  | BSigmoid s o _ | BExp s o _ | BPow s o _ => o = i ∧ ch = [s]
  | BAdd s t o | BMul s t o => o = i ∧ ch = [s; t]
  end.

(** Every object was built after its children (so the graph is acyclic), and
    carries the closure its constructor installed.  The empty store is
    well-formed and every constructor keeps a store so ([wf_nil],
    [construct_built]). *)
Definition wf (σ : store) : Prop :=
  ∀ i nd, σ !! i = Some nd →
    Forall (λ c, c < i) (_children nd) ∧ closure_ok i (_children nd) (_backward nd).

(** Post-order: every child of a listed object is listed before it. *)
Definition postorder (σ : store) (nodes : list node_id) : Prop :=
  ∀ i x c, nodes !! i = Some x → c ∈ children_of σ x →
    ∃ j, j < i ∧ nodes !! j = Some c.

(** The invariant of the traversal between two calls of [build_graph]. *)
Definition dfs_inv (σ : store) (st : dfs_state) : Prop :=
  NoDup st.2 ∧ (∀ x, x ∈ st.2 → x ∈ st.1) ∧ postorder σ st.2.

(** What one call (or a run of calls) adds to the state. *)
Definition dfs_grows (σ : store) (st st' : dfs_state) (new : list node_id) : Prop :=
  st'.2 = st.2 ++ new ∧ dfs_inv σ st' ∧
  (∀ x, x ∈ st.1 → x ∈ st'.1) ∧ (∀ x, x ∈ st'.1 → x ∈ st.1 ∨ x ∈ new).

(** A leaf as [Value(d)] makes it. *)
Definition leaf (d : pyobj) : Value_obj := mkValue d 0 EmptyString [] BNone OpLeaf.

(** ** Stores that differ in [grad] only *)

(** [grads_changed T σ σ']: [σ'] is [σ] except for the [grad] field of the
    objects in [T]. *)
Definition grads_changed (T : node_id → Prop) (σ σ' : store) : Prop :=
  length σ' = length σ ∧
  ∀ i, ∃ g, deref σ' i = with_grad g (deref σ i) ∧ (¬ T i → g = grad (deref σ i)).

(** ** Computations that keep a reflexive, transitive relation *)

Definition preserves (P : store → store → Prop) {A} (m : M A) : Prop :=
  ∀ σ, P σ (exec m σ).

(** ** Two runs from stores that differ in one [grad] *)

(** [shifted n c σ τ]: [τ] is [σ] with [c] added to the [grad] of [n]; what
    the [grad] of the objects built before [n] is, is left open. *)
Definition shifted (n : node_id) (c : R) (σ τ : store) : Prop :=
  length τ = length σ ∧
  ∀ i, ∃ g, deref τ i = with_grad g (deref σ i) ∧
    (n < i → g = grad (deref σ i)) ∧ (i = n → g = (grad (deref σ i) + c)%R).

(** Two computations that stay in step: from related stores they raise the
    same exception or return related values, in related stores. *)
Definition in_step {A} (Q : store → store → Prop) (RA : A → A → Prop)
    (m m' : M A) : Prop :=
  ∀ σ τ, Q σ τ →
    match m σ, m' τ with
    | (Ok a, σ'), (Ok a', τ') => RA a a' ∧ Q σ' τ'
    | (Raise e, σ'), (Raise e', τ') => e = e' ∧ Q σ' τ'
    | _, _ => False
    end.

(** ** The constructors *)

(** Every call that builds objects. *)
Inductive method : Type :=
  | MValue (d : pyobj) (ch : list node_id) (op : op_tag)
  | MLinear (self : node_id)
  | MTanh (self : node_id)
  | MLeakyRelu (self : node_id) (alpha : R)
  | MRelu (self : node_id)
  | MSigmoid (self : node_id)
  | MExp (self : node_id)
  | MAdd (self : node_id) (other : operand)
  | MMul (self : node_id) (other : operand)
  | MPow (self : node_id) (power : operand)
  | MRadd (self : node_id) (other : operand)
  | MRmul (self : node_id) (other : operand)
  | MNeg (self : node_id)
  | MSub (self : node_id) (other : operand)
  | MRsub (self : node_id) (other : operand)
  | MTruediv (self : node_id) (other : operand).

Definition construct (c : method) : M node_id :=
  match c with
  | MValue d ch op => Value d ch op
  | MLinear self => linear self
  | MTanh self => tanh self
  | MLeakyRelu self alpha => leaky_relu self alpha
  | MRelu self => relu self
  | MSigmoid self => sigmoid self
  | MExp self => exp self
  | MAdd self other => __add__ self other
  | MMul self other => __mul__ self other
  | MPow self power => __pow__ self power
  | MRadd self other => __radd__ self other
  | MRmul self other => __rmul__ self other
  | MNeg self => __neg__ self
  | MSub self other => __sub__ self other
  | MRsub self other => __rsub__ self other
  | MTruediv self other => __truediv__ self other
  end.

(** [grads_kept σ σ']: the objects of [σ] have the [grad] they had, and the
    objects added since have [grad] 0. *)
Definition grads_kept (σ σ' : store) : Prop :=
  length σ ≤ length σ' ∧
  (∀ i, i < length σ → grad (deref σ' i) = grad (deref σ i)) ∧
  (∀ i, length σ ≤ i → grad (deref σ' i) = 0%R).

(** The references a call passes denote objects of the store. *)
Definition operand_ok (σ : store) (other : operand) : Prop :=
  match other with
  | OValue v => v < length σ
  | _ => True
  end.

Definition method_ok (σ : store) (c : method) : Prop :=
  match c with
  | MValue _ ch _ => Forall (λ c, c < length σ) ch
  | MLinear self | MTanh self | MLeakyRelu self _ | MRelu self | MSigmoid self
  | MExp self | MNeg self => self < length σ
  | MAdd self other | MMul self other | MPow self other | MRadd self other
  | MRmul self other | MSub self other | MRsub self other
  | MTruediv self other => self < length σ ∧ operand_ok σ other
  end.

(** What a constructor leaves: a well-formed store that has only grown, and
    on return a reference into it. *)
Definition built (σ : store) (p : outcome node_id * store) : Prop :=
  wf p.2 ∧ length σ ≤ length p.2 ∧ ∀ v, p.1 = Ok v → v < length p.2.

(** What a call of [z.backward()] in store [σ] accumulates into [x]: the
    [grad] it leaves in [x] when [x.grad] is 0 at the call. *)
Definition contribution (σ : store) (z x : node_id) : R :=
  grad (deref (exec (backward z) (exec (set_grad x 0) σ)) x).

(** ** Stores used in examples *)

(** [x = Value(2.0); y = Value(3.0); z = (x + y) * x]: the diamond of the
    test suite, in which [x] is used twice. *)
Definition diamond : store :=
  [leaf (PNum 2); leaf (PNum 3);
   mkValue (PNum (2 + 3)) 0 EmptyString [0; 1] (BAdd 0 1 2) OpAdd;
   mkValue (PNum ((2 + 3) * 2)) 0 EmptyString [2; 0] (BMul 2 0 3) OpMul].

(** Two leaves, holding 1 and 0. *)
Definition one_and_zero : store := [leaf (PNum 1); leaf (PNum 0)].

(** Two leaves, holding 1000 and 0. *)
Definition thousand_and_zero : store := [leaf (PNum 1000); leaf (PNum 0)].

(** [2.0 ** -600]: its inverse [2^600] is in range, the square of its
    inverse, [2^1200], is not.  Two leaves, holding 1 and that number. *)
Definition tiny : R := (/ 2 ^ 600)%R.

Definition one_and_tiny : store := [leaf (PNum 1); leaf (PNum tiny)].

(** ** The local derivatives, read as a table *)

(** The number a [data] field holds (0 when it holds none), and the value
    of a power (0 when it raises): the closures below are only evaluated
    where they returned. *)
Definition num_of (d : pyobj) : R :=
  match d with PNum r => r | PNone => 0%R end.

Definition pow_of (x w : R) : R :=
  match py_pow x w with Ok q => q | Raise _ => 0%R end.

(** What the closure [b], called when [out.grad] is [g], adds to the [grad]
    of [t]: the upstream gradient times the local derivative, for each
    operand that is [t]. *)
Definition local_delta (σ : store) (b : closure) (g : R) (t : node_id) : R :=
  let to (s : node_id) (d : R) : R := if decide (s = t) then d else 0%R in
  match b with
  | BNone => 0
  | BLinear s _ => to s (g * 1)
  | BTanh s _ d => to s (g * (1 - d ^ 2))
  | BLeakyRelu s _ alpha =>
      to s (g * (if Rlt_dec 0 (num_of (data (deref σ s))) then 1 else alpha))
  | BRelu s _ d => to s (g * gt0 d)
  | BSigmoid s _ d => to s (g * d * (1 - d))
  | BExp s _ d => to s (g * d)
  | BAdd s o _ => to s (g * 1) + to o (g * 1)
  | BMul s o _ =>
      to s (g * num_of (data (deref σ o))) + to o (g * num_of (data (deref σ s)))
  | BPow s _ p => to s (g * p * pow_of (num_of (data (deref σ s))) (p - 1))
  end%R.

Definition Rsum (l : list R) : R := foldr Rplus 0%R l.

(** The sum, over the objects of [order], of what the closure of each adds
    to [t] when called with the [grad] the object has in [σ']. *)
Definition adjoint_sum (σ σ' : store) (order : list node_id) (t : node_id) : R :=
  Rsum ((λ m, local_delta σ (_backward (deref σ m)) (grad (deref σ' m)) t) <$> order).


(** ** What [-] and [/] build *)

(** The objects [a - b] adds to [σ] when [a] holds [x] and [b] holds [y]:
    a leaf for [-1], the product of [b] and that leaf, and the sum of [a]
    and that product ([sub_Value_run]). *)
Definition sub_nodes (σ : store) (a b : node_id) (x y : R) : list Value_obj :=
  [leaf (PNum (-1));
   mkValue (PNum (y * -1)) 0 EmptyString [b; length σ]
     (BMul b (length σ) (S (length σ))) OpMul;
   mkValue (PNum (x + y * -1)) 0 EmptyString [a; S (length σ)]
     (BAdd a (S (length σ)) (S (S (length σ)))) OpAdd].

(** The objects [a / b] adds: the power [-1] of [b], and the product of [a]
    and that power ([truediv_Value_run]). *)
Definition truediv_nodes (σ : store) (a b : node_id) (x y : R) : list Value_obj :=
  [mkValue (PNum (/ y)) 0 EmptyString [b] (BPow b (length σ) (-1)) (OpPow (-1));
   mkValue (PNum (x * / y)) 0 EmptyString [a; length σ]
     (BMul a (length σ) (S (length σ))) OpMul].

(** ** One operation as a function of a real number *)

(** [a = Value(x); y = f(a)]: the number [y.data] holds, and what [a.grad]
    holds after [y.backward()] (0 where a step raises). *)
Definition forward_of (f : node_id → M node_id) (x : R) : R :=
  match f 0 [leaf (PNum x)] with
  | (Ok y, σ) => num_of (data (deref σ y))
  | (Raise _, _) => 0%R
  end.

Definition gradient_of (f : node_id → M node_id) (x : R) : R :=
  match f 0 [leaf (PNum x)] with
  | (Ok y, σ) => grad (deref (exec (backward y) σ) 0)
  | (Raise _, _) => 0%R
  end.

(** * [nn.py]: units, layers and multi-layer perceptrons over [Value]

    The module raises two exceptions of its own, besides what the engine
    raises; it draws the initial parameters from [random.uniform(-1, 1)].
    The generator is the stream of the numbers it returns and the count of
    those drawn so far. *)

Inductive nn_exn : Type :=
  | EngineError (e : exn)
  | ValueError
  | IndexError.

Inductive nn_outcome (A : Type) : Type :=
  | Return (a : A)
  | Throw (e : nn_exn).
Arguments Return {A} a.
Arguments Throw {A} e.

Record world : Type := mkWorld {
  heap : store;
  random : nat → R;
  drawn : nat;
}.

Definition NN (A : Type) : Type := world → nn_outcome A * world.

Definition nn_ret {A} (a : A) : NN A := fun ω => (Return a, ω).

Definition nn_raise {A} (e : nn_exn) : NN A := fun ω => (Throw e, ω).

Definition nn_bind {A B} (m : NN A) (k : A → NN B) : NN B :=
  fun ω =>
    match m ω with
    | (Return a, ω') => k a ω'
    | (Throw e, ω') => (Throw e, ω')
    end.

Notation "x <~ m ;; k" := (nn_bind m (fun x => k))
  (at level 100, m at next level, right associativity).

(** A computation of the engine, run on the heap. *)
Definition engine {A} (m : M A) : NN A :=
  fun ω =>
    match m (heap ω) with
    | (Ok a, σ) => (Return a, mkWorld σ (random ω) (drawn ω))
    | (Raise e, σ) => (Throw (EngineError e), mkWorld σ (random ω) (drawn ω))
    end.

(** [random.uniform(-1, 1)] *)
Definition uniform : NN R :=
  fun ω => (Return (random ω (drawn ω)), mkWorld (heap ω) (random ω) (S (drawn ω))).

(** [Value(random.uniform(-1, 1))] *)
Definition random_Value : NN node_id :=
  r <~ uniform ;;
  engine (Value (PNum r) [] OpLeaf).

(** [[f() for _ in range(n)]] *)
Fixpoint times {A} (n : nat) (f : NN A) : NN (list A) :=
  match n with
  | O => nn_ret []
  | S n' =>
      a <~ f ;;
      rest <~ times n' f ;;
      nn_ret (a :: rest)
  end.

(** [[f(a) for a in l]] *)
Fixpoint for_each {A B} (f : A → NN B) (l : list A) : NN (list B) :=
  match l with
  | [] => nn_ret []
  | a :: l' =>
      b <~ f a ;;
      rest <~ for_each f l' ;;
      nn_ret (b :: rest)
  end.

(** [[wi * xi for wi, xi in zip(self.w, x)]] *)
Fixpoint products (wx : list (node_id * operand)) : M (list node_id) :=
  match wx with
  | [] => ret []
  | (wi, xi) :: rest =>
      p <- __mul__ wi xi ;;
      ps <- products rest ;;
      ret (p :: ps)
  end.

(** [sum(items, start)]: the running total starts as [start] and each item
    is added to it by the total's own [__add__]. *)
Fixpoint py_sum (items : list node_id) (start : node_id) : M node_id :=
  match items with
  | [] => ret start
  | item :: rest =>
      total <- __add__ start (OValue item) ;;
      py_sum rest total
  end.

Module Unit.

Record t : Type := mk {
  w : list node_id;
  b : node_id;
  activation : string;
}.

(** [n_input] is a count: [range] of a negative number is empty as is
    [range(0)]. *)
Definition __init__ (n_input : nat) (activation : string) : NN t :=
  w <~ times n_input random_Value ;;
  b <~ random_Value ;;
  nn_ret (mk w b activation).

Definition __call__ (self : t) (x : list operand) : NN node_id :=
  z <~ engine (ps <- products (zip (w self) x) ;; py_sum ps (b self)) ;;
  if String.eqb (activation self) "linear" then engine (linear z)
  else if String.eqb (activation self) "relu" then engine (relu z)
  else if String.eqb (activation self) "leaky_relu" then engine (leaky_relu z (1 / 100))
  else if String.eqb (activation self) "sigmoid" then engine (sigmoid z)
  else if String.eqb (activation self) "tanh" then engine (tanh z)
  else nn_raise ValueError.

Definition params (self : t) : list node_id := w self ++ [b self].

End Unit.

Module Layer.

Record t : Type := mk {
  units : list Unit.t;
  activation : string;
}.

Definition __init__ (n_input n_output : nat) (activation : string) : NN t :=
  units <~ times n_output (Unit.__init__ n_input activation) ;;
  nn_ret (mk units activation).

Definition __call__ (self : t) (x : list operand) : NN (list node_id) :=
  for_each (fun u => Unit.__call__ u x) (units self).

(** [[p for u in self.units for p in u.params()]] *)
Definition params (self : t) : list node_id :=
  concat (Unit.params <$> units self).

End Layer.

Module MLP.

Record t : Type := mk {
  activations : list string;
  layers : list Layer.t;
}.

(** [l[i]] *)
Definition index {A} (l : list A) (i : nat) : NN A :=
  match l !! i with
  | Some a => nn_ret a
  | None => nn_raise IndexError
  end.

(** [activations or ['linear'] * len(layers)]: [None] and the empty list are
    false. *)
Definition activations_or_linear (activations : option (list string))
    (layers : list nat) : list string :=
  match activations with
  | Some (a :: rest) => a :: rest
  | _ => replicate (length layers) "linear"%string
  end.

Definition __init__ (n_input : nat) (layers : list nat)
    (activations : option (list string)) : NN t :=
  let sizes := n_input :: layers in
  let activations := activations_or_linear activations layers in
  layers <~ for_each (fun i =>
              n_in <~ index sizes i ;;
              n_out <~ index sizes (i + 1) ;;
              act <~ index activations i ;;
              Layer.__init__ n_in n_out act)
            (seq 0 (length layers)) ;;
  nn_ret (mk activations layers).

(** [for layer in self.layers: x = layer(x)] *)
Fixpoint through (layers : list Layer.t) (x : list operand) : NN (list operand) :=
  match layers with
  | [] => nn_ret x
  | layer :: rest =>
      out <~ Layer.__call__ layer x ;;
      through rest (OValue <$> out)
  end.

Definition __call__ (self : t) (x : list operand) : NN (list operand) :=
  through (layers self) x.

Definition params (self : t) : list node_id :=
  concat (Layer.params <$> layers self).

End MLP.

(** ** What a unit computes *)

(** The object [v] of [σ] holds the number [r]; an operand is the number
    [r] or an object holding it. *)
Definition holds (σ : store) (v : node_id) (r : R) : Prop :=
  v < length σ ∧ data (deref σ v) = PNum r.

Definition operand_holds (σ : store) (o : operand) (r : R) : Prop :=
  match o with
  | ONum q => q = r
  | OValue v => holds σ v r
  | ONone => False
  end.

(** The running total of [sum]: the bias, then one product after the other
    added on the right. *)
Definition weighted_sum (bias : R) (pairs : list (R * R)) : R :=
  fold_left (fun total p => (total + p.1 * p.2)%R) pairs bias.

(** The value each activation name of [Unit.__call__] gives on [z]: there
    is none ([None]) for ['sigmoid'] where [math.exp(-z)] is out of range,
    and for every other name. *)
Definition activation_value (name : string) (z : R) : option R :=
  if String.eqb name "linear" then Some z
  else if String.eqb name "relu" then Some (py_max0 z)
  else if String.eqb name "leaky_relu"
       then Some (if Rlt_dec 0 z then z else z * (1 / 100))%R
  else if String.eqb name "sigmoid"
       then match math_exp (- z) with
            | Ok e => Some (1 / (1 + e))%R
            | Raise _ => None
            end
  else if String.eqb name "tanh" then Some (Rtrigo_def.tanh z)
  else None.

(** The leaves [n] calls of [Value(random.uniform(-1, 1))] add. *)
Definition random_leaves (ω : world) (n : nat) : list Value_obj :=
  (fun i => leaf (PNum (random ω (drawn ω + i)))) <$> seq 0 n.

(** The number of parameters of a perceptron: per layer, one weight per
    input and a bias for each unit. *)
Fixpoint param_count (n_input : nat) (layers : list nat) : nat :=
  match layers with
  | [] => 0
  | n_output :: rest => n_output * (n_input + 1) + param_count n_output rest
  end.

(** The names [Unit.__call__] knows. *)
Definition known_activation (name : string) : Prop :=
  name ∈ ["linear"; "relu"; "leaky_relu"; "sigmoid"; "tanh"]%string.

(** An operand that is a number or an object holding one; a unit whose
    weights and bias hold numbers and whose activation name is known. *)
Definition number_operand (σ : store) (o : operand) : Prop :=
  ∃ r, operand_holds σ o r.

Definition unit_ready (σ : store) (u : Unit.t) : Prop :=
  Forall (fun v => ∃ r, holds σ v r) (Unit.w u) ∧
  (∃ r, holds σ (Unit.b u) r) ∧
  known_activation (Unit.activation u).

(** A layer that has a unit with the activation ['sigmoid'], the one
    activation that can raise on a number. *)
Definition sigmoid_layer (layer : Layer.t) : Prop :=
  Exists (λ u, Unit.activation u = "sigmoid"%string) (Layer.units layer).

(** The length of what a perceptron returns: the number of units of its
    last layer, or the length of the input when it has no layer. *)
Definition output_length (layers : list Layer.t) (n_input : nat) : nat :=
  match last layers with
  | Some layer => length (Layer.units layer)
  | None => n_input
  end.

(** ** The graph of one call of a unit on plain numbers *)

(** The objects the comprehension [[wi * xi ...]] adds, from a heap of [s]
    objects, for weights [wi] holding [a] and numbers [x]: a leaf for each
    number, then its product with the weight. *)
Fixpoint product_nodes (s : nat) (wx : list (node_id * R * R)) : list Value_obj :=
  match wx with
  | [] => []
  | (wi, a, x) :: rest =>
      leaf (PNum x)
      :: mkValue (PNum (a * x)) 0 EmptyString [wi; s] (BMul wi s (S s)) OpMul
      :: product_nodes (S (S s)) rest
  end.

(** The objects [sum] adds, from a heap of [s] objects, when the running
    total is the object [start] holding [total]: one sum per item [p]
    holding [v]. *)
Fixpoint sum_nodes (s : nat) (start : node_id) (total : R)
    (items : list (node_id * R)) : list Value_obj :=
  match items with
  | [] => []
  | (p, v) :: rest =>
      mkValue (PNum (total + v)) 0 EmptyString [start; p] (BAdd start p s) OpAdd
      :: sum_nodes (S s) s (total + v) rest
  end.

(** The factor each activation's closure multiplies [out.grad] by, for an
    input holding [z]. *)
Definition activation_slope (name : string) (z : R) : option R :=
  if String.eqb name "linear" then Some 1%R
  else if String.eqb name "relu" then Some (gt0 (py_max0 z))
  else if String.eqb name "leaky_relu" then Some (if Rlt_dec 0 z then 1 else 1 / 100)%R
  else if String.eqb name "sigmoid"
       then Some (1 / (1 + Rtrigo_def.exp (- z)) * (1 - 1 / (1 + Rtrigo_def.exp (- z))))%R
  else if String.eqb name "tanh" then Some (1 - Rtrigo_def.tanh z ^ 2)%R
  else None.

(** ** Values used in examples *)

(** A heap with the leaves 1 and 0, and a generator that returns 1/2 every
    time. *)
Definition example_world : world := mkWorld one_and_zero (fun _ => (1 / 2)%R) 0.

(** A unit with the weight 1 (object 0) and the bias 0 (object 1). *)
Definition example_unit (activation : string) : Unit.t := Unit.mk [0] 1 activation.

(** * Store lemmas *)

Lemma deref_lookup (σ : store) i nd : σ !! i = Some nd → deref σ i = nd.
Proof. intros H. unfold deref. by apply list_lookup_total_correct. Qed.

Lemma lookup_deref (σ : store) i : i < length σ → σ !! i = Some (deref σ i).
Proof. intros H. unfold deref. by apply list_lookup_lookup_total_lt. Qed.

Lemma deref_dangling (σ : store) i : length σ ≤ i → deref σ i = blank.
Proof.
  intros H. unfold deref. rewrite list_lookup_total_alt.
  by rewrite (lookup_ge_None_2 σ i H).
Qed.

Lemma with_grad_same nd : with_grad (grad nd) nd = nd.
Proof. by destruct nd. Qed.

Lemma wf_children_lt σ v c : wf σ → c ∈ children_of σ v → c < v.
Proof.
  intros Hwf Hc. unfold children_of in Hc.
  destruct (decide (v < length σ)) as [Hlt|Hge].
  - destruct (Hwf v _ (lookup_deref σ v Hlt)) as [Hall _].
    rewrite Forall_forall in Hall. by apply Hall.
  - rewrite deref_dangling in Hc by lia. simpl in Hc. by apply elem_of_nil in Hc.
Qed.

Lemma reach_le σ v w : wf σ → reach σ v w → w ≤ v.
Proof.
  intros Hwf. induction 1 as [|v c w Hc _ IH]; [lia|].
  pose proof (wf_children_lt σ v c Hwf Hc). lia.
Qed.

Lemma reach_trans σ u v w : reach σ u v → reach σ v w → reach σ u w.
Proof. induction 1; [done|]. intros. eapply reach_step; eauto. Qed.

(** * The traversal *)

Lemma postorder_snoc σ nodes v :
  postorder σ nodes → (∀ c, c ∈ children_of σ v → c ∈ nodes) →
  postorder σ (nodes ++ [v]).
Proof.
  intros Hpo Hch i x c Hi Hc.
  destruct (decide (i < length nodes)) as [Hlt|Hge].
  - rewrite lookup_app_l in Hi by done.
    destruct (Hpo i x c Hi Hc) as (j & Hj & Hjc).
    exists j. split; [done|]. rewrite lookup_app_l by lia. done.
  - rewrite lookup_app_r in Hi by lia.
    destruct (i - length nodes) as [|k] eqn:Hk; simpl in Hi; [|done].
    injection Hi as <-.
    destruct (proj1 (list_elem_of_lookup nodes c) (Hch c Hc)) as (j & Hj).
    exists j. pose proof (lookup_lt_Some _ _ _ Hj).
    split; [lia|]. by rewrite lookup_app_l.
Qed.

Lemma build_graph_S fuel σ v st :
  build_graph (S fuel) σ v st =
    if decide (v ∈ st.1) then Some st
    else match visit_children (build_graph fuel σ) (children_of σ v)
                 ({[v]} ∪ st.1, st.2) with
         | Some (visited, nodes) => Some (visited, nodes ++ [v])
         | None => None
         end.
Proof. done. Qed.

Section traversal.
Context (σ : store) (Hwf : wf σ).

(** The calls for the children of [v], given the specification of one call
    at the remaining fuel. *)
Lemma visit_children_spec fuel v :
  (∀ c st, c < fuel → dfs_inv σ st →
     (∀ x, x ∈ st.1 → x ∈ st.2 ∨ c < x) →
     ∃ st' new, build_graph fuel σ c st = Some st' ∧ dfs_grows σ st st' new ∧
       c ∈ st'.2 ∧ (∀ x, x ∈ new → reach σ c x)) →
  v ≤ fuel →
  ∀ cs st, (∀ c, c ∈ cs → c < v) → dfs_inv σ st →
    (∀ x, x ∈ st.1 → x ∈ st.2 ∨ v ≤ x) →
    ∃ st' new, visit_children (build_graph fuel σ) cs st = Some st' ∧
      dfs_grows σ st st' new ∧ (∀ c, c ∈ cs → c ∈ st'.2) ∧
      (∀ x, x ∈ new → ∃ c, c ∈ cs ∧ reach σ c x).
Proof.
  intros IH Hv cs. induction cs as [|c cs IHcs]; intros st Hlt Hinv Hpend.
  - exists st, []. simpl. split; [done|]. split.
    + split; [by rewrite app_nil_r|]. split; [done|]. split; [done|]. auto.
    + split; intros x Hx; by apply elem_of_nil in Hx.
  - assert (Hc : c < v) by (apply Hlt; left).
    destruct (IH c st) as (st1 & new1 & Hrun1 & Hg1 & Hin1 & Hr1);
      [lia|done|..].
    { intros x Hx. destruct (Hpend x Hx); [by left|right; lia]. }
    destruct Hg1 as (Heq1 & Hinv1 & Hsub1 & Hnew1).
    destruct (IHcs st1) as (st2 & new2 & Hrun2 & Hg2 & Hin2 & Hr2);
      [intros; apply Hlt; by right|done|..].
    { intros x Hx. destruct (Hnew1 x Hx) as [Hx'|Hx'].
      - destruct (Hpend x Hx'); [left|by right].
        rewrite Heq1. apply elem_of_app. by left.
      - left. rewrite Heq1. apply elem_of_app. by right. }
    destruct Hg2 as (Heq2 & Hinv2 & Hsub2 & Hnew2).
    exists st2, (new1 ++ new2). simpl. rewrite Hrun1. split; [done|]. split.
    + split; [by rewrite Heq2, Heq1, app_assoc|]. split; [done|]. split.
      * auto.
      * intros x Hx. destruct (Hnew2 x Hx) as [Hx'|Hx'].
        -- destruct (Hnew1 x Hx'); [by left|right].
           apply elem_of_app. by left.
        -- right. apply elem_of_app. by right.
    + split.
      * intros c' Hc'. apply elem_of_cons in Hc' as [->|Hc']; [|by apply Hin2].
        rewrite Heq2. apply elem_of_app. by left.
      * intros x Hx. apply elem_of_app in Hx as [Hx|Hx].
        -- exists c. split; [left|by apply Hr1].
        -- destruct (Hr2 x Hx) as (c' & Hc' & Hreach).
           exists c'. split; [by right|done].
Qed.

(** One call of [build_graph] on [v]: with fuel above [v] it returns, and
    it appends to [nodes] objects reachable from [v], ending with [v]
    unless [v] was listed before. *)
Lemma build_graph_spec fuel :
  ∀ v st, v < fuel → dfs_inv σ st →
    (∀ x, x ∈ st.1 → x ∈ st.2 ∨ v < x) →
    ∃ st' new, build_graph fuel σ v st = Some st' ∧ dfs_grows σ st st' new ∧
      v ∈ st'.2 ∧ (∀ x, x ∈ new → reach σ v x).
Proof.
  induction fuel as [|fuel IH]; intros v [vis nodes] Hv Hinv Hpend; [lia|].
  rewrite build_graph_S. cbn [fst snd] in *.
  destruct (decide (v ∈ vis)) as [Hin|Hnin].
  - exists (vis, nodes), []. split; [done|]. split.
    + split; [by rewrite app_nil_r|]. split; [done|]. split; [done|]. auto.
    + split.
      * destruct (Hpend v Hin); [done|lia].
      * intros x Hx. by apply elem_of_nil in Hx.
  - destruct Hinv as (Hnd & Hsub & Hpo). simpl in *.
    destruct (visit_children_spec fuel v IH ltac:(lia)
                (children_of σ v) ({[v]} ∪ vis, nodes))
      as ([vis' nodes'] & new & Hrun & Hg & Hin & Hr).
    { intros c Hc. by apply (wf_children_lt σ v c Hwf). }
    { split; [done|]. split; [|done]. simpl. intros x Hx.
      apply elem_of_union. right. by apply Hsub. }
    { simpl. intros x Hx. apply elem_of_union in Hx as [Hx|Hx].
      - apply elem_of_singleton in Hx. right. lia.
      - destruct (Hpend x Hx); [by left|right; lia]. }
    destruct Hg as (Heq & (Hnd' & Hsub' & Hpo') & Hmono & Hnew). simpl in *.
    rewrite Hrun. exists (vis', nodes' ++ [v]), (new ++ [v]).
    split; [done|].
    assert (Hvnew : v ∉ new).
    { intros Hvn. destruct (Hr v Hvn) as (c & Hc & Hreach).
      pose proof (wf_children_lt σ v c Hwf Hc).
      pose proof (reach_le σ c v Hwf Hreach). lia. }
    assert (Hvnodes : v ∉ nodes) by (intros Hvn; by apply Hnin, Hsub).
    split; [|split].
    + split; [simpl; by rewrite Heq, app_assoc|]. split; [|split].
      * split; [|split]; simpl.
        -- apply NoDup_app. split; [done|]. split; [|apply NoDup_singleton].
           intros x Hx Hx'. apply list_elem_of_singleton in Hx' as ->.
           rewrite Heq in Hx. apply elem_of_app in Hx as [?|?]; done.
        -- intros x Hx. apply elem_of_app in Hx as [Hx|Hx]; [by apply Hsub'|].
           apply list_elem_of_singleton in Hx as ->.
           apply Hmono, elem_of_union. left. by apply elem_of_singleton.
        -- apply postorder_snoc; [done|]. intros c Hc. by apply Hin.
      * simpl. intros x Hx. apply Hmono, elem_of_union. by right.
      * simpl. intros x Hx. destruct (Hnew x Hx) as [Hx'|Hx'].
        -- apply elem_of_union in Hx' as [Hx'|Hx']; [|by left].
           apply elem_of_singleton in Hx' as ->. right.
           apply elem_of_app. right. by apply list_elem_of_singleton.
        -- right. apply elem_of_app. by left.
    + simpl. apply elem_of_app. right. by apply list_elem_of_singleton.
    + intros x Hx. apply elem_of_app in Hx as [Hx|Hx].
      * destruct (Hr x Hx) as (c & Hc & Hreach). by eapply reach_step.
      * apply list_elem_of_singleton in Hx as ->. apply reach_refl.
Qed.
End traversal.

(** [build_graph(self)] returns on a well-formed store, and [nodes] lists
    each object reachable from [self] once, children first. *)
Lemma topo_spec σ root :
  wf σ → root < length σ →
  ∃ nodes, topo σ root = Some nodes ∧ NoDup nodes ∧
    (∀ x, x ∈ nodes ↔ reach σ root x) ∧ postorder σ nodes.
Proof.
  intros Hwf Hroot.
  destruct (build_graph_spec σ Hwf (S (length σ)) root (∅, []))
    as ([vis nodes] & new & Hrun & Hg & Hin & Hr).
  - lia.
  - split; [apply NoDup_nil_2|]. split.
    + intros x Hx. by apply elem_of_nil in Hx.
    + intros i x c Hi. done.
  - intros x Hx. by apply elem_of_empty in Hx.
  - destruct Hg as (Heq & (Hnd & Hsub & Hpo) & _ & _).
    exists new. unfold topo. rewrite Hrun. cbn [fst snd app] in *. subst nodes.
    split; [done|]. split; [done|].
    split; [|done]. intros x. split; [apply Hr|].
    assert (Hclosed : ∀ v w, reach σ v w → v ∈ new → w ∈ new);
      [|intros Hreach; by apply (Hclosed root)].
    clear -Hpo. induction 1 as [|v c w Hc _ IH]; [done|].
    intros Hv. apply IH.
    destruct (proj1 (list_elem_of_lookup new v) Hv) as (i & Hi).
    destruct (Hpo i v c Hi Hc) as (j & _ & Hj).
    by apply (list_elem_of_lookup_2 new j).
Qed.

(** * Reading and writing the store *)

Lemma deref_alter f v (σ : store) i :
  deref (alter f v σ) i =
    if decide (v = i ∧ v < length σ) then f (deref σ v) else deref σ i.
Proof. apply list_lookup_total_alter. Qed.

Lemma deref_alter_ne f v (σ : store) i : v ≠ i → deref (alter f v σ) i = deref σ i.
Proof. intros. by apply list_lookup_total_alter_ne. Qed.

Lemma deref_alter_eq f v (σ : store) :
  v < length σ → deref (alter f v σ) v = f (deref σ v).
Proof. intros. by apply list_lookup_total_alter_eq. Qed.

Lemma deref_app_l (σ l : store) i : i < length σ → deref (σ ++ l) i = deref σ i.
Proof. intros. unfold deref. by apply lookup_total_app_l. Qed.

Lemma deref_app_r (σ l : store) k : deref (σ ++ l) (length σ + k) = deref l k.
Proof.
  unfold deref. rewrite lookup_total_app_r by lia.
  by replace (length σ + k - length σ) with k by lia.
Qed.

Lemma deref_app_new (σ : store) nd : deref (σ ++ [nd]) (length σ) = nd.
Proof. unfold deref. by apply list_lookup_total_middle. Qed.

(** * Stores that differ in [grad] only *)

Lemma grads_changed_refl T σ : grads_changed T σ σ.
Proof.
  split; [done|]. intros i. exists (grad (deref σ i)).
  by rewrite with_grad_same.
Qed.

Lemma grads_changed_trans T σ1 σ2 σ3 :
  grads_changed T σ1 σ2 → grads_changed T σ2 σ3 → grads_changed T σ1 σ3.
Proof.
  intros [Hl1 H1] [Hl2 H2]. split; [congruence|]. intros i.
  destruct (H1 i) as (g1 & E1 & F1), (H2 i) as (g2 & E2 & F2).
  exists g2. rewrite E2, E1. split; [done|].
  intros HT. rewrite (F2 HT), E1. simpl. by apply F1.
Qed.

Lemma grads_changed_weaken (T T' : node_id → Prop) σ σ' :
  (∀ i, T i → T' i) → grads_changed T σ σ' → grads_changed T' σ σ'.
Proof.
  intros HT [Hl H]. split; [done|]. intros i.
  destruct (H i) as (g & E & F). exists g. split; [done|]. intros HT'.
  apply F. intros Hi. by apply HT', HT.
Qed.

Lemma grads_changed_alter T (f : Value_obj → R) v σ :
  T v → grads_changed T σ (alter (λ nd, with_grad (f nd) nd) v σ).
Proof.
  intros Hv. split; [apply length_alter|]. intros i. rewrite deref_alter.
  case_decide as Hi.
  - destruct Hi as [-> _]. exists (f (deref σ i)). split; [done|]. done.
  - exists (grad (deref σ i)). by rewrite with_grad_same.
Qed.

Lemma grads_changed_children T σ σ' v :
  grads_changed T σ σ' → children_of σ' v = children_of σ v.
Proof.
  intros [_ H]. unfold children_of. destruct (H v) as (g & -> & _). done.
Qed.

Lemma grads_changed_reach T σ σ' v w :
  grads_changed T σ σ' → reach σ v w → reach σ' v w.
Proof.
  intros Hch. induction 1 as [|v c w Hc _ IH]; [apply reach_refl|].
  eapply reach_step; [|done]. by rewrite (grads_changed_children T σ σ' v Hch).
Qed.

Lemma grads_changed_wf T σ σ' : grads_changed T σ σ' → wf σ → wf σ'.
Proof.
  intros [Hl H] Hwf i nd Hi.
  pose proof (lookup_lt_Some _ _ _ Hi) as Hlt. rewrite Hl in Hlt.
  pose proof (Hwf i _ (lookup_deref σ i Hlt)) as Hok.
  apply deref_lookup in Hi. destruct (H i) as (g & E & _).
  rewrite <- Hi, E. done.
Qed.

(** * Computations that keep a relation *)

Section preserves.
Context (P : store → store → Prop).
Context (P_refl : ∀ σ, P σ σ) (P_trans : ∀ σ1 σ2 σ3, P σ1 σ2 → P σ2 σ3 → P σ1 σ3).

Lemma preserves_bind {A B} (m : M A) (k : A → M B) :
  preserves P m → (∀ a, preserves P (k a)) → preserves P (bind m k).
Proof.
  intros Hm Hk σ. unfold exec, bind. specialize (Hm σ). unfold exec in Hm.
  destruct (m σ) as [[a|e] σ1]; simpl in *; [|done].
  eapply P_trans; [done|]. apply Hk.
Qed.

Lemma preserves_ret {A} (a : A) : preserves P (ret a).
Proof. intros σ. apply P_refl. Qed.

Lemma preserves_raise {A} e : preserves P (@raise A e).
Proof. intros σ. apply P_refl. Qed.

Lemma preserves_lift {A} (o : outcome A) : preserves P (lift o).
Proof. intros σ. apply P_refl. Qed.

Lemma preserves_get v : preserves P (get v).
Proof. intros σ. apply P_refl. Qed.

Lemma preserves_get_data v : preserves P (get_data v).
Proof. intros σ. apply P_refl. Qed.

Lemma preserves_get_num v : preserves P (get_num v).
Proof. intros σ. apply P_refl. Qed.

Lemma preserves_get_grad v : preserves P (get_grad v).
Proof. intros σ. apply P_refl. Qed.

Lemma preserves_py_assert b : preserves P (py_assert b).
Proof. destruct b; intros σ; apply P_refl. Qed.
End preserves.

Create HintDb preserves.

#[local] Hint Resolve preserves_ret preserves_raise preserves_lift preserves_get
  preserves_get_data preserves_get_num preserves_get_grad preserves_py_assert
  : preserves.

Ltac preserves_steps :=
  repeat first
    [ solve [auto with preserves]
    | apply preserves_bind; [assumption| |intros ?] ].

Lemma preserves_add_grad T v d : T v → preserves (grads_changed T) (add_grad v d).
Proof. intros Hv σ. by apply (grads_changed_alter T (λ nd, (grad nd + d)%R)). Qed.

Lemma preserves_set_grad T v g : T v → preserves (grads_changed T) (set_grad v g).
Proof. intros Hv σ. by apply (grads_changed_alter T (λ _, g)). Qed.

(** A closure writes to the [grad] of the children only. *)
Lemma call_closure_frame i ch b :
  closure_ok i ch b → preserves (grads_changed (λ t, t ∈ ch)) (call_closure b).
Proof.
  pose proof (grads_changed_refl (λ t, t ∈ ch)) as Hrefl.
  pose proof (grads_changed_trans (λ t, t ∈ ch)) as Htrans.
  destruct b; simpl; intros Hok;
    repeat match goal with H : _ ∧ _ |- _ => destruct H end; subst;
    preserves_steps;
    apply preserves_add_grad; set_solver.
Qed.

Lemma exec_bind {A B} (m : M A) (k : A → M B) σ :
  exec (bind m k) σ =
    match result m σ with
    | Ok a => exec (k a) (exec m σ)
    | Raise _ => exec m σ
    end.
Proof. unfold exec, result, bind. by destruct (m σ) as [[a|e] σ1]. Qed.

Lemma result_bind {A B} (m : M A) (k : A → M B) σ :
  result (bind m k) σ =
    match result m σ with
    | Ok a => result (k a) (exec m σ)
    | Raise e => Raise e
    end.
Proof. unfold exec, result, bind. by destruct (m σ) as [[a|e] σ1]. Qed.

Lemma wf_closure_ok σ n :
  wf σ → closure_ok n (children_of σ n) (_backward (deref σ n)).
Proof.
  intros Hwf. unfold children_of. destruct (decide (n < length σ)) as [Hlt|Hge].
  - by destruct (Hwf n _ (lookup_deref σ n Hlt)).
  - rewrite deref_dangling by lia. done.
Qed.

(** [n._backward()] writes to the [grad] of the children of [n] only. *)
Lemma local_backward_frame σ n :
  wf σ → grads_changed (λ t, t ∈ children_of σ n) σ (exec (local_backward n) σ).
Proof.
  intros Hwf. unfold local_backward. rewrite exec_bind. simpl.
  apply (call_closure_frame n). by apply wf_closure_ok.
Qed.

Lemma run_backwards_frame order :
  ∀ σ, wf σ →
    grads_changed (λ t, ∃ n, n ∈ order ∧ t ∈ children_of σ n) σ
      (exec (run_backwards order) σ).
Proof.
  induction order as [|n order IH]; intros σ Hwf; [apply grads_changed_refl|].
  simpl. rewrite exec_bind.
  pose proof (local_backward_frame σ n Hwf) as Hn.
  assert (Hn' : grads_changed (λ t, ∃ m, m ∈ n :: order ∧ t ∈ children_of σ m) σ
                  (exec (local_backward n) σ)).
  { eapply grads_changed_weaken; [|done]. intros t Ht. exists n. split; [left|done]. }
  destruct (result (local_backward n) σ); [|done].
  eapply grads_changed_trans; [done|].
  eapply grads_changed_weaken; [|apply IH; by eapply grads_changed_wf].
  intros t (m & Hm & Ht). exists m. split; [by right|].
  by rewrite <- (grads_changed_children _ _ _ m Hn).
Qed.


(** [self.backward()] writes to the [grad] of the objects reachable from
    [self] only. *)
Lemma backward_frame σ root :
  wf σ → root < length σ →
  grads_changed (reach σ root) σ (exec (backward root) σ).
Proof.
  intros Hwf Hroot.
  destruct (topo_spec σ root Hwf Hroot) as (nodes & Htopo & _ & Hreach & _).
  unfold backward, exec. rewrite Htopo. fold (exec (set_grad root 1 ;;; run_backwards (reverse nodes)) σ).
  rewrite exec_bind. simpl.
  assert (Hseed : grads_changed (reach σ root) σ (exec (set_grad root 1) σ)).
  { apply preserves_set_grad. apply reach_refl. }
  eapply grads_changed_trans; [done|].
  eapply grads_changed_weaken;
    [|apply run_backwards_frame; by eapply grads_changed_wf].
  intros t (n & Hn & Ht). apply elem_of_reverse, Hreach in Hn.
  rewrite (grads_changed_children _ _ _ n Hseed) in Ht.
  eapply reach_trans; [done|]. eapply reach_step; [done|apply reach_refl].
Qed.

(** * Two runs in step *)

Lemma in_step_bind {A B} Q (RA : A → A → Prop) (RB : B → B → Prop) m m' k k' :
  in_step Q RA m m' → (∀ a a', RA a a' → in_step Q RB (k a) (k' a')) →
  in_step Q RB (bind m k) (bind m' k').
Proof.
  intros Hm Hk σ τ HQ. specialize (Hm σ τ HQ). unfold bind.
  destruct (m σ) as [[a|e] σ1], (m' τ) as [[a'|e'] τ1]; try done.
  destruct Hm as [Ha HQ1]. by apply Hk.
Qed.

Lemma in_step_result {A} Q (m m' : M A) σ τ :
  in_step Q eq m m' → Q σ τ →
  result m σ = result m' τ ∧ Q (exec m σ) (exec m' τ).
Proof.
  intros Hm HQ. specialize (Hm σ τ HQ). unfold result, exec.
  destruct (m σ) as [[a|e] σ1], (m' τ) as [[a'|e'] τ1]; try done;
    destruct Hm as [-> ?]; done.
Qed.

Section shifted.
Context (n : node_id) (c : R).

Lemma shifted_data σ τ i : shifted n c σ τ → data (deref τ i) = data (deref σ i).
Proof. intros [_ H]. by destruct (H i) as (g & -> & _). Qed.

Lemma shifted_closure σ τ i :
  shifted n c σ τ → _backward (deref τ i) = _backward (deref σ i).
Proof. intros [_ H]. by destruct (H i) as (g & -> & _). Qed.

Lemma shifted_children σ τ i :
  shifted n c σ τ → children_of τ i = children_of σ i.
Proof. intros [_ H]. unfold children_of. by destruct (H i) as (g & -> & _). Qed.

Lemma shifted_grad_above σ τ i :
  shifted n c σ τ → n < i → grad (deref τ i) = grad (deref σ i).
Proof. intros [_ H] Hi. destruct (H i) as (g & -> & Hg & _). by apply Hg. Qed.

Lemma shifted_grad_at σ τ :
  shifted n c σ τ → grad (deref τ n) = (grad (deref σ n) + c)%R.
Proof. intros [_ H]. destruct (H n) as (g & -> & _ & Hg). by apply Hg. Qed.

Lemma in_step_ret {A} (a : A) : in_step (shifted n c) eq (ret a) (ret a).
Proof. intros σ τ HQ. done. Qed.

Lemma in_step_lift {A} (o : outcome A) : in_step (shifted n c) eq (lift o) (lift o).
Proof. intros σ τ HQ. unfold lift. by destruct o. Qed.

Lemma in_step_get_num v : in_step (shifted n c) eq (get_num v) (get_num v).
Proof.
  intros σ τ HQ. unfold get_num. rewrite (shifted_data σ τ v HQ).
  by destruct (as_num _).
Qed.

Lemma in_step_get_grad v :
  in_step (shifted n c) (λ g g', n < v → g' = g) (get_grad v) (get_grad v).
Proof.
  intros σ τ HQ. unfold get_grad. split; [|done].
  intros Hv. by apply shifted_grad_above.
Qed.

(** The same [+=] on both sides, or any two below [n]. *)
Lemma in_step_add_grad s d d' :
  d' = d ∨ s < n →
  in_step (shifted n c) eq (add_grad s d) (add_grad s d').
Proof.
  intros Hd σ τ [Hl H]. unfold add_grad. split; [done|].
  split; [by rewrite !length_alter|]. intros i.
  rewrite !deref_alter, Hl. destruct (H i) as (g & E & Hab & Hat).
  case_decide as Hi.
  - destruct Hi as [-> _]. rewrite E. simpl.
    exists (g + d')%R. split; [done|]. split.
    + intros Hni. destruct Hd as [->|?]; [|lia]. by rewrite Hab.
    + intros ->. destruct Hd as [->|?]; [|lia]. rewrite Hat by done. lra.
  - exists g. done.
Qed.

Lemma in_step_set_grad s g :
  s ≠ n → in_step (shifted n c) eq (set_grad s g) (set_grad s g).
Proof.
  intros Hs σ τ [Hl H]. unfold set_grad. split; [done|].
  split; [by rewrite !length_alter|]. intros i.
  rewrite !deref_alter, Hl. destruct (H i) as (g0 & E & Hab & Hat).
  case_decide as Hi.
  - destruct Hi as [-> _]. rewrite E. simpl.
    exists g. split; [done|]. split; [done|]. intros ->. done.
  - exists g0. done.
Qed.

(** The closure of object [i] stays in step: above [n] it reads the same
    [grad] on both sides, and from [n] down it writes below [n]. *)
Lemma in_step_call_closure i ch b :
  closure_ok i ch b → Forall (λ t, t < i) ch →
  in_step (shifted n c) eq (call_closure b) (call_closure b).
Proof.
  intros Hok Hch.
  assert (Hw : ∀ s (F : R → R) g g', s ∈ ch → (n < i → g' = g) →
            in_step (shifted n c) eq (add_grad s (F g)) (add_grad s (F g'))).
  { intros s F g g' Hs Hg. apply in_step_add_grad.
    rewrite Forall_forall in Hch. pose proof (Hch s Hs).
    destruct (decide (n < i)) as [Hni|Hni]; [left; by rewrite Hg|right; lia]. }
  destruct b; simpl in *;
    repeat match goal with H : _ ∧ _ |- _ => destruct H end; subst;
    try apply in_step_ret.
  - eapply in_step_bind; [apply in_step_get_grad|]. intros g g' Hg.
    apply (Hw self (λ g, (g * 1)%R)); [set_solver|done].
  - eapply in_step_bind; [apply in_step_get_grad|]. intros g g' Hg.
    eapply in_step_bind; [apply in_step_lift|]. intros sq ? <-.
    apply (Hw self (λ g, (g * (1 - sq))%R)); [set_solver|done].
  - eapply in_step_bind; [apply in_step_get_grad|]. intros g g' Hg.
    eapply in_step_bind; [apply in_step_get_num|]. intros x ? <-.
    apply (Hw self (λ g, (g * (if Rlt_dec 0 x then 1 else alpha))%R));
      [set_solver|done].
  - eapply in_step_bind; [apply in_step_get_grad|]. intros g g' Hg.
    apply (Hw self (λ g, (g * gt0 data0)%R)); [set_solver|done].
  - eapply in_step_bind; [apply in_step_get_grad|]. intros g g' Hg.
    apply (Hw self (λ g, (g * data0 * (1 - data0))%R)); [set_solver|done].
  - eapply in_step_bind; [apply in_step_get_grad|]. intros g g' Hg.
    apply (Hw self (λ g, (g * data0)%R)); [set_solver|done].
  - eapply in_step_bind; [apply in_step_get_grad|]. intros g g' Hg.
    eapply in_step_bind;
      [apply (Hw self (λ g, (g * 1)%R)); [set_solver|done]|]. intros _ _ _.
    eapply in_step_bind; [apply in_step_get_grad|]. intros h h' Hh.
    apply (Hw other (λ g, (g * 1)%R)); [set_solver|done].
  - eapply in_step_bind; [apply in_step_get_grad|]. intros g g' Hg.
    eapply in_step_bind; [apply in_step_get_num|]. intros y ? <-.
    eapply in_step_bind;
      [apply (Hw self (λ g, (g * y)%R)); [set_solver|done]|]. intros _ _ _.
    eapply in_step_bind; [apply in_step_get_grad|]. intros h h' Hh.
    eapply in_step_bind; [apply in_step_get_num|]. intros x ? <-.
    apply (Hw other (λ g, (g * x)%R)); [set_solver|done].
  - eapply in_step_bind; [apply in_step_get_grad|]. intros g g' Hg.
    eapply in_step_bind; [apply in_step_get_num|]. intros x ? <-.
    eapply in_step_bind; [apply in_step_lift|]. intros p ? <-.
    apply (Hw self (λ g, (g * power * p)%R)); [set_solver|done].
Qed.
End shifted.

Lemma local_backward_run m σ :
  local_backward m σ = call_closure (_backward (deref σ m)) σ.
Proof. done. Qed.

Lemma local_backward_shifted n c m σ τ :
  wf σ → shifted n c σ τ →
  result (local_backward m) σ = result (local_backward m) τ ∧
  shifted n c (exec (local_backward m) σ) (exec (local_backward m) τ).
Proof.
  intros Hwf HQ. unfold result, exec. rewrite !local_backward_run.
  rewrite (shifted_closure n c σ τ m HQ).
  apply (in_step_result (shifted n c)); [|done].
  apply (in_step_call_closure n c m (children_of σ m)).
  - by apply wf_closure_ok.
  - apply Forall_forall. intros t Ht. by apply (wf_children_lt σ m t).
Qed.

Lemma run_backwards_shifted n c order :
  ∀ σ τ, wf σ → shifted n c σ τ →
    result (run_backwards order) σ = result (run_backwards order) τ ∧
    shifted n c (exec (run_backwards order) σ) (exec (run_backwards order) τ).
Proof.
  induction order as [|m order IH]; intros σ τ Hwf HQ; [done|].
  simpl. rewrite !exec_bind, !result_bind.
  destruct (local_backward_shifted n c m σ τ Hwf HQ) as [<- HQ1].
  destruct (result (local_backward m) σ); [|done].
  apply IH; [|done].
  eapply grads_changed_wf; [by apply local_backward_frame|done].
Qed.

(** The traversal reads [_children] only. *)
Lemma build_graph_ext σ τ fuel :
  (∀ v, children_of τ v = children_of σ v) →
  ∀ v st, build_graph fuel τ v st = build_graph fuel σ v st.
Proof.
  intros Hch. induction fuel as [|fuel IH]; intros v st; [done|].
  rewrite !build_graph_S, Hch. destruct (decide (v ∈ st.1)); [done|].
  assert (Hvc : ∀ cs st0, visit_children (build_graph fuel τ) cs st0 =
                           visit_children (build_graph fuel σ) cs st0).
  { induction cs as [|c' cs IHcs]; intros st0; [done|]. simpl.
    rewrite IH. destruct (build_graph fuel σ c' st0); [apply IHcs|done]. }
  by rewrite Hvc.
Qed.

Lemma topo_ext σ τ root :
  length τ = length σ → (∀ v, children_of τ v = children_of σ v) →
  topo τ root = topo σ root.
Proof. intros Hl Hch. unfold topo. by rewrite Hl, (build_graph_ext σ τ). Qed.

Lemma backward_run σ root nodes :
  topo σ root = Some nodes →
  backward root σ = (set_grad root 1 ;;; run_backwards (reverse nodes)) σ.
Proof. intros H. unfold backward. by rewrite H. Qed.

Lemma backward_out_of_fuel σ root :
  topo σ root = None → backward root σ = (Raise RecursionError, σ).
Proof. intros H. unfold backward. by rewrite H. Qed.

(** Two runs of [backward] from stores that differ in the [grad] of an
    object other than the root end the same way, in stores that differ in
    that [grad] by as much. *)
Lemma backward_shifted n c root σ τ :
  wf σ → root ≠ n → shifted n c σ τ →
  result (backward root) σ = result (backward root) τ ∧
  shifted n c (exec (backward root) σ) (exec (backward root) τ).
Proof.
  intros Hwf Hroot HQ.
  assert (Htopo : topo τ root = topo σ root).
  { apply topo_ext; [apply HQ|]. intros v. by apply (shifted_children n c). }
  unfold result, exec. destruct (topo σ root) as [nodes|] eqn:Hσ.
  - rewrite (backward_run σ root nodes Hσ), (backward_run τ root nodes Htopo).
    fold (result (set_grad root 1 ;;; run_backwards (reverse nodes)) σ).
    fold (result (set_grad root 1 ;;; run_backwards (reverse nodes)) τ).
    fold (exec (set_grad root 1 ;;; run_backwards (reverse nodes)) σ).
    fold (exec (set_grad root 1 ;;; run_backwards (reverse nodes)) τ).
    rewrite !exec_bind, !result_bind. simpl.
    destruct (in_step_result (shifted n c) (set_grad root 1) (set_grad root 1) σ τ)
      as [_ HQ1]; [by apply in_step_set_grad|done|].
    apply run_backwards_shifted; [|done].
    eapply grads_changed_wf; [|done].
    apply (preserves_set_grad (λ t, t = root)). done.
  - rewrite (backward_out_of_fuel σ root Hσ), (backward_out_of_fuel τ root Htopo).
    done.
Qed.

(** * Arithmetic primitives *)

Lemma Int_part_IZR z : Int_part (IZR z) = z.
Proof.
  unfold Int_part.
  assert (H : (z + 1)%Z = up (IZR z)).
  { apply tech_up; rewrite plus_IZR; lra. }
  lia.
Qed.

Lemma is_integral_IZR z : is_integral (IZR z) = Some z.
Proof.
  unfold is_integral. rewrite Int_part_IZR.
  destruct (Req_dec_T (IZR z) (IZR z)); [done|lra].
Qed.

(** The range *)

Lemma float_bound_big : (2 ^ 64 < float_bound)%R.
Proof.
  unfold float_bound. rewrite (pow_IZR 2 64). apply IZR_lt. reflexivity.
Qed.

Lemma float_bound_pos : (0 < float_bound)%R.
Proof. pose proof float_bound_big. pose proof (pow_lt 2 64). lra. Qed.

Lemma ranged_Ok r : in_range r → ranged r = Ok r.
Proof. intros H. unfold ranged. by destruct (Rlt_dec _ _). Qed.

Lemma ranged_Raise r : ¬ in_range r → ranged r = Raise OverflowError.
Proof. intros H. unfold ranged. by destruct (Rlt_dec _ _). Qed.

Lemma ranged_inv r o : ranged r = o → (o = Ok r ∧ in_range r) ∨ (o = Raise OverflowError ∧ ¬ in_range r).
Proof. intros <-. unfold ranged. destruct (Rlt_dec _ _); [by left|by right]. Qed.

Lemma in_range_le r q : (Rabs r <= Rabs q)%R → in_range q → in_range r.
Proof. unfold in_range. lra. Qed.

(** Numbers up to [2^64] in magnitude are well within the range. *)
Lemma in_range_small r : (Rabs r <= 2 ^ 64)%R → in_range r.
Proof. pose proof float_bound_big. unfold in_range. lra. Qed.

Lemma in_range_unit r : (-1 <= r <= 1)%R → in_range r.
Proof.
  intros H. apply in_range_small. pose proof (pow_R1_Rle 2 64).
  unfold Rabs. destruct (Rcase_abs r); lra.
Qed.

Lemma in_range_square d : (-1 <= d <= 1)%R → in_range (powerRZ d 2).
Proof.
  intros H. apply in_range_unit. simpl. nra.
Qed.

Lemma in_range_exp x : in_range (Rtrigo_def.exp x) ↔ (Rtrigo_def.exp x < float_bound)%R.
Proof.
  unfold in_range. pose proof (exp_pos x). by rewrite Rabs_pos_eq by lra.
Qed.

Lemma out_of_range_exp x :
  ¬ in_range (Rtrigo_def.exp x) ↔ (float_bound <= Rtrigo_def.exp x)%R.
Proof. rewrite in_range_exp. lra. Qed.

Lemma math_exp_Ok x : in_range (Rtrigo_def.exp x) → math_exp x = Ok (Rtrigo_def.exp x).
Proof. apply ranged_Ok. Qed.

Lemma math_exp_Raise x :
  ¬ in_range (Rtrigo_def.exp x) → math_exp x = Raise OverflowError.
Proof. apply ranged_Raise. Qed.

(** [exp] of a number that is not positive is at most 1. *)
Lemma in_range_exp_nonpos x : (x <= 0)%R → in_range (Rtrigo_def.exp x).
Proof.
  intros Hx. apply in_range_unit. pose proof (exp_pos x).
  assert (Rtrigo_def.exp x <= Rtrigo_def.exp 0)%R.
  { destruct Hx as [Hx| ->]; [left; by apply exp_increasing|lra]. }
  rewrite exp_0 in *. lra.
Qed.

Lemma py_pow_int v z :
  (v ≠ 0%R ∨ (0 ≤ z)%Z) → in_range (powerRZ v z) →
  py_pow v (IZR z) = Ok (powerRZ v z).
Proof.
  intros H Hr. unfold py_pow. rewrite is_integral_IZR.
  destruct (Req_dec_T v 0) as [->|Hv]; [|by apply ranged_Ok].
  destruct H as [H|H]; [done|].
  destruct (z <? 0)%Z eqn:Hz; [|done]. apply Z.ltb_lt in Hz. lia.
Qed.

(** An integral power out of range. *)
Lemma py_pow_int_overflow v z :
  v ≠ 0%R → ¬ in_range (powerRZ v z) → py_pow v (IZR z) = Raise OverflowError.
Proof.
  intros Hv Hr. unfold py_pow. rewrite is_integral_IZR.
  destruct (Req_dec_T v 0) as [->|_]; [done|]. by apply ranged_Raise.
Qed.

(** A power with a smaller exponent, 0 or more, stays in range. *)
Lemma in_range_pow_pred x (n : nat) : in_range (x ^ S n) → in_range (x ^ n).
Proof.
  intros H. destruct (Rle_dec (Rabs x) 1) as [Hle|Hgt].
  - apply in_range_unit.
    assert (H1 : (Rabs (x ^ n) <= 1)%R).
    { rewrite <- RPow_abs. rewrite <- (pow1 n). apply pow_incr.
      split; [apply Rabs_pos|done]. }
    unfold Rabs in H1. destruct (Rcase_abs (x ^ n)); lra.
  - eapply in_range_le; [|exact H].
    rewrite <- !RPow_abs. apply Rle_pow; [lra|lia].
Qed.

Lemma in_range_powerRZ_pred x (z : Z) :
  (1 ≤ z)%Z → in_range (powerRZ x z) → in_range (powerRZ x (z - 1)).
Proof.
  intros Hz H. set (n := Z.to_nat (z - 1)).
  assert (Hn : (z - 1)%Z = Z.of_nat n) by (unfold n; lia).
  assert (Hn1 : z = Z.of_nat (S n)) by lia.
  rewrite Hn, <- pow_powerRZ. rewrite Hn1, <- pow_powerRZ in H.
  by apply in_range_pow_pred.
Qed.

(** [y ** -1] *)
Lemma py_pow_inv y : y ≠ 0%R → in_range (/ y) → py_pow y (-1) = Ok (/ y)%R.
Proof.
  intros Hy Hr.
  assert (E : powerRZ y (-1) = (/ y)%R) by (simpl; f_equal; lra).
  rewrite (py_pow_int y (-1)); [by rewrite E|by left|by rewrite E].
Qed.

Lemma py_pow_square d : (-1 <= d <= 1)%R → py_pow d 2 = Ok (powerRZ d 2).
Proof.
  intros H. apply (py_pow_int d 2); [right; lia|by apply in_range_square].
Qed.

Lemma py_pow_zero_neg z :
  (z < 0)%Z → py_pow 0 (IZR z) = Raise ZeroDivisionError.
Proof.
  intros H. unfold py_pow. rewrite is_integral_IZR.
  destruct (Req_dec_T 0 0) as [_|Hv]; [|lra].
  apply Z.ltb_lt in H. by rewrite H.
Qed.

(** [math.tanh] stays between -1 and 1. *)
Lemma tanh_range x : (-1 <= Rtrigo_def.tanh x <= 1)%R.
Proof.
  unfold Rtrigo_def.tanh, sinh, cosh.
  pose proof (exp_pos x) as Ha. pose proof (exp_pos (- x)) as Hb.
  set (a := Rtrigo_def.exp x) in *. set (b := Rtrigo_def.exp (- x)) in *.
  assert (E : ((a - b) / 2 / ((a + b) / 2) = 1 - 2 * b / (a + b))%R) by (field; lra).
  rewrite E.
  assert (0 < b / (a + b) < 1)%R.
  { split.
    - apply Rdiv_lt_0_compat; lra.
    - apply (Rmult_lt_reg_r (a + b)); [lra|].
      unfold Rdiv. rewrite Rmult_assoc, Rinv_l by lra. lra. }
  unfold Rdiv in *. rewrite Rmult_assoc. lra.
Qed.

Lemma py_max0_Rmax x : py_max0 x = Rmax 0 x.
Proof.
  unfold py_max0, Rmax. destruct (Rlt_dec 0 x), (Rle_dec 0 x); lra.
Qed.

(** * Running the constructors *)

Lemma bind_Ok {A B} (m : M A) (k : A → M B) σ a σ1 :
  m σ = (Ok a, σ1) → bind m k σ = k a σ1.
Proof. intros H. unfold bind. by rewrite H. Qed.

Lemma bind_Raise {A B} (m : M A) (k : A → M B) σ e σ1 :
  m σ = (Raise e, σ1) → bind m k σ = (Raise e, σ1).
Proof. intros H. unfold bind. by rewrite H. Qed.

Lemma alter_app_last (f : Value_obj → Value_obj) (σ : store) nd :
  alter f (length σ) (σ ++ [nd]) = σ ++ [f nd].
Proof.
  rewrite <- (Nat.add_0_r (length σ)). by rewrite alter_app_r.
Qed.

Lemma get_num_run σ v x : data (deref σ v) = PNum x → get_num v σ = (Ok x, σ).
Proof. intros H. unfold get_num. by rewrite H. Qed.

Lemma get_num_None σ v : data (deref σ v) = PNone → get_num v σ = (Raise TypeError, σ).
Proof. intros H. unfold get_num. by rewrite H. Qed.

(** The two statements every method ends with: [out = Value(...)] and
    [out._backward = _backward]. *)
Lemma new_node_run d ch op (b : node_id → closure) σ :
  (out <- Value d ch op ;; set_backward out (b out) ;;; ret out) σ =
    (Ok (length σ), σ ++ [mkValue d 0 EmptyString ch (b (length σ)) op]).
Proof.
  unfold bind, Value, set_backward, ret. by rewrite alter_app_last.
Qed.

Lemma linear_run σ self :
  linear self σ =
    (Ok (length σ),
     σ ++ [mkValue (data (deref σ self)) 0 EmptyString [self]
             (BLinear self (length σ)) OpLinear]).
Proof.
  unfold linear. rewrite (bind_Ok _ _ σ (data (deref σ self)) σ) by done.
  apply (new_node_run _ _ _ (λ out, BLinear self out)).
Qed.

Lemma tanh_run σ self x :
  data (deref σ self) = PNum x →
  tanh self σ =
    (Ok (length σ),
     σ ++ [mkValue (PNum (Rtrigo_def.tanh x)) 0 EmptyString [self]
             (BTanh self (length σ) (Rtrigo_def.tanh x)) OpTanh]).
Proof.
  intros H. unfold tanh. rewrite (bind_Ok _ _ σ x σ) by by apply get_num_run.
  apply (new_node_run _ _ _ (λ out, BTanh self out _)).
Qed.

Lemma leaky_relu_run σ self alpha x :
  data (deref σ self) = PNum x →
  leaky_relu self alpha σ =
    (Ok (length σ),
     σ ++ [mkValue (PNum (if Rlt_dec 0 x then x else x * alpha)) 0 EmptyString
             [self] (BLeakyRelu self (length σ) alpha) OpLeakyRelu]).
Proof.
  intros H. unfold leaky_relu.
  rewrite (bind_Ok _ _ σ x σ) by by apply get_num_run.
  apply (new_node_run _ _ _ (λ out, BLeakyRelu self out alpha)).
Qed.

Lemma relu_run σ self x :
  data (deref σ self) = PNum x →
  relu self σ =
    (Ok (length σ),
     σ ++ [mkValue (PNum (py_max0 x)) 0 EmptyString [self]
             (BRelu self (length σ) (py_max0 x)) OpRelu]).
Proof.
  intros H. unfold relu. rewrite (bind_Ok _ _ σ x σ) by by apply get_num_run.
  apply (new_node_run _ _ _ (λ out, BRelu self out _)).
Qed.

Lemma exp_pos_ne x : (1 + Rtrigo_def.exp x)%R ≠ 0%R.
Proof. pose proof (exp_pos x). lra. Qed.

Lemma sigmoid_run σ self x :
  data (deref σ self) = PNum x → in_range (Rtrigo_def.exp (- x)) →
  let s := (1 / (1 + Rtrigo_def.exp (- x)))%R in
  sigmoid self σ =
    (Ok (length σ),
     σ ++ [mkValue (PNum s) 0 EmptyString [self]
             (BSigmoid self (length σ) s) OpSigmoid]).
Proof.
  intros H Hr s. unfold sigmoid.
  rewrite (bind_Ok _ _ σ x σ) by by apply get_num_run.
  rewrite (bind_Ok _ _ σ (Rtrigo_def.exp (- x)) σ)
    by (unfold lift; by rewrite math_exp_Ok).
  rewrite (bind_Ok _ _ σ s σ).
  - apply (new_node_run _ _ _ (λ out, BSigmoid self out _)).
  - unfold lift, py_div. destruct (Req_dec_T _ 0) as [H0|_]; [|done].
    by apply exp_pos_ne in H0.
Qed.

(** [math.exp(-x)] out of range: [sigmoid] raises and builds nothing. *)
Lemma sigmoid_raise σ self x :
  data (deref σ self) = PNum x → ¬ in_range (Rtrigo_def.exp (- x)) →
  sigmoid self σ = (Raise OverflowError, σ).
Proof.
  intros H Hr. unfold sigmoid.
  rewrite (bind_Ok _ _ σ x σ) by by apply get_num_run.
  apply bind_Raise. unfold lift. by rewrite math_exp_Raise.
Qed.

Lemma exp_run σ self x :
  data (deref σ self) = PNum x → in_range (Rtrigo_def.exp x) →
  exp self σ =
    (Ok (length σ),
     σ ++ [mkValue (PNum (Rtrigo_def.exp x)) 0 EmptyString [self]
             (BExp self (length σ) (Rtrigo_def.exp x)) OpExp]).
Proof.
  intros H Hr. unfold exp. rewrite (bind_Ok _ _ σ x σ) by by apply get_num_run.
  rewrite (bind_Ok _ _ σ (Rtrigo_def.exp x) σ)
    by (unfold lift; by rewrite math_exp_Ok).
  apply (new_node_run _ _ _ (λ out, BExp self out _)).
Qed.

(** [math.exp(x)] out of range: [exp] raises and builds nothing. *)
Lemma exp_raise σ self x :
  data (deref σ self) = PNum x → ¬ in_range (Rtrigo_def.exp x) →
  exp self σ = (Raise OverflowError, σ).
Proof.
  intros H Hr. unfold exp.
  rewrite (bind_Ok _ _ σ x σ) by by apply get_num_run.
  apply bind_Raise. unfold lift. by rewrite math_exp_Raise.
Qed.

Lemma add_Value_run σ self other a b :
  data (deref σ self) = PNum a → data (deref σ other) = PNum b →
  __add__ self (OValue other) σ =
    (Ok (length σ),
     σ ++ [mkValue (PNum (a + b)) 0 EmptyString [self; other]
             (BAdd self other (length σ)) OpAdd]).
Proof.
  intros Ha Hb. unfold __add__, promote.
  rewrite (bind_Ok _ _ σ other σ) by done.
  rewrite (bind_Ok _ _ σ a σ) by by apply get_num_run.
  rewrite (bind_Ok _ _ σ b σ) by by apply get_num_run.
  apply (new_node_run _ _ _ (λ out, BAdd self other out)).
Qed.

Lemma mul_Value_run σ self other a b :
  data (deref σ self) = PNum a → data (deref σ other) = PNum b →
  __mul__ self (OValue other) σ =
    (Ok (length σ),
     σ ++ [mkValue (PNum (a * b)) 0 EmptyString [self; other]
             (BMul self other (length σ)) OpMul]).
Proof.
  intros Ha Hb. unfold __mul__, promote.
  rewrite (bind_Ok _ _ σ other σ) by done.
  rewrite (bind_Ok _ _ σ a σ) by by apply get_num_run.
  rewrite (bind_Ok _ _ σ b σ) by by apply get_num_run.
  apply (new_node_run _ _ _ (λ out, BMul self other out)).
Qed.

Lemma length_snoc (σ : store) nd : length (σ ++ [nd]) = S (length σ).
Proof. rewrite length_app. simpl. lia. Qed.

(** With a plain number on the right, the number is first wrapped in a new
    leaf, which takes the next reference; the result takes the one after. *)
Lemma add_num_run σ self a r :
  self < length σ → data (deref σ self) = PNum a →
  __add__ self (ONum r) σ =
    (Ok (S (length σ)),
     σ ++ [leaf (PNum r);
           mkValue (PNum (a + r)) 0 EmptyString [self; length σ]
             (BAdd self (length σ) (S (length σ))) OpAdd]).
Proof.
  intros Hs Ha. unfold __add__, promote.
  rewrite (bind_Ok _ _ σ (length σ) (σ ++ [leaf (PNum r)])) by done.
  rewrite (bind_Ok _ _ _ a (σ ++ [leaf (PNum r)]));
    [|apply get_num_run; by rewrite deref_app_l].
  rewrite (bind_Ok _ _ _ r (σ ++ [leaf (PNum r)]));
    [|apply get_num_run; by rewrite deref_app_new].
  rewrite (new_node_run _ _ _ (λ out, BAdd self (length σ) out)).
  by rewrite length_snoc, <- app_assoc.
Qed.

Lemma mul_num_run σ self a r :
  self < length σ → data (deref σ self) = PNum a →
  __mul__ self (ONum r) σ =
    (Ok (S (length σ)),
     σ ++ [leaf (PNum r);
           mkValue (PNum (a * r)) 0 EmptyString [self; length σ]
             (BMul self (length σ) (S (length σ))) OpMul]).
Proof.
  intros Hs Ha. unfold __mul__, promote.
  rewrite (bind_Ok _ _ σ (length σ) (σ ++ [leaf (PNum r)])) by done.
  rewrite (bind_Ok _ _ _ a (σ ++ [leaf (PNum r)]));
    [|apply get_num_run; by rewrite deref_app_l].
  rewrite (bind_Ok _ _ _ r (σ ++ [leaf (PNum r)]));
    [|apply get_num_run; by rewrite deref_app_new].
  rewrite (new_node_run _ _ _ (λ out, BMul self (length σ) out)).
  by rewrite length_snoc, <- app_assoc.
Qed.

Lemma pow_run σ self x p d :
  data (deref σ self) = PNum x → py_pow x p = Ok d →
  __pow__ self (ONum p) σ =
    (Ok (length σ),
     σ ++ [mkValue (PNum d) 0 EmptyString [self] (BPow self (length σ) p)
             (OpPow p)]).
Proof.
  intros Hx Hp. unfold __pow__. simpl.
  rewrite (bind_Ok _ _ σ tt σ) by done.
  rewrite (bind_Ok _ _ σ x σ) by by apply get_num_run.
  rewrite (bind_Ok _ _ σ d σ) by (unfold lift; by rewrite Hp).
  apply (new_node_run _ _ _ (λ out, BPow self out p)).
Qed.

Lemma pow_raise σ self x p e :
  data (deref σ self) = PNum x → py_pow x p = Raise e →
  __pow__ self (ONum p) σ = (Raise e, σ).
Proof.
  intros Hx Hp. unfold __pow__. simpl.
  rewrite (bind_Ok _ _ σ tt σ) by done.
  rewrite (bind_Ok _ _ σ x σ) by by apply get_num_run.
  apply bind_Raise. unfold lift. by rewrite Hp.
Qed.

(** * Well-formedness is kept by construction *)

Lemma wf_nil : wf [].
Proof. intros i nd Hi. done. Qed.

Lemma wf_snoc σ nd :
  wf σ → Forall (λ c, c < length σ) (_children nd) →
  closure_ok (length σ) (_children nd) (_backward nd) →
  wf (σ ++ [nd]).
Proof.
  intros Hwf Hch Hok i nd' Hi.
  destruct (decide (i < length σ)) as [Hlt|Hge].
  - rewrite lookup_app_l in Hi by done. by apply Hwf.
  - rewrite lookup_app_r in Hi by lia.
    destruct (i - length σ) as [|k] eqn:Hk; simpl in Hi; [|done].
    injection Hi as <-. assert (i = length σ) as -> by lia. done.
Qed.

Lemma py_assert_true_bind {A} (k : unit → M A) σ :
  bind (py_assert true) k σ = k tt σ.
Proof. done. Qed.

Lemma py_assert_false_bind {A} (k : unit → M A) σ :
  bind (py_assert false) k σ = (Raise AssertionError, σ).
Proof. done. Qed.

(** * Constructors keep the store well-formed *)

Lemma built_raise σ e : wf σ → built σ (Raise e, σ).
Proof. intros Hwf. split; [done|]. split; [done|]. intros v Hv. done. Qed.

Lemma built_bind σ (m : M node_id) (k : node_id → M node_id) :
  built σ (m σ) →
  (∀ v σ1, m σ = (Ok v, σ1) → built σ1 (k v σ1)) →
  built σ (bind m k σ).
Proof.
  intros (Hwf1 & Hl1 & Hv1) Hk. unfold bind.
  destruct (m σ) as [[v|e] σ1] eqn:Hm; simpl in *.
  - destruct (Hk v σ1 eq_refl) as (Hwf2 & Hl2 & Hv2).
    split; [done|]. split; [lia|done].
  - split; [done|]. split; [done|]. intros v Hv. done.
Qed.

Lemma built_get_num σ self (k : R → M node_id) :
  wf σ → (∀ x, data (deref σ self) = PNum x → built σ (k x σ)) →
  built σ (bind (get_num self) k σ).
Proof.
  intros Hwf Hk. unfold bind, get_num.
  destruct (data (deref σ self)) as [x|]; [by apply Hk|by apply built_raise].
Qed.

Lemma built_new_node σ d ch op (b : node_id → closure) :
  wf σ → Forall (λ c, c < length σ) ch → closure_ok (length σ) ch (b (length σ)) →
  built σ ((out <- Value d ch op ;; set_backward out (b out) ;;; ret out) σ).
Proof.
  intros Hwf Hch Hok. rewrite new_node_run.
  split; [by apply wf_snoc|]. simpl. rewrite length_snoc.
  split; [lia|]. intros v [= <-]. lia.
Qed.

Lemma built_Value σ d ch op :
  wf σ → Forall (λ c, c < length σ) ch → built σ (Value d ch op σ).
Proof.
  intros Hwf Hch. unfold Value.
  split; [by apply wf_snoc|]. simpl. rewrite length_snoc.
  split; [lia|]. intros v [= <-]. lia.
Qed.

Lemma built_promote σ other :
  wf σ → operand_ok σ other → built σ (promote other σ).
Proof.
  intros Hwf Ho. destruct other; simpl in *.
  - by apply built_Value.
  - split; [done|]. split; [done|]. by intros ? [= <-].
  - by apply built_Value.
Qed.

Lemma built_promote_number σ other :
  wf σ → operand_ok σ other → built σ (promote_number other σ).
Proof.
  intros Hwf Ho. destruct other; simpl in *.
  - by apply built_Value.
  - split; [done|]. split; [done|]. by intros ? [= <-].
  - by apply built_raise.
Qed.

Lemma built_add σ self other :
  wf σ → self < length σ → operand_ok σ other → built σ (__add__ self other σ).
Proof.
  intros Hwf Hs Ho. unfold __add__.
  apply built_bind; [by apply built_promote|]. intros o σ1 Hp.
  destruct (built_promote σ other Hwf Ho) as (Hwf1 & Hl1 & Hv1).
  rewrite Hp in *. simpl in *. specialize (Hv1 o eq_refl).
  apply built_get_num; [done|]. intros a _.
  apply built_get_num; [done|]. intros b _.
  apply (built_new_node σ1 _ _ _ (λ out, BAdd self o out)); [done| |done].
  repeat constructor; lia.
Qed.

Lemma built_mul σ self other :
  wf σ → self < length σ → operand_ok σ other → built σ (__mul__ self other σ).
Proof.
  intros Hwf Hs Ho. unfold __mul__.
  apply built_bind; [by apply built_promote|]. intros o σ1 Hp.
  destruct (built_promote σ other Hwf Ho) as (Hwf1 & Hl1 & Hv1).
  rewrite Hp in *. simpl in *. specialize (Hv1 o eq_refl).
  apply built_get_num; [done|]. intros a _.
  apply built_get_num; [done|]. intros b _.
  apply (built_new_node σ1 _ _ _ (λ out, BMul self o out)); [done| |done].
  repeat constructor; lia.
Qed.

Lemma built_pow σ self power :
  wf σ → self < length σ → built σ (__pow__ self power σ).
Proof.
  intros Hwf Hs. unfold __pow__.
  destruct power as [p| |]; cbn [is_number];
    rewrite ?py_assert_true_bind, ?py_assert_false_bind;
    try by apply built_raise.
  apply built_get_num; [done|]. intros x _.
  unfold bind at 1, lift. destruct (py_pow x p) as [d|e]; [|by apply built_raise].
  apply (built_new_node σ _ _ _ (λ out, BPow self out p)); [done| |done].
  repeat constructor; lia.
Qed.

Lemma built_unary σ self (f : R → outcome R) op (b : R → node_id → closure) :
  wf σ → self < length σ →
  (∀ x d out, f x = Ok d → closure_ok out [self] (b d out)) →
  built σ ((x <- get_num self ;;
            data <- lift (f x) ;;
            out <- Value (PNum data) [self] op ;;
            set_backward out (b data out) ;;; ret out) σ).
Proof.
  intros Hwf Hs Hok. apply built_get_num; [done|]. intros x _.
  unfold bind at 1, lift. destruct (f x) as [d|e] eqn:Hf; [|by apply built_raise].
  apply (built_new_node σ _ _ _ (b d)); [done| |by apply (Hok x)].
  repeat constructor; lia.
Qed.

(** Every constructor, called with references into a well-formed store,
    leaves a well-formed store. *)
Lemma construct_built σ c : wf σ → method_ok σ c → built σ (construct c σ).
Proof.
  intros Hwf Hc. destruct c; cbn [construct method_ok] in *;
    try destruct Hc as [Hs Ho].
  - by apply built_Value.
  - unfold linear. unfold bind at 1, get_data.
    apply (built_new_node σ _ _ _ (λ out, BLinear self out)); [done| |done].
    repeat constructor; lia.
  - apply (built_unary σ self (λ x, Ok (Rtrigo_def.tanh x)) OpTanh
             (λ d out, BTanh self out d)); [done|done|].
    intros x d out [= <-]. split; [done|apply tanh_range].
  - apply (built_unary σ self (λ x, Ok (if Rlt_dec 0 x then x else x * alpha)%R)
             OpLeakyRelu (λ _ out, BLeakyRelu self out alpha)); done.
  - apply (built_unary σ self (λ x, Ok (py_max0 x)) OpRelu
             (λ d out, BRelu self out d)); done.
  - unfold sigmoid. apply built_get_num; [done|]. intros x _.
    unfold bind at 1, lift. destruct (math_exp (- x)) as [e|e]; [|by apply built_raise].
    unfold bind at 1. destruct (py_div 1 (1 + e)) as [d|e']; [|by apply built_raise].
    apply (built_new_node σ _ _ _ (λ out, BSigmoid self out d)); [done| |done].
    repeat constructor; lia.
  - apply (built_unary σ self math_exp OpExp (λ d out, BExp self out d)); done.
  - by apply built_add.
  - by apply built_mul.
  - by apply built_pow.
  - unfold __radd__. destruct (is_number other);
      rewrite ?py_assert_true_bind, ?py_assert_false_bind;
      [by apply built_add|by apply built_raise].
  - unfold __rmul__. destruct (is_number other);
      rewrite ?py_assert_true_bind, ?py_assert_false_bind;
      [by apply built_mul|by apply built_raise].
  - by apply built_mul.
  - unfold __sub__. destruct (is_number_or_Value other);
      rewrite ?py_assert_true_bind, ?py_assert_false_bind;
      [|by apply built_raise].
    apply built_bind; [by apply built_promote_number|]. intros o σ1 Hp.
    destruct (built_promote_number σ other Hwf Ho) as (Hwf1 & Hl1 & Hv1).
    rewrite Hp in *. simpl in *. specialize (Hv1 o eq_refl).
    apply built_bind; [by apply built_mul|]. intros n σ2 Hn.
    destruct (built_mul σ1 o (ONum (-1)) Hwf1 Hv1 I) as (Hwf2 & Hl2 & Hv2).
    unfold __neg__ in Hn. rewrite Hn in *. simpl in *. specialize (Hv2 n eq_refl).
    destruct (built_add σ2 self (OValue n) Hwf2 ltac:(lia) Hv2) as (Hwf3 & Hl3 & Hv3).
    split; [done|]. split; [lia|done].
  - unfold __rsub__, __sub__. destruct (is_number_or_Value other);
      rewrite ?py_assert_true_bind, ?py_assert_false_bind;
      [|by apply built_raise].
    apply built_bind; [by apply built_promote_number|]. intros o σ1 Hp.
    destruct (built_promote_number σ other Hwf Ho) as (Hwf1 & Hl1 & Hv1).
    rewrite Hp in *. simpl in *. specialize (Hv1 o eq_refl).
    apply built_bind; [by apply built_mul|]. intros n σ2 Hn.
    destruct (built_mul σ1 o (ONum (-1)) Hwf1 Hv1 I) as (Hwf2 & Hl2 & Hv2).
    unfold __neg__ in Hn. rewrite Hn in *. simpl in *. specialize (Hv2 n eq_refl).
    destruct (built_add σ2 self (OValue n) Hwf2 ltac:(lia) Hv2) as (Hwf3 & Hl3 & Hv3).
    split; [done|]. split; [lia|done].
  - unfold __truediv__. destruct (is_number_or_Value other);
      rewrite ?py_assert_true_bind, ?py_assert_false_bind;
      [|by apply built_raise].
    apply built_bind; [by apply built_promote_number|]. intros o σ1 Hp.
    destruct (built_promote_number σ other Hwf Ho) as (Hwf1 & Hl1 & Hv1).
    rewrite Hp in *. simpl in *. specialize (Hv1 o eq_refl).
    apply built_bind; [by apply built_pow|]. intros n σ2 Hn.
    destruct (built_pow σ1 o (ONum (-1)) Hwf1 Hv1) as (Hwf2 & Hl2 & Hv2).
    rewrite Hn in *. simpl in *. specialize (Hv2 n eq_refl).
    destruct (built_mul σ2 self (OValue n) Hwf2 ltac:(lia) Hv2) as (Hwf3 & Hl3 & Hv3).
    split; [done|]. split; [lia|done].
Qed.

(** * The head of the processing order *)

Lemma topo_last σ root nodes :
  topo σ root = Some nodes → ∃ rest, nodes = rest ++ [root].
Proof.
  unfold topo. rewrite build_graph_S. simpl.
  destruct (visit_children _ _ _) as [[vis ns]|]; [|done].
  simpl. intros [= <-]. by exists ns.
Qed.

(** [backward] seeds the root, calls the root's closure, and then the
    closures of objects strictly below the root. *)
Lemma backward_head σ root :
  wf σ → root < length σ →
  ∃ rest, backward root σ =
            (set_grad root 1 ;;; local_backward root ;;; run_backwards rest) σ ∧
    ∀ m, m ∈ rest → reach σ root m ∧ m < root.
Proof.
  intros Hwf Hroot.
  destruct (topo_spec σ root Hwf Hroot) as (nodes & Htopo & Hnd & Hreach & _).
  destruct (topo_last σ root nodes Htopo) as (rest & ->).
  exists (reverse rest). rewrite (backward_run σ root _ Htopo), reverse_snoc.
  split; [done|]. intros m Hm. rewrite elem_of_reverse in Hm.
  assert (Hr : reach σ root m) by (apply Hreach, elem_of_app; by left).
  split; [done|]. pose proof (reach_le σ root m Hwf Hr).
  apply NoDup_app in Hnd as (_ & Hdisj & _).
  assert (m ≠ root); [|lia].
  intros ->. apply (Hdisj root Hm). by apply list_elem_of_singleton.
Qed.

(** After the root's closure has run, [backward] only writes to objects
    strictly below some object that is itself strictly below the root. *)
Lemma backward_after_root σ root :
  wf σ → root < length σ →
  grads_changed (λ t, ∃ m, reach σ root m ∧ m < root ∧ t < m)
    (exec (set_grad root 1 ;;; local_backward root) σ)
    (exec (backward root) σ).
Proof.
  intros Hwf Hroot.
  destruct (backward_head σ root Hwf Hroot) as (rest & Hrun & Hrest).
  unfold exec at 2. rewrite Hrun.
  fold (exec (set_grad root 1 ;;; local_backward root ;;; run_backwards rest) σ).
  assert (Hseed : grads_changed (λ t, t = root) σ (exec (set_grad root 1) σ)).
  { by apply preserves_set_grad. }
  pose proof (grads_changed_wf _ _ _ Hseed Hwf) as Hwf1.
  pose proof (local_backward_frame _ root Hwf1) as Hlb.
  pose proof (grads_changed_wf _ _ _ Hlb Hwf1) as Hwf2.
  rewrite (exec_bind (set_grad root 1) (λ _, local_backward root)).
  rewrite (exec_bind (set_grad root 1)
             (λ _, local_backward root ;;; run_backwards rest)).
  cbn [result set_grad fst]. rewrite exec_bind.
  destruct (result (local_backward root) _) as [[]|e]; [|apply grads_changed_refl].
  eapply grads_changed_weaken; [|by apply run_backwards_frame].
  intros t (m & Hm & Ht). destruct (Hrest m Hm) as [Hr Hlt].
  exists m. split; [done|]. split; [done|].
  apply (wf_children_lt _ m t Hwf2 Ht).
Qed.

(** * The processing order of [backward] *)

Lemma reverse_postorder σ nodes i p c :
  postorder σ nodes → reverse nodes !! i = Some p → c ∈ children_of σ p →
  ∃ j, i < j ∧ reverse nodes !! j = Some c.
Proof.
  intros Hpo Hi Hc. apply reverse_lookup_Some in Hi as [Hi Hlt].
  destruct (Hpo _ p c Hi Hc) as (j' & Hj' & Hjc).
  exists (length nodes - S j'). split; [lia|].
  apply reverse_lookup_Some. split; [|lia].
  by replace (length nodes - S (length nodes - S j')) with j' by lia.
Qed.

Lemma set_grad_wf σ v g : wf σ → wf (exec (set_grad v g) σ).
Proof.
  intros Hwf. eapply grads_changed_wf; [|done].
  by apply (preserves_set_grad (λ t, t = v)).
Qed.



(** C9.  On a well-formed store, [backward] from [root] keeps the number of
    objects, leaves every object that is not reachable from [root] as it
    was, and changes nothing but [grad] in the reachable ones: [data],
    [_children], [_operation], [label] and the installed closure stay. *)
Theorem backward_changes_reachable_grads_only σ root :
  wf σ → root < length σ →
  length (exec (backward root) σ) = length σ ∧
  (∀ i, ¬ reach σ root i → exec (backward root) σ !! i = σ !! i) ∧
  (∀ i, data (deref (exec (backward root) σ) i) = data (deref σ i) ∧
        _children (deref (exec (backward root) σ) i) = _children (deref σ i) ∧
        _operation (deref (exec (backward root) σ) i) = _operation (deref σ i) ∧
        label (deref (exec (backward root) σ) i) = label (deref σ i) ∧
        _backward (deref (exec (backward root) σ) i) = _backward (deref σ i)).
Proof.
  intros Hwf Hroot. destruct (backward_frame σ root Hwf Hroot) as [Hl H].
  split; [done|]. split.
  - intros i Hi. destruct (H i) as (g & E & Hg).
    destruct (decide (i < length σ)) as [Hlt|Hge].
    + rewrite !lookup_deref by lia. rewrite E, (Hg Hi). by rewrite with_grad_same.
    + rewrite !lookup_ge_None_2 by lia. done.
  - intros i. destruct (H i) as (g & -> & _). done.
Qed.

(** * Constructors never touch a [grad] *)

Lemma grads_kept_refl σ : grads_kept σ σ.
Proof.
  split; [done|]. split; [done|]. intros i Hi. by rewrite deref_dangling.
Qed.

Lemma grads_kept_trans σ1 σ2 σ3 :
  grads_kept σ1 σ2 → grads_kept σ2 σ3 → grads_kept σ1 σ3.
Proof.
  intros (Hl1 & Ho1 & Hn1) (Hl2 & Ho2 & Hn2). split; [lia|]. split.
  - intros i Hi. rewrite Ho2 by lia. by apply Ho1.
  - intros i Hi. destruct (decide (i < length σ2)).
    + rewrite Ho2 by done. by apply Hn1.
    + apply Hn2. lia.
Qed.

Lemma preserves_Value d ch op : preserves grads_kept (Value d ch op).
Proof.
  intros σ. unfold exec, Value. simpl. split; [rewrite length_snoc; lia|]. split.
  - intros i Hi. by rewrite deref_app_l.
  - intros i Hi. destruct (decide (i = length σ)) as [->|Hne].
    + by rewrite deref_app_new.
    + rewrite deref_dangling; [done|]. rewrite length_snoc. lia.
Qed.

Lemma preserves_set_backward v b : preserves grads_kept (set_backward v b).
Proof.
  intros σ. unfold exec, set_backward. simpl.
  split; [by rewrite length_alter|].
  assert (H : ∀ i, grad (deref (alter (with_backward b) v σ) i) = grad (deref σ i)).
  { intros i. rewrite deref_alter. case_decide as Hi; [|done]. by destruct Hi as [-> _]. }
  split; intros i Hi; rewrite H; [done|]. by rewrite deref_dangling.
Qed.

#[local] Hint Resolve preserves_Value preserves_set_backward : preserves.

Ltac grads_kept_steps :=
  pose proof grads_kept_trans; preserves_steps.

Lemma preserves_promote other : preserves grads_kept (promote other).
Proof. destruct other; simpl; auto using grads_kept_refl with preserves. Qed.

Lemma preserves_promote_number other :
  preserves grads_kept (promote_number other).
Proof. destruct other; simpl; auto using grads_kept_refl with preserves. Qed.

#[local] Hint Resolve grads_kept_refl preserves_promote preserves_promote_number
  : preserves.

Lemma preserves_add self other : preserves grads_kept (__add__ self other).
Proof. unfold __add__. grads_kept_steps. Qed.

Lemma preserves_mul self other : preserves grads_kept (__mul__ self other).
Proof. unfold __mul__. grads_kept_steps. Qed.

Lemma preserves_pow self power : preserves grads_kept (__pow__ self power).
Proof. unfold __pow__. destruct power; grads_kept_steps. Qed.

#[local] Hint Resolve preserves_add preserves_mul preserves_pow : preserves.

(** No constructor changes the [grad] of an object that exists, and every
    object it adds starts with [grad] 0. *)
Lemma construct_grads_kept c : preserves grads_kept (construct c).
Proof.
  destruct c; cbn [construct];
    unfold linear, tanh, leaky_relu, relu, sigmoid, exp, __radd__, __rmul__,
      __neg__, __sub__, __rsub__, __sub__, __truediv__, __neg__;
    grads_kept_steps.
Qed.

(** * Accumulation across calls of [backward] *)


Lemma shifted_add_grad n c σ :
  n < length σ → shifted n c σ (exec (add_grad n c) σ).
Proof.
  intros Hn. unfold exec, add_grad. simpl. split; [apply length_alter|].
  intros i. rewrite deref_alter. case_decide as Hi.
  - destruct Hi as [-> _]. exists (grad (deref σ i) + c)%R. split; [done|].
    split; [lia|done].
  - exists (grad (deref σ i)). rewrite with_grad_same. split; [done|].
    split; [done|]. intros ->. destruct Hi. done.
Qed.


(** [backward] leaves 1 in the [grad] of its root, whatever was there. *)
Lemma backward_seed σ root :
  wf σ → root < length σ → grad (deref (exec (backward root) σ) root) = 1%R.
Proof.
  intros Hwf Hroot.
  destruct (backward_after_root σ root Hwf Hroot) as [_ H].
  destruct (H root) as (g & -> & Hg). simpl. rewrite Hg by (intros (m & _ & ? & ?); lia).
  rewrite exec_bind. cbn [result set_grad fst].
  set (σs := exec (set_grad root 1) σ).
  assert (Hwfs : wf σs) by by apply set_grad_wf.
  destruct (local_backward_frame σs root Hwfs) as [_ Hlb].
  destruct (Hlb root) as (g' & -> & Hg'). simpl. rewrite Hg'.
  - unfold σs, exec, set_grad. simpl. by rewrite deref_alter_eq.
  - intros Hc. apply (wf_children_lt σs root root Hwfs) in Hc. lia.
Qed.



(** C4, as the code has it.  No constructor changes the [grad] of an
    existing object, and a new object starts at 0.  [backward] from [root]
    only adds to the [grad] of every object other than [root]: had [n.grad]
    been larger by [c] before the call, it is larger by [c] after it.  The
    one assignment is the seed: [root.grad] is 1 after the call, whatever
    [root] had accumulated. *)
Theorem grad_accumulated_except_seed σ root n c k :
  wf σ → root < length σ → n < length σ → n ≠ root →
  grads_kept σ (exec (construct k) σ) ∧
  grad (deref (exec (backward root) (exec (add_grad n c) σ)) n) =
    (grad (deref (exec (backward root) σ) n) + c)%R ∧
  grad (deref (exec (backward root) σ) root) = 1%R ∧
  grad (deref (exec (backward root) (exec (add_grad root c) σ)) root) = 1%R.
Proof.
  intros Hwf Hroot Hn Hne. split; [apply construct_grads_kept|]. split; [|split].
  - destruct (backward_shifted n c root σ (exec (add_grad n c) σ))
      as [_ Hsh]; [done|done|by apply shifted_add_grad|].
    by rewrite (shifted_grad_at _ _ _ _ Hsh).
  - by apply backward_seed.
  - apply backward_seed.
    + eapply grads_changed_wf; [|done].
      by apply (preserves_add_grad (λ t, t = root)).
    + unfold exec, add_grad. simpl. by rewrite length_alter.
Qed.

(** * One operation, then [backward] from its result *)

Lemma reach_below σ v m :
  reach σ v m → m ≠ v → ∃ c, c ∈ children_of σ v ∧ reach σ c m.
Proof. destruct 1 as [|v c w Hc Hr]; [done|]. intros _. by exists c. Qed.

(** The [grad] of an object that is at or above every child of the root is
    final once the root's closure has run. *)
Lemma backward_grad_top σ root t :
  wf σ → root < length σ → (∀ c, c ∈ children_of σ root → c ≤ t) →
  grad (deref (exec (backward root) σ) t) =
  grad (deref (exec (set_grad root 1 ;;; local_backward root) σ) t).
Proof.
  intros Hwf Hroot Ht.
  destruct (backward_after_root σ root Hwf Hroot) as [_ H].
  destruct (H t) as (g & -> & Hg). simpl. apply Hg.
  intros (m & Hr & Hm & Htm).
  destruct (reach_below σ root m Hr) as (c & Hc & Hcm); [lia|].
  pose proof (reach_le σ c m Hwf Hcm). pose proof (Ht c Hc). lia.
Qed.

Lemma seed_then_root (σ : store) nd :
  exec (set_grad (length σ) 1 ;;; local_backward (length σ)) (σ ++ [nd]) =
  exec (call_closure (_backward nd)) (σ ++ [with_grad 1 nd]).
Proof.
  rewrite exec_bind. cbn [result set_grad fst]. unfold exec at 2. cbn [set_grad snd].
  rewrite alter_app_last. unfold exec. rewrite local_backward_run.
  by rewrite deref_app_new.
Qed.

Lemma children_of_new (σ : store) nd : children_of (σ ++ [nd]) (length σ) = _children nd.
Proof. unfold children_of. by rewrite deref_app_new. Qed.

Lemma gt0_py_max0 x : gt0 (py_max0 x) = (if Rlt_dec 0 x then 1 else 0)%R.
Proof.
  unfold gt0, py_max0. destruct (Rlt_dec 0 x) as [H|H].
  - destruct (Rlt_dec 0 x); [done|lra].
  - destruct (Rlt_dec 0 0); [lra|done].
Qed.

(** C8.  For an object [a] holding the number [x], [a.relu()] holds
    [max(0, x)], and [backward] from it adds to [a.grad] 1 when [x > 0] and
    0 otherwise, so exactly 0 at [x = 0]: the closure tests the output
    [max(0, x)], which is positive exactly when [x] is. *)
Theorem relu_forward_and_gradient σ a x :
  wf σ → a < length σ → data (deref σ a) = PNum x →
  ∃ σ', relu a σ = (Ok (length σ), σ') ∧
    data (deref σ' (length σ)) = PNum (Rmax 0 x) ∧
    grad (deref (exec (backward (length σ)) σ') a) =
      (grad (deref σ a) + (if Rlt_dec 0 x then 1 else 0))%R ∧
    (x = 0%R → grad (deref (exec (backward (length σ)) σ') a) = grad (deref σ a)).
Proof.
  intros Hwf Ha Hx. eexists. split; [by apply relu_run|].
  set (nd := mkValue _ _ _ _ _ _).
  assert (Hwf' : wf (σ ++ [nd])).
  { apply wf_snoc; [done|by apply Forall_singleton|done]. }
  assert (Hg : grad (deref (exec (backward (length σ)) (σ ++ [nd])) a) =
               (grad (deref σ a) + (if Rlt_dec 0 x then 1 else 0))%R).
  { rewrite backward_grad_top; [|done|rewrite length_snoc; lia|].
    - rewrite seed_then_root. unfold nd, exec. simpl.
      rewrite deref_app_new. simpl.
      rewrite deref_alter_eq by (rewrite length_snoc; lia).
      simpl. rewrite deref_app_l by done. rewrite gt0_py_max0.
      destruct (Rlt_dec 0 x); lra.
    - rewrite children_of_new. simpl. intros c Hc.
      apply list_elem_of_singleton in Hc as ->. done. }
  split; [|split; [done|]].
  - rewrite deref_app_new. simpl. by rewrite py_max0_Rmax.
  - intros ->. rewrite Hg. destruct (Rlt_dec 0 0); lra.
Qed.

(** * Promotion of a plain number *)

Lemma data_add_grad σ v d i :
  data (deref (exec (add_grad v d) σ) i) = data (deref σ i).
Proof.
  unfold exec, add_grad. simpl. rewrite deref_alter.
  case_decide as Hi; [|done]. by destruct Hi as [-> _].
Qed.

Lemma grad_add_grad σ v d i :
  v < length σ →
  grad (deref (exec (add_grad v d) σ) i) =
    if decide (v = i) then (grad (deref σ i) + d)%R else grad (deref σ i).
Proof.
  intros Hv. unfold exec, add_grad. simpl. rewrite deref_alter.
  destruct (decide (v = i)) as [->|Hne].
  - by rewrite decide_True.
  - rewrite decide_False; [done|]. intros [? _]. done.
Qed.

Lemma call_BAdd_exec τ s o out :
  exec (call_closure (BAdd s o out)) τ =
    exec (add_grad o (grad (deref (exec (add_grad s (grad (deref τ out) * 1)) τ) out) * 1))
      (exec (add_grad s (grad (deref τ out) * 1)) τ).
Proof. done. Qed.

Lemma call_BMul_exec τ s o out x y :
  data (deref τ s) = PNum x → data (deref τ o) = PNum y →
  exec (call_closure (BMul s o out)) τ =
    exec (add_grad o (grad (deref (exec (add_grad s (grad (deref τ out) * y)) τ) out) * x))
      (exec (add_grad s (grad (deref τ out) * y)) τ).
Proof.
  intros Hx Hy. unfold call_closure, exec at 1.
  rewrite (bind_Ok _ _ τ (grad (deref τ out)) τ) by done.
  rewrite (bind_Ok _ _ τ y τ) by by apply get_num_run.
  set (τ1 := exec (add_grad s (grad (deref τ out) * y)) τ).
  rewrite (bind_Ok _ _ τ tt τ1) by done.
  rewrite (bind_Ok _ _ τ1 (grad (deref τ1 out)) τ1) by done.
  rewrite (bind_Ok _ _ τ1 x τ1); [done|].
  apply get_num_run. unfold τ1. by rewrite data_add_grad.
Qed.

Lemma snoc2 (σ : store) n1 n2 : σ ++ [n1; n2] = (σ ++ [n1]) ++ [n2].
Proof. by rewrite <- app_assoc. Qed.

Lemma two_new_deref_0 (σ : store) n1 n2 : deref ((σ ++ [n1]) ++ [n2]) (length σ) = n1.
Proof. rewrite deref_app_l by (rewrite length_snoc; lia). apply deref_app_new. Qed.

Lemma two_new_deref_1 (σ : store) n1 n2 :
  deref ((σ ++ [n1]) ++ [n2]) (S (length σ)) = n2.
Proof. rewrite <- (length_snoc σ n1). apply deref_app_new. Qed.


(** [a - r] and, through [__rsub__], [r - a] as well: a leaf for [r], a
    leaf for [-1], their product, and the sum of [a] and that product. *)
Lemma sub_num_run σ a x r :
  a < length σ → data (deref σ a) = PNum x →
  __sub__ a (ONum r) σ =
    (Ok (length σ + 3),
     σ ++ [leaf (PNum r); leaf (PNum (-1));
           mkValue (PNum (r * -1)) 0 EmptyString [length σ; S (length σ)]
             (BMul (length σ) (S (length σ)) (S (S (length σ)))) OpMul;
           mkValue (PNum (x + r * -1)) 0 EmptyString [a; S (S (length σ))]
             (BAdd a (S (S (length σ))) (length σ + 3)) OpAdd]).
Proof.
  intros Ha Hx. unfold __sub__. cbn [is_number_or_Value].
  rewrite py_assert_true_bind.
  rewrite (bind_Ok _ _ σ (length σ) (σ ++ [leaf (PNum r)])) by done.
  set (σ1 := σ ++ [leaf (PNum r)]).
  assert (L1 : length σ1 = S (length σ)) by apply length_snoc.
  erewrite bind_Ok.
  2:{ unfold __neg__. apply (mul_num_run σ1 (length σ) r (-1)); [lia|].
      unfold σ1. by rewrite deref_app_new. }
  rewrite L1.
  set (σ3 := σ1 ++ _).
  assert (L3 : length σ3 = length σ + 3).
  { unfold σ3. rewrite length_app, L1. simpl. lia. }
  rewrite (add_Value_run σ3 a (S (S (length σ))) x (r * -1)).
  - rewrite L3. unfold σ3, σ1. by rewrite <- !app_assoc.
  - unfold σ3. rewrite deref_app_l by lia. unfold σ1. by rewrite deref_app_l.
  - unfold σ3. rewrite snoc2. by rewrite <- L1, <- (length_snoc σ1 (leaf (PNum (-1)))), deref_app_new.
Qed.



(** * A chain of two operations on a leaf *)

Lemma length_add_grad σ v d : length (exec (add_grad v d) σ) = length σ.
Proof. unfold exec, add_grad. simpl. apply length_alter. Qed.

Lemma length_set_grad σ v g : length (exec (set_grad v g) σ) = length σ.
Proof. unfold exec, set_grad. simpl. apply length_alter. Qed.

Lemma deref_set_grad σ v g i :
  v ≠ i → deref (exec (set_grad v g) σ) i = deref σ i.
Proof. intros. unfold exec, set_grad. simpl. by apply deref_alter_ne. Qed.

Lemma deref_set_grad_eq σ v g :
  v < length σ → deref (exec (set_grad v g) σ) v = with_grad g (deref σ v).
Proof. intros. unfold exec, set_grad. simpl. by apply deref_alter_eq. Qed.

Lemma deref_add_grad σ v d i :
  v ≠ i → deref (exec (add_grad v d) σ) i = deref σ i.
Proof. intros. unfold exec, add_grad. simpl. by apply deref_alter_ne. Qed.

Lemma deref_add_grad_eq σ v d :
  v < length σ →
  deref (exec (add_grad v d) σ) v = with_grad (grad (deref σ v) + d) (deref σ v).
Proof. intros. unfold exec, add_grad. simpl. by rewrite deref_alter_eq. Qed.

Lemma three_new_deref_0 (σ : store) n1 n2 n3 :
  deref (((σ ++ [n1]) ++ [n2]) ++ [n3]) (length σ) = n1.
Proof. rewrite deref_app_l by (rewrite !length_snoc; lia). apply two_new_deref_0. Qed.

Lemma three_new_deref_1 (σ : store) n1 n2 n3 :
  deref (((σ ++ [n1]) ++ [n2]) ++ [n3]) (S (length σ)) = n2.
Proof. rewrite deref_app_l by (rewrite !length_snoc; lia). apply two_new_deref_1. Qed.

Lemma three_new_deref_2 (σ : store) n1 n2 n3 :
  deref (((σ ++ [n1]) ++ [n2]) ++ [n3]) (S (S (length σ))) = n3.
Proof. rewrite <- (length_snoc σ n1), <- (length_snoc _ n2). apply deref_app_new. Qed.

(** The traversal of a chain [v2 -> v1 -> v0]. *)
Lemma topo_chain3 σ v0 v1 v2 :
  children_of σ v2 = [v1] → children_of σ v1 = [v0] → children_of σ v0 = [] →
  v0 ≠ v1 → v1 ≠ v2 → v0 ≠ v2 → 2 ≤ length σ →
  topo σ v2 = Some [v0; v1; v2].
Proof.
  intros H2 H1 H0 N01 N12 N02 Hlen. unfold topo.
  destruct (length σ) as [|[|n]]; [lia|lia|].
  rewrite build_graph_S, H2. cbn [fst snd].
  rewrite decide_False by (set_unfold; tauto). cbn [visit_children].
  rewrite build_graph_S, H1. cbn [fst snd].
  rewrite decide_False by (set_unfold; intros [?|?]; congruence).
  cbn [visit_children].
  rewrite build_graph_S, H0. cbn [fst snd].
  rewrite decide_False by (set_unfold; intros [?|[?|?]]; congruence).
  cbn [visit_children].
  done.
Qed.

Lemma call_BSigmoid_run τ s o d :
  call_closure (BSigmoid s o d) τ =
    (Ok tt, exec (add_grad s (grad (deref τ o) * d * (1 - d))) τ).
Proof. done. Qed.

Lemma call_BPow_run τ s o p x q :
  data (deref τ s) = PNum x → py_pow x (p - 1) = Ok q →
  call_closure (BPow s o p) τ =
    (Ok tt, exec (add_grad s (grad (deref τ o) * p * q)) τ).
Proof.
  intros Hx Hq. unfold call_closure.
  rewrite (bind_Ok _ _ τ (grad (deref τ o)) τ) by done.
  rewrite (bind_Ok _ _ τ x τ) by by apply get_num_run.
  rewrite (bind_Ok _ _ τ q τ) by (unfold lift; by rewrite Hq).
  done.
Qed.

(** A number whose square is in range is in range. *)
Lemma in_range_of_square x : in_range (x ^ 2) → in_range x.
Proof.
  intros H. destruct (Rle_dec (Rabs x) 1) as [Hle|Hgt].
  - apply in_range_unit. unfold Rabs in Hle. destruct (Rcase_abs x); lra.
  - eapply in_range_le; [|exact H].
    replace (x ^ 2)%R with (x * x)%R by ring. rewrite Rabs_mult.
    pose proof (Rabs_pos x). nra.
Qed.

(** [x ** 2] out of range: the chain stops there with [OverflowError], and
    only the leaf has been built. *)
Lemma chain_stops_out_of_range (σ : store) (x : R) :
  ¬ in_range (x ^ 2) →
  (xv <- Value (PNum x) [] OpLeaf ;;
   y <- __pow__ xv (ONum 2) ;;
   z <- sigmoid y ;;
   backward z ;;;
   ret xv) σ = (Raise OverflowError, σ ++ [leaf (PNum x)]).
Proof.
  intros Hr.
  assert (Hx : x ≠ 0%R).
  { intros ->. apply Hr, in_range_unit. lra. }
  rewrite (bind_Ok _ _ σ (length σ) (σ ++ [leaf (PNum x)])) by done.
  apply bind_Raise. apply (pow_raise _ _ x 2); [by rewrite deref_app_new|].
  by apply (py_pow_int_overflow x 2).
Qed.

Lemma chain_returns_in_range (σ : store) (x : R) :
  in_range (x ^ 2) →
  let s := (1 / (1 + Rtrigo_def.exp (- (x ^ 2))))%R in
  ∃ σ',
    (xv <- Value (PNum x) [] OpLeaf ;;
     y <- __pow__ xv (ONum 2) ;;
     z <- sigmoid y ;;
     backward z ;;;
     ret xv) σ = (Ok (length σ), σ') ∧
    grad (deref σ' (length σ)) = (2 * x * s * (1 - s))%R.
Proof.
  intros Hrange s.
  set (X := leaf (PNum x)).
  set (Y := mkValue (PNum (x ^ 2)) 0 EmptyString [length σ]
              (BPow (length σ) (S (length σ)) 2) (OpPow 2)).
  set (Z := mkValue (PNum s) 0 EmptyString [S (length σ)]
              (BSigmoid (S (length σ)) (S (S (length σ))) s) OpSigmoid).
  set (σ3 := ((σ ++ [X]) ++ [Y]) ++ [Z]).
  assert (Hpow2 : py_pow x 2 = Ok (x ^ 2)%R).
  { by rewrite (py_pow_int x 2) by (done || right; lia). }
  assert (Hpow1 : py_pow x (2 - 1) = Ok x).
  { assert (E : powerRZ x 1 = x) by (simpl; lra).
    replace (2 - 1)%R with (IZR 1) by lra.
    rewrite (py_pow_int x 1); [by rewrite E|right; lia|].
    rewrite E. by apply in_range_of_square. }
  assert (Hexp : in_range (Rtrigo_def.exp (- x ^ 2))).
  { apply in_range_exp_nonpos. pose proof (pow2_ge_0 x). lra. }
  assert (Hlen : length σ3 = S (S (S (length σ)))).
  { unfold σ3. by rewrite !length_snoc. }
  assert (D0 : deref σ3 (length σ) = X) by apply three_new_deref_0.
  assert (D1 : deref σ3 (S (length σ)) = Y) by apply three_new_deref_1.
  assert (D2 : deref σ3 (S (S (length σ))) = Z) by apply three_new_deref_2.
  assert (Htopo : topo σ3 (S (S (length σ))) =
                  Some [length σ; S (length σ); S (S (length σ))]).
  { apply topo_chain3; unfold children_of; rewrite ?D0, ?D1, ?D2; try done; lia. }
  set (τ0 := exec (set_grad (S (S (length σ))) 1) σ3).
  set (τ1 := exec (add_grad (S (length σ)) (grad (deref τ0 (S (S (length σ)))) * s * (1 - s))) τ0).
  set (τ2 := exec (add_grad (length σ) (grad (deref τ1 (S (length σ))) * 2 * x)) τ1).
  assert (L0 : length τ0 = S (S (S (length σ)))) by (unfold τ0; by rewrite length_set_grad).
  assert (L1 : length τ1 = S (S (S (length σ)))) by (unfold τ1; by rewrite length_add_grad).
  assert (E02 : deref τ0 (S (S (length σ))) = with_grad 1 Z).
  { unfold τ0. rewrite deref_set_grad_eq by lia. by rewrite D2. }
  assert (E01 : deref τ0 (S (length σ)) = Y).
  { unfold τ0. rewrite deref_set_grad by lia. done. }
  assert (E00 : deref τ0 (length σ) = X).
  { unfold τ0. rewrite deref_set_grad by lia. done. }
  assert (E11 : deref τ1 (S (length σ)) = with_grad (0 + 1 * s * (1 - s)) Y).
  { unfold τ1. rewrite deref_add_grad_eq by lia. by rewrite E01, E02. }
  assert (E10 : deref τ1 (length σ) = X).
  { unfold τ1. rewrite deref_add_grad by lia. done. }
  assert (E20 : deref τ2 (length σ) = with_grad (0 + (0 + 1 * s * (1 - s)) * 2 * x) X).
  { unfold τ2. rewrite deref_add_grad_eq by lia. by rewrite E10, E11. }
  assert (E21 : deref τ2 (S (length σ)) = deref τ1 (S (length σ))).
  { unfold τ2. rewrite deref_add_grad by lia. done. }
  exists τ2. split.
  - rewrite (bind_Ok _ _ σ (length σ) (σ ++ [X])) by done.
    rewrite (bind_Ok _ _ _ (S (length σ)) ((σ ++ [X]) ++ [Y])).
    2:{ rewrite (pow_run (σ ++ [X]) (length σ) x 2 (x ^ 2)%R);
          [by rewrite length_snoc|by rewrite deref_app_new|done]. }
    rewrite (bind_Ok _ _ _ (S (S (length σ))) σ3).
    2:{ rewrite (sigmoid_run ((σ ++ [X]) ++ [Y]) (S (length σ)) (x ^ 2)%R);
          [by rewrite !length_snoc|by rewrite two_new_deref_1|done]. }
    rewrite (bind_Ok _ _ σ3 tt τ2); [done|].
    rewrite (backward_run σ3 _ _ Htopo). cbn [reverse rev_append run_backwards].
    rewrite (bind_Ok _ _ σ3 tt τ0) by done.
    rewrite (bind_Ok _ _ τ0 tt τ1).
    2:{ rewrite local_backward_run, E02. apply call_BSigmoid_run. }
    rewrite (bind_Ok _ _ τ1 tt τ2).
    2:{ rewrite local_backward_run, E11. cbn [_backward with_grad Y].
        apply (call_BPow_run τ1 _ _ 2 x x); [by rewrite E10|done]. }
    rewrite (bind_Ok _ _ τ2 tt τ2); [done|].
    rewrite local_backward_run, E20. done.
  - rewrite E20. simpl. lra.
Qed.


Lemma in_range_square_iff x : in_range (x ^ 2) ↔ (x ^ 2 < float_bound)%R.
Proof.
  unfold in_range. by rewrite Rabs_pos_eq by apply pow2_ge_0.
Qed.

(** C2, as the code has it.  From any store and for every real [x]: build
    the leaf [x], then [y = x ** 2], then [z = y.sigmoid()], and call
    [z.backward()].  When the square of [x] is in range, every step
    returns, and [x.grad] is [2 * x * s * (1 - s)] with
    [s = 1 / (1 + exp(-x^2))].  When it is not, [x ** 2] raises
    [OverflowError]: only the leaf has been built. *)
Theorem chain_rule_sigmoid_of_square (σ : store) (x : R) :
  let s := (1 / (1 + Rtrigo_def.exp (- (x ^ 2))))%R in
  ((x ^ 2 < float_bound)%R →
   ∃ σ',
     (xv <- Value (PNum x) [] OpLeaf ;;
      y <- __pow__ xv (ONum 2) ;;
      z <- sigmoid y ;;
      backward z ;;;
      ret xv) σ = (Ok (length σ), σ') ∧
     grad (deref σ' (length σ)) = (2 * x * s * (1 - s))%R) ∧
  ((float_bound <= x ^ 2)%R →
   (xv <- Value (PNum x) [] OpLeaf ;;
    y <- __pow__ xv (ONum 2) ;;
    z <- sigmoid y ;;
    backward z ;;;
    ret xv) σ = (Raise OverflowError, σ ++ [leaf (PNum x)])).
Proof.
  intros s. split.
  - intros Hr. apply chain_returns_in_range. by apply in_range_square_iff.
  - intros Hr. apply chain_stops_out_of_range. rewrite in_range_square_iff. lra.
Qed.

(** * Mixed operands, invalid operands, division by zero *)

(** C6, what the code does.  For a plain number [r] on the left of a
    [Value] [a] holding [x]: [r - a] is dispatched to [a.__rsub__(r)],
    which computes [a - r], so the result holds [x - r] and not [r - x];
    [r / a] finds no reflected method and raises [TypeError]. *)
Theorem reflected_sub_and_div σ a x r :
  a < length σ → data (deref σ a) = PNum x →
  (∃ σ', binop_right Sub (ONum r) a σ = (Ok (length σ + 3), σ') ∧
         data (deref σ' (length σ + 3)) = PNum (x - r)) ∧
  binop_right TrueDiv (ONum r) a σ = (Raise TypeError, σ).
Proof.
  intros Ha Hx. split; [|done].
  eexists. split; [by apply sub_num_run|].
  rewrite deref_app_r. simpl. f_equal. lra.
Qed.

Lemma truediv_zero_Value σ a b :
  data (deref σ b) = PNum 0 →
  __truediv__ a (OValue b) σ = (Raise ZeroDivisionError, σ).
Proof.
  intros Hb. unfold __truediv__. cbn [is_number_or_Value].
  rewrite py_assert_true_bind. rewrite (bind_Ok _ _ σ b σ) by done.
  apply bind_Raise. apply (pow_raise σ b 0 (-1)); [done|].
  by apply py_pow_zero_neg.
Qed.

(** C5, as the code has it.  When [b] holds 0, [a / b] raises
    [ZeroDivisionError] while it evaluates [b ** -1]: nothing is built and
    the store is as it was (with a plain 0 on the right, only the leaf
    wrapping that 0 has been added).  When [exp] of the number [a] holds is
    out of range, [a.exp()] raises [OverflowError] in [math.exp]: nothing
    is built either.  No object comes to hold an infinity or a NaN. *)
Theorem division_by_zero_and_exp_overflow_raise σ a b x y :
  a < length σ → b < length σ →
  data (deref σ a) = PNum x → data (deref σ b) = PNum y →
  (y = 0%R →
     binop_left TrueDiv a (OValue b) σ = (Raise ZeroDivisionError, σ) ∧
     binop_left TrueDiv a (ONum 0) σ =
       (Raise ZeroDivisionError, σ ++ [leaf (PNum 0)])) ∧
  ((float_bound <= Rtrigo_def.exp x)%R →
     exp a σ = (Raise OverflowError, σ)).
Proof.
  intros Ha Hb Hx Hy. split.
  - intros ->. cbn [binop_left]. unfold __truediv__. cbn [is_number_or_Value].
    rewrite !py_assert_true_bind. split.
    + rewrite (bind_Ok _ _ σ b σ) by done.
      apply bind_Raise. apply (pow_raise σ b 0 (-1)); [done|].
      by apply py_pow_zero_neg.
    + rewrite (bind_Ok _ _ σ (length σ) (σ ++ [leaf (PNum 0)])) by done.
      apply bind_Raise. apply (pow_raise _ _ 0 (-1)); [by rewrite deref_app_new|].
      by apply py_pow_zero_neg.
  - intros Hover. apply (exp_raise σ a x Hx). unfold in_range.
    pose proof (exp_pos x). rewrite Rabs_pos_eq by lra. lra.
Qed.

(** C7, as the code has it.  An operand that is neither a [Value] nor a
    number makes every operator raise at construction.  [-], [/], [**] and
    the reflected [+], [-], [*] assert the operand's type first: nothing is
    built.  [+] and [*] wrap the operand in a new leaf first and raise
    [TypeError] when they read its [data]: the store has grown by that leaf,
    which no object refers to.  In every case the objects that existed are
    as they were. *)
Theorem invalid_operand_raises σ a v :
  wf σ →
  binop_left Sub a ONone σ = (Raise AssertionError, σ) ∧
  binop_left TrueDiv a ONone σ = (Raise AssertionError, σ) ∧
  __pow__ a ONone σ = (Raise AssertionError, σ) ∧
  __pow__ a (OValue v) σ = (Raise AssertionError, σ) ∧
  binop_right Add ONone a σ = (Raise AssertionError, σ) ∧
  binop_right Sub ONone a σ = (Raise AssertionError, σ) ∧
  binop_right Mul ONone a σ = (Raise AssertionError, σ) ∧
  binop_left Add a ONone σ = (Raise TypeError, σ ++ [leaf PNone]) ∧
  binop_left Mul a ONone σ = (Raise TypeError, σ ++ [leaf PNone]) ∧
  (∀ i, i < length σ → (σ ++ [leaf PNone]) !! i = σ !! i) ∧
  (∀ i, length σ ∉ children_of (σ ++ [leaf PNone]) i).
Proof.
  intros Hwf. repeat (split; [done|]).
  assert (Hraise : ∀ (k : R → R → M node_id),
            (x <- get_num a ;; y <- get_num (length σ) ;; k x y) (σ ++ [leaf PNone])
            = (Raise TypeError, σ ++ [leaf PNone])).
  { intros k. unfold bind, get_num at 1.
    destruct (data (deref (σ ++ [leaf PNone]) a)); [|done].
    unfold get_num. by rewrite deref_app_new. }
  split; [|split; [|split]].
  - cbn [binop_left]. unfold __add__, promote.
    rewrite (bind_Ok _ _ σ (length σ) (σ ++ [leaf PNone])) by done.
    apply Hraise.
  - cbn [binop_left]. unfold __mul__, promote.
    rewrite (bind_Ok _ _ σ (length σ) (σ ++ [leaf PNone])) by done.
    apply Hraise.
  - intros i Hi. by apply lookup_app_l.
  - intros i Hc.
    assert (Hwf' : wf (σ ++ [leaf PNone])) by by apply wf_snoc.
    pose proof (wf_children_lt _ i _ Hwf' Hc) as Hlt.
    unfold children_of in Hc.
    destruct (decide (i = length σ)) as [->|Hne]; [lia|].
    rewrite deref_dangling in Hc by (rewrite length_snoc; lia).
    by apply elem_of_nil in Hc.
Qed.

(** * Examples and instances *)

Lemma wf_concrete (σ : store) :
  Forall (λ p, Forall (λ c, c < p.1) (_children p.2) ∧
               closure_ok p.1 (_children p.2) (_backward p.2)) (imap pair σ) →
  wf σ.
Proof.
  intros H i nd Hi. rewrite Forall_forall in H. apply (H (i, nd)).
  apply elem_of_lookup_imap. by exists i, nd.
Qed.

Lemma wf_diamond : wf diamond.
Proof.
  apply wf_concrete. unfold diamond. simpl.
  repeat constructor; simpl; lia.
Qed.

Lemma wf_one_and_zero : wf one_and_zero.
Proof. apply wf_concrete. unfold one_and_zero. simpl. repeat constructor. Qed.

(** The operations build the diamond as listed. *)
Example diamond_built :
  (x <- Value (PNum 2) [] OpLeaf ;;
   y <- Value (PNum 3) [] OpLeaf ;;
   s <- __add__ x (OValue y) ;;
   __mul__ s (OValue x)) [] = (Ok 3, diamond).
Proof. reflexivity. Qed.

(** [test_combined_operations_and_grad]: [x] receives the contributions of
    both paths, [(x + y) + x = 7], and [y] receives [x = 2]. *)
Example diamond_gradients :
  result (backward 3) diamond = Ok tt ∧
  topo diamond 3 = Some [0; 1; 2; 3] ∧
  grad (deref (exec (backward 3) diamond) 0) = 7%R ∧
  grad (deref (exec (backward 3) diamond) 1) = 2%R.
Proof. vm_compute. split; [done|]. split; [done|]. split; lra. Qed.

(** [test_neg_sub]: [z = x - y; z.backward(); n = -x; n.backward()] leaves
    exactly 0 in [x.grad]. *)
Example neg_sub_cancel :
  grad (deref (exec (x <- Value (PNum 3) [] OpLeaf ;;
                     y <- Value (PNum 2) [] OpLeaf ;;
                     z <- __sub__ x (OValue y) ;;
                     backward z ;;;
                     n <- __neg__ x ;;
                     backward n) []) 0) = 0%R.
Proof. vm_compute. lra. Qed.

(** A contribution is measured in the store the earlier call left.  With
    [y = x * 2.0; z1 = y.linear(); z2 = y.linear()], the first call leaves 1
    in [y.grad] and 2 in [x.grad]; the second adds 1 to [y.grad] and passes
    the 2 it then holds on to [x], which ends with [2 + 4]. *)
Example shared_intermediate_accumulates :
  let σ := exec (x <- Value (PNum 1) [] OpLeaf ;;
                 y <- __mul__ x (ONum 2) ;;
                 z1 <- linear y ;;
                 linear y) [] in
  let σ1 := exec (backward 3) σ in
  contribution σ 3 0 = 2%R ∧ contribution σ1 4 0 = 4%R ∧
  grad (deref (exec (backward 4) σ1) 0) = 6%R.
Proof. vm_compute. repeat split; lra. Qed.


Lemma backward_changes_reachable_grads_only_witness :
  wf diamond ∧ 2 < length diamond ∧
  length (exec (backward 2) diamond) = length diamond ∧
  (∀ i, ¬ reach diamond 2 i → exec (backward 2) diamond !! i = diamond !! i) ∧
  (∀ i, data (deref (exec (backward 2) diamond) i) = data (deref diamond i) ∧
        _children (deref (exec (backward 2) diamond) i) = _children (deref diamond i) ∧
        _operation (deref (exec (backward 2) diamond) i) = _operation (deref diamond i) ∧
        label (deref (exec (backward 2) diamond) i) = label (deref diamond i) ∧
        _backward (deref (exec (backward 2) diamond) i) = _backward (deref diamond i)).
Proof.
  split; [apply wf_diamond|]. split; [simpl; lia|].
  apply (backward_changes_reachable_grads_only diamond 2);
    [apply wf_diamond|simpl; lia].
Defined.


(** C4 as stated fails: after [x = Value(2.0); y = x * 3.0; y.backward()]
    the leaf [x] has accumulated 3, and [x.backward()], which processes
    [x] alone and calls its no-op closure, leaves 1 there: the seed
    assignment replaced the accumulated value. *)
Lemma seed_overwrites_accumulated_grad :
  let σ := exec (x <- Value (PNum 2) [] OpLeaf ;;
                 y <- __mul__ x (ONum 3) ;;
                 backward y) [] in
  grad (deref σ 0) = 3%R ∧
  result (backward 0) σ = Ok tt ∧
  topo σ 0 = Some [0] ∧ _backward (deref σ 0) = BNone ∧
  grad (deref (exec (backward 0) σ) 0) = 1%R.
Proof. vm_compute. split; [lra|]. do 3 (split; [done|]). lra. Qed.

Lemma grad_accumulated_except_seed_witness :
  wf diamond ∧ 3 < length diamond ∧ 0 < length diamond ∧ 0 ≠ 3 ∧
  grads_kept diamond (exec (construct (MRelu 0)) diamond) ∧
  grad (deref (exec (backward 3) (exec (add_grad 0 5) diamond)) 0) =
    (grad (deref (exec (backward 3) diamond) 0) + 5)%R ∧
  grad (deref (exec (backward 3) diamond) 3) = 1%R ∧
  grad (deref (exec (backward 3) (exec (add_grad 3 5) diamond)) 3) = 1%R.
Proof.
  split; [apply wf_diamond|]. do 2 (split; [simpl; lia|]). split; [lia|].
  apply (grad_accumulated_except_seed diamond 3 0 5 (MRelu 0));
    [apply wf_diamond|simpl; lia|simpl; lia|lia].
Defined.

Lemma exp_INR_mult (n : nat) (x : R) :
  Rtrigo_def.exp (INR n * x) = (Rtrigo_def.exp x ^ n)%R.
Proof.
  induction n as [|n IH].
  - simpl. rewrite Rmult_0_l. apply exp_0.
  - rewrite S_INR, Rmult_plus_distr_r, Rmult_1_l, exp_plus, IH. simpl. ring.
Qed.

(** [exp(1000)] is about [2^1442]. *)
Lemma exp_1000_out_of_range : (float_bound <= Rtrigo_def.exp 1000)%R.
Proof.
  replace 1000%R with (INR 2000 * (1 / 2))%R.
  2:{ rewrite INR_IZR_INZ. change (Z.of_nat 2000) with 2000%Z. lra. }
  rewrite exp_INR_mult.
  apply Rle_trans with ((3 / 2) ^ 2000)%R.
  - unfold Rdiv. rewrite Rpow_mult_distr, pow_inv.
    apply (Rmult_le_reg_r (2 ^ 2000)); [apply pow_lt; lra|].
    rewrite Rmult_assoc, Rinv_l, Rmult_1_r by (apply pow_nonzero; lra).
    unfold float_bound. rewrite (pow_IZR 2 2000), (pow_IZR 3 2000), <- mult_IZR.
    apply IZR_le. vm_compute. discriminate.
  - apply pow_incr. pose proof (exp_ineq1_le (1 / 2)). lra.
Qed.

(** C5 as stated fails: with [a = Value(1.0)] and [b = Value(0.0)],
    [a / b] raises [ZeroDivisionError], and with [c = Value(1000.0)],
    [c.exp()] raises [OverflowError]; no object is built and none holds an
    infinity. *)
Lemma numeric_degeneracy_raises_counterexample :
  binop_left TrueDiv 0 (OValue 1) one_and_zero =
    (Raise ZeroDivisionError, one_and_zero) ∧
  exp 0 thousand_and_zero = (Raise OverflowError, thousand_and_zero).
Proof.
  split; [by apply truediv_zero_Value|].
  apply (exp_raise _ 0 1000); [done|]. unfold in_range.
  pose proof exp_1000_out_of_range. pose proof (exp_pos 1000).
  rewrite Rabs_pos_eq by lra. lra.
Qed.

Lemma division_by_zero_and_exp_overflow_raise_witness :
  0 < length thousand_and_zero ∧ 1 < length thousand_and_zero ∧
  data (deref thousand_and_zero 0) = PNum 1000 ∧
  data (deref thousand_and_zero 1) = PNum 0 ∧
  (0%R = 0%R →
     binop_left TrueDiv 0 (OValue 1) thousand_and_zero =
       (Raise ZeroDivisionError, thousand_and_zero) ∧
     binop_left TrueDiv 0 (ONum 0) thousand_and_zero =
       (Raise ZeroDivisionError, thousand_and_zero ++ [leaf (PNum 0)])) ∧
  ((float_bound <= Rtrigo_def.exp 1000)%R →
     exp 0 thousand_and_zero = (Raise OverflowError, thousand_and_zero)).
Proof.
  do 2 (split; [simpl; lia|]). do 2 (split; [reflexivity|]).
  apply (division_by_zero_and_exp_overflow_raise thousand_and_zero 0 1 1000 0);
    [simpl; lia|simpl; lia|reflexivity|reflexivity].
Defined.

Lemma reflected_sub_and_div_witness :
  0 < length [leaf (PNum 3)] ∧ data (deref [leaf (PNum 3)] 0) = PNum 3 ∧
  (∃ σ', binop_right Sub (ONum 5) 0 [leaf (PNum 3)] =
           (Ok (length [leaf (PNum 3)] + 3), σ') ∧
         data (deref σ' (length [leaf (PNum 3)] + 3)) = PNum (3 - 5)) ∧
  binop_right TrueDiv (ONum 5) 0 [leaf (PNum 3)] = (Raise TypeError, [leaf (PNum 3)]).
Proof.
  split; [simpl; lia|]. split; [reflexivity|].
  apply (reflected_sub_and_div [leaf (PNum 3)] 0 3 5); [simpl; lia|reflexivity].
Defined.

(** [Value(1.0) + None] raises [TypeError] after a new object, the leaf
    wrapping [None], has been created. *)
Lemma add_invalid_operand_creates_leaf :
  binop_left Add 0 ONone [leaf (PNum 1)] =
    (Raise TypeError, [leaf (PNum 1); leaf PNone]) ∧
  length [leaf (PNum 1); leaf PNone] ≠ length [leaf (PNum 1)].
Proof. split; [reflexivity|]. simpl. lia. Qed.

Lemma invalid_operand_raises_witness :
  wf one_and_zero ∧
  binop_left Sub 0 ONone one_and_zero = (Raise AssertionError, one_and_zero) ∧
  binop_left TrueDiv 0 ONone one_and_zero = (Raise AssertionError, one_and_zero) ∧
  __pow__ 0 ONone one_and_zero = (Raise AssertionError, one_and_zero) ∧
  __pow__ 0 (OValue 1) one_and_zero = (Raise AssertionError, one_and_zero) ∧
  binop_right Add ONone 0 one_and_zero = (Raise AssertionError, one_and_zero) ∧
  binop_right Sub ONone 0 one_and_zero = (Raise AssertionError, one_and_zero) ∧
  binop_right Mul ONone 0 one_and_zero = (Raise AssertionError, one_and_zero) ∧
  binop_left Add 0 ONone one_and_zero = (Raise TypeError, one_and_zero ++ [leaf PNone]) ∧
  binop_left Mul 0 ONone one_and_zero = (Raise TypeError, one_and_zero ++ [leaf PNone]) ∧
  (∀ i, i < length one_and_zero →
     (one_and_zero ++ [leaf PNone]) !! i = one_and_zero !! i) ∧
  (∀ i, length one_and_zero ∉ children_of (one_and_zero ++ [leaf PNone]) i).
Proof.
  split; [apply wf_one_and_zero|].
  apply (invalid_operand_raises one_and_zero 0 1). apply wf_one_and_zero.
Defined.

Lemma relu_forward_and_gradient_witness :
  wf one_and_zero ∧ 1 < length one_and_zero ∧
  data (deref one_and_zero 1) = PNum 0 ∧
  ∃ σ', relu 1 one_and_zero = (Ok (length one_and_zero), σ') ∧
    data (deref σ' (length one_and_zero)) = PNum (Rmax 0 0) ∧
    grad (deref (exec (backward (length one_and_zero)) σ') 1) =
      (grad (deref one_and_zero 1) + (if Rlt_dec 0 0 then 1 else 0))%R ∧
    (0%R = 0%R →
     grad (deref (exec (backward (length one_and_zero)) σ') 1) =
     grad (deref one_and_zero 1)).
Proof.
  split; [apply wf_one_and_zero|]. split; [simpl; lia|]. split; [reflexivity|].
  apply (relu_forward_and_gradient one_and_zero 1 0);
    [apply wf_one_and_zero|simpl; lia|reflexivity].
Defined.

(** C2 as stated fails: the square of [x = 1e200] is out of range, and
    [x ** 2] raises [OverflowError]; nothing but the leaf is built. *)
Lemma chain_rule_overflow_counterexample :
  (xv <- Value (PNum (10 ^ 200)) [] OpLeaf ;;
   y <- __pow__ xv (ONum 2) ;;
   z <- sigmoid y ;;
   backward z ;;;
   ret xv) [] = (Raise OverflowError, [leaf (PNum (10 ^ 200))]).
Proof.
  apply (chain_stops_out_of_range [] (10 ^ 200)). unfold in_range.
  rewrite <- pow_mult, Rabs_pos_eq by (apply pow_le; lra).
  apply Rle_not_lt. unfold float_bound. rewrite (pow_IZR 10 (200 * 2)).
  apply IZR_le. vm_compute. discriminate.
Qed.

(** The theorem at [x = 3] and at [x = 1e200]. *)
Lemma chain_rule_sigmoid_of_square_witness :
  ((3 ^ 2 < float_bound)%R ∧
   ∃ σ',
     (xv <- Value (PNum 3) [] OpLeaf ;;
      y <- __pow__ xv (ONum 2) ;;
      z <- sigmoid y ;;
      backward z ;;;
      ret xv) [] = (Ok (length ([] : store)), σ') ∧
     grad (deref σ' (length ([] : store))) =
       (2 * 3 * (1 / (1 + Rtrigo_def.exp (- (3 ^ 2)))) *
        (1 - 1 / (1 + Rtrigo_def.exp (- (3 ^ 2)))))%R) ∧
  (float_bound <= (10 ^ 200) ^ 2)%R.
Proof.
  assert (H : (3 ^ 2 < float_bound)%R).
  { pose proof float_bound_big. pose proof (pow_R1_Rle 2 60).
    assert (2 ^ 64 = 2 ^ 4 * 2 ^ 60)%R by (rewrite <- pow_add; done). nra. }
  split.
  - split; [exact H|]. apply (proj1 (chain_rule_sigmoid_of_square [] 3) H).
  - rewrite <- pow_mult. unfold float_bound. rewrite (pow_IZR 10 (200 * 2)).
    apply IZR_le. vm_compute. discriminate.
Defined.



(** * More on one operation followed by [backward] *)

(** As [backward_after_root], naming the objects written to: the children
    of the objects strictly below the root. *)
Lemma backward_after_root_children σ root :
  wf σ → root < length σ →
  grads_changed (λ t, ∃ m, reach σ root m ∧ m < root ∧ t ∈ children_of σ m)
    (exec (set_grad root 1 ;;; local_backward root) σ)
    (exec (backward root) σ).
Proof.
  intros Hwf Hroot.
  destruct (backward_head σ root Hwf Hroot) as (rest & Hrun & Hrest).
  unfold exec at 2. rewrite Hrun.
  fold (exec (set_grad root 1 ;;; local_backward root ;;; run_backwards rest) σ).
  assert (Hseed : grads_changed (λ t, t = root) σ (exec (set_grad root 1) σ)).
  { by apply preserves_set_grad. }
  pose proof (grads_changed_wf _ _ _ Hseed Hwf) as Hwf1.
  pose proof (local_backward_frame _ root Hwf1) as Hlb.
  pose proof (grads_changed_wf _ _ _ Hlb Hwf1) as Hwf2.
  rewrite (exec_bind (set_grad root 1) (λ _, local_backward root)).
  rewrite (exec_bind (set_grad root 1)
             (λ _, local_backward root ;;; run_backwards rest)).
  cbn [result set_grad fst]. rewrite exec_bind.
  destruct (result (local_backward root) _) as [[]|e]; [|apply grads_changed_refl].
  eapply grads_changed_weaken; [|by apply run_backwards_frame].
  intros t (m & Hm & Ht). destruct (Hrest m Hm) as [Hr Hlt].
  exists m. split; [done|]. split; [done|].
  rewrite (grads_changed_children _ _ _ m Hlb) in Ht.
  by rewrite (grads_changed_children _ _ _ m Hseed) in Ht.
Qed.

(** The [grad] of an object that no object strictly below the root uses is
    final once the root's closure has run. *)
Lemma backward_grad_child σ root t :
  wf σ → root < length σ →
  (∀ m, reach σ root m → m < root → t ∉ children_of σ m) →
  grad (deref (exec (backward root) σ) t) =
  grad (deref (exec (set_grad root 1 ;;; local_backward root) σ) t).
Proof.
  intros Hwf Hroot Ht.
  destruct (backward_after_root_children σ root Hwf Hroot) as [_ H].
  destruct (H t) as (g & -> & Hg). simpl. apply Hg.
  intros (m & Hr & Hm & Htm). by apply (Ht m).
Qed.

(** The same through a store extension: the closure of the new object [nd],
    seeded with 1, decides the [grad] of [t]. *)
Lemma new_root_grad σ nd t :
  wf (σ ++ [nd]) →
  (∀ m, reach (σ ++ [nd]) (length σ) m → m < length σ →
        t ∉ children_of (σ ++ [nd]) m) →
  grad (deref (exec (backward (length σ)) (σ ++ [nd])) t) =
  grad (deref (exec (call_closure (_backward nd)) (σ ++ [with_grad 1 nd])) t).
Proof.
  intros Hwf Ht. rewrite backward_grad_child; [|done|rewrite length_snoc; lia|done].
  by rewrite seed_then_root.
Qed.

Lemma reach_new_root (σ : store) nd m :
  reach (σ ++ [nd]) (length σ) m → m < length σ →
  ∃ c, c ∈ _children nd ∧ reach (σ ++ [nd]) c m.
Proof.
  intros Hr Hm. destruct (reach_below _ _ _ Hr) as (c & Hc & Hcm); [lia|].
  rewrite children_of_new in Hc. by exists c.
Qed.

Lemma reach_old (σ : store) nd c m :
  wf (σ ++ [nd]) → c < length σ → reach (σ ++ [nd]) c m → reach σ c m.
Proof.
  intros Hwf Hc Hr. induction Hr as [|v c' w Hc' Hr IH]; [apply reach_refl|].
  pose proof (wf_children_lt _ _ _ Hwf Hc').
  eapply reach_step; [|apply IH; lia].
  unfold children_of in *. by rewrite deref_app_l in Hc'.
Qed.

(** For a new object over the single child [a]. *)
Lemma unary_root_grad σ nd a :
  wf σ → a < length σ → _children nd = [a] →
  closure_ok (length σ) [a] (_backward nd) →
  grad (deref (exec (backward (length σ)) (σ ++ [nd])) a) =
  grad (deref (exec (call_closure (_backward nd)) (σ ++ [with_grad 1 nd])) a).
Proof.
  intros Hwf Ha Hch Hok.
  assert (Hwf' : wf (σ ++ [nd])).
  { apply wf_snoc; [done| |by rewrite Hch]. rewrite Hch. by apply Forall_singleton. }
  apply new_root_grad; [done|]. intros m Hr Hm Hc.
  destruct (reach_new_root σ nd m Hr Hm) as (c & Hcin & Hcm).
  rewrite Hch in Hcin. apply list_elem_of_singleton in Hcin as ->.
  pose proof (reach_le _ _ _ Hwf' Hcm). pose proof (wf_children_lt _ _ _ Hwf' Hc). lia.
Qed.

Lemma grad_after_add_grad σ nd a d :
  a < length σ →
  grad (deref (exec (add_grad a d) (σ ++ [nd])) a) = (grad (deref σ a) + d)%R.
Proof.
  intros Ha. rewrite deref_add_grad_eq by (rewrite length_snoc; lia).
  simpl. by rewrite deref_app_l.
Qed.

Lemma call_BLinear_exec τ s o :
  exec (call_closure (BLinear s o)) τ = exec (add_grad s (grad (deref τ o) * 1)) τ.
Proof. done. Qed.

Lemma call_BTanh_exec τ s o d :
  (-1 <= d <= 1)%R →
  exec (call_closure (BTanh s o d)) τ =
  exec (add_grad s (grad (deref τ o) * (1 - d ^ 2))) τ.
Proof.
  intros Hd. unfold call_closure, exec at 1.
  rewrite (bind_Ok _ _ τ (grad (deref τ o)) τ) by done.
  rewrite (bind_Ok _ _ τ (d ^ 2)%R τ); [done|].
  unfold lift. by rewrite (py_pow_square d Hd).
Qed.

Lemma call_BLeakyRelu_exec τ s o alpha x :
  data (deref τ s) = PNum x →
  exec (call_closure (BLeakyRelu s o alpha)) τ =
  exec (add_grad s (grad (deref τ o) * (if Rlt_dec 0 x then 1 else alpha))) τ.
Proof.
  intros Hx. unfold call_closure, exec at 1.
  rewrite (bind_Ok _ _ τ (grad (deref τ o)) τ) by done.
  by rewrite (bind_Ok _ _ τ x τ) by by apply get_num_run.
Qed.

Lemma call_BRelu_exec τ s o d :
  exec (call_closure (BRelu s o d)) τ = exec (add_grad s (grad (deref τ o) * gt0 d)) τ.
Proof. done. Qed.

Lemma call_BSigmoid_exec τ s o d :
  exec (call_closure (BSigmoid s o d)) τ =
  exec (add_grad s (grad (deref τ o) * d * (1 - d))) τ.
Proof. done. Qed.

Lemma call_BExp_exec τ s o d :
  exec (call_closure (BExp s o d)) τ = exec (add_grad s (grad (deref τ o) * d)) τ.
Proof. done. Qed.

Lemma call_BPow_exec τ s o p x q :
  data (deref τ s) = PNum x → py_pow x (p - 1) = Ok q →
  exec (call_closure (BPow s o p)) τ =
  exec (add_grad s (grad (deref τ o) * p * q)) τ.
Proof. intros Hx Hq. unfold exec at 1. by rewrite (call_BPow_run τ s o p x q). Qed.

(** [tanh]: the object holds [tanh x], and [backward] from it adds
    [1 - tanh(x)^2] to the [grad] of its input. *)
Theorem tanh_forward_and_gradient σ a x :
  wf σ → a < length σ → data (deref σ a) = PNum x →
  ∃ σ', tanh a σ = (Ok (length σ), σ') ∧
    data (deref σ' (length σ)) = PNum (Rtrigo_def.tanh x) ∧
    grad (deref (exec (backward (length σ)) σ') a) =
      (grad (deref σ a) + (1 - Rtrigo_def.tanh x ^ 2))%R.
Proof.
  intros Hwf Ha Hx. eexists. split; [by apply tanh_run|].
  split; [by rewrite deref_app_new|].
  rewrite unary_root_grad; [|done|done|done|split; [done|apply tanh_range]].
  cbn [_backward with_grad]. rewrite call_BTanh_exec by apply tanh_range.
  rewrite grad_after_add_grad, deref_app_new by done. simpl. lra.
Qed.

(** [sigmoid] evaluates [math.exp(-x)] first.  While that is in range
    (as it is for every [x] that is not negative), the object holds
    [s = 1 / (1 + exp(-x))], and [backward] from it adds [s * (1 - s)] to the
    [grad] of its input; at [x = 0] these are [1/2] and [1/4].  When
    [exp(-x)] is out of range, [sigmoid] raises [OverflowError] and builds
    nothing. *)
Theorem sigmoid_forward_and_gradient σ a x :
  wf σ → a < length σ → data (deref σ a) = PNum x →
  let s := (1 / (1 + Rtrigo_def.exp (- x)))%R in
  ((Rtrigo_def.exp (- x) < float_bound)%R →
   ∃ σ', sigmoid a σ = (Ok (length σ), σ') ∧
     data (deref σ' (length σ)) = PNum s ∧
     grad (deref (exec (backward (length σ)) σ') a) =
       (grad (deref σ a) + s * (1 - s))%R ∧
     (x = 0%R → s = (1 / 2)%R ∧ (s * (1 - s))%R = (1 / 4)%R)) ∧
  ((float_bound <= Rtrigo_def.exp (- x))%R →
   sigmoid a σ = (Raise OverflowError, σ)) ∧
  ((0 <= x)%R → (Rtrigo_def.exp (- x) < float_bound)%R).
Proof.
  intros Hwf Ha Hx s. split; [|split].
  - intros Hr. apply in_range_exp in Hr.
    eexists. split; [by apply sigmoid_run|].
    split; [by rewrite deref_app_new|]. split.
    + rewrite unary_root_grad; [|done|done|done|done].
      cbn [_backward with_grad]. rewrite call_BSigmoid_exec.
      rewrite grad_after_add_grad, deref_app_new by done. simpl. fold s. lra.
    + intros ->. unfold s. rewrite Ropp_0, exp_0. split; lra.
  - intros Hr. apply out_of_range_exp in Hr. by apply (sigmoid_raise σ a x).
  - intros H0. apply in_range_exp, in_range_exp_nonpos. lra.
Qed.

(** [leaky_relu]: the object holds [x] when [x > 0] and [x * alpha]
    otherwise, and [backward] from it adds 1 when [x > 0] and [alpha]
    otherwise; at [x = 0] it adds [alpha], where [relu] adds 0. *)
Theorem leaky_relu_forward_and_gradient σ a x alpha :
  wf σ → a < length σ → data (deref σ a) = PNum x →
  ∃ σ', leaky_relu a alpha σ = (Ok (length σ), σ') ∧
    data (deref σ' (length σ)) = PNum (if Rlt_dec 0 x then x else x * alpha) ∧
    grad (deref (exec (backward (length σ)) σ') a) =
      (grad (deref σ a) + (if Rlt_dec 0 x then 1 else alpha))%R ∧
    (x = 0%R →
     data (deref σ' (length σ)) = PNum 0 ∧
     grad (deref (exec (backward (length σ)) σ') a) = (grad (deref σ a) + alpha)%R).
Proof.
  intros Hwf Ha Hx. eexists. split; [by apply leaky_relu_run|].
  split; [by rewrite deref_app_new|].
  assert (Hg : grad (deref (exec (backward (length σ))
                 (σ ++ [mkValue (PNum (if Rlt_dec 0 x then x else x * alpha)) 0
                          EmptyString [a] (BLeakyRelu a (length σ) alpha)
                          OpLeakyRelu])) a) =
               (grad (deref σ a) + (if Rlt_dec 0 x then 1 else alpha))%R).
  { rewrite unary_root_grad; [|done|done|done|done].
    cbn [_backward with_grad].
    rewrite (call_BLeakyRelu_exec _ _ _ _ x) by by rewrite deref_app_l.
    rewrite grad_after_add_grad, deref_app_new by done. simpl.
    destruct (Rlt_dec 0 x); lra. }
  split; [done|]. intros ->. rewrite Hg, deref_app_new. simpl.
  destruct (Rlt_dec 0 0); [lra|]. split; [f_equal; lra|done].
Qed.

(** [exp]: while [exp x] is in range, the object holds [exp x], and
    [backward] from it adds [exp x] to the [grad] of its input.  When
    [exp x] is out of range, [exp] raises [OverflowError] and builds
    nothing. *)
Theorem exp_forward_and_gradient σ a x :
  wf σ → a < length σ → data (deref σ a) = PNum x →
  ((Rtrigo_def.exp x < float_bound)%R →
   ∃ σ', exp a σ = (Ok (length σ), σ') ∧
     data (deref σ' (length σ)) = PNum (Rtrigo_def.exp x) ∧
     grad (deref (exec (backward (length σ)) σ') a) =
       (grad (deref σ a) + Rtrigo_def.exp x)%R) ∧
  ((float_bound <= Rtrigo_def.exp x)%R →
   exp a σ = (Raise OverflowError, σ)).
Proof.
  intros Hwf Ha Hx. split.
  - intros Hr. apply in_range_exp in Hr.
    eexists. split; [by apply exp_run|].
    split; [by rewrite deref_app_new|].
    rewrite unary_root_grad; [|done|done|done|done].
    cbn [_backward with_grad]. rewrite call_BExp_exec.
    rewrite grad_after_add_grad, deref_app_new by done. simpl. lra.
  - intros Hr. apply out_of_range_exp in Hr. by apply (exp_raise σ a x).
Qed.

(** [linear] copies [data], whatever it holds: it does no arithmetic and
    never raises.  [backward] from it adds 1 to the [grad] of its input. *)
Theorem linear_forward_and_gradient σ a :
  wf σ → a < length σ →
  ∃ σ', linear a σ = (Ok (length σ), σ') ∧
    data (deref σ' (length σ)) = data (deref σ a) ∧
    grad (deref (exec (backward (length σ)) σ') a) = (grad (deref σ a) + 1)%R.
Proof.
  intros Hwf Ha. eexists. split; [by apply linear_run|].
  split; [by rewrite deref_app_new|].
  rewrite unary_root_grad; [|done|done|done|done].
  cbn [_backward with_grad]. rewrite call_BLinear_exec.
  rewrite grad_after_add_grad, deref_app_new by done. simpl. lra.
Qed.

Lemma backward_root_raises σ root e :
  wf σ → root < length σ →
  result (local_backward root) (exec (set_grad root 1) σ) = Raise e →
  result (backward root) σ = Raise e ∧
  exec (backward root) σ = exec (local_backward root) (exec (set_grad root 1) σ).
Proof.
  intros Hwf Hroot He.
  destruct (backward_head σ root Hwf Hroot) as (rest & Hrun & _).
  unfold result at 1, exec at 1. rewrite Hrun.
  fold (result (set_grad root 1 ;;; local_backward root ;;; run_backwards rest) σ).
  fold (exec (set_grad root 1 ;;; local_backward root ;;; run_backwards rest) σ).
  rewrite result_bind, exec_bind. cbn [result set_grad fst].
  fold (exec (set_grad root 1) σ). by rewrite result_bind, exec_bind, He.
Qed.

(** A power of 0 is 0 or 1. *)
Lemma in_range_powerRZ_zero z : in_range (powerRZ 0 z).
Proof.
  apply in_range_unit. destruct z as [|p|p]; simpl.
  - lra.
  - rewrite pow_i by lia. lra.
  - rewrite pow_i by lia. rewrite Rinv_0. lra.
Qed.

(** [x ** z] for an integer [z], with [x] other than 0 or [z] at least 1,
    and [x^z] in range: the object holds [x^z].  The closure evaluates
    [x ** (z - 1)], which is in range whenever [z] is at least 1.  When it
    is in range, [backward] from the object adds [z * x^(z-1)] to the [grad]
    of its input; when it is not (a tiny [x] and a negative [z]),
    [backward] raises [OverflowError] in that closure, having changed
    nothing but the seed. *)
Theorem pow_forward_and_gradient σ a x z :
  wf σ → a < length σ → data (deref σ a) = PNum x →
  x ≠ 0%R ∨ (1 ≤ z)%Z →
  in_range (powerRZ x z) →
  ∃ σ', __pow__ a (ONum (IZR z)) σ = (Ok (length σ), σ') ∧
    data (deref σ' (length σ)) = PNum (powerRZ x z) ∧
    (in_range (powerRZ x (z - 1)) →
     grad (deref (exec (backward (length σ)) σ') a) =
       (grad (deref σ a) + IZR z * powerRZ x (z - 1))%R) ∧
    (¬ in_range (powerRZ x (z - 1)) →
     result (backward (length σ)) σ' = Raise OverflowError ∧
     exec (backward (length σ)) σ' = exec (set_grad (length σ) 1) σ') ∧
    ((1 ≤ z)%Z → in_range (powerRZ x (z - 1))).
Proof.
  intros Hwf Ha Hx Hz Hr.
  assert (Hp : py_pow x (IZR z) = Ok (powerRZ x z)).
  { apply py_pow_int; [|done]. destruct Hz; [by left|right; lia]. }
  eexists. split; [by apply (pow_run σ a x (IZR z) (powerRZ x z))|].
  split; [by rewrite deref_app_new|].
  set (nd := mkValue _ _ _ _ _ _).
  split; [|split].
  - intros Hr1.
    assert (Hq : py_pow x (IZR z - 1) = Ok (powerRZ x (z - 1))).
    { rewrite <- minus_IZR. apply py_pow_int; [|done].
      destruct Hz; [by left|right; lia]. }
    rewrite unary_root_grad; [|done|done|done|done].
    cbn [_backward with_grad nd].
    rewrite (call_BPow_exec _ _ _ _ x (powerRZ x (z - 1)));
      [|by rewrite deref_app_l|done].
    rewrite grad_after_add_grad, deref_app_new by done. simpl. lra.
  - intros Hr1.
    assert (Hx0 : x ≠ 0%R).
    { intros ->. apply Hr1, in_range_powerRZ_zero. }
    assert (Hq : py_pow x (IZR z - 1) = Raise OverflowError).
    { rewrite <- minus_IZR. by apply py_pow_int_overflow. }
    assert (Hlb : local_backward (length σ) (exec (set_grad (length σ) 1) (σ ++ [nd])) =
                  (Raise OverflowError, exec (set_grad (length σ) 1) (σ ++ [nd]))).
    { rewrite local_backward_run, deref_set_grad_eq by (rewrite length_snoc; lia).
      rewrite deref_app_new. cbn [_backward with_grad nd]. unfold call_closure.
      rewrite (bind_Ok _ _ _
                 (grad (deref (exec (set_grad (length σ) 1) (σ ++ [nd])) (length σ)))
                 (exec (set_grad (length σ) 1) (σ ++ [nd]))) by done.
      rewrite (bind_Ok _ _ _ x (exec (set_grad (length σ) 1) (σ ++ [nd]))).
      2:{ apply get_num_run. rewrite deref_set_grad by lia. by rewrite deref_app_l. }
      apply bind_Raise. unfold lift. by rewrite Hq. }
    assert (Hwf' : wf (σ ++ [nd])).
    { apply wf_snoc; [done|by apply Forall_singleton|done]. }
    destruct (backward_root_raises (σ ++ [nd]) (length σ) OverflowError)
      as [Hres He]; [done|rewrite length_snoc; lia|unfold result; by rewrite Hlb|].
    split; [done|]. rewrite He. unfold exec at 1. by rewrite Hlb.
  - intros Hz1. by apply in_range_powerRZ_pred.
Qed.

(** * Two operands *)

Lemma children_of_old (σ : store) nd m :
  m < length σ → children_of (σ ++ [nd]) m = children_of σ m.
Proof. intros Hm. unfold children_of. by rewrite deref_app_l. Qed.

(** For a new object over the children [a] and [b]: the [grad] of an object
    that nothing reachable from [a] or [b] uses is decided by the closure of
    the new object. *)
Lemma binary_root_grad σ nd a b t :
  wf σ → a < length σ → b < length σ → _children nd = [a; b] →
  closure_ok (length σ) [a; b] (_backward nd) →
  (∀ m, reach σ a m → t ∉ children_of σ m) →
  (∀ m, reach σ b m → t ∉ children_of σ m) →
  grad (deref (exec (backward (length σ)) (σ ++ [nd])) t) =
  grad (deref (exec (call_closure (_backward nd)) (σ ++ [with_grad 1 nd])) t).
Proof.
  intros Hwf Ha Hb Hch Hok Hta Htb.
  assert (Hwf' : wf (σ ++ [nd])).
  { apply wf_snoc; [done| |by rewrite Hch]. rewrite Hch. by repeat constructor. }
  apply new_root_grad; [done|]. intros m Hr Hm.
  destruct (reach_new_root σ nd m Hr Hm) as (c & Hcin & Hcm).
  rewrite children_of_old by done. rewrite Hch in Hcin.
  apply elem_of_cons in Hcin as [->|Hcin].
  - apply Hta. by eapply reach_old.
  - apply list_elem_of_singleton in Hcin as ->. apply Htb. by eapply reach_old.
Qed.

Lemma not_child_below σ a m : wf σ → reach σ a m → a ∉ children_of σ m.
Proof.
  intros Hwf Hr Hc. pose proof (reach_le _ _ _ Hwf Hr).
  pose proof (wf_children_lt _ _ _ Hwf Hc). lia.
Qed.

Lemma not_child_unreachable σ a b m :
  ¬ reach σ b a → reach σ b m → a ∉ children_of σ m.
Proof.
  intros Hn Hr Hc. apply Hn. eapply reach_trans; [done|].
  eapply reach_step; [done|apply reach_refl].
Qed.

Lemma grad_seeded_new (σ : store) nd : grad (deref (σ ++ [with_grad 1 nd]) (length σ)) = 1%R.
Proof. by rewrite deref_app_new. Qed.

(** What the closure of [a + b] leaves in the [grad] of [t], from a store in
    which the new object has [grad] 1. *)
Lemma add_closure_grad σ nd a b t :
  a < length σ → b < length σ →
  grad (deref (exec (call_closure (BAdd a b (length σ))) (σ ++ [with_grad 1 nd])) t) =
    ((if decide (b = t) then
        (if decide (a = t) then grad (deref σ t) + 1 * 1 else grad (deref σ t)) + 1 * 1
      else if decide (a = t) then grad (deref σ t) + 1 * 1
           else grad (deref (σ ++ [with_grad 1 nd]) t)))%R.
Proof.
  intros Ha Hb. rewrite call_BAdd_exec.
  rewrite !grad_add_grad by (rewrite ?length_add_grad, length_snoc; lia).
  rewrite (decide_False (P := a = length σ)) by lia. rewrite grad_seeded_new.
  destruct (decide (b = t)) as [->|?], (decide (a = t)) as [->|?];
    rewrite ?deref_app_l by done; done.
Qed.

Lemma mul_closure_grad σ nd a b t x y :
  a < length σ → b < length σ →
  data (deref σ a) = PNum x → data (deref σ b) = PNum y →
  grad (deref (exec (call_closure (BMul a b (length σ))) (σ ++ [with_grad 1 nd])) t) =
    ((if decide (b = t) then
        (if decide (a = t) then grad (deref σ t) + 1 * y else grad (deref σ t)) + 1 * x
      else if decide (a = t) then grad (deref σ t) + 1 * y
           else grad (deref (σ ++ [with_grad 1 nd]) t)))%R.
Proof.
  intros Ha Hb Hx Hy.
  rewrite (call_BMul_exec _ a b (length σ) x y) by by rewrite deref_app_l.
  rewrite !grad_add_grad by (rewrite ?length_add_grad, length_snoc; lia).
  rewrite (decide_False (P := a = length σ)) by lia. rewrite grad_seeded_new.
  destruct (decide (b = t)) as [->|?], (decide (a = t)) as [->|?];
    rewrite ?deref_app_l by done; done.
Qed.

(** [a + b] on two objects holds the sum.  [backward] from it adds 1 to the
    [grad] of an operand that the other operand's graph does not use, and 2
    when both operands are the same object. *)
Theorem add_forward_and_gradient σ a b x y :
  wf σ → a < length σ → b < length σ →
  data (deref σ a) = PNum x → data (deref σ b) = PNum y →
  ∃ σ', binop_left Add a (OValue b) σ = (Ok (length σ), σ') ∧
    data (deref σ' (length σ)) = PNum (x + y) ∧
    (¬ reach σ b a →
     grad (deref (exec (backward (length σ)) σ') a) = (grad (deref σ a) + 1)%R) ∧
    (¬ reach σ a b →
     grad (deref (exec (backward (length σ)) σ') b) = (grad (deref σ b) + 1)%R) ∧
    (a = b →
     grad (deref (exec (backward (length σ)) σ') a) = (grad (deref σ a) + 2)%R).
Proof.
  intros Hwf Ha Hb Hx Hy. eexists. split; [by apply add_Value_run|].
  split; [by rewrite deref_app_new|].
  assert (Hab : ¬ reach σ b a → a ≠ b) by (intros H ->; apply H, reach_refl).
  assert (Hba : ¬ reach σ a b → a ≠ b) by (intros H ->; apply H, reach_refl).
  split; [|split].
  - intros Hn. rewrite (binary_root_grad σ _ a b a); try done.
    + cbn [_backward with_grad]. rewrite add_closure_grad by done.
      rewrite decide_False, decide_True by auto using not_eq_sym. lra.
    + intros m. by apply not_child_below.
    + intros m. by apply not_child_unreachable.
  - intros Hn. rewrite (binary_root_grad σ _ a b b); try done.
    + cbn [_backward with_grad]. rewrite add_closure_grad by done.
      rewrite decide_True, decide_False by auto. lra.
    + intros m. by apply not_child_unreachable.
    + intros m. by apply not_child_below.
  - intros <-. rewrite (binary_root_grad σ _ a a a); try done.
    + cbn [_backward with_grad]. rewrite add_closure_grad by done.
      rewrite !decide_True by done. lra.
    + intros m. by apply not_child_below.
    + intros m. by apply not_child_below.
Qed.

(** [a * b] on two objects holds the product.  [backward] from it adds the
    other operand's [data] to the [grad] of an operand that the other
    operand's graph does not use, and [2 * x] when both operands are the
    same object holding [x]. *)
Theorem mul_forward_and_gradient σ a b x y :
  wf σ → a < length σ → b < length σ →
  data (deref σ a) = PNum x → data (deref σ b) = PNum y →
  ∃ σ', binop_left Mul a (OValue b) σ = (Ok (length σ), σ') ∧
    data (deref σ' (length σ)) = PNum (x * y) ∧
    (¬ reach σ b a →
     grad (deref (exec (backward (length σ)) σ') a) = (grad (deref σ a) + y)%R) ∧
    (¬ reach σ a b →
     grad (deref (exec (backward (length σ)) σ') b) = (grad (deref σ b) + x)%R) ∧
    (a = b →
     grad (deref (exec (backward (length σ)) σ') a) = (grad (deref σ a) + 2 * x)%R).
Proof.
  intros Hwf Ha Hb Hx Hy. eexists. split; [by apply mul_Value_run|].
  split; [by rewrite deref_app_new|].
  assert (Hab : ¬ reach σ b a → a ≠ b) by (intros H ->; apply H, reach_refl).
  assert (Hba : ¬ reach σ a b → a ≠ b) by (intros H ->; apply H, reach_refl).
  split; [|split].
  - intros Hn. rewrite (binary_root_grad σ _ a b a); try done.
    + cbn [_backward with_grad]. rewrite (mul_closure_grad _ _ _ _ _ x y) by done.
      rewrite decide_False, decide_True by auto using not_eq_sym. lra.
    + intros m. by apply not_child_below.
    + intros m. by apply not_child_unreachable.
  - intros Hn. rewrite (binary_root_grad σ _ a b b); try done.
    + cbn [_backward with_grad]. rewrite (mul_closure_grad _ _ _ _ _ x y) by done.
      rewrite decide_True, decide_False by auto. lra.
    + intros m. by apply not_child_unreachable.
    + intros m. by apply not_child_below.
  - intros <-. rewrite (binary_root_grad σ _ a a a); try done.
    + cbn [_backward with_grad]. rewrite (mul_closure_grad _ _ _ _ _ x y) by done.
      rewrite !decide_True by done. assert (x = y) by congruence. subst. lra.
    + intros m. by apply not_child_below.
    + intros m. by apply not_child_below.
Qed.

Lemma reach_leaf σ v m : children_of σ v = [] → reach σ v m → m = v.
Proof.
  intros Hch Hr. destruct Hr as [|v c w Hc _]; [done|].
  rewrite Hch in Hc. by apply elem_of_nil in Hc.
Qed.

(** [-a] is [a * -1]: the result holds [-x], and [backward] from it adds
    [-1] to [a.grad]. *)
Theorem neg_forward_and_gradient σ a x :
  wf σ → a < length σ → data (deref σ a) = PNum x →
  ∃ σ', __neg__ a σ = (Ok (S (length σ)), σ') ∧
    data (deref σ' (S (length σ))) = PNum (- x) ∧
    grad (deref (exec (backward (S (length σ))) σ') a) = (grad (deref σ a) - 1)%R.
Proof.
  intros Hwf Ha Hx. eexists. split; [by apply mul_num_run|].
  rewrite snoc2. split; [rewrite two_new_deref_1; simpl; f_equal; lra|].
  set (σ1 := σ ++ [leaf (PNum (-1))]).
  assert (Hwf1 : wf σ1) by by apply wf_snoc.
  assert (L1 : length σ1 = S (length σ)) by apply length_snoc.
  assert (Hleaf : children_of σ1 (length σ) = []) by by unfold children_of, σ1; rewrite deref_app_new.
  rewrite <- L1. rewrite (binary_root_grad σ1 _ a (length σ) a); try done; try lia.
  - cbn [_backward with_grad]. rewrite L1, <- L1.
    rewrite (mul_closure_grad σ1 _ a (length σ) a x (-1));
      [|lia|lia|by unfold σ1; rewrite deref_app_l|by unfold σ1; rewrite deref_app_new].
    rewrite decide_False, decide_True by lia.
    unfold σ1. rewrite deref_app_l by done. lra.
  - intros m. by apply not_child_below.
  - intros m Hr Hc. apply (reach_leaf _ _ _ Hleaf) in Hr as ->.
    rewrite Hleaf in Hc. by apply elem_of_nil in Hc.
Qed.

(** * [backward] can raise *)

Lemma is_integral_Some w z : is_integral w = Some z → w = IZR z.
Proof.
  unfold is_integral. destruct (Req_dec_T _ w) as [E|]; [|done].
  by intros [= <-].
Qed.

Lemma is_integral_between (w : R) (k : Z) :
  (IZR k < w < IZR k + 1)%R → is_integral w = None.
Proof.
  intros [H1 H2]. destruct (is_integral w) as [z|] eqn:E; [|done].
  apply is_integral_Some in E. subst w.
  apply lt_IZR in H1. rewrite <- plus_IZR in H2. apply lt_IZR in H2. lia.
Qed.

Lemma py_pow_zero_base (p : R) :
  (0 <= p < 1)%R →
  (∃ d, py_pow 0 p = Ok d) ∧ py_pow 0 (p - 1) = Raise ZeroDivisionError.
Proof.
  intros [H0 H1]. destruct (Req_dec_T p 0) as [->|Hp].
  - split.
    + exists 1%R.
      by rewrite (py_pow_int 0 0)
        by first [right; lia|apply in_range_unit; simpl; lra].
    + replace (0 - 1)%R with (IZR (-1)) by lra. by apply py_pow_zero_neg.
  - unfold py_pow.
    rewrite (is_integral_between p 0) by (simpl; lra).
    rewrite (is_integral_between (p - 1) (-1)) by (simpl; lra).
    destruct (Rlt_dec 0 0); [lra|]. destruct (Req_dec_T 0 0); [|lra].
    destruct (Rlt_dec p 0); [lra|]. destruct (Rlt_dec (p - 1) 0); [|lra].
    split; [by exists 0%R|done].
Qed.

(** The closure of [x ** p] evaluates [x ** (p - 1)]: with [x] holding 0
    and [0 <= p < 1], the power is built ([0 ** p] is defined) and
    [backward] from it raises [ZeroDivisionError] in that closure, having
    changed nothing but the seed. *)
Theorem pow_backward_raises_at_zero σ a (p : R) :
  wf σ → a < length σ → data (deref σ a) = PNum 0 → (0 <= p < 1)%R →
  ∃ σ', __pow__ a (ONum p) σ = (Ok (length σ), σ') ∧
    result (backward (length σ)) σ' = Raise ZeroDivisionError ∧
    exec (backward (length σ)) σ' = exec (set_grad (length σ) 1) σ'.
Proof.
  intros Hwf Ha Hx Hp. destruct (py_pow_zero_base p Hp) as [[d Hd] Hq].
  eexists. split; [by apply (pow_run σ a 0 p d)|].
  set (nd := mkValue _ _ _ _ _ _).
  assert (Hwf' : wf (σ ++ [nd])).
  { apply wf_snoc; [done|by apply Forall_singleton|done]. }
  assert (Hlb : local_backward (length σ) (exec (set_grad (length σ) 1) (σ ++ [nd])) =
                (Raise ZeroDivisionError, exec (set_grad (length σ) 1) (σ ++ [nd]))).
  { rewrite local_backward_run, deref_set_grad_eq by (rewrite length_snoc; lia).
    rewrite deref_app_new. cbn [_backward with_grad nd]. unfold call_closure.
    rewrite (bind_Ok _ _ _ (grad (deref (exec (set_grad (length σ) 1) (σ ++ [nd])) (length σ)))
               (exec (set_grad (length σ) 1) (σ ++ [nd]))) by done.
    rewrite (bind_Ok _ _ _ 0%R (exec (set_grad (length σ) 1) (σ ++ [nd]))).
    2:{ apply get_num_run. rewrite deref_set_grad by lia. by rewrite deref_app_l. }
    apply bind_Raise. unfold lift. by rewrite Hq. }
  destruct (backward_root_raises (σ ++ [nd]) (length σ) ZeroDivisionError)
    as [Hr He]; [done|rewrite length_snoc; lia|unfold result; by rewrite Hlb|].
  split; [done|]. rewrite He. unfold exec at 1. by rewrite Hlb.
Qed.

(** * The adjoint equations *)

Lemma call_BLeakyRelu_Ok τ s o alpha :
  result (call_closure (BLeakyRelu s o alpha)) τ = Ok tt →
  ∃ x, data (deref τ s) = PNum x.
Proof.
  unfold call_closure, result, bind, get_grad, get_num.
  destruct (data (deref τ s)) as [x|]; [by exists x|done].
Qed.

Lemma call_BMul_Ok τ s o out :
  result (call_closure (BMul s o out)) τ = Ok tt →
  ∃ x y, data (deref τ s) = PNum x ∧ data (deref τ o) = PNum y.
Proof.
  unfold call_closure, result, bind, get_grad, get_num at 1.
  destruct (data (deref τ o)) as [y|]; [|done]. cbn [as_num add_grad].
  unfold get_num.
  change (alter _ s τ) with (exec (add_grad s (grad (deref τ out) * y)) τ).
  rewrite data_add_grad.
  destruct (data (deref τ s)) as [x|]; [by exists x, y|done].
Qed.

Lemma call_BPow_Ok τ s o p :
  result (call_closure (BPow s o p)) τ = Ok tt →
  ∃ x q, data (deref τ s) = PNum x ∧ py_pow x (p - 1) = Ok q.
Proof.
  unfold call_closure, result, bind, get_grad, get_num, lift.
  destruct (data (deref τ s)) as [x|]; [|done]. cbn [as_num].
  destruct (py_pow x (p - 1)) as [q|] eqn:Hq; [intros _; by exists x, q|done].
Qed.

(** What a closure that returns has added to each [grad]. *)
Lemma call_closure_effect σ b m ch t :
  closure_ok m ch b → Forall (λ c, c < m) ch → m < length σ →
  result (call_closure b) σ = Ok tt →
  grad (deref (exec (call_closure b) σ) t) =
    (grad (deref σ t) + local_delta σ b (grad (deref σ m)) t)%R.
Proof.
  intros Hok Hch Hm Hres.
  assert (Hlt : ∀ s, s ∈ ch → s < length σ ∧ s ≠ m).
  { intros s Hs. rewrite Forall_forall in Hch. pose proof (Hch s Hs). lia. }
  destruct b; simpl in Hok;
    repeat match goal with H : _ ∧ _ |- _ => destruct H end; subst;
    cbn [local_delta];
    try (destruct (Hlt self) as [? ?]; [apply list_elem_of_here|]).
  - unfold exec. simpl. lra.
  - rewrite call_BLinear_exec, grad_add_grad by done. case_decide; lra.
  - rewrite call_BTanh_exec by lra. rewrite grad_add_grad by done.
    case_decide; lra.
  - destruct (call_BLeakyRelu_Ok _ _ _ _ Hres) as [x Hx].
    rewrite (call_BLeakyRelu_exec _ _ _ _ x), grad_add_grad by done.
    rewrite Hx. simpl. case_decide; lra.
  - rewrite call_BRelu_exec, grad_add_grad by done. case_decide; lra.
  - rewrite call_BSigmoid_exec, grad_add_grad by done. case_decide; lra.
  - rewrite call_BExp_exec, grad_add_grad by done. case_decide; lra.
  - destruct (Hlt other) as [? ?]; [apply list_elem_of_further, list_elem_of_here|].
    rewrite call_BAdd_exec.
    rewrite !grad_add_grad by (rewrite ?length_add_grad; done).
    rewrite (decide_False (P := self = m)) by done.
    repeat case_decide; lra.
  - destruct (Hlt other) as [? ?]; [apply list_elem_of_further, list_elem_of_here|].
    destruct (call_BMul_Ok _ _ _ _ Hres) as (x & y & Hx & Hy).
    rewrite (call_BMul_exec _ _ _ _ x y) by done.
    rewrite !grad_add_grad by (rewrite ?length_add_grad; done).
    rewrite (decide_False (P := self = m)) by done.
    rewrite Hx, Hy. simpl. repeat case_decide; lra.
  - destruct (call_BPow_Ok _ _ _ _ Hres) as (x & q & Hx & Hq).
    rewrite (call_BPow_exec _ _ _ _ x q) by done.
    rewrite grad_add_grad by done. rewrite Hx. simpl. unfold pow_of. rewrite Hq.
    case_decide; lra.
Qed.

(** The table reads [data] only. *)
Lemma local_delta_ext σ σ' b g t :
  (∀ i, data (deref σ' i) = data (deref σ i)) →
  local_delta σ' b g t = local_delta σ b g t.
Proof. intros H. destruct b; simpl; by rewrite ?H. Qed.

(** A closure adds nothing to an object that is not one of its operands. *)
Lemma local_delta_not_child σ b m ch g t :
  closure_ok m ch b → t ∉ ch → local_delta σ b g t = 0%R.
Proof.
  intros Hok Ht.
  destruct b; simpl in *;
    repeat match goal with H : _ ∧ _ |- _ => destruct H end; subst; try done;
    rewrite ?decide_False; try lra; intros ->; apply Ht;
    auto using list_elem_of_here, list_elem_of_further.
Qed.

Lemma grads_changed_data T σ σ' i :
  grads_changed T σ σ' → data (deref σ' i) = data (deref σ i).
Proof. intros [_ H]. by destruct (H i) as (g & -> & _). Qed.

Lemma grads_changed_closure T σ σ' i :
  grads_changed T σ σ' → _backward (deref σ' i) = _backward (deref σ i).
Proof. intros [_ H]. by destruct (H i) as (g & -> & _). Qed.

Lemma grads_changed_grad (T : node_id → Prop) σ σ' i :
  grads_changed T σ σ' → ¬ T i → grad (deref σ' i) = grad (deref σ i).
Proof. intros [_ H] Hi. destruct (H i) as (g & -> & Hg). by apply Hg. Qed.

Lemma Rsum_cons x l : Rsum (x :: l) = (x + Rsum l)%R.
Proof. done. Qed.

Lemma Rsum_app l k : Rsum (l ++ k) = (Rsum l + Rsum k)%R.
Proof. induction l as [|x l IH]; simpl; [lra|]. fold (Rsum (l ++ k)). fold (Rsum l). rewrite IH. lra. Qed.

(** A run of closures that returns, over a list in which every object
    comes before its children, has added to each [grad] the sum of the
    table entries, each taken at the final [grad] of the object called. *)
Lemma run_backwards_adjoint order :
  ∀ σ, wf σ → (∀ m, m ∈ order → m < length σ) → NoDup order →
    (∀ i j p c, order !! i = Some p → order !! j = Some c →
       c ∈ children_of σ p → i < j) →
    result (run_backwards order) σ = Ok tt →
    ∀ t, grad (deref (exec (run_backwards order) σ) t) =
         (grad (deref σ t) + adjoint_sum σ (exec (run_backwards order) σ) order t)%R.
Proof.
  induction order as [|m order IH]; intros σ Hwf Hin Hnd Hsort Hres t.
  { unfold adjoint_sum, exec. simpl. lra. }
  cbn [run_backwards] in *. rewrite result_bind in Hres. rewrite exec_bind.
  destruct (result (local_backward m) σ) as [[]|e] eqn:Hm; [|done].
  set (σ1 := exec (local_backward m) σ) in *.
  pose proof (local_backward_frame σ m Hwf) as Hfr. fold σ1 in Hfr.
  assert (Hwf1 : wf σ1) by by eapply grads_changed_wf.
  assert (Hlen1 : length σ1 = length σ) by apply Hfr.
  apply NoDup_cons in Hnd as [Hm_notin Hnd].
  assert (Hsort1 : ∀ i j p c, order !! i = Some p → order !! j = Some c →
                     c ∈ children_of σ1 p → i < j).
  { intros i j p c Hi Hj Hc. rewrite (grads_changed_children _ _ _ p Hfr) in Hc.
    pose proof (Hsort (S i) (S j) p c Hi Hj Hc). lia. }
  rewrite (IH σ1 Hwf1); [|intros m' Hm'; rewrite Hlen1; apply Hin; by right
                         |done|done|done].
  set (σ' := exec (run_backwards order) σ1).
  assert (Hfr' : grads_changed (λ t, ∃ n, n ∈ order ∧ t ∈ children_of σ1 n) σ1 σ')
    by by apply run_backwards_frame.
  assert (Hgm : grad (deref σ' m) = grad (deref σ m)).
  { rewrite (grads_changed_grad _ _ _ m Hfr').
    - apply (grads_changed_grad _ _ _ m Hfr). intros Hc.
      apply (wf_children_lt σ m m Hwf) in Hc. lia.
    - intros (n & Hn & Hc). apply list_elem_of_lookup in Hn as (j & Hj).
      rewrite (grads_changed_children _ _ _ n Hfr) in Hc.
      pose proof (Hsort (S j) 0 n m Hj eq_refl Hc). lia. }
  assert (Heff : grad (deref σ1 t) =
                 (grad (deref σ t) +
                  local_delta σ (_backward (deref σ m)) (grad (deref σ m)) t)%R).
  { unfold σ1, exec. rewrite local_backward_run.
    apply (call_closure_effect σ _ m (children_of σ m)).
    - by apply wf_closure_ok.
    - apply Forall_forall. intros c Hc. by apply (wf_children_lt σ m c).
    - apply Hin. left.
    - unfold result in *. by rewrite local_backward_run in Hm. }
  unfold adjoint_sum. rewrite fmap_cons, Rsum_cons, Heff, Hgm.
  assert (Hsum : ∀ l, Rsum ((λ m0, local_delta σ1 (_backward (deref σ1 m0))
                                     (grad (deref σ' m0)) t) <$> l) =
                      Rsum ((λ m0, local_delta σ (_backward (deref σ m0))
                                     (grad (deref σ' m0)) t) <$> l)).
  { induction l as [|n l IHl]; [done|]. rewrite !fmap_cons, !Rsum_cons, IHl.
    f_equal. rewrite (grads_changed_closure _ _ _ n Hfr).
    apply local_delta_ext. intros i. by apply (grads_changed_data _ _ _ i Hfr). }
  rewrite Hsum. lra.
Qed.

Lemma Rsum_Permutation l k : l ≡ₚ k → Rsum l = Rsum k.
Proof.
  induction 1 as [|x l k _ IH|x y l|l k j _ IH1 _ IH2];
    rewrite ?Rsum_cons; [done|rewrite IH; lra|lra|congruence].
Qed.

Lemma adjoint_sum_nil σ σ' t : adjoint_sum σ σ' [] t = 0%R.
Proof. done. Qed.

Lemma adjoint_sum_cons σ σ' m ms t :
  adjoint_sum σ σ' (m :: ms) t =
    (local_delta σ (_backward (deref σ m)) (grad (deref σ' m)) t +
     adjoint_sum σ σ' ms t)%R.
Proof. done. Qed.

Lemma adjoint_sum_app σ σ' l k t :
  adjoint_sum σ σ' (l ++ k) t = (adjoint_sum σ σ' l t + adjoint_sum σ σ' k t)%R.
Proof. unfold adjoint_sum. by rewrite fmap_app, Rsum_app. Qed.

Lemma adjoint_sum_Permutation σ σ' l k t :
  l ≡ₚ k → adjoint_sum σ σ' l t = adjoint_sum σ σ' k t.
Proof. intros H. unfold adjoint_sum. apply Rsum_Permutation. by rewrite H. Qed.

(** The table entries are those of any store with the same [data] and
    closures. *)
Lemma adjoint_sum_ext T σ σ1 σ' ms t :
  grads_changed T σ σ1 → adjoint_sum σ1 σ' ms t = adjoint_sum σ σ' ms t.
Proof.
  intros Hfr. induction ms as [|m ms IH]; [done|].
  rewrite !adjoint_sum_cons, IH. f_equal.
  rewrite (grads_changed_closure _ _ _ m Hfr).
  apply local_delta_ext. intros i. by apply (grads_changed_data _ _ _ i Hfr).
Qed.

(** Objects that do not use [t] add nothing to the sum. *)
Lemma adjoint_sum_not_users σ σ' ms t :
  wf σ → (∀ m, m ∈ ms → t ∉ children_of σ m) → adjoint_sum σ σ' ms t = 0%R.
Proof.
  intros Hwf. induction ms as [|m ms IH]; intros H; [done|].
  rewrite adjoint_sum_cons, IH by (intros m' Hm'; apply H; by right).
  rewrite (local_delta_not_child σ _ m (children_of σ m));
    [lra|by apply wf_closure_ok|apply H; by left].
Qed.

(** The sum over the objects of [ms] is the sum over those that use [t]. *)
Lemma adjoint_sum_users σ σ' ms us t :
  wf σ → NoDup ms → NoDup us → (∀ u, u ∈ us → u ∈ ms) →
  (∀ m, m ∈ ms → t ∈ children_of σ m → m ∈ us) →
  adjoint_sum σ σ' ms t = adjoint_sum σ σ' us t.
Proof.
  intros Hwf Hms Hus Hsub Huse.
  assert (Hp : ms ≡ₚ us ++ filter (λ m, m ∉ us) ms).
  { apply NoDup_Permutation; [done| |].
    - apply NoDup_app. split; [done|]. split; [|by apply NoDup_filter].
      intros u Hu Hf. apply list_elem_of_filter in Hf as [Hn _]. done.
    - intros m. rewrite elem_of_app, list_elem_of_filter.
      split.
      + intros Hm. destruct (decide (m ∈ us)); [by left|by right].
      + intros [Hu|[_ Hm]]; [by apply Hsub|done]. }
  rewrite (adjoint_sum_Permutation _ _ _ _ _ Hp), adjoint_sum_app.
  rewrite (adjoint_sum_not_users σ σ' (filter _ ms)); [lra|done|].
  intros m Hm Hc. apply list_elem_of_filter in Hm as [Hn Hm]. by apply Hn, Huse.
Qed.

(** ** The adjoint equation of a whole pass *)

Lemma backward_result σ root nodes :
  topo σ root = Some nodes →
  result (backward root) σ =
    result (run_backwards (reverse nodes)) (exec (set_grad root 1) σ).
Proof.
  intros H. unfold result at 1. rewrite (backward_run _ _ _ H).
  fold (result (set_grad root 1 ;;; run_backwards (reverse nodes)) σ).
  by rewrite result_bind.
Qed.

Lemma backward_exec σ root nodes :
  topo σ root = Some nodes →
  exec (backward root) σ =
    exec (run_backwards (reverse nodes)) (exec (set_grad root 1) σ).
Proof.
  intros H. unfold exec at 1. rewrite (backward_run _ _ _ H).
  fold (exec (set_grad root 1 ;;; run_backwards (reverse nodes)) σ).
  by rewrite exec_bind.
Qed.

Lemma grad_seeded σ root t :
  root < length σ →
  grad (deref (exec (set_grad root 1) σ) t) =
    if decide (t = root) then 1%R else grad (deref σ t).
Proof.
  intros Hroot. case_decide as Ht.
  - subst t. by rewrite deref_set_grad_eq.
  - by rewrite deref_set_grad by done.
Qed.

(** A pass that returns leaves in every [grad] the seed (for the root) or
    what it held (for any other object), plus the sum over the reachable
    objects [m], each counted once, of what the closure of [m] adds when
    called with the final [grad] of [m]. *)
Lemma backward_adjoint σ root ms t :
  wf σ → root < length σ → result (backward root) σ = Ok tt →
  NoDup ms → (∀ m, m ∈ ms ↔ reach σ root m) →
  grad (deref (exec (backward root) σ) t) =
    ((if decide (t = root) then 1 else grad (deref σ t)) +
     adjoint_sum σ (exec (backward root) σ) ms t)%R.
Proof.
  intros Hwf Hroot Hres Hms Hreach.
  destruct (topo_spec σ root Hwf Hroot) as (nodes & Htopo & Hnd & Hr & Hpo).
  rewrite (backward_result _ _ _ Htopo) in Hres.
  rewrite (backward_exec _ _ _ Htopo).
  set (σs := exec (set_grad root 1) σ) in *.
  assert (Hseed : grads_changed (λ t, t = root) σ σs) by by apply preserves_set_grad.
  assert (Hwfs : wf σs) by by eapply grads_changed_wf.
  assert (Hlen : length σs = length σ) by apply Hseed.
  assert (Hndr : NoDup (reverse nodes)).
  { by rewrite (reverse_Permutation nodes). }
  rewrite (run_backwards_adjoint (reverse nodes) σs Hwfs); [| |done| |done].
  - unfold σs at 1. rewrite grad_seeded by done. f_equal.
    rewrite (adjoint_sum_ext _ _ _ _ _ _ Hseed).
    apply adjoint_sum_Permutation. apply NoDup_Permutation; [done|done|].
    intros m. rewrite elem_of_reverse, Hr, Hreach. done.
  - intros m Hm. rewrite elem_of_reverse in Hm. apply Hr in Hm.
    pose proof (reach_le _ _ _ Hwf Hm). lia.
  - intros i j p c Hi Hj Hc. rewrite (grads_changed_children _ _ _ p Hseed) in Hc.
    destruct (reverse_postorder σ nodes i p c Hpo Hi Hc) as (j' & Hlt & Hj').
    by rewrite (NoDup_lookup _ _ _ _ Hndr Hj Hj').
Qed.

(** The same with the sum taken over the users of [t] only. *)
Lemma backward_grad_users σ root us t :
  wf σ → root < length σ → result (backward root) σ = Ok tt →
  NoDup us → (∀ u, u ∈ us → reach σ root u) →
  (∀ m, reach σ root m → t ∈ children_of σ m → m ∈ us) →
  grad (deref (exec (backward root) σ) t) =
    ((if decide (t = root) then 1 else grad (deref σ t)) +
     adjoint_sum σ (exec (backward root) σ) us t)%R.
Proof.
  intros Hwf Hroot Hres Hus Hsub Huse.
  destruct (topo_spec σ root Hwf Hroot) as (nodes & _ & Hnd & Hr & _).
  rewrite (backward_adjoint σ root nodes t); [|done..].
  f_equal. apply adjoint_sum_users; [done..| |].
  - intros u Hu. by apply Hr, Hsub.
  - intros m Hm. apply Huse. by apply Hr.
Qed.

(** ** When a pass returns *)

(** Whether a closure returns depends on the [data] fields only. *)
Lemma call_closure_result_ext σ σ' b :
  (∀ i, data (deref σ' i) = data (deref σ i)) →
  result (call_closure b) σ' = result (call_closure b) σ.
Proof.
  intros H. destruct b; try done;
    unfold call_closure, result, bind, get_grad, get_num, lift; cbn [fst snd].
  - by destruct (py_pow data0 2).
  - rewrite H. by destruct (as_num _).
  - rewrite (H other). destruct (as_num (data (deref σ other))) as [y|]; [|done].
    cbn [add_grad].
    change (alter _ self σ') with (exec (add_grad self (grad (deref σ' out) * y)) σ').
    change (alter _ self σ) with (exec (add_grad self (grad (deref σ out) * y)) σ).
    rewrite !data_add_grad, H. by destruct (as_num _).
  - rewrite H. destruct (as_num _) as [x|]; [|done]. cbn. by destruct (py_pow _ _).
Qed.

Lemma local_backward_result T σ σ' m :
  grads_changed T σ σ' →
  result (local_backward m) σ' = result (call_closure (_backward (deref σ m))) σ.
Proof.
  intros Hfr. unfold result at 1. rewrite local_backward_run.
  rewrite (grads_changed_closure _ _ _ m Hfr).
  apply call_closure_result_ext. intros i. by apply (grads_changed_data _ _ _ i Hfr).
Qed.

(** A run of closures returns exactly when each of them, called on its own,
    returns. *)
Lemma run_backwards_returns order :
  ∀ T σ σ', wf σ' → grads_changed T σ σ' →
    (result (run_backwards order) σ' = Ok tt ↔
     ∀ m, m ∈ order → result (call_closure (_backward (deref σ m))) σ = Ok tt).
Proof.
  induction order as [|m order IH]; intros T σ σ' Hwf Hfr.
  { split; [intros _ m Hm; by apply elem_of_nil in Hm|done]. }
  cbn [run_backwards]. rewrite result_bind.
  rewrite (local_backward_result _ _ _ m Hfr).
  pose proof (local_backward_frame σ' m Hwf) as Hlb.
  pose proof (grads_changed_wf _ _ _ Hlb Hwf) as Hwf1.
  assert (Hfr1 : grads_changed (λ _, True) σ (exec (local_backward m) σ')).
  { eapply grads_changed_trans; eapply grads_changed_weaken; [|done| |done]; done. }
  split.
  - destruct (result (call_closure _) σ) as [[]|e] eqn:Hm; [|done].
    intros Hrest m' Hm'. apply elem_of_cons in Hm' as [->|Hm']; [done|].
    by apply (IH _ σ _ Hwf1 Hfr1).
  - intros H. rewrite (H m) by left.
    apply (IH _ σ _ Hwf1 Hfr1). intros m' Hm'. apply H. by right.
Qed.

Lemma backward_returns σ root :
  wf σ → root < length σ →
  (result (backward root) σ = Ok tt ↔
   ∀ m, reach σ root m → result (call_closure (_backward (deref σ m))) σ = Ok tt).
Proof.
  intros Hwf Hroot.
  destruct (topo_spec σ root Hwf Hroot) as (nodes & Htopo & _ & Hr & _).
  rewrite (backward_result _ _ _ Htopo).
  assert (Hseed : grads_changed (λ t, t = root) σ (exec (set_grad root 1) σ))
    by by apply preserves_set_grad.
  rewrite (run_backwards_returns _ _ σ _ (grads_changed_wf _ _ _ Hseed Hwf) Hseed).
  split; intros H m Hm; apply H.
  - apply elem_of_reverse. by apply Hr.
  - apply Hr. by apply elem_of_reverse.
Qed.

(** Whether a closure returns depends on the [data] of its operands only. *)
Lemma call_closure_result_local σ σ' b m ch :
  closure_ok m ch b → (∀ i, i ∈ ch → data (deref σ' i) = data (deref σ i)) →
  result (call_closure b) σ' = result (call_closure b) σ.
Proof.
  intros Hok H. destruct b; try done; simpl in Hok;
    first [destruct Hok as [[-> ->] _]|destruct Hok as [-> ->]];
    unfold call_closure, result, bind, get_grad, get_num, lift; cbn [fst snd].
  - by destruct (py_pow data0 2).
  - rewrite (H self) by left. by destruct (as_num _).
  - rewrite (H other) by (right; left).
    destruct (as_num (data (deref σ other))) as [y|]; [|done].
    cbn [add_grad].
    change (alter _ self σ') with (exec (add_grad self (grad (deref σ' m) * y)) σ').
    change (alter _ self σ) with (exec (add_grad self (grad (deref σ m) * y)) σ).
    rewrite !data_add_grad, (H self) by left. by destruct (as_num _).
  - rewrite (H self) by left. destruct (as_num _) as [x|]; [|done]. cbn.
    by destruct (py_pow _ _).
Qed.

(** ** Stores that have grown *)

Lemma children_of_app (σ l : store) m :
  m < length σ → children_of (σ ++ l) m = children_of σ m.
Proof. intros Hm. unfold children_of. by rewrite deref_app_l. Qed.

Lemma reach_app_old (σ l : store) c m :
  wf (σ ++ l) → c < length σ → reach (σ ++ l) c m → reach σ c m.
Proof.
  intros Hwf Hc Hr. induction Hr as [|v c' w Hc' Hr IH]; [apply reach_refl|].
  pose proof (wf_children_lt _ _ _ Hwf Hc').
  eapply reach_step; [|apply IH; lia]. by rewrite children_of_app in Hc'.
Qed.

Lemma reach_app (σ l : store) c m :
  wf σ → c < length σ → reach σ c m → reach (σ ++ l) c m.
Proof.
  intros Hwf Hc Hr. induction Hr as [|v c' w Hc' Hr IH]; [apply reach_refl|].
  pose proof (wf_children_lt _ _ _ Hwf Hc').
  eapply reach_step; [|apply IH; lia]. by rewrite children_of_app.
Qed.

Lemma closure_returns_app (σ l : store) m :
  wf σ → m < length σ →
  result (call_closure (_backward (deref (σ ++ l) m))) (σ ++ l) =
  result (call_closure (_backward (deref σ m))) σ.
Proof.
  intros Hwf Hm. rewrite deref_app_l by done.
  apply (call_closure_result_local _ _ _ m (children_of σ m));
    [by apply wf_closure_ok|].
  intros i Hi. pose proof (wf_children_lt _ _ _ Hwf Hi).
  rewrite deref_app_l; [done|lia].
Qed.

(** A pass from an operand that returned in [σ] means that the closures
    below that operand return in any store grown from [σ]. *)
Lemma operand_closures_return (σ l : store) a m :
  wf σ → a < length σ → result (backward a) σ = Ok tt →
  reach σ a m →
  result (call_closure (_backward (deref (σ ++ l) m))) (σ ++ l) = Ok tt.
Proof.
  intros Hwf Ha Hres Hr. pose proof (reach_le _ _ _ Hwf Hr).
  rewrite closure_returns_app by (done || lia).
  by apply (backward_returns σ a Hwf Ha).
Qed.

Lemma reach_cases σ v m :
  reach σ v m → m = v ∨ ∃ c, c ∈ children_of σ v ∧ reach σ c m.
Proof. intros [|? c w Hc Hr]; [by left|right; by exists c]. Qed.

(** * Subtraction and division of two objects *)

Lemma call_BMul_result τ s o out x y :
  data (deref τ s) = PNum x → data (deref τ o) = PNum y →
  result (call_closure (BMul s o out)) τ = Ok tt.
Proof.
  intros Hx Hy. unfold call_closure, result.
  rewrite (bind_Ok _ _ τ (grad (deref τ out)) τ) by done.
  rewrite (bind_Ok _ _ τ y τ) by by apply get_num_run.
  set (τ1 := exec (add_grad s (grad (deref τ out) * y)) τ).
  rewrite (bind_Ok _ _ τ tt τ1) by done.
  rewrite (bind_Ok _ _ τ1 (grad (deref τ1 out)) τ1) by done.
  rewrite (bind_Ok _ _ τ1 x τ1); [done|].
  apply get_num_run. unfold τ1. by rewrite data_add_grad.
Qed.

(** [a - b] on two objects: a leaf for [-1], the product of [b] and that
    leaf, and the sum of [a] and that product. *)
Lemma sub_Value_run σ a b x y :
  a < length σ → b < length σ →
  data (deref σ a) = PNum x → data (deref σ b) = PNum y →
  __sub__ a (OValue b) σ =
    (Ok (S (S (length σ))),
     σ ++ [leaf (PNum (-1));
           mkValue (PNum (y * -1)) 0 EmptyString [b; length σ]
             (BMul b (length σ) (S (length σ))) OpMul;
           mkValue (PNum (x + y * -1)) 0 EmptyString [a; S (length σ)]
             (BAdd a (S (length σ)) (S (S (length σ)))) OpAdd]).
Proof.
  intros Ha Hb Hx Hy. unfold __sub__. cbn [is_number_or_Value].
  rewrite py_assert_true_bind. rewrite (bind_Ok _ _ σ b σ) by done.
  erewrite bind_Ok; [|unfold __neg__; by apply (mul_num_run σ b y (-1))].
  set (σ2 := σ ++ _).
  assert (L2 : length σ2 = S (S (length σ))).
  { unfold σ2. rewrite length_app. simpl. lia. }
  rewrite (add_Value_run σ2 a (S (length σ)) x (y * -1)).
  - rewrite L2. unfold σ2. by rewrite <- !app_assoc.
  - unfold σ2. by rewrite deref_app_l.
  - unfold σ2. by rewrite snoc2, two_new_deref_1.
Qed.

(** [a / b] on two objects, with [b] holding other than 0 and [1 / b] in
    range: the power [-1] of [b], and the product of [a] and that power. *)
Lemma truediv_Value_run σ a b x y :
  a < length σ → b < length σ →
  data (deref σ a) = PNum x → data (deref σ b) = PNum y → y ≠ 0%R →
  in_range (/ y) →
  __truediv__ a (OValue b) σ =
    (Ok (S (length σ)),
     σ ++ [mkValue (PNum (/ y)) 0 EmptyString [b]
             (BPow b (length σ) (-1)) (OpPow (-1));
           mkValue (PNum (x * / y)) 0 EmptyString [a; length σ]
             (BMul a (length σ) (S (length σ))) OpMul]).
Proof.
  intros Ha Hb Hx Hy Hy0 Hrange. unfold __truediv__. cbn [is_number_or_Value].
  rewrite py_assert_true_bind. rewrite (bind_Ok _ _ σ b σ) by done.
  erewrite bind_Ok.
  2:{ apply (pow_run σ b y (-1) (/ y)); [done|]. by apply py_pow_inv. }
  set (σ1 := σ ++ _).
  assert (L1 : length σ1 = S (length σ)) by apply length_snoc.
  rewrite (mul_Value_run σ1 a (length σ) x (/ y)).
  - rewrite L1. unfold σ1. by rewrite <- !app_assoc.
  - unfold σ1. by rewrite deref_app_l.
  - unfold σ1. by rewrite deref_app_new.
Qed.

Lemma three_new_wf σ n0 n1 n2 :
  wf σ →
  Forall (λ c, c < length σ) (_children n0) →
  closure_ok (length σ) (_children n0) (_backward n0) →
  Forall (λ c, c < S (length σ)) (_children n1) →
  closure_ok (S (length σ)) (_children n1) (_backward n1) →
  Forall (λ c, c < S (S (length σ))) (_children n2) →
  closure_ok (S (S (length σ))) (_children n2) (_backward n2) →
  wf (σ ++ [n0; n1; n2]).
Proof.
  intros Hwf H0 C0 H1 C1 H2 C2.
  replace (σ ++ [n0; n1; n2]) with (((σ ++ [n0]) ++ [n1]) ++ [n2])
    by by rewrite <- !app_assoc.
  repeat apply wf_snoc; rewrite ?length_snoc; done.
Qed.

Lemma three_new_0 (σ : store) n0 n1 n2 : deref (σ ++ [n0; n1; n2]) (length σ) = n0.
Proof.
  replace (σ ++ [n0; n1; n2]) with (((σ ++ [n0]) ++ [n1]) ++ [n2])
    by by rewrite <- !app_assoc.
  apply three_new_deref_0.
Qed.

Lemma three_new_1 (σ : store) n0 n1 n2 : deref (σ ++ [n0; n1; n2]) (S (length σ)) = n1.
Proof.
  replace (σ ++ [n0; n1; n2]) with (((σ ++ [n0]) ++ [n1]) ++ [n2])
    by by rewrite <- !app_assoc.
  apply three_new_deref_1.
Qed.

Lemma three_new_2 (σ : store) n0 n1 n2 :
  deref (σ ++ [n0; n1; n2]) (S (S (length σ))) = n2.
Proof.
  replace (σ ++ [n0; n1; n2]) with (((σ ++ [n0]) ++ [n1]) ++ [n2])
    by by rewrite <- !app_assoc.
  apply three_new_deref_2.
Qed.

Lemma two_new_0 (σ : store) n0 n1 : deref (σ ++ [n0; n1]) (length σ) = n0.
Proof. rewrite snoc2. apply two_new_deref_0. Qed.

Lemma two_new_1 (σ : store) n0 n1 : deref (σ ++ [n0; n1]) (S (length σ)) = n1.
Proof. rewrite snoc2. apply two_new_deref_1. Qed.

Section sub_graph.
Variables (σ : store) (a b : node_id) (x y : R).
Hypothesis Hwf : wf σ.
Hypothesis Ha : a < length σ.
Hypothesis Hb : b < length σ.
Hypothesis Hx : data (deref σ a) = PNum x.
Hypothesis Hy : data (deref σ b) = PNum y.
Hypothesis Hra : result (backward a) σ = Ok tt.
Hypothesis Hrb : result (backward b) σ = Ok tt.

Local Abbreviation n := (length σ).
Local Abbreviation σ' := (σ ++ sub_nodes σ a b x y).

Local Lemma sub_wf : wf σ'.
Proof.
  apply three_new_wf; try done; simpl; repeat constructor; lia.
Qed.

Local Lemma sub_len : length σ' = S (S (S n)).
Proof. rewrite length_app. simpl. lia. Qed.

Local Lemma sub_reach m :
  reach σ' (S (S n)) m →
  m = S (S n) ∨ m = S n ∨ m = n ∨ reach σ a m ∨ reach σ b m.
Proof.
  intros Hr. destruct (reach_cases _ _ _ Hr) as [->|(c & Hc & Hr1)]; [by left|].
  unfold children_of, sub_nodes in Hc. rewrite three_new_2 in Hc. simpl in Hc.
  apply elem_of_cons in Hc as [->|Hc].
  { right; right; right; left. by apply (reach_app_old σ (sub_nodes σ a b x y)), Hr1; [apply sub_wf|]. }
  apply list_elem_of_singleton in Hc as ->.
  destruct (reach_cases _ _ _ Hr1) as [->|(c & Hc & Hr2)]; [by right; left|].
  unfold children_of, sub_nodes in Hc. rewrite three_new_1 in Hc. simpl in Hc.
  apply elem_of_cons in Hc as [->|Hc].
  { right; right; right; right. by apply (reach_app_old σ (sub_nodes σ a b x y)), Hr2; [apply sub_wf|]. }
  apply list_elem_of_singleton in Hc as ->.
  right; right; left. apply (reach_leaf σ' n m); [|done].
  unfold children_of, sub_nodes. by rewrite three_new_0.
Qed.

Local Lemma sub_returns : result (backward (S (S n))) σ' = Ok tt.
Proof.
  apply backward_returns; [apply sub_wf|rewrite sub_len; lia|].
  intros m Hm. destruct (sub_reach m Hm) as [->|[->|[->|[Hr|Hr]]]].
  - unfold sub_nodes. by rewrite three_new_2.
  - unfold sub_nodes. rewrite three_new_1. simpl.
    apply (call_BMul_result _ _ _ _ y (-1)).
    + by rewrite deref_app_l.
    + by rewrite three_new_0.
  - unfold sub_nodes. by rewrite three_new_0.
  - by apply (operand_closures_return σ _ a).
  - by apply (operand_closures_return σ _ b).
Qed.

Local Lemma sub_children_old m : m < n → children_of σ' m = children_of σ m.
Proof. intros Hm. by apply children_of_app. Qed.

Local Lemma sub_grad_top :
  grad (deref (exec (backward (S (S n))) σ') (S (S n))) = 1%R.
Proof. apply backward_seed; [apply sub_wf|rewrite sub_len; lia]. Qed.

Local Lemma sub_grad_mid :
  grad (deref (exec (backward (S (S n))) σ') (S n)) = 1%R.
Proof.
  rewrite (backward_grad_users σ' (S (S n)) [S (S n)] (S n));
    [|apply sub_wf|rewrite sub_len; lia|apply sub_returns|apply NoDup_singleton| |].
  - rewrite adjoint_sum_cons, adjoint_sum_nil, sub_grad_top.
    unfold sub_nodes. rewrite ?three_new_2, ?three_new_1. simpl.
    rewrite ?three_new_0, ?three_new_1, ?deref_app_l by done. simpl.
    repeat case_decide; try lia; lra.
  - intros u ->%list_elem_of_singleton. apply reach_refl.
  - intros m Hm Hc. apply list_elem_of_singleton.
    pose proof (reach_le _ _ _ sub_wf Hm).
    pose proof (wf_children_lt _ _ _ sub_wf Hc). lia.
Qed.

Lemma sub_grad_a :
  ¬ reach σ b a →
  grad (deref (exec (backward (S (S n))) σ') a) = (grad (deref σ a) + 1)%R.
Proof.
  intros Hn.
  assert (Hab : a ≠ b) by (intros ->; apply Hn, reach_refl).
  rewrite (backward_grad_users σ' (S (S n)) [S (S n)] a);
    [|apply sub_wf|rewrite sub_len; lia|apply sub_returns|apply NoDup_singleton| |].
  - rewrite adjoint_sum_cons, adjoint_sum_nil, sub_grad_top.
    unfold sub_nodes. rewrite ?three_new_2, ?three_new_1. simpl.
    rewrite ?three_new_0, ?three_new_1, ?deref_app_l by done. simpl.
    repeat case_decide; try lia; lra.
  - intros u ->%list_elem_of_singleton. apply reach_refl.
  - intros m Hm Hc. apply list_elem_of_singleton.
    destruct (sub_reach m Hm) as [->|[->|[->|[Hr|Hr]]]]; [done| | | |].
    + unfold children_of, sub_nodes in Hc. rewrite three_new_1 in Hc. simpl in Hc.
      apply elem_of_cons in Hc as [->|Hc]; [done|].
      apply list_elem_of_singleton in Hc. lia.
    + unfold children_of, sub_nodes in Hc. rewrite three_new_0 in Hc.
      by apply elem_of_nil in Hc.
    + pose proof (reach_le _ _ _ Hwf Hr).
      rewrite sub_children_old in Hc by lia.
      by destruct (not_child_below σ a m).
    + pose proof (reach_le _ _ _ Hwf Hr).
      rewrite sub_children_old in Hc by lia.
      by destruct (not_child_unreachable σ a b m).
Qed.

Lemma sub_grad_b :
  ¬ reach σ a b →
  grad (deref (exec (backward (S (S n))) σ') b) = (grad (deref σ b) - 1)%R.
Proof.
  intros Hn.
  assert (Hab : a ≠ b) by (intros ->; apply Hn, reach_refl).
  rewrite (backward_grad_users σ' (S (S n)) [S n] b);
    [|apply sub_wf|rewrite sub_len; lia|apply sub_returns|apply NoDup_singleton| |].
  - rewrite adjoint_sum_cons, adjoint_sum_nil, sub_grad_mid.
    unfold sub_nodes. rewrite ?three_new_2, ?three_new_1. simpl.
    rewrite ?three_new_0, ?three_new_1, ?deref_app_l by done. simpl.
    repeat case_decide; try lia; lra.
  - intros u ->%list_elem_of_singleton.
    eapply reach_step; [|apply reach_refl].
    unfold children_of, sub_nodes. rewrite three_new_2. simpl. right; left.
  - intros m Hm Hc. apply list_elem_of_singleton.
    destruct (sub_reach m Hm) as [->|[->|[->|[Hr|Hr]]]]; [|done| | |].
    + unfold children_of, sub_nodes in Hc. rewrite three_new_2 in Hc. simpl in Hc.
      apply elem_of_cons in Hc as [->|Hc]; [done|].
      apply list_elem_of_singleton in Hc. lia.
    + unfold children_of, sub_nodes in Hc. rewrite three_new_0 in Hc.
      by apply elem_of_nil in Hc.
    + pose proof (reach_le _ _ _ Hwf Hr).
      rewrite sub_children_old in Hc by lia.
      by destruct (not_child_unreachable σ b a m).
    + pose proof (reach_le _ _ _ Hwf Hr).
      rewrite sub_children_old in Hc by lia.
      by destruct (not_child_below σ b m).
Qed.

Lemma sub_grad_same :
  a = b →
  grad (deref (exec (backward (S (S n))) σ') a) = grad (deref σ a).
Proof.
  intros Hab.
  rewrite (backward_grad_users σ' (S (S n)) [S (S n); S n] a);
    [|apply sub_wf|rewrite sub_len; lia|apply sub_returns| | |].
  - rewrite !adjoint_sum_cons, adjoint_sum_nil, sub_grad_top, sub_grad_mid.
    unfold sub_nodes. rewrite ?three_new_2, ?three_new_1. simpl.
    rewrite ?three_new_0, ?three_new_1, ?deref_app_l by done. simpl.
    repeat case_decide; try lia; lra.
  - apply NoDup_cons. split; [|apply NoDup_singleton].
    intros ?%list_elem_of_singleton. lia.
  - intros u Hu. apply elem_of_cons in Hu as [->|Hu]; [apply reach_refl|].
    apply list_elem_of_singleton in Hu as ->.
    eapply reach_step; [|apply reach_refl].
    unfold children_of, sub_nodes. rewrite three_new_2. simpl. right; left.
  - intros m Hm Hc.
    destruct (sub_reach m Hm) as [->|[->|[->|[Hr|Hr]]]];
      [left|right; left| | |].
    + unfold children_of, sub_nodes in Hc. rewrite three_new_0 in Hc.
      by apply elem_of_nil in Hc.
    + pose proof (reach_le _ _ _ Hwf Hr).
      rewrite sub_children_old in Hc by lia.
      by destruct (not_child_below σ a m).
    + rewrite <- Hab in Hr. pose proof (reach_le _ _ _ Hwf Hr).
      rewrite sub_children_old in Hc by lia.
      by destruct (not_child_below σ a m).
Qed.

End sub_graph.

Lemma py_pow_minus2 (y : R) :
  y ≠ 0%R → in_range (/ (y * y)) → py_pow y (-1 - 1) = Ok (/ (y * y))%R.
Proof.
  intros Hy Hr. replace (-1 - 1)%R with (IZR (-2)) by lra.
  assert (E : powerRZ y (-2) = (/ (y * y))%R) by (simpl; by rewrite Rmult_1_r).
  rewrite py_pow_int; [by rewrite E|by left|by rewrite E].
Qed.

(** When [1 / y^2] is in range, so is [1 / y]. *)
Lemma in_range_inv_of_square y : in_range (/ (y * y)) → in_range (/ y).
Proof.
  intros H. apply in_range_of_square.
  by replace ((/ y) ^ 2)%R with (/ (y * y))%R by (rewrite Rinv_mult; ring).
Qed.

Lemma call_BPow_result τ s o p x q :
  data (deref τ s) = PNum x → py_pow x (p - 1) = Ok q →
  result (call_closure (BPow s o p)) τ = Ok tt.
Proof. intros Hx Hq. unfold result. by rewrite (call_BPow_run τ s o p x q). Qed.

Lemma two_new_wf σ n0 n1 :
  wf σ →
  Forall (λ c, c < length σ) (_children n0) →
  closure_ok (length σ) (_children n0) (_backward n0) →
  Forall (λ c, c < S (length σ)) (_children n1) →
  closure_ok (S (length σ)) (_children n1) (_backward n1) →
  wf (σ ++ [n0; n1]).
Proof.
  intros Hwf H0 C0 H1 C1. rewrite snoc2.
  repeat apply wf_snoc; rewrite ?length_snoc; done.
Qed.

Section div_graph.
Variables (σ : store) (a b : node_id) (x y : R).
Hypothesis Hwf : wf σ.
Hypothesis Ha : a < length σ.
Hypothesis Hb : b < length σ.
Hypothesis Hx : data (deref σ a) = PNum x.
Hypothesis Hy : data (deref σ b) = PNum y.
Hypothesis Hy0 : y ≠ 0%R.
Hypothesis Hy2 : in_range (/ (y * y)).
Hypothesis Hra : result (backward a) σ = Ok tt.
Hypothesis Hrb : result (backward b) σ = Ok tt.

Local Abbreviation n := (length σ).
Local Abbreviation σ' := (σ ++ truediv_nodes σ a b x y).

Local Lemma div_wf : wf σ'.
Proof.
  apply two_new_wf; try done; simpl; repeat constructor; lia.
Qed.

Local Lemma div_len : length σ' = S (S n).
Proof. rewrite length_app. simpl. lia. Qed.

Local Lemma div_reach m :
  reach σ' (S n) m → m = S n ∨ m = n ∨ reach σ a m ∨ reach σ b m.
Proof.
  intros Hr. destruct (reach_cases _ _ _ Hr) as [->|(c & Hc & Hr1)]; [by left|].
  unfold children_of, truediv_nodes in Hc. rewrite two_new_1 in Hc. simpl in Hc.
  apply elem_of_cons in Hc as [->|Hc].
  { right; right; left. by apply (reach_app_old σ (truediv_nodes σ a b x y)), Hr1; [apply div_wf|]. }
  apply list_elem_of_singleton in Hc as ->.
  destruct (reach_cases _ _ _ Hr1) as [->|(c & Hc & Hr2)]; [by right; left|].
  unfold children_of, truediv_nodes in Hc. rewrite two_new_0 in Hc. simpl in Hc.
  apply list_elem_of_singleton in Hc as ->.
  right; right; right. by apply (reach_app_old σ (truediv_nodes σ a b x y)), Hr2; [apply div_wf|].
Qed.

Local Lemma div_returns : result (backward (S n)) σ' = Ok tt.
Proof.
  apply backward_returns; [apply div_wf|rewrite div_len; lia|].
  intros m Hm. destruct (div_reach m Hm) as [->|[->|[Hr|Hr]]].
  - unfold truediv_nodes. rewrite two_new_1. simpl.
    apply (call_BMul_result _ _ _ _ x (/ y)).
    + by rewrite deref_app_l.
    + by rewrite two_new_0.
  - unfold truediv_nodes. rewrite two_new_0. simpl.
    apply (call_BPow_result _ _ _ _ y (/ (y * y))).
    + by rewrite deref_app_l.
    + by apply py_pow_minus2.
  - by apply (operand_closures_return σ _ a).
  - by apply (operand_closures_return σ _ b).
Qed.

Local Lemma div_children_old m : m < n → children_of σ' m = children_of σ m.
Proof. intros Hm. by apply children_of_app. Qed.

Local Lemma div_grad_top : grad (deref (exec (backward (S n)) σ') (S n)) = 1%R.
Proof. apply backward_seed; [apply div_wf|rewrite div_len; lia]. Qed.

Local Lemma div_grad_mid : grad (deref (exec (backward (S n)) σ') n) = x.
Proof.
  rewrite (backward_grad_users σ' (S n) [S n] n);
    [|apply div_wf|rewrite div_len; lia|apply div_returns|apply NoDup_singleton| |].
  - rewrite adjoint_sum_cons, adjoint_sum_nil, div_grad_top.
    unfold truediv_nodes. rewrite ?two_new_1, ?two_new_0. simpl.
    rewrite ?two_new_0, ?two_new_1, ?deref_app_l by done. simpl. rewrite Hx. simpl.
    repeat case_decide; try lia; lra.
  - intros u ->%list_elem_of_singleton. apply reach_refl.
  - intros m Hm Hc. apply list_elem_of_singleton.
    pose proof (reach_le _ _ _ div_wf Hm).
    pose proof (wf_children_lt _ _ _ div_wf Hc). lia.
Qed.

Local Lemma div_users_old t m :
  t < n → (reach σ a m → t ∉ children_of σ m) →
  (reach σ b m → t ∉ children_of σ m) →
  reach σ' (S n) m → t ∈ children_of σ' m → m = S n ∨ m = n.
Proof.
  intros Ht Hta Htb Hm Hc.
  destruct (div_reach m Hm) as [->|[->|[Hr|Hr]]]; [by left|by right| |].
  - pose proof (reach_le _ _ _ Hwf Hr).
    rewrite div_children_old in Hc by lia. by destruct Hta.
  - pose proof (reach_le _ _ _ Hwf Hr).
    rewrite div_children_old in Hc by lia. by destruct Htb.
Qed.

Lemma div_grad_a :
  ¬ reach σ b a →
  grad (deref (exec (backward (S n)) σ') a) = (grad (deref σ a) + / y)%R.
Proof.
  intros Hn.
  assert (Hab : a ≠ b) by (intros ->; apply Hn, reach_refl).
  rewrite (backward_grad_users σ' (S n) [S n] a);
    [|apply div_wf|rewrite div_len; lia|apply div_returns|apply NoDup_singleton| |].
  - rewrite adjoint_sum_cons, adjoint_sum_nil, div_grad_top.
    unfold truediv_nodes. rewrite ?two_new_1, ?two_new_0. simpl.
    rewrite ?two_new_0, ?two_new_1, ?deref_app_l by done. simpl.
    repeat case_decide; try lia; lra.
  - intros u ->%list_elem_of_singleton. apply reach_refl.
  - intros m Hm Hc. apply list_elem_of_singleton.
    destruct (div_users_old a m) as [->| ->]; try done.
    + by apply not_child_below.
    + by apply not_child_unreachable.
    + unfold children_of, truediv_nodes in Hc. rewrite two_new_0 in Hc. simpl in Hc.
      by apply list_elem_of_singleton in Hc.
Qed.

Lemma div_grad_b :
  ¬ reach σ a b →
  grad (deref (exec (backward (S n)) σ') b) = (grad (deref σ b) - x / (y * y))%R.
Proof.
  intros Hn.
  assert (Hab : a ≠ b) by (intros ->; apply Hn, reach_refl).
  rewrite (backward_grad_users σ' (S n) [n] b);
    [|apply div_wf|rewrite div_len; lia|apply div_returns|apply NoDup_singleton| |].
  - rewrite adjoint_sum_cons, adjoint_sum_nil, div_grad_mid.
    unfold truediv_nodes. rewrite ?two_new_1, ?two_new_0. simpl.
    rewrite ?two_new_0, ?two_new_1, ?deref_app_l by done. simpl. rewrite Hy. simpl.
    unfold pow_of. rewrite py_pow_minus2 by done.
    repeat case_decide; try lia; lra.
  - intros u ->%list_elem_of_singleton.
    eapply reach_step; [|apply reach_refl].
    unfold children_of, truediv_nodes. rewrite two_new_1. simpl. right; left.
  - intros m Hm Hc. apply list_elem_of_singleton.
    destruct (div_users_old b m) as [->| ->]; try done.
    + by apply not_child_unreachable.
    + by apply not_child_below.
    + unfold children_of, truediv_nodes in Hc. rewrite two_new_1 in Hc. simpl in Hc.
      apply elem_of_cons in Hc as [->|Hc]; [done|].
      apply list_elem_of_singleton in Hc. lia.
Qed.

Lemma div_grad_same :
  a = b →
  grad (deref (exec (backward (S n)) σ') a) = grad (deref σ a).
Proof.
  intros Hab.
  assert (Hxy : x = y) by (rewrite <- Hab in Hy; congruence).
  rewrite (backward_grad_users σ' (S n) [S n; n] a);
    [|apply div_wf|rewrite div_len; lia|apply div_returns| | |].
  - rewrite !adjoint_sum_cons, adjoint_sum_nil, div_grad_top, div_grad_mid.
    unfold truediv_nodes. rewrite ?two_new_1, ?two_new_0. simpl.
    rewrite ?two_new_0, ?two_new_1, ?deref_app_l by done. simpl. rewrite Hy. simpl.
    unfold pow_of. rewrite py_pow_minus2 by done.
    repeat case_decide; try lia. rewrite Hxy. field. done.
  - apply NoDup_cons. split; [|apply NoDup_singleton].
    intros ?%list_elem_of_singleton. lia.
  - intros u Hu. apply elem_of_cons in Hu as [->|Hu]; [apply reach_refl|].
    apply list_elem_of_singleton in Hu as ->.
    eapply reach_step; [|apply reach_refl].
    unfold children_of, truediv_nodes. rewrite two_new_1. simpl. right; left.
  - intros m Hm Hc.
    destruct (div_users_old a m) as [->| ->]; try done;
      [by apply not_child_below| |left|right; left].
    intros Hr. rewrite <- Hab in Hr. by apply not_child_below.
Qed.

End div_graph.

(** * Constructors only append *)

Lemma preserves_prefix_Value d ch op : preserves prefix (Value d ch op).
Proof. intros σ. unfold exec, Value. simpl. by apply prefix_app_r. Qed.

Lemma preserves_prefix_new_node d ch op (b : node_id → closure) :
  preserves prefix (out <- Value d ch op ;; set_backward out (b out) ;;; ret out).
Proof. intros σ. unfold exec. rewrite new_node_run. simpl. by apply prefix_app_r. Qed.

Lemma preserves_prefix_promote other : preserves prefix (promote other).
Proof.
  destruct other; simpl; try apply preserves_prefix_Value.
  by apply preserves_ret.
Qed.

Lemma preserves_prefix_promote_number other : preserves prefix (promote_number other).
Proof.
  destruct other; simpl; try apply preserves_prefix_Value.
  - by apply preserves_ret.
  - by apply preserves_raise.
Qed.

Ltac prefix_steps :=
  pose proof (@reflexivity store prefix _) as Hprefix_refl;
  pose proof (@transitivity store prefix _) as Hprefix_trans;
  repeat first
    [ apply preserves_prefix_new_node
    | apply preserves_prefix_promote
    | apply preserves_prefix_promote_number
    | solve [auto with preserves]
    | apply preserves_bind; [assumption| |intros ?] ].

Lemma preserves_prefix_add self other : preserves prefix (__add__ self other).
Proof. unfold __add__. prefix_steps. Qed.

Lemma preserves_prefix_mul self other : preserves prefix (__mul__ self other).
Proof. unfold __mul__. prefix_steps. Qed.

Lemma preserves_prefix_pow self power : preserves prefix (__pow__ self power).
Proof. unfold __pow__. destruct power; prefix_steps. Qed.

Lemma construct_prefix c : preserves prefix (construct c).
Proof.
  pose proof (@reflexivity store prefix _) as Hprefix_refl.
  pose proof (@transitivity store prefix _) as Hprefix_trans.
  destruct c; cbn [construct];
    try apply preserves_prefix_Value;
    try apply preserves_prefix_add;
    try apply preserves_prefix_mul;
    try apply preserves_prefix_pow;
    unfold linear, tanh, leaky_relu, relu, sigmoid, exp, __radd__, __rmul__,
      __neg__, __sub__, __rsub__, __sub__, __truediv__, __neg__;
    repeat first
      [ apply preserves_prefix_new_node
      | apply preserves_prefix_promote_number
      | apply preserves_prefix_add
      | apply preserves_prefix_mul
      | apply preserves_prefix_pow
      | solve [auto with preserves]
      | apply preserves_bind; [assumption| |intros ?] ].
Qed.

(** * The gradients of a pass, in general *)

(** The adjoint equation of reverse-mode differentiation.  After a pass
    from [root] that returns, the [grad] of any object [t] is the seed 1
    (when [t] is the root) or what [t] held before (otherwise), plus, for
    each reachable object [u] that has [t] among its children, counted
    once, what the closure of [u] adds to [t] when it is called with the
    final [grad] of [u].  [us] is any duplicate-free list of reachable
    objects that holds every such [u]; the list of all reachable objects is
    one. *)
Theorem backward_adjoint_equation σ root us t :
  wf σ → root < length σ → result (backward root) σ = Ok tt →
  NoDup us → (∀ u, u ∈ us → reach σ root u) →
  (∀ m, reach σ root m → t ∈ children_of σ m → m ∈ us) →
  grad (deref (exec (backward root) σ) t) =
    ((if decide (t = root) then 1 else grad (deref σ t)) +
     adjoint_sum σ (exec (backward root) σ) us t)%R.
Proof. apply backward_grad_users. Qed.

(** Whether a run of closures returns, and what it raises, is the same from
    two stores that differ in [grad] only. *)
Lemma run_backwards_result_ext order :
  ∀ σ σ', wf σ → wf σ' → (∀ i, data (deref σ' i) = data (deref σ i)) →
    (∀ i, _backward (deref σ' i) = _backward (deref σ i)) →
    (∀ i, children_of σ' i = children_of σ i) →
    result (run_backwards order) σ' = result (run_backwards order) σ.
Proof.
  induction order as [|m order IH]; intros σ σ' Hwf Hwf' Hd Hb Hc; [done|].
  cbn [run_backwards]. rewrite !result_bind.
  assert (Hm : result (local_backward m) σ' = result (local_backward m) σ).
  { unfold result. rewrite !local_backward_run, Hb.
    by apply call_closure_result_ext. }
  rewrite Hm. destruct (result (local_backward m) σ) as [[]|e]; [|done].
  pose proof (local_backward_frame σ m Hwf) as F.
  pose proof (local_backward_frame σ' m Hwf') as F'.
  apply IH.
  - by eapply grads_changed_wf.
  - by eapply grads_changed_wf.
  - intros i. by rewrite (grads_changed_data _ _ _ i F'), (grads_changed_data _ _ _ i F).
  - intros i.
    by rewrite (grads_changed_closure _ _ _ i F'), (grads_changed_closure _ _ _ i F).
  - intros i.
    by rewrite (grads_changed_children _ _ _ i F'), (grads_changed_children _ _ _ i F).
Qed.

Lemma backward_result_ext T σ σ' root :
  wf σ → root < length σ → grads_changed T σ σ' →
  result (backward root) σ' = result (backward root) σ.
Proof.
  intros Hwf Hroot Hfr.
  pose proof (grads_changed_wf _ _ _ Hfr Hwf) as Hwf'.
  destruct (topo_spec σ root Hwf Hroot) as (nodes & Htopo & _).
  assert (Htopo' : topo σ' root = Some nodes).
  { rewrite <- Htopo. apply topo_ext; [apply Hfr|].
    intros v. by apply (grads_changed_children _ _ _ v Hfr). }
  rewrite (backward_result _ _ _ Htopo), (backward_result _ _ _ Htopo').
  assert (S1 : grads_changed (λ t, t = root) σ (exec (set_grad root 1) σ))
    by by apply preserves_set_grad.
  assert (S2 : grads_changed (λ t, t = root) σ' (exec (set_grad root 1) σ'))
    by by apply preserves_set_grad.
  apply run_backwards_result_ext.
  - by eapply grads_changed_wf.
  - by eapply grads_changed_wf.
  - intros i. by rewrite (grads_changed_data _ _ _ i S2), (grads_changed_data _ _ _ i S1),
      (grads_changed_data _ _ _ i Hfr).
  - intros i. by rewrite (grads_changed_closure _ _ _ i S2),
      (grads_changed_closure _ _ _ i S1), (grads_changed_closure _ _ _ i Hfr).
  - intros i. by rewrite (grads_changed_children _ _ _ i S2),
      (grads_changed_children _ _ _ i S1), (grads_changed_children _ _ _ i Hfr).
Qed.

(** [backward] returns exactly when the closure of every reachable object,
    called on its own, returns.  Whether a closure raises depends on the
    [data] of its operands and not on any [grad]: after any other pass,
    [backward] from the same root ends the way it would have ended
    before. *)
Theorem backward_returns_iff σ root :
  wf σ → root < length σ →
  (result (backward root) σ = Ok tt ↔
   ∀ m, reach σ root m → result (call_closure (_backward (deref σ m))) σ = Ok tt) ∧
  (∀ root', root' < length σ →
     result (backward root) (exec (backward root') σ) = result (backward root) σ).
Proof.
  intros Hwf Hroot. split; [apply (backward_returns σ root Hwf Hroot)|].
  intros root' Hroot'.
  apply (backward_result_ext (reach σ root')); [done|done|].
  by apply backward_frame.
Qed.

(** A pass over objects that all hold numbers, none of them made by [**],
    returns: of the closures only that of [**] can raise on numbers. *)
Theorem backward_returns_without_pow σ root :
  wf σ → root < length σ →
  (∀ m, reach σ root m → ∃ x, data (deref σ m) = PNum x) →
  (∀ m s o p, reach σ root m → _backward (deref σ m) ≠ BPow s o p) →
  result (backward root) σ = Ok tt.
Proof.
  intros Hwf Hroot Hnum Hpow. apply (backward_returns σ root Hwf Hroot).
  intros m Hm. pose proof (wf_closure_ok σ m Hwf) as Hok.
  assert (Hch : ∀ c, c ∈ children_of σ m → ∃ x, data (deref σ c) = PNum x).
  { intros c Hc. apply Hnum. eapply reach_trans; [done|].
    eapply reach_step; [done|apply reach_refl]. }
  destruct (_backward (deref σ m))
    as [|s o|s o d|s o al|s o d|s o d|s o d|s t o|s t o|s o p] eqn:Hb;
    try done; simpl in Hok.
  - unfold call_closure, result, bind, get_grad, lift. cbn [fst snd].
    by rewrite (py_pow_square d) by apply Hok.
  - destruct Hok as [_ Hc]. destruct (Hch s) as [x Hx]; [rewrite Hc; left|].
    unfold call_closure, result.
    rewrite (bind_Ok _ _ σ (grad (deref σ o)) σ) by done.
    by rewrite (bind_Ok _ _ σ x σ) by by apply get_num_run.
  - destruct Hok as [_ Hc].
    destruct (Hch s) as [x Hx]; [rewrite Hc; left|].
    destruct (Hch t) as [y Hy]; [rewrite Hc; right; left|].
    by apply (call_BMul_result _ _ _ _ x y).
  - by destruct (Hpow m s o p).
Qed.

(** * Subtraction and division: value and gradients *)

(** [a - b] on two objects builds [a + b * -1] and holds [x - y].  When
    the passes from [a] and from [b] return, so does the pass from the
    difference, and it adds 1 to [a.grad] and subtracts 1 from [b.grad]
    (for an operand that the other operand's graph does not use); [a - a]
    does both and leaves [a.grad] as it was. *)
Theorem sub_forward_and_gradient σ a b x y :
  wf σ → a < length σ → b < length σ →
  data (deref σ a) = PNum x → data (deref σ b) = PNum y →
  let out := S (S (length σ)) in
  ∃ σ', __sub__ a (OValue b) σ = (Ok out, σ') ∧
    data (deref σ' out) = PNum (x - y) ∧
    (result (backward a) σ = Ok tt → result (backward b) σ = Ok tt →
     result (backward out) σ' = Ok tt ∧
     (¬ reach σ b a →
      grad (deref (exec (backward out) σ') a) = (grad (deref σ a) + 1)%R) ∧
     (¬ reach σ a b →
      grad (deref (exec (backward out) σ') b) = (grad (deref σ b) - 1)%R) ∧
     (a = b → grad (deref (exec (backward out) σ') a) = grad (deref σ a))).
Proof.
  intros Hwf Ha Hb Hx Hy out. exists (σ ++ sub_nodes σ a b x y).
  split; [by apply sub_Value_run|]. split.
  { unfold out, sub_nodes. rewrite three_new_2. simpl. f_equal. lra. }
  intros Hra Hrb. split; [by apply sub_returns|]. split; [|split].
  - by apply sub_grad_a.
  - by apply sub_grad_b.
  - by apply sub_grad_same.
Qed.

(** [a / b] on two objects, with [b] holding [y] other than 0 and [1 / y]
    in range, builds [a * b ** -1] and holds [x / y].  The closure of
    [b ** -1] evaluates [y ** -2]: when [1 / y^2] is in range too and the
    passes from [a] and from [b] return, so does the pass from the
    quotient, and it adds [1 / y] to [a.grad] and subtracts [x / y^2] from
    [b.grad] (for an operand that the other operand's graph does not use);
    [a / a] does both and leaves [a.grad] as it was. *)
Theorem truediv_forward_and_gradient σ a b x y :
  wf σ → a < length σ → b < length σ →
  data (deref σ a) = PNum x → data (deref σ b) = PNum y → y ≠ 0%R →
  in_range (/ y) →
  let out := S (length σ) in
  ∃ σ', __truediv__ a (OValue b) σ = (Ok out, σ') ∧
    data (deref σ' out) = PNum (x / y) ∧
    (in_range (/ (y * y)) →
     result (backward a) σ = Ok tt → result (backward b) σ = Ok tt →
     result (backward out) σ' = Ok tt ∧
     (¬ reach σ b a →
      grad (deref (exec (backward out) σ') a) = (grad (deref σ a) + 1 / y)%R) ∧
     (¬ reach σ a b →
      grad (deref (exec (backward out) σ') b) =
        (grad (deref σ b) - x / (y * y))%R) ∧
     (a = b → grad (deref (exec (backward out) σ') a) = grad (deref σ a))).
Proof.
  intros Hwf Ha Hb Hx Hy Hy0 Hy1 out. exists (σ ++ truediv_nodes σ a b x y).
  split; [by apply truediv_Value_run|]. split.
  { unfold out, truediv_nodes. by rewrite two_new_1. }
  intros Hy2 Hra Hrb. split; [by apply div_returns|]. split; [|split].
  - intros Hn. unfold out. rewrite (div_grad_a σ a b x y) by done. lra.
  - by apply div_grad_b.
  - by apply div_grad_same.
Qed.

(** * What every constructor keeps *)

(** No method that builds objects writes to an object that exists: the
    store it leaves, whether it returns or raises, is the one it found with
    the new objects appended. *)
Theorem constructors_only_append c σ :
  ∃ new, exec (construct c) σ = σ ++ new.
Proof. destruct (construct_prefix c σ) as [new E]. by exists new. Qed.

(** Every method keeps the store well-formed: the children of each object
    were built before it, so no object reaches itself through its children,
    and what a method returns is an object of the store. *)
Theorem constructors_keep_graph_acyclic σ c :
  wf σ → method_ok σ c →
  let σ' := exec (construct c) σ in
  wf σ' ∧
  (∀ v w, reach σ' v w → reach σ' w v → v = w) ∧
  (∀ v c', c' ∈ children_of σ' v → ¬ reach σ' c' v) ∧
  (∀ out, result (construct c) σ = Ok out → out < length σ').
Proof.
  intros Hwf Hc σ'. destruct (construct_built σ c Hwf Hc) as (Hwf' & _ & Hout).
  fold (exec (construct c) σ) in Hwf'. fold σ' in Hwf'.
  split; [done|]. split; [|split].
  - intros v w H1 H2. pose proof (reach_le _ _ _ Hwf' H1).
    pose proof (reach_le _ _ _ Hwf' H2). lia.
  - intros v c' Hc' Hr. pose proof (wf_children_lt _ _ _ Hwf' Hc').
    pose proof (reach_le _ _ _ Hwf' Hr). lia.
  - intros out Ho. by apply Hout.
Qed.

(** * A plain number on either side of [+] and [*] *)

Lemma scalar_root_grad σ a r nd :
  wf σ → a < length σ → _children nd = [a; length σ] →
  closure_ok (S (length σ)) [a; length σ] (_backward nd) →
  grad (deref (exec (backward (S (length σ))) (σ ++ [leaf (PNum r); nd])) a) =
  grad (deref (exec (call_closure (_backward nd))
                 ((σ ++ [leaf (PNum r)]) ++ [with_grad 1 nd])) a).
Proof.
  intros Hwf Ha Hch Hok. rewrite snoc2.
  set (σ1 := σ ++ [leaf (PNum r)]).
  assert (Hwf1 : wf σ1) by by apply wf_snoc.
  assert (L1 : length σ1 = S (length σ)) by apply length_snoc.
  assert (Hleaf : children_of σ1 (length σ) = [])
    by by unfold children_of, σ1; rewrite deref_app_new.
  rewrite <- L1. apply (binary_root_grad σ1 _ a (length σ) a); try done; try lia.
  - by rewrite L1.
  - intros m. by apply not_child_below.
  - intros m Hr Hc. apply (reach_leaf _ _ _ Hleaf) in Hr as ->.
    rewrite Hleaf in Hc. by apply elem_of_nil in Hc.
Qed.

(** With a plain number [r] on the right ([a + r], [a * r]) or on the left
    ([r + a], [r * a], through [__radd__] and [__rmul__]) of an object [a]
    holding [x], the call builds the same two objects: the result holds
    [x + r], resp. [x * r], and [backward] from it adds 1, resp. [r], to
    [a.grad]. *)
Theorem scalar_add_mul_forward_and_gradient σ a x r :
  wf σ → a < length σ → data (deref σ a) = PNum x →
  let out := S (length σ) in
  (∃ σ', binop_left Add a (ONum r) σ = (Ok out, σ') ∧
     binop_right Add (ONum r) a σ = (Ok out, σ') ∧
     data (deref σ' out) = PNum (x + r) ∧
     grad (deref (exec (backward out) σ') a) = (grad (deref σ a) + 1)%R) ∧
  (∃ σ', binop_left Mul a (ONum r) σ = (Ok out, σ') ∧
     binop_right Mul (ONum r) a σ = (Ok out, σ') ∧
     data (deref σ' out) = PNum (x * r) ∧
     grad (deref (exec (backward out) σ') a) = (grad (deref σ a) + r)%R).
Proof.
  intros Hwf Ha Hx out.
  assert (H1 : (σ ++ [leaf (PNum r)]) !!! a = σ !!! a)
    by by apply (deref_app_l σ [leaf (PNum r)] a).
  split.
  - eexists. split; [by apply add_num_run|]. split.
    { cbn [binop_right]. unfold __radd__. cbn [is_number].
      rewrite py_assert_true_bind. by apply add_num_run. }
    split; [unfold out; by rewrite two_new_1|].
    unfold out. rewrite scalar_root_grad; [|done..].
    cbn [_backward with_grad]. rewrite <- (length_snoc σ (leaf (PNum r))).
    rewrite add_closure_grad by (rewrite length_snoc; lia).
    rewrite decide_False, decide_True by lia.
    rewrite deref_app_l by done. lra.
  - eexists. split; [by apply mul_num_run|]. split.
    { cbn [binop_right]. unfold __rmul__. cbn [is_number].
      rewrite py_assert_true_bind. by apply mul_num_run. }
    split; [unfold out; by rewrite two_new_1|].
    unfold out. rewrite scalar_root_grad; [|done..].
    cbn [_backward with_grad]. rewrite <- (length_snoc σ (leaf (PNum r))).
    rewrite (mul_closure_grad _ _ _ _ _ x r);
      [|rewrite length_snoc; lia|rewrite length_snoc; lia
       |by rewrite deref_app_l|by rewrite deref_app_new].
    rewrite decide_False, decide_True by lia.
    rewrite deref_app_l by done. lra.
Qed.

(** * [nn.py] *)

(** ** The monad of [nn.py] *)

Lemma nn_bind_Return {A B} (m : NN A) (k : A → NN B) ω a ω1 :
  m ω = (Return a, ω1) → nn_bind m k ω = k a ω1.
Proof. intros H. unfold nn_bind. by rewrite H. Qed.

Lemma nn_bind_Throw {A B} (m : NN A) (k : A → NN B) ω e ω1 :
  m ω = (Throw e, ω1) → nn_bind m k ω = (Throw e, ω1).
Proof. intros H. unfold nn_bind. by rewrite H. Qed.

Lemma engine_Ok {A} (m : M A) ω a σ :
  m (heap ω) = (Ok a, σ) → engine m ω = (Return a, mkWorld σ (random ω) (drawn ω)).
Proof. intros H. unfold engine. by rewrite H. Qed.

Lemma engine_Raise {A} (m : M A) ω e σ :
  m (heap ω) = (Raise e, σ) →
  engine m ω = (Throw (EngineError e), mkWorld σ (random ω) (drawn ω)).
Proof. intros H. unfold engine. by rewrite H. Qed.

(** ** Objects that hold numbers *)

Lemma holds_app σ l v r : holds σ v r → holds (σ ++ l) v r.
Proof.
  intros [Hv Hd]. split; [rewrite length_app; lia|]. by rewrite deref_app_l.
Qed.

Lemma operand_holds_app σ l o r : operand_holds σ o r → operand_holds (σ ++ l) o r.
Proof. destruct o; simpl; [done| |done]. apply holds_app. Qed.

Lemma holds_new (σ : store) nd r : data nd = PNum r → holds (σ ++ [nd]) (length σ) r.
Proof.
  intros H. split; [rewrite length_snoc; lia|]. by rewrite deref_app_new.
Qed.

Lemma mul_holds σ a o x y :
  wf σ → holds σ a x → operand_holds σ o y →
  ∃ p l, __mul__ a o σ = (Ok p, σ ++ l) ∧ wf (σ ++ l) ∧
    holds (σ ++ l) p (x * y) ∧ 0 < length l.
Proof.
  intros Hwf [Ha Hx] Ho. destruct o as [r|v|]; simpl in Ho; [subst r| |done].
  - eexists _, _. split; [by apply mul_num_run|]. split; [|split].
    + apply two_new_wf; try done; simpl; repeat constructor; lia.
    + rewrite snoc2. rewrite <- (length_snoc σ (leaf (PNum y))).
      by apply holds_new.
    + simpl. lia.
  - destruct Ho as [Hv Hy]. eexists _, _.
    split; [by apply mul_Value_run|]. split; [|split].
    + apply wf_snoc; [done| |done]. simpl. repeat constructor; lia.
    + by apply holds_new.
    + simpl. lia.
Qed.

Lemma add_holds σ a b x y :
  wf σ → holds σ a x → holds σ b y →
  ∃ p l, __add__ a (OValue b) σ = (Ok p, σ ++ l) ∧ wf (σ ++ l) ∧
    holds (σ ++ l) p (x + y) ∧ length l = 1.
Proof.
  intros Hwf [Ha Hx] [Hb Hy]. eexists _, _.
  split; [by apply add_Value_run|]. split; [|split].
  - apply wf_snoc; [done| |done]. simpl. repeat constructor; lia.
  - by apply holds_new.
  - done.
Qed.

(** The comprehension of [Unit.__call__]: one product per pair, each a new
    object holding the product of what the pair holds. *)
Lemma products_holds wx :
  ∀ acs σ, wf σ →
    Forall2 (λ p ac, holds σ p.1 ac.1 ∧ operand_holds σ p.2 ac.2) wx acs →
    ∃ ps l, products wx σ = (Ok ps, σ ++ l) ∧ wf (σ ++ l) ∧
      Forall2 (holds (σ ++ l)) ps ((λ ac, ac.1 * ac.2)%R <$> acs) ∧
      length wx ≤ length l.
Proof.
  induction wx as [|[wi xi] wx IH]; intros acs σ Hwf Hall.
  { apply Forall2_nil_inv_l in Hall as ->. exists [], [].
    rewrite app_nil_r. split; [done|]. split; [done|]. split; [constructor|done]. }
  apply Forall2_cons_inv_l in Hall as ([a c] & acs' & [Hw Hx] & Hall & ->).
  simpl in Hw, Hx.
  destruct (mul_holds σ wi xi a c Hwf Hw Hx) as (p & l1 & Hrun & Hwf1 & Hp & Hl1).
  destruct (IH acs' (σ ++ l1) Hwf1) as (ps & l2 & Hrun2 & Hwf2 & Hps & Hl2).
  { eapply Forall2_impl; [done|]. intros [w' x'] [a' c'] [H1 H2].
    split; [by apply holds_app|by apply operand_holds_app]. }
  exists (p :: ps), (l1 ++ l2). rewrite app_assoc. split; [|split; [done|split]].
  - cbn [products]. rewrite (bind_Ok _ _ σ p (σ ++ l1)) by done.
    by rewrite (bind_Ok _ _ (σ ++ l1) ps ((σ ++ l1) ++ l2)) by done.
  - rewrite fmap_cons. constructor; [by apply holds_app|done].
  - rewrite length_app. simpl. lia.
Qed.

(** [sum]: one addition per item, the last of them holding the total. *)
Lemma py_sum_holds ps :
  ∀ vs σ start bias, wf σ → Forall2 (holds σ) ps vs → holds σ start bias →
    ∃ out l, py_sum ps start σ = (Ok out, σ ++ l) ∧ wf (σ ++ l) ∧
      holds (σ ++ l) out (fold_left Rplus vs bias) ∧ length l = length ps.
Proof.
  induction ps as [|p ps IH]; intros vs σ start bias Hwf Hall Hs.
  { apply Forall2_nil_inv_l in Hall as ->. exists start, [].
    rewrite app_nil_r. done. }
  apply Forall2_cons_inv_l in Hall as (v & vs' & Hp & Hall & ->).
  destruct (add_holds σ start p bias v Hwf Hs Hp) as (t & l1 & Hrun & Hwf1 & Ht & Hl1).
  destruct (IH vs' (σ ++ l1) t (bias + v)%R Hwf1) as (out & l2 & Hrun2 & Hwf2 & Hout & Hl2).
  { eapply Forall2_impl; [done|]. intros ? ? ?. by apply holds_app. }
  { done. }
  exists out, (l1 ++ l2). rewrite app_assoc. split; [|split; [done|split]].
  - cbn [py_sum]. by rewrite (bind_Ok _ _ σ t (σ ++ l1)) by done.
  - done.
  - rewrite length_app. simpl. lia.
Qed.

Lemma weighted_sum_fold bias pairs :
  fold_left Rplus ((λ ac : R * R, ac.1 * ac.2)%R <$> pairs) bias = weighted_sum bias pairs.
Proof.
  unfold weighted_sum. revert bias. induction pairs as [|p pairs IH]; intros bias; [done|].
  simpl. apply IH.
Qed.

(** The line [z = sum([wi * xi ...], self.b)]. *)
Lemma preactivation_holds σ (u : Unit.t) x pairs bias :
  wf σ →
  Forall2 (λ p ac, holds σ p.1 ac.1 ∧ operand_holds σ p.2 ac.2) (zip (Unit.w u) x) pairs →
  holds σ (Unit.b u) bias →
  ∃ z l, (ps <- products (zip (Unit.w u) x) ;; py_sum ps (Unit.b u)) σ = (Ok z, σ ++ l) ∧
    wf (σ ++ l) ∧ holds (σ ++ l) z (weighted_sum bias pairs) ∧
    2 * length (zip (Unit.w u) x) ≤ length l.
Proof.
  intros Hwf Hall Hb.
  destruct (products_holds _ _ σ Hwf Hall) as (ps & l1 & Hrun & Hwf1 & Hps & Hl1).
  destruct (py_sum_holds ps _ (σ ++ l1) (Unit.b u) bias Hwf1 Hps) as
    (z & l2 & Hrun2 & Hwf2 & Hz & Hl2); [by apply holds_app|].
  exists z, (l1 ++ l2). rewrite app_assoc. split; [|split; [done|split]].
  - by rewrite (bind_Ok _ _ σ ps (σ ++ l1)) by done.
  - by rewrite <- weighted_sum_fold.
  - rewrite length_app, Hl2. apply Forall2_length in Hps.
    rewrite length_fmap in Hps. apply Forall2_length in Hall. lia.
Qed.

(** The activations, on an object holding a number. *)
Lemma activation_holds σ z r name v :
  wf σ → holds σ z r → activation_value name r = Some v →
  ∃ m : M node_id,
    (if String.eqb name "linear" then m = linear z
     else if String.eqb name "relu" then m = relu z
     else if String.eqb name "leaky_relu" then m = leaky_relu z (1 / 100)
     else if String.eqb name "sigmoid" then m = sigmoid z
     else if String.eqb name "tanh" then m = tanh z
     else False) ∧
    ∃ nd, m σ = (Ok (length σ), σ ++ [nd]) ∧ wf (σ ++ [nd]) ∧
      holds (σ ++ [nd]) (length σ) v.
Proof.
  intros Hwf [Hz Hr] Hv. unfold activation_value in Hv.
  assert (Hch : Forall (λ c, c < length σ) [z]) by by apply Forall_singleton.
  destruct (String.eqb name "linear");
    [|destruct (String.eqb name "relu");
      [|destruct (String.eqb name "leaky_relu");
        [|destruct (String.eqb name "sigmoid");
          [|destruct (String.eqb name "tanh"); [|done]]]]].
  - injection Hv as <-. eexists. split; [reflexivity|]. eexists.
    split; [apply linear_run|]. split; [by apply wf_snoc|]. by apply holds_new.
  - injection Hv as <-. eexists. split; [reflexivity|]. eexists.
    split; [by apply relu_run|]. split; [by apply wf_snoc|]. by apply holds_new.
  - injection Hv as <-. eexists. split; [reflexivity|]. eexists.
    split; [by apply leaky_relu_run|]. split; [by apply wf_snoc|]. by apply holds_new.
  - destruct (ranged_inv (Rtrigo_def.exp (- r)) _ eq_refl) as [[E Hrange]|[E _]];
      fold (math_exp (- r)) in E; rewrite E in Hv; [|done].
    injection Hv as <-. eexists. split; [reflexivity|]. eexists.
    split; [by apply sigmoid_run|]. split; [by apply wf_snoc|]. by apply holds_new.
  - injection Hv as <-. eexists. split; [reflexivity|]. eexists.
    split; [by apply tanh_run|]. split; [|by apply holds_new].
    apply wf_snoc; [done|done|]. split; [done|apply tanh_range].
Qed.

(** ** [Unit.__call__] *)

Lemma unit_call_run ω (u : Unit.t) x z σ1 :
  (ps <- products (zip (Unit.w u) x) ;; py_sum ps (Unit.b u)) (heap ω) = (Ok z, σ1) →
  Unit.__call__ u x ω =
    (if String.eqb (Unit.activation u) "linear" then engine (linear z)
     else if String.eqb (Unit.activation u) "relu" then engine (relu z)
     else if String.eqb (Unit.activation u) "leaky_relu"
          then engine (leaky_relu z (1 / 100))
     else if String.eqb (Unit.activation u) "sigmoid" then engine (sigmoid z)
     else if String.eqb (Unit.activation u) "tanh" then engine (tanh z)
     else nn_raise ValueError) (mkWorld σ1 (random ω) (drawn ω)).
Proof.
  intros H. unfold Unit.__call__.
  by rewrite (nn_bind_Return _ _ ω z (mkWorld σ1 (random ω) (drawn ω)))
    by by apply engine_Ok.
Qed.

(** [Unit.__call__] on a unit whose weights and bias hold numbers, with
    inputs that are numbers or objects holding numbers: the pairs of
    [zip(self.w, x)] hold [pairs], the total is the bias plus the products
    in order, and the result is a new object, the last of the heap, holding
    the activation of the total.  [zip] stops at the shorter of the two
    lists: weights or inputs beyond it are not looked at. *)
Theorem unit_call_forward ω (u : Unit.t) x pairs bias v :
  wf (heap ω) →
  Forall2 (λ p ac, holds (heap ω) p.1 ac.1 ∧ operand_holds (heap ω) p.2 ac.2)
    (zip (Unit.w u) x) pairs →
  holds (heap ω) (Unit.b u) bias →
  activation_value (Unit.activation u) (weighted_sum bias pairs) = Some v →
  ∃ out new,
    Unit.__call__ u x ω =
      (Return out, mkWorld (heap ω ++ new) (random ω) (drawn ω)) ∧
    wf (heap ω ++ new) ∧ holds (heap ω ++ new) out v ∧
    length (heap ω ++ new) = S out.
Proof.
  intros Hwf Hall Hb Hv.
  destruct (preactivation_holds (heap ω) u x pairs bias Hwf Hall Hb)
    as (z & l & Hrun & Hwf1 & Hz & _).
  destruct (activation_holds (heap ω ++ l) z _ _ v Hwf1 Hz Hv)
    as (m & Hm & nd & Hact & Hwf2 & Hout).
  exists (length (heap ω ++ l)), (l ++ [nd]). rewrite app_assoc.
  split; [|split; [done|split; [done|by rewrite length_snoc]]].
  rewrite (unit_call_run ω u x z (heap ω ++ l) Hrun).
  destruct (String.eqb (Unit.activation u) "linear");
    [|destruct (String.eqb (Unit.activation u) "relu");
      [|destruct (String.eqb (Unit.activation u) "leaky_relu");
        [|destruct (String.eqb (Unit.activation u) "sigmoid");
          [|destruct (String.eqb (Unit.activation u) "tanh"); [|done]]]]];
    subst m;
    apply (engine_Ok _ (mkWorld (heap ω ++ l) (random ω) (drawn ω)) _ _ Hact).
Qed.

(** The name of the activation is looked at last: with a name other than
    the five [Unit.__call__] knows (it does not know ["exp"]), the call
    builds the products and the sum, two objects or more per pair, and then
    raises [ValueError]. *)
Theorem unit_call_unknown_activation ω (u : Unit.t) x pairs bias :
  wf (heap ω) →
  Forall2 (λ p ac, holds (heap ω) p.1 ac.1 ∧ operand_holds (heap ω) p.2 ac.2)
    (zip (Unit.w u) x) pairs →
  holds (heap ω) (Unit.b u) bias →
  Unit.activation u ∉ ["linear"; "relu"; "leaky_relu"; "sigmoid"; "tanh"]%string →
  ∃ new,
    Unit.__call__ u x ω =
      (Throw ValueError, mkWorld (heap ω ++ new) (random ω) (drawn ω)) ∧
    2 * length (zip (Unit.w u) x) ≤ length new.
Proof.
  intros Hwf Hall Hb Hname.
  destruct (preactivation_holds (heap ω) u x pairs bias Hwf Hall Hb)
    as (z & l & Hrun & _ & _ & Hlen).
  exists l. split; [|done].
  rewrite (unit_call_run ω u x z (heap ω ++ l) Hrun).
  assert (Hne : ∀ s, s ∈ ["linear"; "relu"; "leaky_relu"; "sigmoid"; "tanh"]%string →
                 String.eqb (Unit.activation u) s = false).
  { intros s Hs. apply String.eqb_neq. intros E. apply Hname. by rewrite E. }
  rewrite !Hne by (repeat first [apply list_elem_of_here|apply list_elem_of_further]).
  done.
Qed.

(** ** The constructors of [nn.py] *)

Lemma random_leaves_length ω n : length (random_leaves ω n) = n.
Proof. unfold random_leaves. by rewrite length_fmap, length_seq. Qed.

Lemma random_leaves_add ω a b σ :
  random_leaves ω (a + b) =
    random_leaves ω a ++ random_leaves (mkWorld σ (random ω) (drawn ω + a)) b.
Proof.
  unfold random_leaves. rewrite seq_app, fmap_app. f_equal. cbn [random drawn].
  replace (seq (0 + a) b) with (Nat.add a <$> seq 0 b)
    by (rewrite fmap_add_seq; f_equal; lia).
  rewrite <- list_fmap_compose.
  apply list_fmap_ext. intros _ i _. simpl. by rewrite Nat.add_assoc.
Qed.

Lemma random_leaves_lookup ω n i :
  i < n → random_leaves ω n !! i = Some (leaf (PNum (random ω (drawn ω + i)))).
Proof.
  intros Hi. unfold random_leaves. rewrite list_lookup_fmap, lookup_seq_lt by done.
  done.
Qed.

Lemma deref_random_leaves σ ω n i :
  i < n → deref (σ ++ random_leaves ω n) (length σ + i) =
          leaf (PNum (random ω (drawn ω + i))).
Proof.
  intros Hi. rewrite deref_app_r. apply deref_lookup. by apply random_leaves_lookup.
Qed.

Lemma random_Value_run ω :
  random_Value ω =
    (Return (length (heap ω)),
     mkWorld (heap ω ++ random_leaves ω 1) (random ω) (drawn ω + 1)).
Proof.
  unfold random_Value, nn_bind, uniform, engine, Value, random_leaves. simpl.
  by rewrite Nat.add_0_r, Nat.add_1_r.
Qed.

(** A comprehension over [range(n)] whose body draws [k] numbers and adds
    the [k] leaves holding them: it adds [n * k] leaves, and what the
    [j]-th round returns is as if [j * k] leaves had been there before. *)
Lemma times_fresh {A} (f : NN A) (k : nat) (Q : nat → A → Prop) n :
  (∀ ω, ∃ a, f ω = (Return a, mkWorld (heap ω ++ random_leaves ω k) (random ω)
                                 (drawn ω + k)) ∧
             Q (length (heap ω)) a) →
  ∀ ω, ∃ l, times n f ω =
              (Return l, mkWorld (heap ω ++ random_leaves ω (n * k)) (random ω)
                           (drawn ω + n * k)) ∧
            length l = n ∧
            ∀ j a, l !! j = Some a → Q (length (heap ω) + j * k) a.
Proof.
  intros Hf. induction n as [|n IH]; intros ω.
  { exists []. simpl. rewrite app_nil_r, Nat.add_0_r. by destruct ω. }
  destruct (Hf ω) as (a & Ha & HQ).
  set (ω1 := mkWorld (heap ω ++ random_leaves ω k) (random ω) (drawn ω + k)) in *.
  destruct (IH ω1) as (l & Hl & Hlen & HQl).
  exists (a :: l). split; [|split].
  - cbn [times]. rewrite (nn_bind_Return _ _ ω a ω1) by done.
    rewrite (nn_bind_Return _ _ ω1 l _ Hl). unfold nn_ret. f_equal.
    cbn [heap random drawn ω1]. f_equal.
    + rewrite <- app_assoc. f_equal. symmetry.
      replace (S n * k) with (k + n * k) by lia. apply random_leaves_add.
    + lia.
  - simpl. by rewrite Hlen.
  - intros [|j] a' Hj; simpl in Hj.
    + injection Hj as <-. by rewrite Nat.add_0_r.
    + specialize (HQl j a' Hj). cbn [heap ω1] in HQl.
      rewrite length_app, random_leaves_length in HQl.
      by replace (length (heap ω) + S j * k) with (length (heap ω) + k + j * k) by lia.
Qed.

Lemma list_eq_seq (l : list nat) s n :
  length l = n → (∀ j a, l !! j = Some a → a = s + j) → l = seq s n.
Proof.
  intros Hlen H. apply list_eq. intros j.
  destruct (l !! j) as [a|] eqn:E.
  - rewrite (H j a E). symmetry. apply lookup_seq. split; [done|].
    apply lookup_lt_Some in E. lia.
  - symmetry. apply lookup_seq_ge. apply lookup_ge_None in E. lia.
Qed.

Lemma unit_init_run n act ω :
  Unit.__init__ n act ω =
    (Return (Unit.mk (seq (length (heap ω)) n) (length (heap ω) + n) act),
     mkWorld (heap ω ++ random_leaves ω (n + 1)) (random ω) (drawn ω + (n + 1))).
Proof.
  destruct (times_fresh random_Value 1 (λ s a, a = s) n) with (ω := ω)
    as (l & Hl & Hlen & HQ).
  { intros ω0. eexists. split; [apply random_Value_run|done]. }
  assert (l = seq (length (heap ω)) n) as ->.
  { apply list_eq_seq; [done|]. intros j a Hj. rewrite (HQ j a Hj). lia. }
  unfold Unit.__init__. rewrite (nn_bind_Return _ _ ω _ _ Hl).
  rewrite (nn_bind_Return _ _ _ _ _ (random_Value_run _)).
  cbn [heap random drawn]. unfold nn_ret.
  rewrite length_app, random_leaves_length, Nat.mul_1_r.
  f_equal. f_equal; [|lia]. rewrite <- app_assoc. f_equal. symmetry.
  apply random_leaves_add.
Qed.

(** [Unit(n_input, activation)] never raises and takes any activation name.
    It draws [n_input + 1] numbers and adds as many leaves holding them,
    with [grad] 0 and no children: the weights, in order, then the bias.
    [params()] lists exactly these new objects, in that order, so they are
    all different. *)
Theorem unit_init_params n act ω :
  ∃ u ω', Unit.__init__ n act ω = (Return u, ω') ∧
    Unit.activation u = act ∧ length (Unit.w u) = n ∧
    Unit.params u = seq (length (heap ω)) (n + 1) ∧ NoDup (Unit.params u) ∧
    heap ω' = heap ω ++ random_leaves ω (n + 1) ∧
    random ω' = random ω ∧ drawn ω' = drawn ω + (n + 1) ∧
    ∀ i, i < n + 1 →
      deref (heap ω') (length (heap ω) + i) = leaf (PNum (random ω (drawn ω + i))).
Proof.
  eexists _, _. split; [apply unit_init_run|]. cbn [heap random drawn].
  assert (Hp : Unit.params (Unit.mk (seq (length (heap ω)) n) (length (heap ω) + n) act)
               = seq (length (heap ω)) (n + 1)).
  { unfold Unit.params. simpl. by rewrite seq_app. }
  split; [done|]. split; [simpl; by rewrite length_seq|]. split; [done|].
  split; [rewrite Hp; apply NoDup_seq|]. split; [done|]. split; [done|].
  split; [done|]. intros i Hi. by apply deref_random_leaves.
Qed.

Lemma concat_seq_blocks {A} (params : A → list nat) (k : nat) (l : list A) :
  ∀ s, (∀ j a, l !! j = Some a → params a = seq (s + j * k) k) →
       concat (params <$> l) = seq s (length l * k).
Proof.
  induction l as [|a l IH]; intros s H; [done|].
  rewrite fmap_cons. cbn [concat length]. 
  replace (S (length l) * k) with (k + length l * k) by lia.
  rewrite seq_app, (H 0 a eq_refl), Nat.add_0_r. f_equal.
  apply IH. intros j a' Hj. rewrite (H (S j) a' Hj). f_equal. lia.
Qed.

(** What [Layer(n_in, n_out, act)] returns from a heap of [s] objects. *)
Lemma layer_init_run n_in n_out act ω :
  ∃ l, Layer.__init__ n_in n_out act ω =
         (Return l, mkWorld (heap ω ++ random_leaves ω (n_out * (n_in + 1)))
                      (random ω) (drawn ω + n_out * (n_in + 1))) ∧
       Layer.activation l = act ∧ length (Layer.units l) = n_out ∧
       Forall (λ u, Unit.activation u = act ∧ length (Unit.w u) = n_in) (Layer.units l) ∧
       Layer.params l = seq (length (heap ω)) (n_out * (n_in + 1)).
Proof.
  destruct (times_fresh (Unit.__init__ n_in act) (n_in + 1)
              (λ s u, u = Unit.mk (seq s n_in) (s + n_in) act) n_out) with (ω := ω)
    as (us & Hus & Hlen & HQ).
  { intros ω0. eexists. split; [apply unit_init_run|done]. }
  exists (Layer.mk us act). split; [|split; [done|split; [done|split]]].
  - unfold Layer.__init__. by rewrite (nn_bind_Return _ _ ω _ _ Hus).
  - apply Forall_forall. intros u Hu. apply list_elem_of_lookup in Hu as [j Hj].
    rewrite (HQ j u Hj). simpl. by rewrite length_seq.
  - unfold Layer.params. cbn [Layer.units]. rewrite <- Hlen.
    apply concat_seq_blocks. intros j u Hj. rewrite (HQ j u Hj).
    unfold Unit.params. simpl. by rewrite seq_app.
Qed.

(** [Layer(n_input, n_output, activation)] never raises: it makes
    [n_output] units of [n_input] weights each, all with the given
    activation name, out of [n_output * (n_input + 1)] new leaves holding the
    numbers drawn, and [params()] lists exactly these leaves, in the order
    they were made. *)
Theorem layer_init_params n_in n_out act ω :
  ∃ l ω', Layer.__init__ n_in n_out act ω = (Return l, ω') ∧
    Layer.activation l = act ∧ length (Layer.units l) = n_out ∧
    Forall (λ u, Unit.activation u = act ∧ length (Unit.w u) = n_in) (Layer.units l) ∧
    Layer.params l = seq (length (heap ω)) (n_out * (n_in + 1)) ∧
    NoDup (Layer.params l) ∧
    heap ω' = heap ω ++ random_leaves ω (n_out * (n_in + 1)) ∧
    random ω' = random ω ∧ drawn ω' = drawn ω + n_out * (n_in + 1).
Proof.
  destruct (layer_init_run n_in n_out act ω) as (l & Hrun & Ha & Hn & Hu & Hp).
  eexists l, _. split; [done|]. cbn [heap random drawn].
  repeat (split; [done|]). split; [rewrite Hp; apply NoDup_seq|done].
Qed.

(** ** [MLP.__init__] *)

(** The body of the comprehension of [MLP.__init__]. *)
Lemma mlp_layer_run (sizes : list nat) (acts : list string) i n_in n_out act ω :
  sizes !! i = Some n_in → sizes !! (i + 1) = Some n_out → acts !! i = Some act →
  (n_in <~ MLP.index sizes i ;;
   n_out <~ MLP.index sizes (i + 1) ;;
   act <~ MLP.index acts i ;;
   Layer.__init__ n_in n_out act) ω = Layer.__init__ n_in n_out act ω.
Proof.
  intros H1 H2 H3. unfold nn_bind, MLP.index. by rewrite H1, H2, H3.
Qed.

Lemma mlp_layer_index_error (sizes : list nat) (acts : list string) i n_in n_out ω :
  sizes !! i = Some n_in → sizes !! (i + 1) = Some n_out → acts !! i = None →
  (n_in <~ MLP.index sizes i ;;
   n_out <~ MLP.index sizes (i + 1) ;;
   act <~ MLP.index acts i ;;
   Layer.__init__ n_in n_out act) ω = (Throw IndexError, ω).
Proof.
  intros H1 H2 H3. unfold nn_bind, MLP.index. by rewrite H1, H2, H3.
Qed.

Lemma mlp_layers_run (sizes : list nat) (acts : list string) rest :
  ∀ i n_in ω,
    sizes !! i = Some n_in →
    (∀ j, j < length rest → sizes !! (i + 1 + j) = rest !! j) →
    (∀ j, j < length rest → is_Some (acts !! (i + j))) →
    ∃ ls, for_each (λ i, n_in <~ MLP.index sizes i ;;
                         n_out <~ MLP.index sizes (i + 1) ;;
                         act <~ MLP.index acts i ;;
                         Layer.__init__ n_in n_out act)
            (seq i (length rest)) ω =
            (Return ls, mkWorld (heap ω ++ random_leaves ω (param_count n_in rest))
                          (random ω) (drawn ω + param_count n_in rest)) ∧
      Forall2 (λ l n_out, length (Layer.units l) = n_out) ls rest ∧
      (∀ j l, ls !! j = Some l →
         acts !! (i + j) = Some (Layer.activation l) ∧
         ∃ n, sizes !! (i + j) = Some n ∧
           Forall (λ u, Unit.activation u = Layer.activation l ∧ length (Unit.w u) = n)
             (Layer.units l)) ∧
      concat (Layer.params <$> ls) = seq (length (heap ω)) (param_count n_in rest).
Proof.
  induction rest as [|n_out rest IH]; intros i n_in ω Hi Hsizes Hacts.
  { exists []. simpl. rewrite app_nil_r, Nat.add_0_r.
    split; [by destruct ω|]. split; [constructor|]. split; [|done].
    intros j l Hj. done. }
  assert (Hout : sizes !! (i + 1) = Some n_out).
  { rewrite <- (Nat.add_0_r (i + 1)). rewrite (Hsizes 0) by (simpl; lia). done. }
  destruct (Hacts 0) as [act Hact]; [simpl; lia|]. rewrite Nat.add_0_r in Hact.
  destruct (layer_init_run n_in n_out act ω) as (l & Hl & Hla & Hln & Hlu & Hlp).
  set (k := n_out * (n_in + 1)) in *.
  set (ω1 := mkWorld (heap ω ++ random_leaves ω k) (random ω) (drawn ω + k)) in *.
  destruct (IH (i + 1) n_out ω1 Hout) as (ls & Hls & Hlens & Hinfo & Hps).
  { intros j Hj. pose proof (Hsizes (S j) ltac:(simpl; lia)) as H.
    change ((n_out :: rest) !! S j) with (rest !! j) in H.
    rewrite <- H. f_equal. lia. }
  { intros j Hj. replace (i + 1 + j) with (i + S j) by lia. apply Hacts. simpl. lia. }
  exists (l :: ls). split; [|split; [|split]].
  - cbn [length seq for_each].
    rewrite (nn_bind_Return _ _ ω l ω1)
      by (by rewrite (mlp_layer_run sizes acts i n_in n_out act)).
    replace (S i) with (i + 1) by lia.
    rewrite (nn_bind_Return _ _ ω1 ls _ Hls). unfold nn_ret. f_equal.
    cbn [heap random drawn ω1 param_count]. fold k. f_equal.
    + rewrite <- app_assoc. f_equal. symmetry. apply random_leaves_add.
    + lia.
  - by constructor.
  - intros [|j] l' Hj; simpl in Hj.
    + injection Hj as <-. rewrite Nat.add_0_r, Hla. split; [done|].
      by exists n_in.
    + replace (i + S j) with (i + 1 + j) by lia. by apply Hinfo.
  - rewrite fmap_cons. cbn [concat param_count]. fold k.
    rewrite Hlp, Hps. cbn [heap ω1]. rewrite length_app, random_leaves_length.
    by rewrite seq_app.
Qed.

Lemma mlp_layers_index_error (sizes : list nat) (acts : list string) k :
  ∀ rest i n_in ω,
    sizes !! i = Some n_in →
    (∀ j, j < length rest → sizes !! (i + 1 + j) = rest !! j) →
    k < length rest →
    (∀ j, j < k → is_Some (acts !! (i + j))) → acts !! (i + k) = None →
    for_each (λ i, n_in <~ MLP.index sizes i ;;
                   n_out <~ MLP.index sizes (i + 1) ;;
                   act <~ MLP.index acts i ;;
                   Layer.__init__ n_in n_out act)
      (seq i (length rest)) ω =
      (Throw IndexError,
       mkWorld (heap ω ++ random_leaves ω (param_count n_in (take k rest)))
         (random ω) (drawn ω + param_count n_in (take k rest))).
Proof.
  induction k as [|k IH]; intros rest i n_in ω Hi Hsizes Hk Hacts Hnone;
    destruct rest as [|n_out rest]; simpl in Hk; try lia.
  - rewrite Nat.add_0_r in Hnone.
    assert (Hout : sizes !! (i + 1) = Some n_out).
    { rewrite <- (Nat.add_0_r (i + 1)). rewrite (Hsizes 0) by (simpl; lia). done. }
    cbn [length seq for_each take param_count].
    rewrite (nn_bind_Throw _ _ ω IndexError ω)
      by by apply (mlp_layer_index_error sizes acts i n_in n_out).
    rewrite app_nil_r, Nat.add_0_r. by destruct ω.
  - assert (Hout : sizes !! (i + 1) = Some n_out).
    { rewrite <- (Nat.add_0_r (i + 1)). rewrite (Hsizes 0) by (simpl; lia). done. }
    destruct (Hacts 0) as [act Hact]; [lia|]. rewrite Nat.add_0_r in Hact.
    destruct (layer_init_run n_in n_out act ω) as (l & Hl & _).
    set (c := n_out * (n_in + 1)) in *.
    set (ω1 := mkWorld (heap ω ++ random_leaves ω c) (random ω) (drawn ω + c)) in *.
    cbn [length seq for_each take param_count]. fold c.
    rewrite (nn_bind_Return _ _ ω l ω1)
      by (by rewrite (mlp_layer_run sizes acts i n_in n_out act)).
    replace (S i) with (i + 1) by lia.
    rewrite (nn_bind_Throw _ _ ω1 IndexError
               (mkWorld (heap ω1 ++ random_leaves ω1 (param_count n_out (take k rest)))
                  (random ω1) (drawn ω1 + param_count n_out (take k rest)))).
    + cbn [heap random drawn ω1]. f_equal. f_equal.
      * rewrite <- app_assoc. f_equal. symmetry. apply random_leaves_add.
      * lia.
    + apply IH; [done| |lia| |].
      * intros j Hj. pose proof (Hsizes (S j) ltac:(simpl; lia)) as H.
        change ((n_out :: rest) !! S j) with (rest !! j) in H.
        rewrite <- H. f_equal. lia.
      * intros j Hj. replace (i + 1 + j) with (i + S j) by lia. apply Hacts. lia.
      * by replace (i + 1 + k) with (i + S k) by lia.
Qed.

Lemma mlp_init_run n_input layers activations ω ls ω' :
  for_each (λ i, n_in <~ MLP.index (n_input :: layers) i ;;
                 n_out <~ MLP.index (n_input :: layers) (i + 1) ;;
                 act <~ MLP.index (MLP.activations_or_linear activations layers) i ;;
                 Layer.__init__ n_in n_out act)
    (seq 0 (length layers)) ω = (ls, ω') →
  MLP.__init__ n_input layers activations ω =
    match ls with
    | Return ls => (Return (MLP.mk (MLP.activations_or_linear activations layers) ls), ω')
    | Throw e => (Throw e, ω')
    end.
Proof.
  intros H. unfold MLP.__init__. cbv zeta. unfold nn_bind at 1. rewrite H.
  by destruct ls.
Qed.

(** [MLP(n_input, layers, activations)] with no fewer activation names
    than layers ([None] and the empty list stand for ['linear'] for every
    layer; names beyond the last layer are not looked at): it returns a
    perceptron whose [i]-th layer has [layers[i]] units, each with as many
    weights as the layer before has units ([n_input] for the first) and
    with the [i]-th activation name.  The parameters are
    [param_count n_input layers] new leaves holding the numbers drawn, and
    [params()] lists exactly these, in the order they were made, so all are
    different objects. *)
Theorem mlp_init_params n_input layers activations ω :
  length layers ≤ length (MLP.activations_or_linear activations layers) →
  ∃ m ω', MLP.__init__ n_input layers activations ω = (Return m, ω') ∧
    MLP.activations m = MLP.activations_or_linear activations layers ∧
    Forall2 (λ l n_out, length (Layer.units l) = n_out) (MLP.layers m) layers ∧
    (∀ j l, MLP.layers m !! j = Some l →
       MLP.activations m !! j = Some (Layer.activation l) ∧
       ∃ n, (n_input :: layers) !! j = Some n ∧
         Forall (λ u, Unit.activation u = Layer.activation l ∧ length (Unit.w u) = n)
           (Layer.units l)) ∧
    MLP.params m = seq (length (heap ω)) (param_count n_input layers) ∧
    NoDup (MLP.params m) ∧
    heap ω' = heap ω ++ random_leaves ω (param_count n_input layers) ∧
    random ω' = random ω ∧ drawn ω' = drawn ω + param_count n_input layers.
Proof.
  intros Hlen.
  destruct (mlp_layers_run (n_input :: layers)
              (MLP.activations_or_linear activations layers) layers 0 n_input ω)
    as (ls & Hls & Hunits & Hinfo & Hps); [done|done| |].
  { intros j Hj. apply lookup_lt_is_Some. simpl. lia. }
  eexists _, _. split; [by rewrite (mlp_init_run _ _ _ _ _ _ Hls)|].
  cbn [heap random drawn MLP.activations MLP.layers].
  split; [done|]. split; [done|]. split; [apply Hinfo|].
  unfold MLP.params. cbn [MLP.layers]. rewrite Hps.
  split; [done|]. split; [apply NoDup_seq|done].
Qed.

(** With fewer activation names than layers (and at least one),
    [MLP.__init__] raises [IndexError] when it reaches the first layer
    without a name: by then the layers before it have been made, and their
    parameters stay in the heap. *)
Theorem mlp_init_index_error n_input layers acts ω :
  acts ≠ [] → length acts < length layers →
  MLP.__init__ n_input layers (Some acts) ω =
    (Throw IndexError,
     mkWorld (heap ω ++ random_leaves ω (param_count n_input (take (length acts) layers)))
       (random ω) (drawn ω + param_count n_input (take (length acts) layers))).
Proof.
  intros Hne Hlen. destruct acts as [|a acts']; [done|].
  apply (mlp_init_run n_input layers (Some (a :: acts')) ω (Throw IndexError)).
  apply (mlp_layers_index_error (n_input :: layers) (a :: acts') (length (a :: acts'))
           layers 0 n_input ω); [done|done|done| |].
  - intros j Hj. by apply lookup_lt_is_Some.
  - by apply lookup_ge_None.
Qed.

(** ** Calling a layer and a perceptron *)

(** A known name has a value, except ['sigmoid'] where [math.exp]
    overflows. *)
Lemma known_activation_value name z :
  known_activation name →
  (∃ v, activation_value name z = Some v) ∨
  (name = "sigmoid"%string ∧ ¬ in_range (Rtrigo_def.exp (- z))).
Proof.
  intros H. unfold known_activation in H.
  apply elem_of_cons in H as [->|H]; [left; by eexists|].
  apply elem_of_cons in H as [->|H]; [left; by eexists|].
  apply elem_of_cons in H as [->|H]; [left; by eexists|].
  apply elem_of_cons in H as [->|H].
  { unfold activation_value. cbn [String.eqb Ascii.eqb Bool.eqb].
    destruct (ranged_inv (Rtrigo_def.exp (- z)) _ eq_refl) as [[E Hr]|[E Hr]];
      fold (math_exp (- z)) in E; rewrite E; [left; by eexists|by right]. }
  apply elem_of_cons in H as [->|H]; [left; by eexists|].
  by apply elem_of_nil in H.
Qed.

Lemma zip_numbers σ (ws : list node_id) :
  ∀ x : list operand,
    Forall (λ v, ∃ r, holds σ v r) ws → Forall (number_operand σ) x →
    ∃ pairs, Forall2 (λ p ac, holds σ p.1 ac.1 ∧ operand_holds σ p.2 ac.2)
               (zip ws x) pairs.
Proof.
  induction ws as [|wi ws IH]; intros x Hw Hx; [by exists []|].
  destruct x as [|xi x]; [by exists []|].
  apply Forall_cons in Hw as [[a Ha] Hw]. apply Forall_cons in Hx as [[c Hc] Hx].
  destruct (IH x Hw Hx) as [pairs Hp]. exists ((a, c) :: pairs).
  by constructor.
Qed.

Lemma unit_ready_app σ l u : unit_ready σ u → unit_ready (σ ++ l) u.
Proof.
  intros (Hw & [r Hb] & Hk). split; [|split; [|done]].
  - eapply Forall_impl; [done|]. intros v [r' Hv]. exists r'. by apply holds_app.
  - exists r. by apply holds_app.
Qed.

Lemma number_operand_app σ l o : number_operand σ o → number_operand (σ ++ l) o.
Proof. intros [r H]. exists r. by apply operand_holds_app. Qed.

(** One unit, called on numbers: it returns a new object holding a number,
    or its activation is ['sigmoid'] and [math.exp] raises. *)
Lemma unit_call_outcome ω (u : Unit.t) x :
  wf (heap ω) → unit_ready (heap ω) u → Forall (number_operand (heap ω)) x →
  ∃ new, wf (heap ω ++ new) ∧
    ((∃ out r,
        Unit.__call__ u x ω =
          (Return out, mkWorld (heap ω ++ new) (random ω) (drawn ω)) ∧
        holds (heap ω ++ new) out r) ∨
     (Unit.__call__ u x ω =
        (Throw (EngineError OverflowError),
         mkWorld (heap ω ++ new) (random ω) (drawn ω)) ∧
      Unit.activation u = "sigmoid"%string)).
Proof.
  intros Hwf (Hw & [bias Hb] & Hk) Hx.
  destruct (zip_numbers (heap ω) (Unit.w u) x Hw Hx) as [pairs Hp].
  destruct (preactivation_holds (heap ω) u x pairs bias Hwf Hp Hb)
    as (z & l & Hrun & Hwf1 & Hz & _).
  destruct (known_activation_value _ (weighted_sum bias pairs) Hk)
    as [[v Hv]|[Hname Hover]].
  - destruct (activation_holds (heap ω ++ l) z _ _ v Hwf1 Hz Hv)
      as (m & Hm & nd & Hact & Hwf2 & Hout).
    exists (l ++ [nd]). rewrite app_assoc. split; [done|]. left.
    exists (length (heap ω ++ l)), v. split; [|done].
    rewrite (unit_call_run ω u x z (heap ω ++ l) Hrun).
    destruct (String.eqb (Unit.activation u) "linear");
      [|destruct (String.eqb (Unit.activation u) "relu");
        [|destruct (String.eqb (Unit.activation u) "leaky_relu");
          [|destruct (String.eqb (Unit.activation u) "sigmoid");
            [|destruct (String.eqb (Unit.activation u) "tanh"); [|done]]]]];
      subst m;
      apply (engine_Ok _ (mkWorld (heap ω ++ l) (random ω) (drawn ω)) _ _ Hact).
  - exists l. split; [done|]. right. split; [|done].
    rewrite (unit_call_run ω u x z (heap ω ++ l) Hrun), Hname.
    cbn [String.eqb Ascii.eqb Bool.eqb].
    apply (engine_Raise _ (mkWorld (heap ω ++ l) (random ω) (drawn ω))).
    destruct Hz as [_ Hz]. by apply (sigmoid_raise _ _ _ Hz).
Qed.

(** The units of a layer, called one after the other on the same input. *)
Lemma for_each_units_outcome (us : list Unit.t) x :
  ∀ ω, wf (heap ω) → Forall (unit_ready (heap ω)) us →
    Forall (number_operand (heap ω)) x →
    ∃ new, wf (heap ω ++ new) ∧
      ((∃ outs,
          for_each (λ u, Unit.__call__ u x) us ω =
            (Return outs, mkWorld (heap ω ++ new) (random ω) (drawn ω)) ∧
          length outs = length us ∧
          Forall (λ o, ∃ r, holds (heap ω ++ new) o r) outs) ∨
       (for_each (λ u, Unit.__call__ u x) us ω =
          (Throw (EngineError OverflowError),
           mkWorld (heap ω ++ new) (random ω) (drawn ω)) ∧
        Exists (λ u, Unit.activation u = "sigmoid"%string) us)).
Proof.
  induction us as [|u us IH]; intros ω Hwf Hus Hx.
  { exists []. rewrite app_nil_r. split; [done|]. left. exists [].
    split; [by destruct ω|done]. }
  apply Forall_cons in Hus as [Hu Hus].
  destruct (unit_call_outcome ω u x Hwf Hu Hx)
    as (l1 & Hwf1 & [(out & r & Hrun & Hr)|[Hrun Hname]]).
  2:{ exists l1. split; [done|]. right. split; [|by left].
      cbn [for_each]. by rewrite (nn_bind_Throw _ _ ω _ _ Hrun). }
  set (ω1 := mkWorld (heap ω ++ l1) (random ω) (drawn ω)) in *.
  destruct (IH ω1) as (l2 & Hwf2 & Hrest); [done| | |].
  { eapply Forall_impl; [done|]. intros ?. apply unit_ready_app. }
  { eapply Forall_impl; [done|]. intros ?. apply number_operand_app. }
  exists (l1 ++ l2). rewrite app_assoc. split; [done|].
  destruct Hrest as [(outs & Hrun2 & Hlen & Houts)|[Hrun2 Hex]].
  - left. exists (out :: outs). split; [|split; [simpl; by rewrite Hlen|]].
    + cbn [for_each]. rewrite (nn_bind_Return _ _ ω out ω1 Hrun).
      by rewrite (nn_bind_Return _ _ ω1 outs _ Hrun2).
    + constructor; [|done]. exists r. by apply holds_app.
  - right. split; [|by right].
    cbn [for_each]. rewrite (nn_bind_Return _ _ ω out ω1 Hrun).
    by rewrite (nn_bind_Throw _ _ ω1 _ _ Hrun2).
Qed.

(** [Layer.__call__] on a layer whose units hold numbers and have known
    activation names, with inputs that are numbers or objects holding
    numbers: every unit is called on the same input, in order.  Either the
    call returns one new object per unit, each holding a number, or it
    raises [OverflowError], and then a unit of the layer has the activation
    ['sigmoid'] (whose [math.exp] is what raises): a layer without such a
    unit returns.  Either way the heap has only grown and the generator is
    untouched.  The length of the input is not checked against the number
    of weights. *)
Theorem layer_call_outcome ω (layer : Layer.t) x :
  wf (heap ω) → Forall (unit_ready (heap ω)) (Layer.units layer) →
  Forall (number_operand (heap ω)) x →
  ∃ new, wf (heap ω ++ new) ∧
    ((∃ outs,
        Layer.__call__ layer x ω =
          (Return outs, mkWorld (heap ω ++ new) (random ω) (drawn ω)) ∧
        length outs = length (Layer.units layer) ∧
        Forall (λ o, ∃ r, holds (heap ω ++ new) o r) outs) ∨
     (Layer.__call__ layer x ω =
        (Throw (EngineError OverflowError),
         mkWorld (heap ω ++ new) (random ω) (drawn ω)) ∧
      Exists (λ u, Unit.activation u = "sigmoid"%string) (Layer.units layer))).
Proof. intros Hwf Hus Hx. by apply for_each_units_outcome. Qed.

Lemma through_outcome (layers : list Layer.t) :
  ∀ x ω, wf (heap ω) →
    Forall (λ layer, Forall (unit_ready (heap ω)) (Layer.units layer)) layers →
    Forall (number_operand (heap ω)) x →
    ∃ new, wf (heap ω ++ new) ∧
      ((∃ out,
          MLP.through layers x ω =
            (Return out, mkWorld (heap ω ++ new) (random ω) (drawn ω)) ∧
          length out = output_length layers (length x) ∧
          Forall (number_operand (heap ω ++ new)) out) ∨
       (MLP.through layers x ω =
          (Throw (EngineError OverflowError),
           mkWorld (heap ω ++ new) (random ω) (drawn ω)) ∧
        Exists sigmoid_layer layers)).
Proof.
  induction layers as [|layer layers IH]; intros x ω Hwf Hls Hx.
  { exists []. rewrite app_nil_r. split; [done|]. left. exists x.
    split; [by destruct ω|done]. }
  apply Forall_cons in Hls as [Hl Hls].
  destruct (for_each_units_outcome (Layer.units layer) x ω Hwf Hl Hx)
    as (l1 & Hwf1 & [(outs & Hrun & Hlen & Houts)|[Hrun Hex]]).
  2:{ exists l1. split; [done|]. right. split; [|by left].
      cbn [MLP.through]. unfold Layer.__call__.
      by rewrite (nn_bind_Throw _ _ ω _ _ Hrun). }
  set (ω1 := mkWorld (heap ω ++ l1) (random ω) (drawn ω)) in *.
  destruct (IH (OValue <$> outs) ω1) as (l2 & Hwf2 & Hrest); [done| | |].
  { eapply Forall_impl; [done|]. intros l' Hl'. simpl in Hl'.
    eapply Forall_impl; [exact Hl'|]. intros ?. apply unit_ready_app. }
  { apply Forall_fmap. eapply Forall_impl; [done|]. intros o [r Hr]. by exists r. }
  exists (l1 ++ l2). rewrite app_assoc. split; [done|].
  destruct Hrest as [(out & Hrun2 & Hlen2 & Hout)|[Hrun2 Hex]].
  - left. exists out. split; [|split; [|done]].
    + cbn [MLP.through]. unfold Layer.__call__.
      by rewrite (nn_bind_Return _ _ ω outs ω1 Hrun).
    + rewrite Hlen2, length_fmap, Hlen. unfold output_length.
      rewrite last_cons. by destruct (last layers).
  - right. split; [|by right].
    cbn [MLP.through]. unfold Layer.__call__.
    by rewrite (nn_bind_Return _ _ ω outs ω1 Hrun).
Qed.

(** [MLP.__call__] feeds the output of each layer to the next.  On a
    perceptron whose units hold numbers and have known activation names,
    with inputs that are numbers or objects holding numbers, either it
    returns as many objects as the last layer has units, each holding a
    number (the input itself when there is no layer), or it raises
    [OverflowError], and then some layer has a unit with the activation
    ['sigmoid']: a perceptron without such a unit returns, whatever the
    length and the size of the input.  No dimension is ever checked. *)
Theorem mlp_call_outcome ω (m : MLP.t) x :
  wf (heap ω) →
  Forall (λ layer, Forall (unit_ready (heap ω)) (Layer.units layer)) (MLP.layers m) →
  Forall (number_operand (heap ω)) x →
  ∃ new, wf (heap ω ++ new) ∧
    ((∃ out,
        MLP.__call__ m x ω =
          (Return out, mkWorld (heap ω ++ new) (random ω) (drawn ω)) ∧
        length out = output_length (MLP.layers m) (length x) ∧
        Forall (number_operand (heap ω ++ new)) out) ∨
     (MLP.__call__ m x ω =
        (Throw (EngineError OverflowError),
         mkWorld (heap ω ++ new) (random ω) (drawn ω)) ∧
      Exists sigmoid_layer (MLP.layers m))).
Proof. intros Hwf Hls Hx. by apply through_outcome. Qed.

(** ** A perceptron that was just built *)

Lemma wf_app_leaves l :
  ∀ σ, wf σ → Forall (λ nd, _children nd = [] ∧ _backward nd = BNone) l → wf (σ ++ l).
Proof.
  induction l as [|nd l IH]; intros σ Hwf Hl; [by rewrite app_nil_r|].
  apply Forall_cons in Hl as [[Hc Hb] Hl].
  rewrite (cons_middle nd), app_assoc. apply IH; [|done].
  apply wf_snoc; [done|by rewrite Hc|by rewrite Hb].
Qed.

Lemma wf_random_leaves σ ω n : wf σ → wf (σ ++ random_leaves ω n).
Proof.
  intros Hwf. apply wf_app_leaves; [done|]. unfold random_leaves.
  apply Forall_fmap, Forall_forall. done.
Qed.

Lemma holds_random_leaves σ ω n v :
  length σ ≤ v < length σ + n → ∃ r, holds (σ ++ random_leaves ω n) v r.
Proof.
  intros Hv. exists (random ω (drawn ω + (v - length σ))). split.
  - rewrite length_app, random_leaves_length. lia.
  - replace v with (length σ + (v - length σ)) at 1 by lia.
    rewrite deref_random_leaves by lia. done.
Qed.

Lemma elem_of_concat {A} (x : A) (ls : list (list A)) l :
  x ∈ l → l ∈ ls → x ∈ concat ls.
Proof.
  intros Hx Hl. induction Hl as [l ls|l l' ls _ IH]; simpl; apply elem_of_app;
    [by left|right; by apply IH].
Qed.

Lemma output_length_sizes (ls : list Layer.t) (sizes : list nat) n :
  Forall2 (λ l n_out, length (Layer.units l) = n_out) ls sizes →
  output_length ls n = default n (last sizes).
Proof.
  intros H. unfold output_length. induction H as [|l s ls sizes Hl H IH]; [done|].
  rewrite !last_cons. destruct H as [|l' s' ls' sizes' Hl' H']; [done|].
  destruct (last (l' :: ls')) eqn:E1; [|by apply last_None in E1].
  destruct (last (s' :: sizes')) eqn:E2; [|by apply last_None in E2].
  done.
Qed.

(** A perceptron as [MLP.__init__] returns it, called at once.  With at
    least as many activation names as layers, all known ([None] gives
    ['linear'] throughout), and inputs that are numbers or objects holding
    numbers, the constructor returns, and the call either returns or raises
    [OverflowError].  When it returns, the result has as many objects as
    the last entry of [layers] (it is the input itself when [layers] is
    empty), each holding a number, whatever the length of the input is.  It
    can raise only when one of the names is ['sigmoid'].  Only the
    constructor draws random numbers. *)
Theorem mlp_init_then_call n_input layers activations ω x :
  wf (heap ω) →
  length layers ≤ length (MLP.activations_or_linear activations layers) →
  (∀ j name, j < length layers →
     MLP.activations_or_linear activations layers !! j = Some name →
     known_activation name) →
  Forall (number_operand (heap ω)) x →
  ∃ m ω1 ω2,
    MLP.__init__ n_input layers activations ω = (Return m, ω1) ∧
    wf (heap ω2) ∧
    random ω2 = random ω ∧ drawn ω2 = drawn ω + param_count n_input layers ∧
    ((∃ out,
        MLP.__call__ m x ω1 = (Return out, ω2) ∧
        length out = default (length x) (last layers) ∧
        Forall (number_operand (heap ω2)) out) ∨
     (MLP.__call__ m x ω1 = (Throw (EngineError OverflowError), ω2) ∧
      ∃ j, j < length layers ∧
        MLP.activations_or_linear activations layers !! j = Some "sigmoid"%string)).
Proof.
  intros Hwf Hlen Hknown Hx.
  destruct (mlp_layers_run (n_input :: layers)
              (MLP.activations_or_linear activations layers) layers 0 n_input ω)
    as (ls & Hls & Hunits & Hinfo & Hparams); [done|done| |].
  { intros j Hj. apply lookup_lt_is_Some. simpl. lia. }
  set (m := MLP.mk (MLP.activations_or_linear activations layers) ls).
  set (ω1 := mkWorld (heap ω ++ random_leaves ω (param_count n_input layers))
               (random ω) (drawn ω + param_count n_input layers)) in *.
  assert (Hinit : MLP.__init__ n_input layers activations ω = (Return m, ω1))
    by by rewrite (mlp_init_run _ _ _ _ _ _ Hls).
  assert (Hacts : MLP.activations m = MLP.activations_or_linear activations layers)
    by done.
  assert (Hheap : heap ω1 = heap ω ++ random_leaves ω (param_count n_input layers))
    by done.
  change ls with (MLP.layers m) in Hunits, Hinfo, Hparams.
  fold (MLP.params m) in Hparams.
  assert (Hwf1 : wf (heap ω1)) by (rewrite Hheap; by apply wf_random_leaves).
  assert (Hjlt : ∀ j l, MLP.layers m !! j = Some l → j < length layers).
  { intros j l Hj. apply Forall2_length in Hunits. apply lookup_lt_Some in Hj. lia. }
  assert (Hready : Forall (λ layer, Forall (unit_ready (heap ω1)) (Layer.units layer))
                     (MLP.layers m)).
  { apply Forall_forall. intros l Hl. apply list_elem_of_lookup in Hl as [j Hj].
    destruct (Hinfo j l Hj) as (Hact & n & _ & Hus).
    assert (Hin : ∀ u v, u ∈ Layer.units l → v ∈ Unit.params u →
                    ∃ r, holds (heap ω1) v r).
    { intros u v Hu Hv. rewrite Hheap. apply holds_random_leaves.
      assert (Hvm : v ∈ MLP.params m).
      { unfold MLP.params. apply (elem_of_concat _ _ (Layer.params l)).
        - unfold Layer.params. apply (elem_of_concat _ _ (Unit.params u)); [done|].
          apply list_elem_of_fmap. by exists u.
        - apply list_elem_of_fmap. exists l. split; [done|].
          apply list_elem_of_lookup. by exists j. }
      rewrite Hparams in Hvm. apply elem_of_seq in Hvm. lia. }
    apply Forall_forall. intros u Hu. split; [|split].
    - apply Forall_forall. intros v Hv. apply (Hin u v Hu).
      unfold Unit.params. apply elem_of_app. by left.
    - apply (Hin u _ Hu). unfold Unit.params. apply elem_of_app. right. left.
    - rewrite Forall_forall in Hus. destruct (Hus u Hu) as [-> _].
      apply (Hknown j); [by apply (Hjlt j l)|]. done. }
  destruct (through_outcome (MLP.layers m) x ω1 Hwf1 Hready)
    as (new & Hwf2 & Hcall).
  { rewrite Hheap. eapply Forall_impl; [done|]. intros ?. apply number_operand_app. }
  exists m, ω1, (mkWorld (heap ω1 ++ new) (random ω1) (drawn ω1)).
  split; [done|]. cbn [heap random drawn]. split; [done|].
  split; [done|]. split; [done|].
  destruct Hcall as [(out & Hrun & Hout_len & Hout)|[Hrun Hex]].
  - left. exists out. split; [exact Hrun|]. split; [|done].
    by rewrite Hout_len, (output_length_sizes _ layers).
  - right. split; [exact Hrun|].
    apply Exists_exists in Hex as (l & Hl & Hsig).
    apply list_elem_of_lookup in Hl as [j Hj].
    destruct (Hinfo j l Hj) as (Hact & n & _ & Hus).
    apply Exists_exists in Hsig as (u & Hu & Hname).
    rewrite Forall_forall in Hus. destruct (Hus u Hu) as [Hua _].
    exists j. split; [by apply (Hjlt j l)|]. rewrite <- Hname, Hua. done.
Qed.

(** ** The graph a unit builds on plain numbers *)

Lemma product_nodes_length s wx : length (product_nodes s wx) = 2 * length wx.
Proof.
  revert s. induction wx as [|[[wi a] x] wx IH]; intros s; [done|].
  cbn [product_nodes length]. rewrite IH. lia.
Qed.

Lemma sum_nodes_length s start total items :
  length (sum_nodes s start total items) = length items.
Proof.
  revert s start total. induction items as [|[p v] items IH]; intros s start total;
    [done|]. cbn [sum_nodes length]. by rewrite IH.
Qed.

Lemma products_run wx :
  ∀ σ, Forall (λ t : node_id * R * R, holds σ t.1.1 t.1.2) wx →
    products ((λ t : node_id * R * R, (t.1.1, ONum t.2)) <$> wx) σ =
      (Ok ((λ i, length σ + 2 * i + 1) <$> seq 0 (length wx)),
       σ ++ product_nodes (length σ) wx).
Proof.
  induction wx as [|[[wi a] x] wx IH]; intros σ Hall.
  { simpl. by rewrite app_nil_r. }
  apply Forall_cons in Hall as [[Hw Ha] Hall]. simpl in Hw, Ha.
  rewrite fmap_cons. cbn [products fst snd].
  rewrite (bind_Ok _ _ σ _ _ (mul_num_run σ wi a x Hw Ha)).
  set (σ2 := σ ++ [_; _]).
  assert (L2 : length σ2 = S (S (length σ))).
  { unfold σ2. rewrite length_app. simpl. lia. }
  assert (Hall2 : Forall (λ t : node_id * R * R, holds σ2 t.1.1 t.1.2) wx).
  { eapply Forall_impl; [done|]. intros t Ht. by apply holds_app. }
  rewrite (bind_Ok _ _ σ2 _ _ (IH σ2 Hall2)).
  unfold ret. f_equal.
  - f_equal. cbn [length seq fmap list_fmap]. f_equal; [lia|].
    rewrite <- fmap_S_seq, <- list_fmap_compose. apply list_fmap_ext.
    intros _ i _. simpl. lia.
  - rewrite L2. unfold σ2. by rewrite <- app_assoc.
Qed.

(** The object holding the total after [n] items. *)
Lemma py_sum_run items :
  ∀ σ start total, holds σ start total →
    Forall (λ it : node_id * R, holds σ it.1 it.2) items →
    py_sum (fst <$> items) start σ =
      (Ok (match length items with O => start | S n => length σ + n end),
       σ ++ sum_nodes (length σ) start total items).
Proof.
  induction items as [|[p v] items IH]; intros σ start total Hs Hall.
  { simpl. by rewrite app_nil_r. }
  apply Forall_cons in Hall as [[Hp Hv] Hall]. simpl in Hp, Hv.
  destruct Hs as [Hs Ht]. rewrite fmap_cons. cbn [py_sum fst].
  rewrite (bind_Ok _ _ σ _ _ (add_Value_run σ start p total v Ht Hv)).
  set (σ1 := σ ++ [_]).
  assert (L1 : length σ1 = S (length σ)) by apply length_snoc.
  rewrite (IH σ1 (length σ) (total + v)%R).
  - f_equal.
    + f_equal. cbn [length]. destruct (length items); lia.
    + rewrite L1. unfold σ1. by rewrite <- app_assoc.
  - unfold σ1. by apply holds_new.
  - eapply Forall_impl; [done|]. intros t Ht'. by apply holds_app.
Qed.

Lemma lookup_SS {A} (a b : A) l k : (a :: b :: l) !! S (S k) = l !! k.
Proof. done. Qed.

Lemma lookup_S {A} (a : A) l k : (a :: l) !! S k = l !! k.
Proof. done. Qed.

(** Reading the objects back. *)
Lemma product_nodes_lookup wx :
  ∀ s i wi a x, wx !! i = Some (wi, a, x) →
    product_nodes s wx !! (2 * i) = Some (leaf (PNum x)) ∧
    product_nodes s wx !! (2 * i + 1) =
      Some (mkValue (PNum (a * x)) 0 EmptyString [wi; s + 2 * i]
              (BMul wi (s + 2 * i) (s + 2 * i + 1)) OpMul).
Proof.
  induction wx as [|[[wi' a'] x'] wx IH]; intros s i wi a x Hi; [done|].
  destruct i as [|i]; simpl in Hi.
  - injection Hi as -> -> ->. simpl. split; [done|].
    by rewrite !Nat.add_0_r, Nat.add_1_r.
  - destruct (IH (S (S s)) i wi a x Hi) as [H1 H2].
    replace (2 * S i) with (S (S (2 * i))) by lia.
    replace (S (S (2 * i)) + 1) with (S (S (2 * i + 1))) by lia.
    cbn [product_nodes]. rewrite !lookup_SS. split; [done|].
    rewrite H2. by replace (S (S s) + 2 * i) with (s + S (S (2 * i))) by lia.
Qed.

Lemma sum_nodes_lookup items :
  ∀ s start total j p v, items !! j = Some (p, v) →
    sum_nodes s start total items !! j =
      Some (mkValue (PNum (fold_left Rplus (snd <$> take (S j) items) total)) 0
              EmptyString
              [match j with O => start | S j' => s + j' end; p]
              (BAdd (match j with O => start | S j' => s + j' end) p (s + j)) OpAdd).
Proof.
  induction items as [|[p' v'] items IH]; intros s start total j p v Hj; [done|].
  destruct j as [|j]; simpl in Hj.
  - injection Hj as -> ->. simpl. by rewrite Nat.add_0_r.
  - cbn [sum_nodes]. rewrite lookup_S, (IH (S s) s (total + v')%R j p v Hj).
    assert (E : match j with O => s | S j' => S s + j' end = s + j)
      by (destruct j; lia).
    rewrite E. replace (S s + j) with (s + S j) by lia. done.
Qed.

Lemma zip_weights_inputs (w : list node_id) :
  ∀ (ws xs : list R), length w = length ws →
    (λ t : node_id * R * R, (t.1.1, ONum t.2)) <$> zip (zip w ws) xs =
    zip w (ONum <$> xs).
Proof.
  induction w as [|wi w IH]; intros ws xs Hlen; [done|].
  destruct ws as [|a ws]; [done|]. destruct xs as [|x xs]; [done|].
  simpl. f_equal. apply IH. simpl in Hlen. lia.
Qed.

Lemma zip3_lookup (w : list node_id) (ws xs : list R) i wi a x :
  zip (zip w ws) xs !! i = Some (wi, a, x) ↔
  w !! i = Some wi ∧ ws !! i = Some a ∧ xs !! i = Some x.
Proof.
  rewrite lookup_zip_with_Some. split.
  - intros ([wi' a'] & x' & [= -> -> ->] & Hz & Hx).
    apply lookup_zip_with_Some in Hz as (? & ? & [= -> ->] & Hw & Ha). done.
  - intros (Hw & Ha & Hx). exists (wi, a), x. split; [done|]. split; [|done].
    apply lookup_zip_with_Some. by exists wi, a.
Qed.

Lemma wf_leaf_closure σ p :
  wf σ → p < length σ → children_of σ p = [] → _backward (deref σ p) = BNone.
Proof.
  intros Hwf Hp Hc. pose proof (wf_closure_ok σ p Hwf) as Hok. rewrite Hc in Hok.
  destruct (_backward (deref σ p)); simpl in Hok; try done;
    first [by destruct Hok as [[_ ?] _]|by destruct Hok].
Qed.

(** The heap after [sum([wi * xi ...], self.b)] on plain numbers. *)
Lemma preactivation_run σ (w : list node_id) b (ws xs : list R) bias :
  Forall2 (λ wi a, holds σ wi a) w ws → holds σ b bias →
  let wx := zip (zip w ws) xs in
  let k := length wx in
  let s := length σ in
  let items := zip ((λ i, s + 2 * i + 1) <$> seq 0 k) ((λ t, t.1.2 * t.2)%R <$> wx) in
  (ps <- products (zip w (ONum <$> xs)) ;; py_sum ps b) σ =
    (Ok (match k with O => b | S n => s + 2 * k + n end),
     (σ ++ product_nodes s wx) ++ sum_nodes (s + 2 * k) b bias items).
Proof.
  intros Hw Hb wx k s items.
  assert (Hwx : Forall (λ t : node_id * R * R, holds σ t.1.1 t.1.2) wx).
  { apply Forall_forall. intros [[wi a] x] Ht.
    apply list_elem_of_lookup in Ht as [i Hi]. apply zip3_lookup in Hi as (H1 & H2 & _).
    simpl. by apply (Forall2_lookup_lr _ _ _ i wi a Hw). }
  rewrite <- (zip_weights_inputs w ws xs) by by apply Forall2_length in Hw.
  rewrite (bind_Ok _ _ σ _ _ (products_run wx σ Hwx)). fold wx k s.
  set (σP := σ ++ product_nodes s wx).
  assert (LP : length σP = s + 2 * k).
  { unfold σP. rewrite length_app, product_nodes_length. done. }
  assert (Hfst : fst <$> items = (λ i, s + 2 * i + 1) <$> seq 0 k).
  { unfold items. rewrite fst_zip; [done|].
    rewrite !length_fmap, length_seq. done. }
  assert (Hlen : length items = k).
  { unfold items. rewrite length_zip_with, !length_fmap, length_seq. fold k. lia. }
  rewrite <- Hfst. rewrite (py_sum_run items σP b bias).
  - by rewrite Hlen, LP.
  - by apply holds_app.
  - apply Forall_forall. intros [p v] Ht. apply list_elem_of_lookup in Ht as [i Hi].
    unfold items in Hi. apply lookup_zip_with_Some in Hi as (p' & v' & [= <- <-] & Hp & Hv).
    rewrite list_lookup_fmap in Hp. rewrite list_lookup_fmap in Hv.
    destruct (wx !! i) as [[[wi a] x]|] eqn:Hwi; [|done].
    injection Hv as <-.
    assert (Hik : i < k) by (by apply lookup_lt_Some in Hwi).
    rewrite lookup_seq_lt in Hp by done. injection Hp as <-. cbn [fst snd].
    destruct (product_nodes_lookup wx s i wi a x Hwi) as [_ H2].
    split; [rewrite LP; lia|].
    assert (E : ∀ q, q = length σ + (2 * i + 1) →
                  data (deref (σ ++ product_nodes s wx) q) = PNum (a * x)).
    { intros q ->. rewrite deref_app_r. by rewrite (deref_lookup _ _ _ H2). }
    apply E. unfold s. lia.
Qed.

(** ** Gradients of a unit called on plain numbers *)

Section unit_graph.
Variables (σ : store) (w : list node_id) (b : node_id) (ws xs : list R) (bias : R).
Variables (nd : Value_obj) (d : R).
Variables (wx : list (node_id * R * R)) (k s : nat) (z : node_id) (σ' : store).
Hypothesis Hwf : wf σ.
Hypothesis Hnodup : NoDup (w ++ [b]).
Hypothesis Hleaf : ∀ p, p ∈ w ++ [b] → children_of σ p = [].
Hypothesis Hw : Forall2 (λ wi a, holds σ wi a) w ws.
Hypothesis Hb : holds σ b bias.
Hypothesis Hwx : wx = zip (zip w ws) xs.
Hypothesis Hk : k = length wx.
Hypothesis Hs : s = length σ.
Hypothesis Hz : z = match k with O => b | S n => s + 2 * k + n end.
Hypothesis Hσ' :
  σ' = ((σ ++ product_nodes s wx) ++
        sum_nodes (s + 2 * k) b bias
          (zip ((λ i, s + 2 * i + 1) <$> seq 0 k) ((λ t, t.1.2 * t.2)%R <$> wx))) ++ [nd].
Hypothesis Hwf' : wf σ'.
Hypothesis Hch : _children nd = [z].
Hypothesis Hret : result (call_closure (_backward nd)) σ' = Ok tt.
Hypothesis Hdelta :
  ∀ g t, local_delta σ' (_backward nd) g t = if decide (z = t) then (g * d)%R else 0%R.

Lemma unit_graph_length : length σ' = s + 3 * k + 1.
Proof.
  rewrite Hσ', !length_app, product_nodes_length, sum_nodes_length.
  rewrite length_zip_with, !length_fmap, length_seq. simpl. lia.
Qed.

Lemma unit_graph_old m : m < s → deref σ' m = deref σ m.
Proof.
  intros Hm. rewrite Hσ', <- !app_assoc. apply deref_app_l. lia.
Qed.

Lemma unit_graph_at (i : nat) (l1 l2 : store) (n : Value_obj) q :
  σ' = (σ ++ l1) ++ l2 → l1 !! i = Some n → q = s + i → deref σ' q = n.
Proof.
  intros E Hi ->. rewrite E, <- app_assoc, Hs, deref_app_r.
  apply deref_lookup. by apply lookup_app_l_Some.
Qed.

Lemma unit_graph_leaf i wi a x :
  wx !! i = Some (wi, a, x) → deref σ' (s + 2 * i) = leaf (PNum x).
Proof.
  intros Hi. destruct (product_nodes_lookup wx s i wi a x Hi) as [H1 _].
  eapply (unit_graph_at (2 * i)); [|exact H1|done].
  rewrite Hσ'. by rewrite <- (app_assoc _ _ [nd]).
Qed.

Lemma unit_graph_product i wi a x :
  wx !! i = Some (wi, a, x) →
  deref σ' (s + 2 * i + 1) =
    mkValue (PNum (a * x)) 0 EmptyString [wi; s + 2 * i]
      (BMul wi (s + 2 * i) (s + 2 * i + 1)) OpMul.
Proof.
  intros Hi. destruct (product_nodes_lookup wx s i wi a x Hi) as [_ H2].
  eapply (unit_graph_at (2 * i + 1)); [|exact H2|lia].
  rewrite Hσ'. by rewrite <- (app_assoc _ _ [nd]).
Qed.

Lemma unit_graph_sum j :
  j < k →
  ∃ dt, deref σ' (s + 2 * k + j) =
    mkValue dt 0 EmptyString
      [match j with O => b | S j' => s + 2 * k + j' end; s + 2 * j + 1]
      (BAdd (match j with O => b | S j' => s + 2 * k + j' end) (s + 2 * j + 1)
         (s + 2 * k + j)) OpAdd.
Proof.
  intros Hj.
  set (items := zip ((λ i, s + 2 * i + 1) <$> seq 0 k) ((λ t, t.1.2 * t.2)%R <$> wx)) in *.
  assert (Hlen : length items = k).
  { unfold items. rewrite length_zip_with, !length_fmap, length_seq. lia. }
  destruct (items !! j) as [[p v]|] eqn:Hit.
  2:{ apply lookup_ge_None in Hit. lia. }
  assert (Hp : p = s + 2 * j + 1).
  { unfold items in Hit. apply lookup_zip_with_Some in Hit as (p' & v' & [= <- <-] & Hp & _).
    rewrite list_lookup_fmap, lookup_seq_lt in Hp by done. by injection Hp as <-. }
  subst p.
  pose proof (sum_nodes_lookup items (s + 2 * k) b bias j _ v Hit) as Hn.
  assert (E : ∀ q n, q = length (σ ++ product_nodes s wx) + j →
                sum_nodes (s + 2 * k) b bias items !! j = Some n → deref σ' q = n).
  { intros q n -> Hq. rewrite Hσ'. fold items.
    rewrite deref_app_l
      by (rewrite !length_app, product_nodes_length, sum_nodes_length; lia).
    rewrite deref_app_r. by apply deref_lookup. }
  eexists. apply (E (s + 2 * k + j) _ ltac:(rewrite length_app, product_nodes_length; lia) Hn).
Qed.

Lemma unit_graph_out : deref σ' (s + 3 * k) = nd.
Proof.
  rewrite Hσ'.
  replace (s + 3 * k) with
    (length ((σ ++ product_nodes s wx) ++
             sum_nodes (s + 2 * k) b bias
               (zip ((λ i, s + 2 * i + 1) <$> seq 0 k) ((λ t, t.1.2 * t.2)%R <$> wx)))).
  - apply deref_app_new.
  - rewrite !length_app, product_nodes_length, sum_nodes_length.
    rewrite length_zip_with, !length_fmap, length_seq. lia.
Qed.

(** Every new object is a leaf for an input, a product, a sum, or the
    result. *)
Lemma unit_graph_cases m :
  s ≤ m → m < length σ' →
  (∃ i wi a x, wx !! i = Some (wi, a, x) ∧ (m = s + 2 * i ∨ m = s + 2 * i + 1)) ∨
  (∃ j, j < k ∧ m = s + 2 * k + j) ∨ m = s + 3 * k.
Proof.
  intros H1 H2. rewrite unit_graph_length in H2.
  destruct (decide (m < s + 2 * k)) as [Hlt|Hge].
  - left. set (i := (m - s) / 2).
    assert (Hi : i < k) by (apply Nat.Div0.div_lt_upper_bound; lia).
    destruct (wx !! i) as [[[wi a] x]|] eqn:E.
    2:{ apply lookup_ge_None in E. lia. }
    exists i, wi, a, x. split; [done|].
    pose proof (Nat.div_mod_eq (m - s) 2) as Hdm. fold i in Hdm.
    pose proof (Nat.mod_upper_bound (m - s) 2). lia.
  - destruct (decide (m = s + 3 * k)) as [->|Hne]; [by right; right|].
    right; left. exists (m - s - 2 * k). lia.
Qed.

Lemma unit_graph_param_lt p : p ∈ w ++ [b] → p < s.
Proof.
  intros Hp. rewrite Hs. apply elem_of_app in Hp as [Hp|Hp].
  - apply list_elem_of_lookup in Hp as [i Hi].
    destruct (Forall2_lookup_l _ _ _ i p Hw Hi) as (a & _ & [H _]). done.
  - apply list_elem_of_singleton in Hp as ->. apply Hb.
Qed.

Lemma unit_graph_weight i wi a x : wx !! i = Some (wi, a, x) → wi ∈ w ++ [b].
Proof.
  rewrite Hwx. intros Hi. apply zip3_lookup in Hi as (Hi & _).
  apply elem_of_app. left. apply list_elem_of_lookup. by exists i.
Qed.

Lemma unit_graph_weight_at i wi a x :
  wx !! i = Some (wi, a, x) → w !! i = Some wi ∧ xs !! i = Some x.
Proof. rewrite Hwx. intros Hi. by apply zip3_lookup in Hi as (? & _ & ?). Qed.

Lemma unit_graph_bias : b ∈ w ++ [b].
Proof. apply elem_of_app. right. left. Qed.

Lemma unit_graph_param_children p : p ∈ w ++ [b] → children_of σ' p = [].
Proof.
  intros Hp. unfold children_of. rewrite unit_graph_old by by apply unit_graph_param_lt.
  by apply Hleaf.
Qed.

Lemma unit_graph_z : z ∈ w ++ [b] ∨ (s ≤ z ∧ z < s + 3 * k).
Proof.
  rewrite Hz. destruct k as [|n]; [left; apply unit_graph_bias|right; lia].
Qed.

(** The children of each kind of new object. *)
Lemma unit_graph_children m c :
  s ≤ m → c ∈ children_of σ' m →
  (∃ i wi a x, wx !! i = Some (wi, a, x) ∧ m = s + 2 * i + 1 ∧ (c = wi ∨ c = s + 2 * i)) ∨
  (∃ j, j < k ∧ m = s + 2 * k + j ∧
        (c = match j with O => b | S j' => s + 2 * k + j' end ∨ c = s + 2 * j + 1)) ∨
  (m = s + 3 * k ∧ c = z).
Proof.
  intros Hm Hc.
  destruct (decide (m < length σ')) as [Hlt|Hge].
  2:{ unfold children_of in Hc. rewrite deref_dangling in Hc by lia.
      by apply elem_of_nil in Hc. }
  destruct (unit_graph_cases m Hm Hlt)
    as [(i & wi & a & x & Hi & [->| ->])|[(j & Hj & ->)| ->]]; unfold children_of in Hc.
  - rewrite (unit_graph_leaf i wi a x Hi) in Hc. by apply elem_of_nil in Hc.
  - rewrite (unit_graph_product i wi a x Hi) in Hc. simpl in Hc.
    left. exists i, wi, a, x. split; [done|]. split; [done|].
    apply elem_of_cons in Hc as [->|Hc]; [by left|].
    apply list_elem_of_singleton in Hc. by right.
  - destruct (unit_graph_sum j Hj) as [dt Hd]. rewrite Hd in Hc. cbn [_children] in Hc.
    right; left. exists j. split; [done|]. split; [done|].
    apply elem_of_cons in Hc as [->|Hc]; [by left|].
    apply list_elem_of_singleton in Hc. by right.
  - rewrite unit_graph_out, Hch in Hc. apply list_elem_of_singleton in Hc.
    by right; right.
Qed.

(** From a new object or a parameter, only new objects and parameters are
    reached. *)
Lemma unit_graph_reach n m :
  reach σ' n m → s ≤ n ∨ n ∈ w ++ [b] → s ≤ m ∨ m ∈ w ++ [b].
Proof.
  induction 1 as [|n c m Hc Hr IH]; [done|]. intros [Hn|Hn].
  - apply IH.
    destruct (unit_graph_children n c Hn Hc)
      as [(i & wi & a & x & Hi & _ & [->| ->])|[(j & Hj & _ & [->| ->])|[_ ->]]].
    + right. by apply (unit_graph_weight i wi a x).
    + left. lia.
    + destruct j; [right; apply unit_graph_bias|left; lia].
    + left. lia.
    + destruct unit_graph_z as [?|[? _]]; [by right|by left].
  - rewrite (unit_graph_param_children n Hn) in Hc. by apply elem_of_nil in Hc.
Qed.

(** The objects reachable from the result that use [t]. *)
Lemma unit_graph_users m t :
  reach σ' (s + 3 * k) m → t ∈ children_of σ' m →
  (∃ i wi a x, wx !! i = Some (wi, a, x) ∧ m = s + 2 * i + 1 ∧ (t = wi ∨ t = s + 2 * i)) ∨
  (∃ j, j < k ∧ m = s + 2 * k + j ∧
        (t = match j with O => b | S j' => s + 2 * k + j' end ∨ t = s + 2 * j + 1)) ∨
  (m = s + 3 * k ∧ t = z).
Proof.
  intros Hr Hc. destruct (unit_graph_reach _ _ Hr) as [Hm|Hm]; [left; lia| |].
  - by apply unit_graph_children.
  - rewrite (unit_graph_param_children m Hm) in Hc. by apply elem_of_nil in Hc.
Qed.

Lemma unit_graph_returns : result (backward (s + 3 * k)) σ' = Ok tt.
Proof.
  apply backward_returns; [done|rewrite unit_graph_length; lia|].
  intros m Hr. destruct (unit_graph_reach _ _ Hr) as [Hm|Hm]; [left; lia| |].
  - destruct (decide (m < length σ')) as [Hlt|Hge].
    2:{ by rewrite deref_dangling by lia. }
    destruct (unit_graph_cases m Hm Hlt)
      as [(i & wi & a & x & Hi & [->| ->])|[(j & Hj & ->)| ->]].
    + by rewrite (unit_graph_leaf i wi a x Hi).
    + rewrite (unit_graph_product i wi a x Hi). cbn [_backward].
      apply (call_BMul_result _ _ _ _ a x).
      * pose proof (unit_graph_weight i wi a x Hi) as Hp.
        rewrite unit_graph_old by by apply unit_graph_param_lt.
        destruct (unit_graph_weight_at i wi a x Hi) as [Hwi _].
        destruct (Forall2_lookup_l _ _ _ i wi Hw Hwi) as (a' & Ha' & [_ Hd]).
        rewrite Hwx in Hi. apply zip3_lookup in Hi as (_ & Ha & _). congruence.
      * by rewrite (unit_graph_leaf i wi a x Hi).
    + destruct (unit_graph_sum j Hj) as [dt Hd]. by rewrite Hd.
    + by rewrite unit_graph_out.
  - rewrite unit_graph_old by by apply unit_graph_param_lt.
    rewrite wf_leaf_closure; [done|done| |by apply Hleaf].
    rewrite <- Hs. by apply unit_graph_param_lt.
Qed.

Lemma unit_graph_reach_sum n :
  ∀ j, j + n + 1 = k → reach σ' (s + 3 * k) (s + 2 * k + j).
Proof.
  induction n as [|n IH]; intros j Hj.
  - assert (Ez : z = s + 2 * k + j) by (rewrite Hz; destruct k; lia).
    eapply reach_step; [|apply reach_refl].
    unfold children_of. rewrite unit_graph_out, Hch, Ez. left.
  - eapply reach_trans; [apply (IH (S j)); lia|].
    eapply reach_step; [|apply reach_refl].
    destruct (unit_graph_sum (S j)) as [dt Hd]; [lia|].
    unfold children_of. rewrite Hd. cbn [_children]. left.
Qed.

Lemma unit_graph_reach_product i :
  i < k → reach σ' (s + 3 * k) (s + 2 * i + 1).
Proof.
  intros Hi. eapply reach_trans; [apply (unit_graph_reach_sum (k - i - 1) i); lia|].
  eapply reach_step; [|apply reach_refl].
  destruct (unit_graph_sum i Hi) as [dt Hd].
  unfold children_of. rewrite Hd. cbn [_children]. right; left.
Qed.

Lemma unit_graph_grad_out :
  grad (deref (exec (backward (s + 3 * k)) σ') (s + 3 * k)) = 1%R.
Proof. apply backward_seed; [done|rewrite unit_graph_length; lia]. Qed.

(** The object holding the total receives the slope of the activation. *)
Lemma unit_graph_grad_z :
  grad (deref (exec (backward (s + 3 * k)) σ') z) = (grad (deref σ' z) + d)%R.
Proof.
  rewrite (backward_grad_users σ' (s + 3 * k) [s + 3 * k] z);
    [|done|rewrite unit_graph_length; lia|apply unit_graph_returns
     |apply NoDup_singleton| |].
  - rewrite adjoint_sum_cons, adjoint_sum_nil, unit_graph_grad_out, unit_graph_out.
    rewrite Hdelta. rewrite (decide_True (P := z = z)) by done.
    rewrite decide_False; [lra|].
    destruct unit_graph_z as [Hp|?]; [|lia].
    apply unit_graph_param_lt in Hp. lia.
  - intros u ->%list_elem_of_singleton. apply reach_refl.
  - intros m Hr Hc. apply list_elem_of_singleton.
    destruct (unit_graph_users m z Hr Hc)
      as [(i & wi & a & x & Hi & -> & Ht)|[(j & Hj & -> & Ht)|[-> _]]]; [| |done].
    + exfalso. pose proof (unit_graph_param_lt _ (unit_graph_weight i wi a x Hi)).
      assert (i < k) by (rewrite Hk; by apply lookup_lt_Some in Hi).
      rewrite Hz in Ht. destruct k as [|n]; [lia|]. lia.
    + exfalso. pose proof (unit_graph_param_lt _ unit_graph_bias).
      rewrite Hz in Ht. destruct k as [|n]; [lia|]. destruct j; lia.
Qed.

Lemma unit_graph_grad_sum n :
  ∀ j, j + n + 1 = k →
    grad (deref (exec (backward (s + 3 * k)) σ') (s + 2 * k + j)) = d.
Proof.
  induction n as [|n IH]; intros j Hj.
  - assert (Ez : z = s + 2 * k + j) by (rewrite Hz; destruct k; lia).
    rewrite <- Ez, unit_graph_grad_z, Ez.
    destruct (unit_graph_sum j) as [dt Hd]; [lia|]. rewrite Hd. simpl. lra.
  - destruct (unit_graph_sum j) as [dt Hd]; [lia|].
    destruct (unit_graph_sum (S j)) as [dt' Hd']; [lia|].
    rewrite (backward_grad_users σ' (s + 3 * k) [s + 2 * k + S j] (s + 2 * k + j));
      [|done|rewrite unit_graph_length; lia|apply unit_graph_returns
       |apply NoDup_singleton| |].
    + rewrite adjoint_sum_cons, adjoint_sum_nil, (IH (S j)) by lia.
      rewrite Hd, Hd'. cbn [grad _backward local_delta].
      rewrite decide_False, decide_True, decide_False by lia. lra.
    + intros u ->%list_elem_of_singleton. apply (unit_graph_reach_sum n). lia.
    + intros m Hr Hc. apply list_elem_of_singleton.
      destruct (unit_graph_users m _ Hr Hc)
        as [(i & wi & a & x & Hi & -> & Ht)|[(j' & Hj' & -> & Ht)|[-> Ht]]].
      * exfalso. pose proof (unit_graph_param_lt _ (unit_graph_weight i wi a x Hi)).
        assert (i < k) by (rewrite Hk; by apply lookup_lt_Some in Hi). lia.
      * pose proof (unit_graph_param_lt _ unit_graph_bias). destruct j'; lia.
      * exfalso. rewrite Hz in Ht. destruct k as [|n']; lia.
Qed.

Lemma unit_graph_grad_product i :
  i < k → grad (deref (exec (backward (s + 3 * k)) σ') (s + 2 * i + 1)) = d.
Proof.
  intros Hi. destruct (unit_graph_sum i Hi) as [dt Hd].
  destruct (wx !! i) as [[[wi a] x]|] eqn:E.
  2:{ apply lookup_ge_None in E. lia. }
  rewrite (backward_grad_users σ' (s + 3 * k) [s + 2 * k + i] (s + 2 * i + 1));
    [|done|rewrite unit_graph_length; lia|apply unit_graph_returns
     |apply NoDup_singleton| |].
  - rewrite adjoint_sum_cons, adjoint_sum_nil.
    rewrite (unit_graph_grad_sum (k - i - 1) i) by lia.
    rewrite Hd, (unit_graph_product i wi a x E). cbn [grad _backward local_delta].
    pose proof (unit_graph_param_lt _ unit_graph_bias).
    rewrite decide_False by lia.
    rewrite (decide_False (P := match i with O => b | S j' => s + 2 * k + j' end
                                = s + 2 * i + 1)) by (destruct i; lia).
    rewrite decide_True by done. lra.
  - intros u ->%list_elem_of_singleton. apply (unit_graph_reach_sum (k - i - 1)). lia.
  - intros m Hr Hc. apply list_elem_of_singleton.
    destruct (unit_graph_users m _ Hr Hc)
      as [(i' & wi' & a' & x' & Hi' & -> & Ht)|[(j' & Hj' & -> & Ht)|[-> Ht]]].
    + exfalso. pose proof (unit_graph_param_lt _ (unit_graph_weight i' wi' a' x' Hi')).
      lia.
    + pose proof (unit_graph_param_lt _ unit_graph_bias). destruct j'; lia.
    + exfalso. pose proof (unit_graph_param_lt _ unit_graph_bias).
      rewrite Hz in Ht. destruct k as [|n']; lia.
Qed.

(** The bias receives the slope of the activation. *)
Lemma unit_graph_grad_bias :
  grad (deref (exec (backward (s + 3 * k)) σ') b) = (grad (deref σ b) + d)%R.
Proof.
  pose proof (unit_graph_param_lt _ unit_graph_bias) as Hbs.
  destruct (decide (k = 0)) as [Hk0|Hk0].
  { assert (Ez : z = b) by (rewrite Hz; by rewrite Hk0).
    rewrite <- Ez at 1. rewrite unit_graph_grad_z, Ez. by rewrite unit_graph_old. }
  destruct (unit_graph_sum 0) as [dt Hd]; [lia|].
  rewrite (backward_grad_users σ' (s + 3 * k) [s + 2 * k + 0] b);
    [|done|rewrite unit_graph_length; lia|apply unit_graph_returns
     |apply NoDup_singleton| |].
  - rewrite adjoint_sum_cons, adjoint_sum_nil.
    rewrite (unit_graph_grad_sum (k - 1) 0) by lia.
    rewrite Hd, unit_graph_old by done. cbn [_backward local_delta].
    rewrite decide_False, decide_True, decide_False by lia. lra.
  - intros u ->%list_elem_of_singleton. apply (unit_graph_reach_sum (k - 1)). lia.
  - intros m Hr Hc. apply list_elem_of_singleton.
    destruct (unit_graph_users m _ Hr Hc)
      as [(i & wi & a & x & Hi & -> & Ht)|[(j & Hj & -> & Ht)|[-> Ht]]].
    + exfalso. destruct Ht as [Ht|Ht]; [|lia].
      destruct (unit_graph_weight_at i wi a x Hi) as [Hwi _].
      apply NoDup_app in Hnodup as (_ & Hdisj & _).
      apply (Hdisj b); [|left]. rewrite Ht. apply list_elem_of_lookup. by exists i.
    + destruct j; lia.
    + exfalso. rewrite Hz in Ht. destruct k as [|n']; lia.
Qed.

(** A weight that was paired with the input [x] receives the slope times
    [x]. *)
Lemma unit_graph_grad_weight i wi x :
  w !! i = Some wi → xs !! i = Some x →
  grad (deref (exec (backward (s + 3 * k)) σ') wi) = (grad (deref σ wi) + d * x)%R.
Proof.
  intros Hwi Hxi.
  destruct (Forall2_lookup_l _ _ _ i wi Hw Hwi) as (a & Ha & [Hlt Hd]).
  assert (Hi : wx !! i = Some (wi, a, x)) by (rewrite Hwx; by apply zip3_lookup).
  assert (Hik : i < k) by (rewrite Hk; by apply lookup_lt_Some in Hi).
  pose proof (unit_graph_param_lt _ (unit_graph_weight i wi a x Hi)) as Hws.
  rewrite (backward_grad_users σ' (s + 3 * k) [s + 2 * i + 1] wi);
    [|done|rewrite unit_graph_length; lia|apply unit_graph_returns
     |apply NoDup_singleton| |].
  - rewrite adjoint_sum_cons, adjoint_sum_nil, unit_graph_grad_product by done.
    rewrite (unit_graph_product i wi a x Hi), unit_graph_old by done.
    cbn [_backward local_delta]. rewrite (unit_graph_leaf i wi a x Hi).
    repeat case_decide; try lia; simpl; lra.
  - intros u ->%list_elem_of_singleton. by apply unit_graph_reach_product.
  - intros m Hr Hc. apply list_elem_of_singleton.
    destruct (unit_graph_users m _ Hr Hc)
      as [(i' & wi' & a' & x' & Hi' & -> & Ht)|[(j & Hj & -> & Ht)|[-> Ht]]].
    + destruct Ht as [Ht|Ht]; [|lia]. subst wi'.
      destruct (unit_graph_weight_at i' wi a' x' Hi') as [Hwi' _].
      apply NoDup_app in Hnodup as (Hnd & _ & _).
      by rewrite (NoDup_lookup _ _ _ _ Hnd Hwi Hwi').
    + exfalso. destruct Ht as [Ht|Ht]; [|lia]. destruct j; [|lia].
      apply NoDup_app in Hnodup as (_ & Hdisj & _).
      apply (Hdisj b); [|left]. rewrite <- Ht. apply list_elem_of_lookup. by exists i.
    + exfalso. rewrite Hz in Ht. destruct k as [|n']; [|lia].
      apply NoDup_app in Hnodup as (_ & Hdisj & _).
      apply (Hdisj b); [|left]. rewrite <- Ht. apply list_elem_of_lookup. by exists i.
Qed.

(** A weight beyond the last input is not part of the graph. *)
Lemma unit_graph_grad_surplus i wi :
  w !! i = Some wi → xs !! i = None →
  grad (deref (exec (backward (s + 3 * k)) σ') wi) = grad (deref σ wi).
Proof.
  intros Hwi Hxi.
  assert (Hp : wi ∈ w ++ [b]).
  { apply elem_of_app. left. apply list_elem_of_lookup. by exists i. }
  pose proof (unit_graph_param_lt _ Hp) as Hws.
  rewrite (backward_grad_users σ' (s + 3 * k) [] wi);
    [|done|rewrite unit_graph_length; lia|apply unit_graph_returns
     |apply NoDup_nil_2| |].
  - rewrite adjoint_sum_nil, decide_False, unit_graph_old by lia. lra.
  - intros u Hu. by apply elem_of_nil in Hu.
  - intros m Hr Hc. exfalso.
    apply NoDup_app in Hnodup as (Hnd & Hdisj & _).
    destruct (unit_graph_users m _ Hr Hc)
      as [(i' & wi' & a' & x' & Hi' & -> & Ht)|[(j & Hj & -> & Ht)|[-> Ht]]].
    + destruct Ht as [Ht|Ht]; [|lia]. subst wi'.
      destruct (unit_graph_weight_at i' wi a' x' Hi') as [Hwi' Hx'].
      rewrite (NoDup_lookup _ _ _ _ Hnd Hwi Hwi') in Hxi. congruence.
    + destruct Ht as [Ht|Ht]; [|lia]. destruct j; [|lia].
      apply (Hdisj b); [|left]. rewrite <- Ht. apply list_elem_of_lookup. by exists i.
    + rewrite Hz in Ht. destruct k as [|n']; [|lia].
      apply (Hdisj b); [|left]. rewrite <- Ht. apply list_elem_of_lookup. by exists i.
Qed.

End unit_graph.

Lemma zip_holds σ (w : list node_id) (ws : list R) :
  Forall2 (holds σ) w ws →
  ∀ xs : list R,
    Forall2 (λ p ac, holds σ p.1 ac.1 ∧ operand_holds σ p.2 ac.2)
      (zip w (ONum <$> xs)) (zip ws xs).
Proof.
  induction 1 as [|wi a w ws Hwi Hw IH]; intros xs; [constructor|].
  destruct xs as [|x xs]; [constructor|]. simpl. constructor; [done|apply IH].
Qed.

Lemma weighted_sum_zip3 (w : list node_id) (ws xs : list R) bias :
  length w = length ws →
  weighted_sum bias ((λ t : node_id * R * R, (t.1.2, t.2)) <$> zip (zip w ws) xs) =
  weighted_sum bias (zip ws xs).
Proof.
  intros Hlen. f_equal. revert ws xs Hlen.
  induction w as [|wi w IH]; intros ws xs Hlen; destruct ws as [|a ws]; try done.
  destruct xs as [|x xs]; [done|]. simpl. f_equal. apply IH. simpl in Hlen. lia.
Qed.

(** The last step of [Unit.__call__]: the object an activation adds, and
    what its closure does. *)
Lemma activation_node σ z total name v d ω :
  holds σ z total →
  activation_value name total = Some v → activation_slope name total = Some d →
  ∃ nd,
    (if String.eqb name "linear" then engine (linear z)
     else if String.eqb name "relu" then engine (relu z)
     else if String.eqb name "leaky_relu" then engine (leaky_relu z (1 / 100))
     else if String.eqb name "sigmoid" then engine (sigmoid z)
     else if String.eqb name "tanh" then engine (tanh z)
     else nn_raise ValueError) (mkWorld σ (random ω) (drawn ω)) =
      (Return (length σ), mkWorld (σ ++ [nd]) (random ω) (drawn ω)) ∧
    data nd = PNum v ∧ _children nd = [z] ∧
    closure_ok (length σ) [z] (_backward nd) ∧
    result (call_closure (_backward nd)) (σ ++ [nd]) = Ok tt ∧
    ∀ g t, local_delta (σ ++ [nd]) (_backward nd) g t =
           if decide (z = t) then (g * d)%R else 0%R.
Proof.
  intros [Hz Hd] Hv Hs. unfold activation_value in Hv. unfold activation_slope in Hs.
  assert (Hdz : ∀ nd, data (deref (σ ++ [nd]) z) = PNum total)
    by (intros nd; by rewrite deref_app_l).
  assert (Hrange : String.eqb name "sigmoid" = true →
                   in_range (Rtrigo_def.exp (- total)) ∧
                   v = (1 / (1 + Rtrigo_def.exp (- total)))%R).
  { intros E. apply String.eqb_eq in E. subst name.
    cbn [String.eqb Ascii.eqb Bool.eqb] in Hv.
    destruct (ranged_inv (Rtrigo_def.exp (- total)) _ eq_refl) as [[E' Hr]|[E' _]];
      fold (math_exp (- total)) in E'; rewrite E' in Hv; [|done].
    by injection Hv as <-. }
  destruct (String.eqb name "linear");
    [|destruct (String.eqb name "relu");
      [|destruct (String.eqb name "leaky_relu");
        [|destruct (String.eqb name "sigmoid");
          [destruct (Hrange eq_refl) as [Hr ->]; clear Hv
          |destruct (String.eqb name "tanh"); [|done]]]]];
    try injection Hv as <-; injection Hs as <-; eexists;
    (split; [apply (engine_Ok _ (mkWorld σ (random ω) (drawn ω)));
             first [apply linear_run|by apply relu_run|by apply leaky_relu_run
                   |by apply sigmoid_run|by apply tanh_run]|]);
    (split; [done|]); (split; [done|]);
    (split; [first [done|split; [done|apply tanh_range]]|]).
  - split; [done|]. intros g t. done.
  - split; [done|]. intros g t. done.
  - split.
    + cbn [_backward]. unfold call_closure, result, bind, get_grad, get_num.
      cbn [fst snd]. by rewrite Hdz.
    + intros g t. cbn [_backward local_delta]. by rewrite Hdz.
  - split; [done|]. intros g t. cbn [_backward local_delta]. case_decide; lra.
  - split.
    + cbn [_backward]. unfold call_closure, result, bind, get_grad, lift.
      cbn [fst snd]. by rewrite py_pow_square by apply tanh_range.
    + intros g t. done.
Qed.

(** One training step's gradients.  A unit whose parameters are different
    leaves holding numbers, called on plain numbers [xs]: the call returns
    an object holding the activation of the total, [backward] from it
    returns, and it adds to the bias the slope of the activation at the
    total, and to each weight that slope times the input the weight was
    paired with.  A weight beyond the last input keeps its [grad]. *)
Theorem unit_call_gradients ω (u : Unit.t) ws xs bias v d :
  wf (heap ω) → NoDup (Unit.params u) →
  (∀ p, p ∈ Unit.params u → children_of (heap ω) p = []) →
  Forall2 (holds (heap ω)) (Unit.w u) ws → holds (heap ω) (Unit.b u) bias →
  activation_value (Unit.activation u) (weighted_sum bias (zip ws xs)) = Some v →
  activation_slope (Unit.activation u) (weighted_sum bias (zip ws xs)) = Some d →
  ∃ out new,
    Unit.__call__ u (ONum <$> xs) ω =
      (Return out, mkWorld (heap ω ++ new) (random ω) (drawn ω)) ∧
    holds (heap ω ++ new) out v ∧
    result (backward out) (heap ω ++ new) = Ok tt ∧
    grad (deref (exec (backward out) (heap ω ++ new)) out) = 1%R ∧
    grad (deref (exec (backward out) (heap ω ++ new)) (Unit.b u)) =
      (grad (deref (heap ω) (Unit.b u)) + d)%R ∧
    ∀ i wi, Unit.w u !! i = Some wi →
      grad (deref (exec (backward out) (heap ω ++ new)) wi) =
        (grad (deref (heap ω) wi) +
         match xs !! i with Some x => d * x | None => 0 end)%R.
Proof.
  intros Hwf Hnd Hleaf Hw Hb Hv Hd.
  set (σ := heap ω) in *. set (w := Unit.w u) in *. set (b := Unit.b u) in *.
  set (wx := zip (zip w ws) xs). set (k := length wx). set (s := length σ).
  set (z := match k with O => b | S n => s + 2 * k + n end).
  set (σS := (σ ++ product_nodes s wx) ++
             sum_nodes (s + 2 * k) b bias
               (zip ((λ i, s + 2 * i + 1) <$> seq 0 k) ((λ t, t.1.2 * t.2)%R <$> wx))).
  assert (Hpre : (ps <- products (zip w (ONum <$> xs)) ;; py_sum ps b) σ = (Ok z, σS))
    by by apply preactivation_run.
  destruct (preactivation_holds σ u (ONum <$> xs) (zip ws xs) bias Hwf)
    as (z' & l & Hpre' & Hwf1 & Hz' & _); [by apply zip_holds|done|].
  fold w b in Hpre'. rewrite Hpre in Hpre'. injection Hpre' as <- HσS.
  rewrite <- HσS in Hz', Hwf1.
  assert (LS : length σS = s + 3 * k).
  { unfold σS. rewrite !length_app, product_nodes_length, sum_nodes_length.
    rewrite length_zip_with, !length_fmap, length_seq. fold k s. lia. }
  destruct (activation_node σS z _ _ v d ω Hz' Hv Hd)
    as (nd & Hact & Hdata & Hch & Hok & Hret & Hdelta).
  assert (Hcall : Unit.__call__ u (ONum <$> xs) ω =
                  (Return (s + 3 * k), mkWorld (σS ++ [nd]) (random ω) (drawn ω))).
  { rewrite (unit_call_run ω u _ z σS Hpre), <- LS. exact Hact. }
  assert (Hwf' : wf (σS ++ [nd])).
  { apply wf_snoc; [done| |].
    - rewrite Hch. apply Forall_singleton. apply Hz'.
    - by rewrite Hch. }
  exists (s + 3 * k), (product_nodes s wx ++
                       sum_nodes (s + 2 * k) b bias
                         (zip ((λ i, s + 2 * i + 1) <$> seq 0 k)
                            ((λ t, t.1.2 * t.2)%R <$> wx)) ++ [nd]).
  rewrite !app_assoc. fold σS.
  split; [done|]. split; [rewrite <- LS; by apply holds_new|].
  assert (Hparams : Unit.params u = w ++ [b]) by done.
  rewrite Hparams in Hnd, Hleaf.
  split; [|split; [|split]].
  - by apply (unit_graph_returns σ w b ws xs bias nd wx k s z (σS ++ [nd])).
  - by apply (unit_graph_grad_out σ b bias nd wx k s z (σS ++ [nd])).
  - by apply (unit_graph_grad_bias σ w b ws xs bias nd d wx k s z (σS ++ [nd])).
  - intros i wi Hi. destruct (xs !! i) as [x|] eqn:Hx.
    + by apply (unit_graph_grad_weight σ w b ws xs bias nd d wx k s z (σS ++ [nd])
                  Hwf Hnd Hleaf Hw Hb eq_refl eq_refl eq_refl eq_refl eq_refl
                  Hwf' Hch Hret Hdelta i wi x).
    + rewrite Rplus_0_r.
      by apply (unit_graph_grad_surplus σ w b ws xs bias nd wx k s z (σS ++ [nd])
                  Hwf Hnd Hleaf Hw Hb eq_refl eq_refl eq_refl eq_refl eq_refl
                  Hwf' Hch Hret i wi).
Qed.

(** * The gradient is the derivative *)

Lemma wf_single x : wf [leaf (PNum x)].
Proof. apply (wf_snoc [] (leaf (PNum x))); [apply wf_nil|done|done]. Qed.

Lemma deref_single_new x nd : deref ([leaf (PNum x)] ++ [nd]) 1 = nd.
Proof. exact (deref_app_new [leaf (PNum x)] nd). Qed.

(** One operation on a single leaf, in closed form. *)
Lemma unary_forward_gradient (f : node_id → M node_id) x nd :
  f 0 [leaf (PNum x)] = (Ok 1, [leaf (PNum x)] ++ [nd]) →
  _children nd = [0] → closure_ok 1 [0] (_backward nd) →
  forward_of f x = num_of (data nd) ∧
  gradient_of f x =
    grad (deref (exec (call_closure (_backward nd))
                   ([leaf (PNum x)] ++ [with_grad 1 nd])) 0).
Proof.
  intros Hrun Hch Hok. unfold forward_of, gradient_of. rewrite Hrun. split.
  - by rewrite deref_single_new.
  - apply (unary_root_grad [leaf (PNum x)] nd 0); [apply wf_single|simpl; lia|done|done].
Qed.

Lemma tanh_closed_form x :
  forward_of tanh x = Rtrigo_def.tanh x ∧
  gradient_of tanh x = (1 - Rtrigo_def.tanh x ^ 2)%R.
Proof.
  destruct (unary_forward_gradient tanh x _ (tanh_run [leaf (PNum x)] 0 x eq_refl))
    as [Hf Hg]; [done|split; [done|apply tanh_range]|].
  split; [done|]. rewrite Hg. cbn [_backward with_grad].
  rewrite call_BTanh_exec by apply tanh_range.
  rewrite grad_after_add_grad by (simpl; lia).
  rewrite deref_single_new. simpl. lra.
Qed.

Lemma sigmoid_closed_form x :
  in_range (Rtrigo_def.exp (- x)) →
  forward_of sigmoid x = (1 / (1 + Rtrigo_def.exp (- x)))%R ∧
  gradient_of sigmoid x =
    (1 / (1 + Rtrigo_def.exp (- x)) * (1 - 1 / (1 + Rtrigo_def.exp (- x))))%R.
Proof.
  intros Hr.
  destruct (unary_forward_gradient sigmoid x _
              (sigmoid_run [leaf (PNum x)] 0 x eq_refl Hr))
    as [Hf Hg]; [done|done|].
  split; [done|]. rewrite Hg. cbn [_backward with_grad]. rewrite call_BSigmoid_exec.
  rewrite grad_after_add_grad by (simpl; lia).
  rewrite deref_single_new. simpl. lra.
Qed.

Lemma exp_closed_form x :
  in_range (Rtrigo_def.exp x) →
  forward_of exp x = Rtrigo_def.exp x ∧ gradient_of exp x = Rtrigo_def.exp x.
Proof.
  intros Hr.
  destruct (unary_forward_gradient exp x _ (exp_run [leaf (PNum x)] 0 x eq_refl Hr))
    as [Hf Hg]; [done|done|].
  split; [done|]. rewrite Hg. cbn [_backward with_grad]. rewrite call_BExp_exec.
  rewrite grad_after_add_grad by (simpl; lia).
  rewrite deref_single_new. simpl. lra.
Qed.

Lemma linear_closed_form x :
  forward_of linear x = x ∧ gradient_of linear x = 1%R.
Proof.
  destruct (unary_forward_gradient linear x _ (linear_run [leaf (PNum x)] 0))
    as [Hf Hg]; [done|done|].
  split; [done|]. rewrite Hg. cbn [_backward with_grad]. rewrite call_BLinear_exec.
  rewrite grad_after_add_grad by (simpl; lia).
  rewrite deref_single_new. simpl. lra.
Qed.

Lemma relu_closed_form x :
  forward_of relu x = py_max0 x ∧ gradient_of relu x = gt0 (py_max0 x).
Proof.
  destruct (unary_forward_gradient relu x _ (relu_run [leaf (PNum x)] 0 x eq_refl))
    as [Hf Hg]; [done|done|].
  split; [done|]. rewrite Hg. cbn [_backward with_grad]. rewrite call_BRelu_exec.
  rewrite grad_after_add_grad by (simpl; lia).
  rewrite deref_single_new. simpl. lra.
Qed.

Lemma leaky_relu_closed_form alpha x :
  forward_of (λ a, leaky_relu a alpha) x = (if Rlt_dec 0 x then x else x * alpha)%R ∧
  gradient_of (λ a, leaky_relu a alpha) x = (if Rlt_dec 0 x then 1 else alpha)%R.
Proof.
  destruct (unary_forward_gradient (λ a, leaky_relu a alpha) x _
              (leaky_relu_run [leaf (PNum x)] 0 alpha x eq_refl))
    as [Hf Hg]; [done|done|].
  split; [done|]. rewrite Hg. cbn [_backward with_grad].
  rewrite (call_BLeakyRelu_exec _ _ _ _ x) by done.
  rewrite grad_after_add_grad by (simpl; lia).
  rewrite deref_single_new. simpl. destruct (Rlt_dec 0 x); lra.
Qed.

(** Where a power is in range, it is in range nearby. *)
Lemma in_range_pow_near (n : nat) x :
  in_range (x ^ n) →
  ∃ d, (0 < d)%R ∧ ∀ y, (x - d < y < x + d)%R → in_range (y ^ n).
Proof.
  intros H. unfold in_range in *.
  assert (Hc : continuity_pt (λ y, y ^ n)%R x).
  { apply derivable_continuous_pt. apply derivable_pt_pow. }
  destruct (Hc (float_bound - Rabs (x ^ n))%R) as (d & Hd & Hy); [lra|].
  exists d. split; [exact Hd|]. intros y Hyd.
  destruct (Req_dec x y) as [<-|Hne]; [done|].
  specialize (Hy y). simpl in Hy. unfold R_dist, D_x, no_cond in Hy.
  assert (Rabs (y ^ n - x ^ n) < float_bound - Rabs (x ^ n))%R.
  { apply Hy. split; [done|]. apply Rabs_def1; lra. }
  pose proof (Rabs_triang (y ^ n - x ^ n) (x ^ n)).
  replace (y ^ n - x ^ n + x ^ n)%R with (y ^ n)%R in * by ring. lra.
Qed.

Lemma exp_below_bound y :
  (y < ln float_bound)%R → (Rtrigo_def.exp y < float_bound)%R.
Proof.
  intros Hy. pose proof (exp_ln float_bound float_bound_pos) as E.
  pose proof (exp_increasing y (ln float_bound) Hy). lra.
Qed.

Lemma below_ln_bound x :
  (Rtrigo_def.exp x < float_bound)%R → (x < ln float_bound)%R.
Proof.
  intros H. apply exp_lt_inv. by rewrite (exp_ln float_bound float_bound_pos).
Qed.

Lemma pow_closed_form (z : Z) x :
  (1 ≤ z)%Z → in_range (powerRZ x z) →
  forward_of (λ a, __pow__ a (ONum (IZR z))) x = powerRZ x z ∧
  gradient_of (λ a, __pow__ a (ONum (IZR z))) x = (IZR z * powerRZ x (z - 1))%R.
Proof.
  intros Hz Hr.
  assert (Hp : py_pow x (IZR z) = Ok (powerRZ x z))
    by (apply py_pow_int; [right; lia|done]).
  assert (Hq : py_pow x (IZR z - 1) = Ok (powerRZ x (z - 1))).
  { rewrite <- minus_IZR. apply py_pow_int; [right; lia|].
    by apply in_range_powerRZ_pred. }
  destruct (unary_forward_gradient (λ a, __pow__ a (ONum (IZR z))) x _
              (pow_run [leaf (PNum x)] 0 x (IZR z) _ eq_refl Hp))
    as [Hf Hg]; [done|done|].
  split; [done|]. rewrite Hg. cbn [_backward with_grad].
  rewrite (call_BPow_exec _ _ _ _ x (powerRZ x (z - 1))) by done.
  rewrite grad_after_add_grad by (simpl; lia).
  rewrite deref_single_new. simpl. lra.
Qed.

(** Calculus. *)
Lemma cosh_pos x : (0 < cosh x)%R.
Proof.
  unfold cosh. pose proof (exp_pos x). pose proof (exp_pos (- x)). lra.
Qed.

Lemma derivable_pt_lim_tanh x :
  derivable_pt_lim Rtrigo_def.tanh x (1 - Rtrigo_def.tanh x ^ 2)%R.
Proof.
  pose proof (cosh_pos x) as Hc.
  pose proof (derivable_pt_lim_div sinh cosh x _ _ (derivable_pt_lim_sinh x)
                (derivable_pt_lim_cosh x) ltac:(lra)) as H.
  replace (1 - Rtrigo_def.tanh x ^ 2)%R
    with ((cosh x * cosh x - sinh x * sinh x) / (cosh x)²)%R.
  - exact H.
  - unfold Rtrigo_def.tanh, Rsqr. field. lra.
Qed.

Lemma derivable_pt_lim_sigmoid x :
  derivable_pt_lim (λ y, 1 / (1 + Rtrigo_def.exp (- y)))%R x
    (1 / (1 + Rtrigo_def.exp (- x)) * (1 - 1 / (1 + Rtrigo_def.exp (- x))))%R.
Proof.
  pose proof (exp_pos (- x)) as He.
  assert (Hexp : derivable_pt_lim (λ y, Rtrigo_def.exp (- y))%R x (- Rtrigo_def.exp (- x))%R).
  { pose proof (derivable_pt_lim_comp (- id)%F Rtrigo_def.exp x (- 1) _
                  (derivable_pt_lim_opp _ _ _ (derivable_pt_lim_id x))
                  (derivable_pt_lim_exp _)) as H.
    replace (- Rtrigo_def.exp (- x))%R with (Rtrigo_def.exp ((- id)%F x) * - 1)%R
      by (unfold opp_fct, id; lra).
    exact H. }
  pose proof (derivable_pt_lim_plus _ _ x _ _ (derivable_pt_lim_const 1 x) Hexp) as Hden.
  pose proof (derivable_pt_lim_div _ _ x _ _ (derivable_pt_lim_const 1 x) Hden) as H.
  unfold plus_fct, fct_cte, div_fct in H.
  replace (1 / (1 + Rtrigo_def.exp (- x)) * (1 - 1 / (1 + Rtrigo_def.exp (- x))))%R
    with ((0 * (1 + Rtrigo_def.exp (- x)) - (0 + - Rtrigo_def.exp (- x)) * 1) /
          (1 + Rtrigo_def.exp (- x))²)%R by (unfold Rsqr; field; lra).
  apply H. lra.
Qed.

Lemma derivable_pt_lim_py_max0 x :
  x ≠ 0%R → derivable_pt_lim py_max0 x (gt0 (py_max0 x)).
Proof.
  intros Hx. rewrite gt0_py_max0. destruct (Rlt_dec 0 x) as [Hpos|Hneg].
  - apply (derivable_pt_lim_locally_ext id py_max0 x 0 (x + 1)); [lra| |].
    + intros y Hy. unfold py_max0, id. destruct (Rlt_dec 0 y); lra.
    + apply derivable_pt_lim_id.
  - apply (derivable_pt_lim_locally_ext (fct_cte 0) py_max0 x (x - 1) 0); [lra| |].
    + intros y Hy. unfold py_max0, fct_cte. destruct (Rlt_dec 0 y); lra.
    + apply derivable_pt_lim_const.
Qed.

Lemma derivable_pt_lim_leaky alpha x :
  x ≠ 0%R →
  derivable_pt_lim (λ y, if Rlt_dec 0 y then y else y * alpha)%R x
    (if Rlt_dec 0 x then 1 else alpha)%R.
Proof.
  intros Hx. destruct (Rlt_dec 0 x) as [Hpos|Hneg].
  - apply (derivable_pt_lim_locally_ext id _ x 0 (x + 1)); [lra| |].
    + intros y Hy. unfold id. destruct (Rlt_dec 0 y); lra.
    + apply derivable_pt_lim_id.
  - apply (derivable_pt_lim_locally_ext (λ y, id y * alpha)%R _ x (x - 1) 0); [lra| |].
    + intros y Hy. unfold id. destruct (Rlt_dec 0 y); lra.
    + pose proof (derivable_pt_lim_scal_right id x 1 alpha (derivable_pt_lim_id x)) as H.
      by rewrite Rmult_1_l in H.
Qed.

Lemma derivable_pt_lim_powerRZ (z : Z) x :
  (1 ≤ z)%Z →
  derivable_pt_lim (λ y, powerRZ y z) x (IZR z * powerRZ x (z - 1))%R.
Proof.
  intros Hz. set (n := Z.to_nat z).
  assert (Hn : z = Z.of_nat n) by (unfold n; lia).
  apply (derivable_pt_lim_ext (λ y, y ^ n)%R).
  { intros y. by rewrite Hn, <- pow_powerRZ. }
  replace (IZR z * powerRZ x (z - 1))%R with (INR n * x ^ Init.Nat.pred n)%R.
  - apply derivable_pt_lim_pow.
  - rewrite INR_IZR_INZ, <- Hn. f_equal. rewrite pow_powerRZ. f_equal. lia.
Qed.

(** What [backward] leaves in the [grad] of the input of an operation is
    the derivative of what the operation computes: for [tanh] and [linear]
    at every [x]; for [exp] and [sigmoid] at every [x] where [math.exp]
    is in range, and for [x ** z] with an integer [z] that is at least 1
    where [x^z] is in range (elsewhere they raise); for [relu] and
    [leaky_relu] at every [x] other than 0, where they have no derivative
    (there [relu] gives 0 and [leaky_relu] gives [alpha]). *)
Theorem gradient_is_derivative (x : R) :
  derivable_pt_lim (forward_of tanh) x (gradient_of tanh x) ∧
  ((Rtrigo_def.exp (- x) < float_bound)%R →
   derivable_pt_lim (forward_of sigmoid) x (gradient_of sigmoid x)) ∧
  ((Rtrigo_def.exp x < float_bound)%R →
   derivable_pt_lim (forward_of exp) x (gradient_of exp x)) ∧
  derivable_pt_lim (forward_of linear) x (gradient_of linear x) ∧
  (x ≠ 0%R → derivable_pt_lim (forward_of relu) x (gradient_of relu x)) ∧
  (∀ alpha, x ≠ 0%R →
     derivable_pt_lim (forward_of (λ a, leaky_relu a alpha)) x
       (gradient_of (λ a, leaky_relu a alpha) x)) ∧
  (∀ z : Z, (1 ≤ z)%Z → in_range (powerRZ x z) →
     derivable_pt_lim (forward_of (λ a, __pow__ a (ONum (IZR z)))) x
       (gradient_of (λ a, __pow__ a (ONum (IZR z))) x)) ∧
  gradient_of relu 0 = 0%R ∧
  (∀ alpha, gradient_of (λ a, leaky_relu a alpha) 0 = alpha).
Proof.
  split; [|split; [|split; [|split; [|split; [|split; [|split; [|split]]]]]]].
  - destruct (tanh_closed_form x) as [_ ->].
    apply (derivable_pt_lim_ext Rtrigo_def.tanh);
      [intros y; by destruct (tanh_closed_form y) as [-> _]|].
    apply derivable_pt_lim_tanh.
  - intros Hr. pose proof (below_ln_bound _ Hr) as Hx.
    destruct (sigmoid_closed_form x) as [_ ->]; [by apply in_range_exp|].
    apply (derivable_pt_lim_locally_ext (λ y, 1 / (1 + Rtrigo_def.exp (- y)))%R
             _ x (- ln float_bound) (x + 1)); [lra| |apply derivable_pt_lim_sigmoid].
    intros y Hy. destruct (sigmoid_closed_form y) as [-> _]; [|done].
    apply in_range_exp, exp_below_bound. lra.
  - intros Hr. pose proof (below_ln_bound _ Hr) as Hx.
    destruct (exp_closed_form x) as [_ ->]; [by apply in_range_exp|].
    apply (derivable_pt_lim_locally_ext Rtrigo_def.exp _ x (x - 1) (ln float_bound));
      [lra| |apply derivable_pt_lim_exp].
    intros y Hy. destruct (exp_closed_form y) as [-> _]; [|done].
    apply in_range_exp, exp_below_bound. lra.
  - destruct (linear_closed_form x) as [_ ->].
    apply (derivable_pt_lim_ext id);
      [intros y; by destruct (linear_closed_form y) as [-> _]|].
    apply derivable_pt_lim_id.
  - intros Hx. destruct (relu_closed_form x) as [_ ->].
    apply (derivable_pt_lim_ext py_max0);
      [intros y; by destruct (relu_closed_form y) as [-> _]|].
    by apply derivable_pt_lim_py_max0.
  - intros alpha Hx. destruct (leaky_relu_closed_form alpha x) as [_ ->].
    apply (derivable_pt_lim_ext (λ y, if Rlt_dec 0 y then y else y * alpha)%R);
      [intros y; by destruct (leaky_relu_closed_form alpha y) as [-> _]|].
    by apply derivable_pt_lim_leaky.
  - intros z Hz Hr. destruct (pow_closed_form z x Hz Hr) as [_ ->].
    set (n := Z.to_nat z).
    assert (Hn : z = Z.of_nat n) by (unfold n; lia).
    destruct (in_range_pow_near n x) as (d & Hd & Hnear).
    { by rewrite pow_powerRZ, <- Hn. }
    apply (derivable_pt_lim_locally_ext (λ y, powerRZ y z) _ x (x - d) (x + d));
      [lra| |by apply derivable_pt_lim_powerRZ].
    intros y Hy. destruct (pow_closed_form z y Hz) as [-> _]; [|done].
    rewrite Hn, <- pow_powerRZ. by apply Hnear.
  - destruct (relu_closed_form 0) as [_ ->]. rewrite gt0_py_max0.
    destruct (Rlt_dec 0 0); [lra|done].
  - intros alpha. destruct (leaky_relu_closed_form alpha 0) as [_ ->].
    destruct (Rlt_dec 0 0); [lra|done].
Qed.

(** * The theorems above at concrete stores *)

Lemma tanh_forward_and_gradient_witness :
  wf one_and_zero ∧ 1 < length one_and_zero ∧
  data (deref one_and_zero 1) = PNum 0 ∧
  ∃ σ', tanh 1 one_and_zero = (Ok (length one_and_zero), σ') ∧
    data (deref σ' (length one_and_zero)) = PNum (Rtrigo_def.tanh 0) ∧
    grad (deref (exec (backward (length one_and_zero)) σ') 1) =
      (grad (deref one_and_zero 1) + (1 - Rtrigo_def.tanh 0 ^ 2))%R.
Proof.
  split; [apply wf_one_and_zero|]. split; [simpl; lia|]. split; [reflexivity|].
  apply (tanh_forward_and_gradient one_and_zero 1 0);
    [apply wf_one_and_zero|simpl; lia|reflexivity].
Defined.

Lemma sigmoid_forward_and_gradient_witness :
  wf one_and_zero ∧ 1 < length one_and_zero ∧
  data (deref one_and_zero 1) = PNum 0 ∧
  let s := (1 / (1 + Rtrigo_def.exp (- 0)))%R in
  ((Rtrigo_def.exp (- 0) < float_bound)%R →
   ∃ σ', sigmoid 1 one_and_zero = (Ok (length one_and_zero), σ') ∧
     data (deref σ' (length one_and_zero)) = PNum s ∧
     grad (deref (exec (backward (length one_and_zero)) σ') 1) =
       (grad (deref one_and_zero 1) + s * (1 - s))%R ∧
     (0%R = 0%R → s = (1 / 2)%R ∧ (s * (1 - s))%R = (1 / 4)%R)) ∧
  ((float_bound <= Rtrigo_def.exp (- 0))%R →
   sigmoid 1 one_and_zero = (Raise OverflowError, one_and_zero)) ∧
  ((0 <= 0)%R → (Rtrigo_def.exp (- 0) < float_bound)%R).
Proof.
  split; [apply wf_one_and_zero|]. split; [simpl; lia|]. split; [reflexivity|].
  apply (sigmoid_forward_and_gradient one_and_zero 1 0);
    [apply wf_one_and_zero|simpl; lia|reflexivity].
Defined.

Lemma leaky_relu_forward_and_gradient_witness :
  wf one_and_zero ∧ 1 < length one_and_zero ∧
  data (deref one_and_zero 1) = PNum 0 ∧
  ∃ σ', leaky_relu 1 (1 / 100) one_and_zero = (Ok (length one_and_zero), σ') ∧
    data (deref σ' (length one_and_zero)) =
      PNum (if Rlt_dec 0 0 then 0 else 0 * (1 / 100)) ∧
    grad (deref (exec (backward (length one_and_zero)) σ') 1) =
      (grad (deref one_and_zero 1) + (if Rlt_dec 0 0 then 1 else 1 / 100))%R ∧
    (0%R = 0%R →
     data (deref σ' (length one_and_zero)) = PNum 0 ∧
     grad (deref (exec (backward (length one_and_zero)) σ') 1) =
       (grad (deref one_and_zero 1) + 1 / 100)%R).
Proof.
  split; [apply wf_one_and_zero|]. split; [simpl; lia|]. split; [reflexivity|].
  apply (leaky_relu_forward_and_gradient one_and_zero 1 0 (1 / 100));
    [apply wf_one_and_zero|simpl; lia|reflexivity].
Defined.

Lemma exp_forward_and_gradient_witness :
  wf one_and_zero ∧ 1 < length one_and_zero ∧
  data (deref one_and_zero 1) = PNum 0 ∧
  ((Rtrigo_def.exp 0 < float_bound)%R →
   ∃ σ', exp 1 one_and_zero = (Ok (length one_and_zero), σ') ∧
     data (deref σ' (length one_and_zero)) = PNum (Rtrigo_def.exp 0) ∧
     grad (deref (exec (backward (length one_and_zero)) σ') 1) =
       (grad (deref one_and_zero 1) + Rtrigo_def.exp 0)%R) ∧
  ((float_bound <= Rtrigo_def.exp 0)%R →
   exp 1 one_and_zero = (Raise OverflowError, one_and_zero)).
Proof.
  split; [apply wf_one_and_zero|]. split; [simpl; lia|]. split; [reflexivity|].
  apply (exp_forward_and_gradient one_and_zero 1 0);
    [apply wf_one_and_zero|simpl; lia|reflexivity].
Defined.

Lemma linear_forward_and_gradient_witness :
  wf one_and_zero ∧ 0 < length one_and_zero ∧
  ∃ σ', linear 0 one_and_zero = (Ok (length one_and_zero), σ') ∧
    data (deref σ' (length one_and_zero)) = data (deref one_and_zero 0) ∧
    grad (deref (exec (backward (length one_and_zero)) σ') 0) =
      (grad (deref one_and_zero 0) + 1)%R.
Proof.
  split; [apply wf_one_and_zero|]. split; [simpl; lia|].
  apply (linear_forward_and_gradient one_and_zero 0);
    [apply wf_one_and_zero|simpl; lia].
Defined.

Lemma wf_one_and_tiny : wf one_and_tiny.
Proof. apply wf_concrete. unfold one_and_tiny. simpl. repeat constructor. Qed.

Lemma tiny_neq_0 : tiny ≠ 0%R.
Proof. unfold tiny. apply Rinv_neq_0_compat, pow_nonzero. lra. Qed.

Lemma inv_tiny : (/ tiny)%R = (2 ^ 600)%R.
Proof. unfold tiny. apply Rinv_inv. Qed.

Lemma in_range_inv_tiny : in_range (/ tiny).
Proof.
  rewrite inv_tiny. unfold in_range. rewrite Rabs_pos_eq by (apply pow_le; lra).
  unfold float_bound. rewrite (pow_IZR 2 600). apply IZR_lt. reflexivity.
Qed.

Lemma out_of_range_inv_square_tiny : ¬ in_range (/ (tiny * tiny)).
Proof.
  rewrite Rinv_mult, inv_tiny, <- pow_add. unfold in_range.
  rewrite Rabs_pos_eq by (apply pow_le; lra). apply Rle_not_lt.
  unfold float_bound. rewrite (pow_IZR 2 (600 + 600)). apply IZR_le.
  vm_compute. discriminate.
Qed.

Lemma powerRZ_minus1 x : powerRZ x (-1) = (/ x)%R.
Proof. simpl. by rewrite Rmult_1_r. Qed.

Lemma powerRZ_minus2 x : powerRZ x (-1 - 1) = (/ (x * x))%R.
Proof. simpl. by rewrite Rmult_1_r. Qed.

Lemma pow_forward_and_gradient_witness :
  wf one_and_tiny ∧ 1 < length one_and_tiny ∧
  data (deref one_and_tiny 1) = PNum tiny ∧ (tiny ≠ 0%R ∨ (1 ≤ -1)%Z) ∧
  in_range (powerRZ tiny (-1)) ∧ ¬ in_range (powerRZ tiny (-1 - 1)) ∧
  ∃ σ', __pow__ 1 (ONum (IZR (-1))) one_and_tiny = (Ok (length one_and_tiny), σ') ∧
    data (deref σ' (length one_and_tiny)) = PNum (powerRZ tiny (-1)) ∧
    (in_range (powerRZ tiny (-1 - 1)) →
     grad (deref (exec (backward (length one_and_tiny)) σ') 1) =
       (grad (deref one_and_tiny 1) + IZR (-1) * powerRZ tiny (-1 - 1))%R) ∧
    (¬ in_range (powerRZ tiny (-1 - 1)) →
     result (backward (length one_and_tiny)) σ' = Raise OverflowError ∧
     exec (backward (length one_and_tiny)) σ' =
       exec (set_grad (length one_and_tiny) 1) σ') ∧
    ((1 ≤ -1)%Z → in_range (powerRZ tiny (-1 - 1))).
Proof.
  assert (H1 : in_range (powerRZ tiny (-1)))
    by (rewrite powerRZ_minus1; apply in_range_inv_tiny).
  split; [apply wf_one_and_tiny|]. split; [simpl; lia|]. split; [reflexivity|].
  split; [left; apply tiny_neq_0|]. split; [exact H1|].
  split; [rewrite powerRZ_minus2; apply out_of_range_inv_square_tiny|].
  apply (pow_forward_and_gradient one_and_tiny 1 tiny (-1));
    [apply wf_one_and_tiny|simpl; lia|reflexivity|left; apply tiny_neq_0|exact H1].
Defined.

Lemma add_forward_and_gradient_witness :
  wf one_and_zero ∧ 0 < length one_and_zero ∧ 1 < length one_and_zero ∧
  data (deref one_and_zero 0) = PNum 1 ∧ data (deref one_and_zero 1) = PNum 0 ∧
  ∃ σ', binop_left Add 0 (OValue 1) one_and_zero = (Ok (length one_and_zero), σ') ∧
    data (deref σ' (length one_and_zero)) = PNum (1 + 0) ∧
    (¬ reach one_and_zero 1 0 →
     grad (deref (exec (backward (length one_and_zero)) σ') 0) =
       (grad (deref one_and_zero 0) + 1)%R) ∧
    (¬ reach one_and_zero 0 1 →
     grad (deref (exec (backward (length one_and_zero)) σ') 1) =
       (grad (deref one_and_zero 1) + 1)%R) ∧
    (0 = 1 →
     grad (deref (exec (backward (length one_and_zero)) σ') 0) =
       (grad (deref one_and_zero 0) + 2)%R).
Proof.
  split; [apply wf_one_and_zero|]. do 2 (split; [simpl; lia|]).
  do 2 (split; [reflexivity|]).
  apply (add_forward_and_gradient one_and_zero 0 1 1 0);
    [apply wf_one_and_zero|simpl; lia|simpl; lia|reflexivity|reflexivity].
Defined.

Lemma mul_forward_and_gradient_witness :
  wf one_and_zero ∧ 0 < length one_and_zero ∧ 1 < length one_and_zero ∧
  data (deref one_and_zero 0) = PNum 1 ∧ data (deref one_and_zero 1) = PNum 0 ∧
  ∃ σ', binop_left Mul 0 (OValue 1) one_and_zero = (Ok (length one_and_zero), σ') ∧
    data (deref σ' (length one_and_zero)) = PNum (1 * 0) ∧
    (¬ reach one_and_zero 1 0 →
     grad (deref (exec (backward (length one_and_zero)) σ') 0) =
       (grad (deref one_and_zero 0) + 0)%R) ∧
    (¬ reach one_and_zero 0 1 →
     grad (deref (exec (backward (length one_and_zero)) σ') 1) =
       (grad (deref one_and_zero 1) + 1)%R) ∧
    (0 = 1 →
     grad (deref (exec (backward (length one_and_zero)) σ') 0) =
       (grad (deref one_and_zero 0) + 2 * 1)%R).
Proof.
  split; [apply wf_one_and_zero|]. do 2 (split; [simpl; lia|]).
  do 2 (split; [reflexivity|]).
  apply (mul_forward_and_gradient one_and_zero 0 1 1 0);
    [apply wf_one_and_zero|simpl; lia|simpl; lia|reflexivity|reflexivity].
Defined.

Lemma neg_forward_and_gradient_witness :
  wf one_and_zero ∧ 0 < length one_and_zero ∧
  data (deref one_and_zero 0) = PNum 1 ∧
  ∃ σ', __neg__ 0 one_and_zero = (Ok (S (length one_and_zero)), σ') ∧
    data (deref σ' (S (length one_and_zero))) = PNum (- 1) ∧
    grad (deref (exec (backward (S (length one_and_zero))) σ') 0) =
      (grad (deref one_and_zero 0) - 1)%R.
Proof.
  split; [apply wf_one_and_zero|]. split; [simpl; lia|]. split; [reflexivity|].
  apply (neg_forward_and_gradient one_and_zero 0 1);
    [apply wf_one_and_zero|simpl; lia|reflexivity].
Defined.

Lemma pow_backward_raises_at_zero_witness :
  wf one_and_zero ∧ 1 < length one_and_zero ∧
  data (deref one_and_zero 1) = PNum 0 ∧ (0 <= 1 / 2 < 1)%R ∧
  ∃ σ', __pow__ 1 (ONum (1 / 2)) one_and_zero = (Ok (length one_and_zero), σ') ∧
    result (backward (length one_and_zero)) σ' = Raise ZeroDivisionError ∧
    exec (backward (length one_and_zero)) σ' =
      exec (set_grad (length one_and_zero) 1) σ'.
Proof.
  split; [apply wf_one_and_zero|]. split; [simpl; lia|]. split; [reflexivity|].
  split; [lra|].
  apply (pow_backward_raises_at_zero one_and_zero 1 (1 / 2));
    [apply wf_one_and_zero|simpl; lia|reflexivity|lra].
Defined.

Lemma diamond_reach_le m : reach diamond 3 m → m = 0 ∨ m = 1 ∨ m = 2 ∨ m = 3.
Proof. intros H. pose proof (reach_le _ _ _ wf_diamond H). lia. Qed.

Lemma diamond_users_of_x m : 0 ∈ children_of diamond m → m ∈ [3%nat; 2%nat].
Proof.
  intros Hc. destruct m as [|[|[|[|m]]]].
  - by apply elem_of_nil in Hc.
  - by apply elem_of_nil in Hc.
  - right; left.
  - left.
  - by apply elem_of_nil in Hc.
Qed.

Lemma diamond_reach_users u : u ∈ [3%nat; 2%nat] → reach diamond 3 u.
Proof.
  intros Hu. apply elem_of_cons in Hu as [->|Hu]; [apply reach_refl|].
  apply list_elem_of_singleton in Hu as ->.
  eapply reach_step; [|apply reach_refl]. left.
Qed.

Lemma diamond_backward_returns : result (backward 3) diamond = Ok tt.
Proof. vm_compute. reflexivity. Qed.

Lemma backward_adjoint_equation_witness :
  wf diamond ∧ 3 < length diamond ∧ result (backward 3) diamond = Ok tt ∧
  NoDup [3%nat; 2%nat] ∧ (∀ u, u ∈ [3%nat; 2%nat] → reach diamond 3 u) ∧
  (∀ m, reach diamond 3 m → 0 ∈ children_of diamond m → m ∈ [3%nat; 2%nat]) ∧
  grad (deref (exec (backward 3) diamond) 0) =
    ((if decide (0%nat = 3%nat) then 1 else grad (deref diamond 0)) +
     adjoint_sum diamond (exec (backward 3) diamond) [3%nat; 2%nat] 0)%R.
Proof.
  assert (Hnd : NoDup [3%nat; 2%nat]).
  { apply NoDup_cons. split; [|apply NoDup_singleton].
    intros H. apply list_elem_of_singleton in H. lia. }
  split; [apply wf_diamond|]. split; [simpl; lia|].
  split; [apply diamond_backward_returns|]. split; [exact Hnd|].
  split; [apply diamond_reach_users|].
  split; [intros m _; apply diamond_users_of_x|].
  apply (backward_adjoint_equation diamond 3 [3%nat; 2%nat] 0);
    [apply wf_diamond|simpl; lia|apply diamond_backward_returns|exact Hnd
    |apply diamond_reach_users|intros m _; apply diamond_users_of_x].
Defined.

Lemma backward_returns_iff_witness :
  wf diamond ∧ 3 < length diamond ∧
  (result (backward 3) diamond = Ok tt ↔
   ∀ m, reach diamond 3 m →
        result (call_closure (_backward (deref diamond m))) diamond = Ok tt) ∧
  (∀ root', root' < length diamond →
     result (backward 3) (exec (backward root') diamond) =
     result (backward 3) diamond).
Proof.
  split; [apply wf_diamond|]. split; [simpl; lia|].
  apply (backward_returns_iff diamond 3); [apply wf_diamond|simpl; lia].
Defined.

Lemma diamond_numbers m : reach diamond 3 m → ∃ x, data (deref diamond m) = PNum x.
Proof.
  intros H. destruct (diamond_reach_le m H) as [->|[->|[->| ->]]];
    eexists; reflexivity.
Qed.

Lemma diamond_no_pow m s o p : reach diamond 3 m → _backward (deref diamond m) ≠ BPow s o p.
Proof.
  intros H. destruct (diamond_reach_le m H) as [->|[->|[->| ->]]]; discriminate.
Qed.

Lemma backward_returns_without_pow_witness :
  wf diamond ∧ 3 < length diamond ∧
  (∀ m, reach diamond 3 m → ∃ x, data (deref diamond m) = PNum x) ∧
  (∀ m s o p, reach diamond 3 m → _backward (deref diamond m) ≠ BPow s o p) ∧
  result (backward 3) diamond = Ok tt.
Proof.
  split; [apply wf_diamond|]. split; [simpl; lia|].
  split; [apply diamond_numbers|]. split; [apply diamond_no_pow|].
  apply (backward_returns_without_pow diamond 3);
    [apply wf_diamond|simpl; lia|apply diamond_numbers|apply diamond_no_pow].
Defined.

Lemma sub_forward_and_gradient_witness :
  wf one_and_zero ∧ 0 < length one_and_zero ∧ 1 < length one_and_zero ∧
  data (deref one_and_zero 0) = PNum 1 ∧ data (deref one_and_zero 1) = PNum 0 ∧
  let out := S (S (length one_and_zero)) in
  ∃ σ', __sub__ 0 (OValue 1) one_and_zero = (Ok out, σ') ∧
    data (deref σ' out) = PNum (1 - 0) ∧
    (result (backward 0) one_and_zero = Ok tt →
     result (backward 1) one_and_zero = Ok tt →
     result (backward out) σ' = Ok tt ∧
     (¬ reach one_and_zero 1 0 →
      grad (deref (exec (backward out) σ') 0) = (grad (deref one_and_zero 0) + 1)%R) ∧
     (¬ reach one_and_zero 0 1 →
      grad (deref (exec (backward out) σ') 1) = (grad (deref one_and_zero 1) - 1)%R) ∧
     (0 = 1 →
      grad (deref (exec (backward out) σ') 0) = grad (deref one_and_zero 0))).
Proof.
  split; [apply wf_one_and_zero|]. do 2 (split; [simpl; lia|]).
  do 2 (split; [reflexivity|]).
  apply (sub_forward_and_gradient one_and_zero 0 1 1 0);
    [apply wf_one_and_zero|simpl; lia|simpl; lia|reflexivity|reflexivity].
Defined.

Lemma truediv_forward_and_gradient_witness :
  wf one_and_zero ∧ 1 < length one_and_zero ∧ 0 < length one_and_zero ∧
  data (deref one_and_zero 1) = PNum 0 ∧ data (deref one_and_zero 0) = PNum 1 ∧
  1%R ≠ 0%R ∧ in_range (/ 1) ∧
  let out := S (length one_and_zero) in
  ∃ σ', __truediv__ 1 (OValue 0) one_and_zero = (Ok out, σ') ∧
    data (deref σ' out) = PNum (0 / 1) ∧
    (in_range (/ (1 * 1)) →
     result (backward 1) one_and_zero = Ok tt →
     result (backward 0) one_and_zero = Ok tt →
     result (backward out) σ' = Ok tt ∧
     (¬ reach one_and_zero 0 1 →
      grad (deref (exec (backward out) σ') 1) =
        (grad (deref one_and_zero 1) + 1 / 1)%R) ∧
     (¬ reach one_and_zero 1 0 →
      grad (deref (exec (backward out) σ') 0) =
        (grad (deref one_and_zero 0) - 0 / (1 * 1))%R) ∧
     (1 = 0 →
      grad (deref (exec (backward out) σ') 1) = grad (deref one_and_zero 1))).
Proof.
  split; [apply wf_one_and_zero|]. do 2 (split; [simpl; lia|]).
  do 2 (split; [reflexivity|]). split; [lra|].
  split; [apply in_range_unit; rewrite Rinv_1; lra|].
  apply (truediv_forward_and_gradient one_and_zero 1 0 0 1);
    [apply wf_one_and_zero|simpl; lia|simpl; lia|reflexivity|reflexivity|lra
    |apply in_range_unit; rewrite Rinv_1; lra].
Defined.

Lemma constructors_keep_graph_acyclic_witness :
  wf diamond ∧ method_ok diamond (MAdd 3 (OValue 0)) ∧
  let σ' := exec (construct (MAdd 3 (OValue 0))) diamond in
  wf σ' ∧
  (∀ v w, reach σ' v w → reach σ' w v → v = w) ∧
  (∀ v c', c' ∈ children_of σ' v → ¬ reach σ' c' v) ∧
  (∀ out, result (construct (MAdd 3 (OValue 0))) diamond = Ok out → out < length σ').
Proof.
  split; [apply wf_diamond|]. split; [simpl; lia|].
  apply (constructors_keep_graph_acyclic diamond (MAdd 3 (OValue 0)));
    [apply wf_diamond|simpl; lia].
Defined.

Lemma scalar_add_mul_forward_and_gradient_witness :
  wf one_and_zero ∧ 0 < length one_and_zero ∧
  data (deref one_and_zero 0) = PNum 1 ∧
  let out := S (length one_and_zero) in
  (∃ σ', binop_left Add 0 (ONum 5) one_and_zero = (Ok out, σ') ∧
     binop_right Add (ONum 5) 0 one_and_zero = (Ok out, σ') ∧
     data (deref σ' out) = PNum (1 + 5) ∧
     grad (deref (exec (backward out) σ') 0) = (grad (deref one_and_zero 0) + 1)%R) ∧
  (∃ σ', binop_left Mul 0 (ONum 5) one_and_zero = (Ok out, σ') ∧
     binop_right Mul (ONum 5) 0 one_and_zero = (Ok out, σ') ∧
     data (deref σ' out) = PNum (1 * 5) ∧
     grad (deref (exec (backward out) σ') 0) = (grad (deref one_and_zero 0) + 5)%R).
Proof.
  split; [apply wf_one_and_zero|]. split; [simpl; lia|]. split; [reflexivity|].
  apply (scalar_add_mul_forward_and_gradient one_and_zero 0 1 5);
    [apply wf_one_and_zero|simpl; lia|reflexivity].
Defined.

(** * The theorems on [nn.py] at concrete values *)

Lemma example_pairs activation :
  Forall2 (λ (p : node_id * operand) (ac : R * R),
             holds (heap example_world) p.1 ac.1 ∧
             operand_holds (heap example_world) p.2 ac.2)
    (zip (Unit.w (example_unit activation)) [ONum 2]) [(1%R, 2%R)].
Proof. repeat constructor. Qed.

Lemma example_bias activation :
  holds (heap example_world) (Unit.b (example_unit activation)) 0.
Proof. split; [simpl; lia|reflexivity]. Qed.

(** [sigmoid(-2)]: [math.exp(2)] is in range. *)
Lemma example_sigmoid_value :
  activation_value (Unit.activation (example_unit "sigmoid"))
    (weighted_sum 0 [(1%R, (-2)%R)]) =
  Some (1 / (1 + Rtrigo_def.exp (- (0 + 1 * -2))))%R.
Proof.
  unfold activation_value, weighted_sum. cbn [example_unit Unit.activation fold_left fst snd].
  cbn [String.eqb Ascii.eqb Bool.eqb].
  rewrite math_exp_Ok; [done|]. apply in_range_small.
  rewrite Rabs_pos_eq by (left; apply exp_pos).
  replace (- (0 + 1 * -2))%R with (1 + 1)%R by lra. rewrite exp_plus.
  pose proof exp_le_3. pose proof (exp_pos 1).
  assert (Rtrigo_def.exp 1 * Rtrigo_def.exp 1 <= 3 * 3)%R by nra.
  pose proof (pow_R1_Rle 2 64). assert (2 ^ 64 = 2 ^ 4 * 2 ^ 60)%R by (rewrite <- pow_add; done).
  pose proof (pow_R1_Rle 2 60). nra.
Qed.

Lemma example_pairs_negative :
  Forall2 (λ (p : node_id * operand) (ac : R * R),
             holds (heap example_world) p.1 ac.1 ∧
             operand_holds (heap example_world) p.2 ac.2)
    (zip (Unit.w (example_unit "sigmoid")) [ONum (-2)]) [(1%R, (-2)%R)].
Proof. repeat constructor. Qed.

Lemma unit_call_forward_witness :
  wf (heap example_world) ∧
  Forall2 (λ (p : node_id * operand) (ac : R * R),
             holds (heap example_world) p.1 ac.1 ∧
             operand_holds (heap example_world) p.2 ac.2)
    (zip (Unit.w (example_unit "sigmoid")) [ONum (-2)]) [(1%R, (-2)%R)] ∧
  holds (heap example_world) (Unit.b (example_unit "sigmoid")) 0 ∧
  activation_value (Unit.activation (example_unit "sigmoid"))
    (weighted_sum 0 [(1%R, (-2)%R)]) =
    Some (1 / (1 + Rtrigo_def.exp (- (0 + 1 * -2))))%R ∧
  ∃ out new,
    Unit.__call__ (example_unit "sigmoid") [ONum (-2)] example_world =
      (Return out, mkWorld (heap example_world ++ new) (random example_world)
                     (drawn example_world)) ∧
    wf (heap example_world ++ new) ∧
    holds (heap example_world ++ new) out
      (1 / (1 + Rtrigo_def.exp (- (0 + 1 * -2)))) ∧
    length (heap example_world ++ new) = S out.
Proof.
  split; [apply wf_one_and_zero|]. split; [apply example_pairs_negative|].
  split; [apply example_bias|]. split; [apply example_sigmoid_value|].
  apply (unit_call_forward example_world (example_unit "sigmoid") [ONum (-2)]
           [(1%R, (-2)%R)] 0);
    [apply wf_one_and_zero|apply example_pairs_negative|apply example_bias
    |apply example_sigmoid_value].
Defined.

Lemma example_unknown_name :
  Unit.activation (example_unit "exp")
  ∉ ["linear"; "relu"; "leaky_relu"; "sigmoid"; "tanh"]%string.
Proof.
  intros H. repeat (apply elem_of_cons in H as [H|H]; [discriminate H|]).
  by apply elem_of_nil in H.
Qed.

Lemma unit_call_unknown_activation_witness :
  wf (heap example_world) ∧
  Forall2 (λ (p : node_id * operand) (ac : R * R),
             holds (heap example_world) p.1 ac.1 ∧
             operand_holds (heap example_world) p.2 ac.2)
    (zip (Unit.w (example_unit "exp")) [ONum 2]) [(1%R, 2%R)] ∧
  holds (heap example_world) (Unit.b (example_unit "exp")) 0 ∧
  (Unit.activation (example_unit "exp")
   ∉ ["linear"; "relu"; "leaky_relu"; "sigmoid"; "tanh"]%string) ∧
  ∃ new,
    Unit.__call__ (example_unit "exp") [ONum 2] example_world =
      (Throw ValueError, mkWorld (heap example_world ++ new) (random example_world)
                           (drawn example_world)) ∧
    2 * length (zip (Unit.w (example_unit "exp")) [ONum 2]) ≤ length new.
Proof.
  split; [apply wf_one_and_zero|]. split; [apply (example_pairs "exp")|].
  split; [apply example_bias|]. split; [apply example_unknown_name|].
  apply (unit_call_unknown_activation example_world (example_unit "exp") [ONum 2]
           [(1%R, 2%R)] 0);
    [apply wf_one_and_zero|apply (example_pairs "exp")|apply example_bias
    |apply example_unknown_name].
Defined.

Lemma mlp_init_params_witness :
  length [3; 1]%nat ≤ length (MLP.activations_or_linear None [3; 1]%nat) ∧
  ∃ m ω', MLP.__init__ 2 [3; 1]%nat None example_world = (Return m, ω') ∧
    MLP.activations m = MLP.activations_or_linear None [3; 1]%nat ∧
    Forall2 (λ l n_out, length (Layer.units l) = n_out) (MLP.layers m) [3; 1]%nat ∧
    (∀ j l, MLP.layers m !! j = Some l →
       MLP.activations m !! j = Some (Layer.activation l) ∧
       ∃ n, (2 :: [3; 1])%nat !! j = Some n ∧
         Forall (λ u, Unit.activation u = Layer.activation l ∧ length (Unit.w u) = n)
           (Layer.units l)) ∧
    MLP.params m = seq (length (heap example_world)) (param_count 2 [3; 1]%nat) ∧
    NoDup (MLP.params m) ∧
    heap ω' = heap example_world ++
              random_leaves example_world (param_count 2 [3; 1]%nat) ∧
    random ω' = random example_world ∧
    drawn ω' = drawn example_world + param_count 2 [3; 1]%nat.
Proof.
  split; [simpl; lia|].
  apply (mlp_init_params 2 [3; 1]%nat None example_world). simpl. lia.
Defined.

Lemma mlp_init_index_error_witness :
  ["relu"%string] ≠ [] ∧ length ["relu"%string] < length [3; 1]%nat ∧
  MLP.__init__ 2 [3; 1]%nat (Some ["relu"%string]) example_world =
    (Throw IndexError,
     mkWorld (heap example_world ++
              random_leaves example_world
                (param_count 2 (take (length ["relu"%string]) [3; 1]%nat)))
       (random example_world)
       (drawn example_world +
        param_count 2 (take (length ["relu"%string]) [3; 1]%nat))).
Proof.
  split; [discriminate|]. split; [simpl; lia|].
  apply (mlp_init_index_error 2 [3; 1]%nat ["relu"%string] example_world);
    [discriminate|simpl; lia].
Defined.

Lemma example_unit_ready name :
  known_activation name → unit_ready (heap example_world) (example_unit name).
Proof.
  intros Hk. split; [|split; [|done]].
  - apply Forall_singleton. exists 1%R. split; [simpl; lia|reflexivity].
  - exists 0%R. apply example_bias.
Qed.

Lemma known_sigmoid : known_activation "sigmoid".
Proof. unfold known_activation. do 3 right. left. Qed.

Lemma known_tanh : known_activation "tanh".
Proof. unfold known_activation. do 4 right. left. Qed.

Lemma example_inputs : Forall (number_operand (heap example_world)) [ONum 2; ONum 3].
Proof. repeat constructor; eexists; reflexivity. Qed.

Lemma example_layer_ready :
  Forall (unit_ready (heap example_world))
    (Layer.units (Layer.mk [example_unit "sigmoid"; example_unit "tanh"] "sigmoid")).
Proof.
  apply Forall_cons. split; [apply example_unit_ready, known_sigmoid|].
  apply Forall_singleton. apply example_unit_ready, known_tanh.
Qed.

Lemma layer_call_outcome_witness :
  wf (heap example_world) ∧
  Forall (unit_ready (heap example_world))
    (Layer.units (Layer.mk [example_unit "sigmoid"; example_unit "tanh"] "sigmoid")) ∧
  Forall (number_operand (heap example_world)) [ONum 2; ONum 3] ∧
  ∃ new, wf (heap example_world ++ new) ∧
    ((∃ outs,
        Layer.__call__ (Layer.mk [example_unit "sigmoid"; example_unit "tanh"] "sigmoid")
          [ONum 2; ONum 3] example_world =
          (Return outs, mkWorld (heap example_world ++ new) (random example_world)
                          (drawn example_world)) ∧
        length outs =
          length (Layer.units
                    (Layer.mk [example_unit "sigmoid"; example_unit "tanh"] "sigmoid")) ∧
        Forall (λ o, ∃ r, holds (heap example_world ++ new) o r) outs) ∨
     (Layer.__call__ (Layer.mk [example_unit "sigmoid"; example_unit "tanh"] "sigmoid")
        [ONum 2; ONum 3] example_world =
        (Throw (EngineError OverflowError),
         mkWorld (heap example_world ++ new) (random example_world)
           (drawn example_world)) ∧
      Exists (λ u, Unit.activation u = "sigmoid"%string)
        (Layer.units
           (Layer.mk [example_unit "sigmoid"; example_unit "tanh"] "sigmoid")))).
Proof.
  split; [apply wf_one_and_zero|]. split; [apply example_layer_ready|].
  split; [apply example_inputs|].
  apply (layer_call_outcome example_world
           (Layer.mk [example_unit "sigmoid"; example_unit "tanh"] "sigmoid")
           [ONum 2; ONum 3]);
    [apply wf_one_and_zero|apply example_layer_ready|apply example_inputs].
Defined.

Lemma example_mlp_ready :
  Forall (λ layer, Forall (unit_ready (heap example_world)) (Layer.units layer))
    (MLP.layers
       (MLP.mk ["sigmoid"%string]
          [Layer.mk [example_unit "sigmoid"; example_unit "tanh"] "sigmoid"])).
Proof. apply Forall_singleton. apply example_layer_ready. Qed.

Lemma mlp_call_outcome_witness :
  wf (heap example_world) ∧
  Forall (λ layer, Forall (unit_ready (heap example_world)) (Layer.units layer))
    (MLP.layers
       (MLP.mk ["sigmoid"%string]
          [Layer.mk [example_unit "sigmoid"; example_unit "tanh"] "sigmoid"])) ∧
  Forall (number_operand (heap example_world)) [ONum 2; ONum 3] ∧
  ∃ new, wf (heap example_world ++ new) ∧
    ((∃ out,
        MLP.__call__
          (MLP.mk ["sigmoid"%string]
             [Layer.mk [example_unit "sigmoid"; example_unit "tanh"] "sigmoid"])
          [ONum 2; ONum 3] example_world =
          (Return out, mkWorld (heap example_world ++ new) (random example_world)
                         (drawn example_world)) ∧
        length out =
          output_length
            (MLP.layers
               (MLP.mk ["sigmoid"%string]
                  [Layer.mk [example_unit "sigmoid"; example_unit "tanh"] "sigmoid"]))
            (length [ONum 2; ONum 3]) ∧
        Forall (number_operand (heap example_world ++ new)) out) ∨
     (MLP.__call__
        (MLP.mk ["sigmoid"%string]
           [Layer.mk [example_unit "sigmoid"; example_unit "tanh"] "sigmoid"])
        [ONum 2; ONum 3] example_world =
        (Throw (EngineError OverflowError),
         mkWorld (heap example_world ++ new) (random example_world)
           (drawn example_world)) ∧
      Exists sigmoid_layer
        (MLP.layers
           (MLP.mk ["sigmoid"%string]
              [Layer.mk [example_unit "sigmoid"; example_unit "tanh"] "sigmoid"])))).
Proof.
  split; [apply wf_one_and_zero|]. split; [apply example_mlp_ready|].
  split; [apply example_inputs|].
  apply (mlp_call_outcome example_world
           (MLP.mk ["sigmoid"%string]
              [Layer.mk [example_unit "sigmoid"; example_unit "tanh"] "sigmoid"])
           [ONum 2; ONum 3]);
    [apply wf_one_and_zero|apply example_mlp_ready|apply example_inputs].
Defined.

Lemma example_names_known j name :
  j < length [3; 1]%nat →
  MLP.activations_or_linear (Some ["sigmoid"; "tanh"]%string) [3; 1]%nat !! j =
    Some name →
  known_activation name.
Proof.
  intros Hj H. destruct j as [|[|j]]; simpl in *; try lia;
    injection H as <-; [apply known_sigmoid|apply known_tanh].
Qed.

Lemma mlp_init_then_call_witness :
  wf (heap example_world) ∧
  length [3; 1]%nat ≤
    length (MLP.activations_or_linear (Some ["sigmoid"; "tanh"]%string) [3; 1]%nat) ∧
  Forall (number_operand (heap example_world)) [ONum 2; ONum 3] ∧
  ∃ m ω1 ω2,
    MLP.__init__ 2 [3; 1]%nat (Some ["sigmoid"; "tanh"]%string) example_world =
      (Return m, ω1) ∧
    wf (heap ω2) ∧
    random ω2 = random example_world ∧
    drawn ω2 = drawn example_world + param_count 2 [3; 1]%nat ∧
    ((∃ out,
        MLP.__call__ m [ONum 2; ONum 3] ω1 = (Return out, ω2) ∧
        length out = default (length [ONum 2; ONum 3]) (last [3; 1]%nat) ∧
        Forall (number_operand (heap ω2)) out) ∨
     (MLP.__call__ m [ONum 2; ONum 3] ω1 = (Throw (EngineError OverflowError), ω2) ∧
      ∃ j, j < length [3; 1]%nat ∧
        MLP.activations_or_linear (Some ["sigmoid"; "tanh"]%string) [3; 1]%nat !! j =
          Some "sigmoid"%string)).
Proof.
  split; [apply wf_one_and_zero|]. split; [simpl; lia|].
  split; [apply example_inputs|].
  apply (mlp_init_then_call 2 [3; 1]%nat (Some ["sigmoid"; "tanh"]%string)
           example_world [ONum 2; ONum 3]);
    [apply wf_one_and_zero|simpl; lia|apply example_names_known|apply example_inputs].
Defined.

Lemma example_params_distinct : NoDup (Unit.params (example_unit "sigmoid")).
Proof.
  apply NoDup_cons. split; [|apply NoDup_singleton].
  intros H. apply list_elem_of_singleton in H. discriminate H.
Qed.

Lemma example_params_leaves p :
  p ∈ Unit.params (example_unit "sigmoid") → children_of (heap example_world) p = [].
Proof.
  intros H. apply elem_of_cons in H as [->|H]; [done|].
  apply list_elem_of_singleton in H as ->. done.
Qed.

Lemma example_weights :
  Forall2 (holds (heap example_world)) (Unit.w (example_unit "sigmoid")) [1%R].
Proof. repeat constructor. Qed.

Lemma unit_call_gradients_witness :
  wf (heap example_world) ∧ NoDup (Unit.params (example_unit "sigmoid")) ∧
  (∀ p, p ∈ Unit.params (example_unit "sigmoid") →
        children_of (heap example_world) p = []) ∧
  Forall2 (holds (heap example_world)) (Unit.w (example_unit "sigmoid")) [1%R] ∧
  holds (heap example_world) (Unit.b (example_unit "sigmoid")) 0 ∧
  activation_value (Unit.activation (example_unit "sigmoid"))
    (weighted_sum 0 (zip [1%R] [(-2)%R])) =
    Some (1 / (1 + Rtrigo_def.exp (- (0 + 1 * -2))))%R ∧
  activation_slope (Unit.activation (example_unit "sigmoid"))
    (weighted_sum 0 (zip [1%R] [(-2)%R])) =
    Some (1 / (1 + Rtrigo_def.exp (- (0 + 1 * -2))) *
          (1 - 1 / (1 + Rtrigo_def.exp (- (0 + 1 * -2)))))%R ∧
  ∃ out new,
    Unit.__call__ (example_unit "sigmoid") (ONum <$> [(-2)%R]) example_world =
      (Return out, mkWorld (heap example_world ++ new) (random example_world)
                     (drawn example_world)) ∧
    holds (heap example_world ++ new) out
      (1 / (1 + Rtrigo_def.exp (- (0 + 1 * -2)))) ∧
    result (backward out) (heap example_world ++ new) = Ok tt ∧
    grad (deref (exec (backward out) (heap example_world ++ new)) out) = 1%R ∧
    grad (deref (exec (backward out) (heap example_world ++ new))
            (Unit.b (example_unit "sigmoid"))) =
      (grad (deref (heap example_world) (Unit.b (example_unit "sigmoid"))) +
       1 / (1 + Rtrigo_def.exp (- (0 + 1 * -2))) *
       (1 - 1 / (1 + Rtrigo_def.exp (- (0 + 1 * -2)))))%R ∧
    ∀ i wi, Unit.w (example_unit "sigmoid") !! i = Some wi →
      grad (deref (exec (backward out) (heap example_world ++ new)) wi) =
        (grad (deref (heap example_world) wi) +
         match [(-2)%R] !! i with
         | Some x =>
             1 / (1 + Rtrigo_def.exp (- (0 + 1 * -2))) *
             (1 - 1 / (1 + Rtrigo_def.exp (- (0 + 1 * -2)))) * x
         | None => 0
         end)%R.
Proof.
  split; [apply wf_one_and_zero|]. split; [apply example_params_distinct|].
  split; [apply example_params_leaves|].
  split; [apply example_weights|]. split; [apply example_bias|].
  split; [apply example_sigmoid_value|]. split; [reflexivity|].
  apply (unit_call_gradients example_world (example_unit "sigmoid") [1%R] [(-2)%R] 0);
    [apply wf_one_and_zero|apply example_params_distinct|apply example_params_leaves
    |apply example_weights|apply example_bias|apply example_sigmoid_value|reflexivity].
Defined.
